(** * A shallow embedding of the MCTS engines of 2048_dqn

    Two engines live in the repository:
    - the flat-arena engine of [core/evaluators/mcts.py]
      (module [Legacy] below), whose state is a record of JAX arrays;
    - the tree-based engine of [core/evaluators/mcts/mcts.py]
      (module [Refactored] below), written against the tree helpers of
      [core/trees/tree.py].

    JAX [float32] arrays are embedded as IEEE-754 binary32 numbers, using the
    executable specification of [SpecFloat] at precision 24 and maximal
    exponent 128.  [int32] slot indices are natural numbers: every index the
    engines store is [0], [1] or a value of [next_empty], which never exceeds
    [max_nodes].  Arrays are lists; reading out of range clamps the index and
    writing out of range is dropped, as JAX does. *)

From Stdlib Require Import ZArith Lia Bool.
From Stdlib Require Import Floats.SpecFloat.
From Stdlib Require Strings.String.
From stdpp Require Import base list.

Local Open Scope nat_scope.

(** ** Binary32 arithmetic *)

Module F32.

Definition prec : Z := 24.
Definition emax : Z := 128.

Definition f32 : Type := spec_float.

Definition add : f32 -> f32 -> f32 := SFadd prec emax.
Definition sub : f32 -> f32 -> f32 := SFsub prec emax.
Definition mul : f32 -> f32 -> f32 := SFmul prec emax.
Definition div : f32 -> f32 -> f32 := SFdiv prec emax.
Definition sqrt : f32 -> f32 := SFsqrt prec emax.
Definition neg : f32 -> f32 := SFopp.
Definition ltb : f32 -> f32 -> bool := SFltb.

Definition zero : f32 := S754_zero false.
Definition one : f32 := S754_finite false 8388608 (-23).
Definition neg_inf : f32 := S754_infinity true.

Definition is_nan (x : f32) : bool :=
  match x with S754_nan => true | _ => false end.

(** Conversion of an [int32] value to [float32]. *)
Definition of_Z (z : Z) : f32 := binary_normalize prec emax z 0 false.
Definition of_nat (k : nat) : f32 := of_Z (Z.of_nat k).

(** A Python [float] is a binary64 number; used against a [float32] array it
    is rounded to binary32 (round to nearest, ties to even). *)
Definition of_py (x : spec_float) : f32 :=
  match x with
  | S754_finite s m e => binary_round prec emax s m e
  | _ => x
  end.

(** Python-level binary64 arithmetic, for [1 - epsilon]. *)
Definition py_one : spec_float := S754_finite false 4503599627370496 (-52).
Definition py_sub : spec_float -> spec_float -> spec_float := SFsub 53 1024.

(** [jnp.maximum]: a NaN operand wins. *)
Definition maximum (x y : f32) : f32 :=
  if is_nan x then x
  else if is_nan y then y
  else if ltb x y then y else x.

(** The finite numbers of binary32 that are canonically represented and
    carry no negative sign: the values a probability can take. *)
Definition nonneg_finite (x : f32) : bool :=
  match x with
  | S754_zero s => negb s
  | S754_finite s m e => negb s && bounded prec emax m e
  | _ => false
  end.

(** Canonically represented finite numbers other than zero. *)
Definition nonzero_finite (x : f32) : bool :=
  match x with
  | S754_finite _ m e => bounded prec emax m e
  | _ => false
  end.

(** Zeros and canonically represented finite numbers. *)
Definition finite (x : f32) : bool :=
  match x with
  | S754_zero _ => true
  | S754_finite _ m e => bounded prec emax m e
  | _ => false
  end.

(** [x == y] on floats: NaN equals nothing and the two zeros are equal. *)
Definition eqb : f32 -> f32 -> bool := SFeqb.

(** The order [jnp.argmax] maximises: the usual order on numbers, with NaN
    above every number.  [arg_gt x y] says that [x] displaces the running
    best [y]. *)
Definition arg_gt (x y : f32) : bool :=
  negb (is_nan y) && (is_nan x || ltb y x).

(** A rank that realises [arg_gt] as a lexicographic order on integers. *)
Definition rank (x : f32) : Z * Z * Z :=
  match x with
  | S754_nan => (3, 0, 0)
  | S754_infinity false => (2, 0, 0)
  | S754_infinity true => (-2, 0, 0)
  | S754_zero _ => (0, 0, 0)
  | S754_finite false m e => (1, e, Zpos m)
  | S754_finite true m e => (-1, - e, Zneg m)
  end%Z.

Definition lex_lt (a b : Z * Z * Z) : Prop :=
  let '(a1, a2, a3) := a in
  let '(b1, b2, b3) := b in
  (a1 < b1 \/ (a1 = b1 /\ (a2 < b2 \/ (a2 = b2 /\ a3 < b3))))%Z.

End F32.

Abbreviation f32 := F32.f32.

(** ** JAX array primitives *)

Module Jax.

(** [x[i]]: an index past the end is clamped to the last element. *)
Definition gather {A : Type} (d : A) (l : list A) (i : nat) : A :=
  nth (Nat.min i (length l - 1)) l d.

(** [x[i, j]] on a two-dimensional array. *)
Definition gather2 {A : Type} (d : A) (m : list (list A)) (i j : nat) : A :=
  gather d (gather [] m i) j.

(** [x.at[i, j].set(v)]: dropped when either index is out of range. *)
Definition set2 {A : Type} (m : list (list A)) (i j : nat) (v : A)
  : list (list A) :=
  alter (fun row => <[j := v]> row) i m.

(** [x.at[idx].set(vals)] with an index array: the writes are applied in
    the order of the positions (JAX leaves the winner among duplicate
    indices unspecified; the engines only duplicate index 0). *)
Definition scatter_set {A : Type} (idx : list nat) (vals : list A)
    (l : list A) : list A :=
  fold_left (fun acc iv => <[fst iv := snd iv]> acc) (zip idx vals) l.

(** [x.at[idx].add(vals)] with an index array: duplicates accumulate. *)
Definition scatter_add (idx : list nat) (vals : list f32) (l : list f32)
  : list f32 :=
  fold_left (fun acc iv => alter (fun x => F32.add x (snd iv)) (fst iv) acc)
            (zip idx vals) l.

(** [x.at[idx].set(0)] with an index array: every addressed element (a
    scalar, or a whole row) is overwritten by [clear] of itself. *)
Definition scatter_fill {A : Type} (clear : A -> A) (idx : list nat)
    (l : list A) : list A :=
  fold_left (fun acc i => alter clear i acc) idx l.

(** [jnp.arange(k)]. *)
Definition arange (k : nat) : list nat := seq 0 k.

(** [b.cumsum()] of a boolean array. *)
Fixpoint cumsum_from (acc : nat) (bs : list bool) : list nat :=
  match bs with
  | [] => []
  | b :: bs' =>
      let acc' := if b then S acc else acc in
      acc' :: cumsum_from acc' bs'
  end.
Definition cumsum (bs : list bool) : list nat := cumsum_from 0 bs.

(** The number of set entries of a boolean array. *)
Fixpoint count_true (bs : list bool) : nat :=
  match bs with
  | [] => 0
  | b :: bs' => (if b then 1 else 0) + count_true bs'
  end.

(** [jnp.amax] of an array of non-negative integers. *)
Definition amax (l : list nat) : nat := fold_right Nat.max 0 l.

(** [x.sum()] of a [float32] array, accumulated from the left. *)
Definition sum (l : list f32) : f32 := fold_left F32.add l F32.zero.

(** [jnp.argmax]: the first index of a maximal element. *)
Fixpoint argmax_from (best_i : nat) (best : f32) (i : nat) (l : list f32)
  : nat :=
  match l with
  | [] => best_i
  | x :: l' =>
      if F32.arg_gt x best then argmax_from i x (S i) l'
      else argmax_from best_i best (S i) l'
  end.
Definition argmax (l : list f32) : nat :=
  match l with
  | [] => 0
  | x :: l' => argmax_from 0 x 1 l'
  end.

(** [jnp.where(mask, x, -inf)] over an action vector. *)
Definition mask_neg_inf (legal : list bool) (x : list f32) : list f32 :=
  imap (fun a v => if nth a legal false then v else F32.neg_inf) x.

End Jax.

(** ** The flat-arena engine ([core/evaluators/mcts.py]) *)

Module Legacy.

(** [MCTSConfig], with the environment's action count and player count the
    constructor of [MCTS] reads.  The coefficients are Python floats. *)
Record MCTSConfig : Type := {
  max_nodes : nat;
  puct_coeff : spec_float;
  dirichlet_alpha : spec_float;
  dirichlet_epsilon : spec_float;
  flat_policy_size : nat;
  num_players : nat
}.

(** [MCTSState]; the arrays of shape [(1,)] are scalars here. *)
Record MCTSState (K : Type) : Type := {
  key : K;
  idx_action_map : list (list nat);
  p_vals : list (list f32);
  n_vals : list f32;
  w_vals : list f32;
  visits : list nat;
  depth : nat;
  max_depth : nat;
  cur_node : nat;
  next_empty : nat;
  reward_indices : list Z;
  subtrees : list nat;
  parents : list nat
}.
Arguments key {K}.
Arguments idx_action_map {K}.
Arguments p_vals {K}.
Arguments n_vals {K}.
Arguments w_vals {K}.
Arguments visits {K}.
Arguments depth {K}.
Arguments max_depth {K}.
Arguments cur_node {K}.
Arguments next_empty {K}.
Arguments reward_indices {K}.
Arguments subtrees {K}.
Arguments parents {K}.

(** The collaborators of the engine: the environment ([env.step], the
    fields [legal_action_mask], [reward] and [cur_player_id] of an
    environment state), the leaf evaluator, and the JAX library functions
    [jax.nn.softmax], [jax.random.split] and [jax.random.dirichlet]. *)
Record Collab (K S : Type) : Type := {
  num_actions : nat;
  env_step : S -> nat -> S * bool;
  legal_action_mask : S -> list bool;
  reward : S -> list f32;
  cur_player_id : S -> nat;
  evaluator : S -> list f32 * f32;
  softmax : list f32 -> list f32;
  split : K -> K * K;
  dirichlet : K -> list f32 -> list f32
}.
Arguments num_actions {K S}.
Arguments env_step {K S}.
Arguments legal_action_mask {K S}.
Arguments reward {K S}.
Arguments cur_player_id {K S}.
Arguments evaluator {K S}.
Arguments softmax {K S}.
Arguments split {K S}.
Arguments dirichlet {K S}.

(** [IterationState]. *)
Record IterationState (K S : Type) : Type := {
  state : MCTSState K;
  env_state : S;
  root_state : S
}.
Arguments state {K S}.
Arguments env_state {K S}.
Arguments root_state {K S}.

Section Engine.
Context {K S : Type}.
Variable config : MCTSConfig.
Variable env : Collab K S.

Definition valid_slots : nat := max_nodes config - 1.

(** [get_reward_indices]: the pattern [1, 0, ..., 0] of length
    [num_players], tiled and cut to [valid_slots] entries. *)
Definition get_reward_indices : list Z :=
  let pattern := 1%Z :: replicate (num_players config - 1) 0%Z in
  let num_repeats :=
    (valid_slots + num_players config - 1) / num_players config in
  take valid_slots (concat (replicate num_repeats pattern)).

Definition init_visits : list nat :=
  <[0 := 1]> (replicate valid_slots 0).

Definition reset (k : K) : MCTSState K :=
  let A := flat_policy_size config in
  let M := max_nodes config in
  {| key := k;
     idx_action_map := replicate M (replicate A 0);
     p_vals := replicate M (replicate A F32.zero);
     n_vals := replicate M F32.zero;
     w_vals := replicate M F32.zero;
     visits := init_visits;
     depth := 1;
     max_depth := 0;
     cur_node := 1;
     next_empty := 2;
     reward_indices := get_reward_indices;
     subtrees := replicate M 0;
     parents := replicate M 0 |}.

Definition reset_search (st : MCTSState K) : MCTSState K :=
  {| key := key st;
     idx_action_map := idx_action_map st;
     p_vals := p_vals st;
     n_vals := n_vals st;
     w_vals := w_vals st;
     visits := init_visits;
     depth := 1;
     max_depth := max_depth st;
     cur_node := 1;
     next_empty := next_empty st;
     reward_indices := reward_indices st;
     subtrees := subtrees st;
     parents := parents st |}.

(** The children of the current node, one per action. *)
Definition children (st : MCTSState K) : list nat :=
  Jax.gather [] (idx_action_map st) (cur_node st).

(** [jnp.where(idx > 0, vals[idx], 0)]. *)
Definition child_stat (vals : list f32) (c : nat) : f32 :=
  if 0 <? c then Jax.gather F32.zero vals c else F32.zero.

(** The score vector of [choose_with_puct] before the argmax. *)
Definition puct_scores (st : MCTSState K) (legal_actions : list bool)
  : list f32 :=
  let cs := children st in
  let visits := fmap (child_stat (n_vals st)) cs in
  let visits_nozero := fmap (F32.maximum F32.one) visits in
  let w_vals := fmap (child_stat (w_vals st)) cs in
  let q_vals := zip_with F32.div w_vals visits_nozero in
  let p_vals := Jax.gather [] (p_vals st) (cur_node st) in
  let root := F32.sqrt (F32.add F32.one (Jax.sum visits)) in
  let c := F32.of_py (puct_coeff config) in
  let u_vals :=
    zip_with (fun p v => F32.div (F32.mul (F32.mul c p) root)
                                 (F32.add F32.one v)) p_vals visits in
  let puct_score := zip_with F32.add q_vals u_vals in
  Jax.mask_neg_inf legal_actions puct_score.

Definition choose_with_puct (st : MCTSState K) (legal_actions : list bool)
  : nat :=
  Jax.argmax (puct_scores st legal_actions).

Definition traverse (st : MCTSState K) (action : nat)
  : MCTSState K * bool :=
  let master_action_idx :=
    Jax.gather2 0 (idx_action_map st) (cur_node st) action in
  let unvisited := master_action_idx =? 0 in
  let in_bounds :=
    negb ((max_nodes config <=? next_empty st) && unvisited) in
  let master_action_idx :=
    if in_bounds && unvisited then next_empty st else master_action_idx in
  ({| key := key st;
      idx_action_map :=
        Jax.set2 (idx_action_map st) (cur_node st) action master_action_idx;
      p_vals := p_vals st;
      n_vals := n_vals st;
      w_vals := w_vals st;
      visits := <[depth st := master_action_idx]> (visits st);
      depth := depth st;
      max_depth := max_depth st;
      cur_node := master_action_idx;
      next_empty :=
        if in_bounds && unvisited then next_empty st + 1
        else next_empty st;
      reward_indices := reward_indices st;
      subtrees := subtrees st;
      parents := <[master_action_idx := cur_node st]> (parents st) |},
   unvisited).

(** The value credited to the path position with reward index [ri]:
    [leaf_inc * (value * ri + (-value) * (1 - ri))]. *)
Definition backprop_reward (value : f32) (inc ri : Z) : f32 :=
  F32.mul (F32.of_Z inc)
          (F32.add (F32.mul value (F32.of_Z ri))
                   (F32.mul (F32.neg value) (F32.of_Z (1 - ri)))).

(** [jnp.where(is_leaf, state.visits > 0, 0)]. *)
Definition leaf_inc (is_leaf : bool) (visits : list nat) : list Z :=
  fmap (fun v => if is_leaf && (0 <? v) then 1%Z else 0%Z) visits.

(** [visits.at[1:].set(jnp.where(is_leaf, 0, visits[1:]))]. *)
Definition clear_tail (is_leaf : bool) (visits : list nat) : list nat :=
  match visits with
  | [] => []
  | v0 :: rest => v0 :: (if is_leaf then replicate (length rest) 0 else rest)
  end.

(** The value an iteration backpropagates: the reward the environment
    reports for the root's player when the step terminated, the
    evaluator's estimate otherwise. *)
Definition leaf_value (terminated : bool) (env_state' root_state : S)
    (evaluation : f32) : f32 :=
  if terminated
  then Jax.gather F32.zero (reward env env_state') (cur_player_id env root_state)
  else evaluation.

Definition iterate (iter_state : IterationState K S) : IterationState K S :=
  let st0 := state iter_state in
  let env_state0 := env_state iter_state in
  let root := root_state iter_state in
  let legal_actions := legal_action_mask env env_state0 in
  let action := choose_with_puct st0 legal_actions in
  let '(env_state1, terminated) := env_step env env_state0 action in
  let '(st, unvisited) := traverse st0 action in
  let '(policy_logits, evaluation) := evaluator env env_state1 in
  let legal_actions := legal_action_mask env env_state1 in
  let policy := softmax env (Jax.mask_neg_inf legal_actions policy_logits) in
  let value := leaf_value terminated env_state1 root evaluation in
  let is_leaf := terminated || unvisited in
  let inc := leaf_inc is_leaf (visits st) in
  let backprop_rewards :=
    zip_with (backprop_reward value) inc (reward_indices st) in
  {| state :=
       {| key := key st;
          idx_action_map := idx_action_map st;
          p_vals := <[cur_node st := policy]> (p_vals st);
          n_vals := Jax.scatter_add (visits st) (fmap F32.of_Z inc) (n_vals st);
          w_vals := Jax.scatter_add (visits st) backprop_rewards (w_vals st);
          visits := clear_tail is_leaf (visits st);
          depth := if is_leaf then 1 else depth st + 1;
          max_depth := Nat.max (depth st) (max_depth st);
          cur_node := if is_leaf then 1 else cur_node st;
          next_empty := next_empty st;
          reward_indices := reward_indices st;
          subtrees := subtrees st;
          parents := parents st |};
     env_state := if is_leaf then root else env_state1;
     root_state := root |}.

(** The masked softmax of the root's logits, as [evaluate] computes it. *)
Definition root_policy (env_state0 : S) : list f32 :=
  let '(policy_logits, _) := evaluator env env_state0 in
  softmax env (Jax.mask_neg_inf (legal_action_mask env env_state0) policy_logits).

(** The Dirichlet sample [evaluate] draws from the state's key. *)
Definition root_noise (st : MCTSState K) : list f32 :=
  let '(dir_key, _) := split env (key st) in
  dirichlet env dir_key
    (replicate (num_actions env) (F32.of_py (dirichlet_alpha config))).

(** [(1 - eps) * policy + eps * dir_noise], with [1 - eps] computed by
    Python before it meets the array. *)
Definition noisy_policy (policy dir_noise : list f32) : list f32 :=
  let eps := dirichlet_epsilon config in
  zip_with F32.add
    (fmap (F32.mul (F32.of_py (F32.py_sub F32.py_one eps))) policy)
    (fmap (F32.mul (F32.of_py eps)) dir_noise).

(** The part of [evaluate] that precedes the scan: the search is reset and
    the root prior is written. *)
Definition evaluate_root (st0 : MCTSState K) (env_state0 : S) : MCTSState K :=
  let st := reset_search st0 in
  let policy := root_policy env_state0 in
  let '(_, new_key) := split env (key st) in
  let dir_noise := root_noise st in
  {| key := new_key;
     idx_action_map := idx_action_map st;
     p_vals := <[1 := noisy_policy policy dir_noise]> (p_vals st);
     n_vals := n_vals st;
     w_vals := w_vals st;
     visits := visits st;
     depth := depth st;
     max_depth := max_depth st;
     cur_node := cur_node st;
     next_empty := next_empty st;
     reward_indices := reward_indices st;
     subtrees := subtrees st;
     parents := parents st |}.

Definition with_cur_node (st : MCTSState K) (c : nat) : MCTSState K :=
  {| key := key st;
     idx_action_map := idx_action_map st;
     p_vals := p_vals st;
     n_vals := n_vals st;
     w_vals := w_vals st;
     visits := visits st;
     depth := depth st;
     max_depth := max_depth st;
     cur_node := c;
     next_empty := next_empty st;
     reward_indices := reward_indices st;
     subtrees := subtrees st;
     parents := parents st |}.

Definition evaluate (st0 : MCTSState K) (env_state0 : S) (num_iters : nat)
  : MCTSState K :=
  let st := evaluate_root st0 env_state0 in
  let iteration_state :=
    {| state := st; env_state := env_state0; root_state := env_state0 |} in
  with_cur_node (state (Nat.iter num_iters iterate iteration_state)) 1.

(** One round of label propagation: [jnp.where(subtrees[parents] > 1,
    subtrees[parents], subtrees)]. *)
Definition propagate_subtrees (parents subtrees : list nat) : list nat :=
  let parent_subtrees := fmap (Jax.gather 0 subtrees) parents in
  zip_with (fun ps s => if 1 <? ps then ps else s) parent_subtrees subtrees.

Definition propagate_root_subtrees (st : MCTSState K) : MCTSState K :=
  let M := max_nodes config in
  let parents' := <[0 := 0]> (parents st) in
  {| key := key st;
     idx_action_map := idx_action_map st;
     p_vals := p_vals st;
     n_vals := n_vals st;
     w_vals := w_vals st;
     visits := visits st;
     depth := depth st;
     max_depth := max_depth st;
     cur_node := cur_node st;
     next_empty := next_empty st;
     reward_indices := reward_indices st;
     subtrees := Nat.iter M (propagate_subtrees parents') (Jax.arange M);
     parents := parents' |}.

(** [jnp.where(populated, new_nodes * new_nodes.cumsum(), 0)]. *)
Definition translation_of (populated : bool) (new_nodes : list bool) : list nat :=
  zip_with (fun b k => if populated && b then k else 0)
           new_nodes (Jax.cumsum new_nodes).

(** [x.at[translation].set(x[old_subtree_idxs]).at[erase].set(0)]. *)
Definition relocate {A : Type} (clear : A -> A)
    (translation erase : list nat) (moved x : list A) : list A :=
  Jax.scatter_fill clear erase (Jax.scatter_set translation moved x).

Definition load_subtree (st0 : MCTSState K) (action : nat) : MCTSState K :=
  let st := propagate_root_subtrees st0 in
  let slots_aranged := Jax.arange (max_nodes config) in
  let subtree_master_idx := Jax.gather2 0 (idx_action_map st) 1 action in
  let populated := 1 <? subtree_master_idx in
  let new_nodes := fmap (fun s => s =? subtree_master_idx) (subtrees st) in
  let translation := translation_of populated new_nodes in
  let old_subtree_idxs :=
    zip_with (fun (b : bool) s => if b then s else 0) new_nodes slots_aranged in
  let next_empty0 := Jax.amax translation + 1 in
  let erase := fmap (fun s => if s <? next_empty0 then 0 else s) slots_aranged in
  let next_empty1 := Nat.max next_empty0 2 in
  let tr := Jax.gather 0 translation in
  {| key := key st;
     idx_action_map :=
       relocate (fmap (fun _ => 0)) translation erase
                (fmap (fmap tr) (idx_action_map st)) (idx_action_map st);
     p_vals :=
       relocate (fmap (fun _ => F32.zero)) translation erase
                (fmap (Jax.gather [] (p_vals st)) old_subtree_idxs) (p_vals st);
     n_vals :=
       relocate (fun _ => F32.zero) translation erase
                (fmap (Jax.gather F32.zero (n_vals st)) old_subtree_idxs) (n_vals st);
     w_vals :=
       relocate (fun _ => F32.zero) translation erase
                (fmap (Jax.gather F32.zero (w_vals st)) old_subtree_idxs) (w_vals st);
     visits := visits st;
     depth := depth st;
     max_depth := Nat.max (max_depth st - 1) 1;
     cur_node := cur_node st;
     next_empty := next_empty1;
     reward_indices := reward_indices st;
     subtrees := subtrees st;
     parents :=
       relocate (fun _ => 0) translation erase
                (fmap tr (parents st)) (parents st) |}.

(** [get_policy]: [n_vals[1]] is the scalar visit count of slot 1, and the
    sum of a scalar is the scalar. *)
Definition get_policy (st : MCTSState K) : f32 :=
  let action_vists := Jax.gather F32.zero (n_vals st) 1 in
  F32.div action_vists action_vists.

(** The shape of an arena that a search has grown: at least two slots, every
    array with one entry per slot, the parent of a slot at a lower index than
    the slot, every edge out of a slot leading to a slot whose parent pointer
    leads back, and every slot with a parent reached by an edge of that
    parent.  The parent entry of the sentinel slot 0 is not constrained. *)
Definition well_formed (st : MCTSState K) : bool :=
  let M := max_nodes config in
  let parent_of c := nth c (parents st) 0 in
  let row_of s := nth s (idx_action_map st) [] in
  (2 <=? M)
  && (length (idx_action_map st) =? M) && (length (p_vals st) =? M)
  && (length (n_vals st) =? M) && (length (w_vals st) =? M)
  && (length (parents st) =? M)
  && forallb (fun s => parent_of s <? s) (seq 1 (M - 1))
  && forallb (fun s =>
                forallb (fun c => (c =? 0) || ((c <? M) && (parent_of c =? s)))
                        (row_of s))
             (seq 1 (M - 1))
  && forallb (fun c =>
                (parent_of c =? 0)
                || existsb (fun e => e =? c) (row_of (parent_of c)))
             (seq 1 (M - 1)).

End Engine.

(** The label of slot [s] after [rounds] rounds of [propagate_subtrees]: the
    parent pointers are followed for as long as they lead to a slot above
    the root, at most [rounds] times. *)
Fixpoint top_ancestor (parents : list nat) (rounds s : nat) : nat :=
  match rounds with
  | 0 => s
  | S k =>
      if 1 <? Jax.gather 0 parents s
      then top_ancestor parents k (Jax.gather 0 parents s)
      else s
  end.

(** The slots that the edges of an edge map lead to from slot [r]. *)
Inductive descendant (m : list (list nat)) (r : nat) : nat -> Prop :=
| descendant_self : descendant m r r
| descendant_child (q a d : nat) (row : list nat) :
    descendant m r q ->
    m !! q = Some row -> row !! a = Some d -> d <> 0 ->
    descendant m r d.

Section Lifecycle.
Context {K S : Type}.
Variable config : MCTSConfig.
Variable env : Collab K S.

(** What the allocator adds to [well_formed]: there is at least one action
    and every row of the edge map has one entry per action; [next_empty]
    lies between 2 and [max_nodes]; the cursor is an allocated slot; no edge
    leads to a slot from [next_empty] on; and the slots from [next_empty] on
    have no edge and no parent. *)
Definition allocated (st : MCTSState K) : bool :=
  let M := max_nodes config in
  let A := flat_policy_size config in
  let ne := next_empty st in
  (1 <=? A) && (2 <=? ne) && (ne <=? M)
  && (1 <=? cur_node st) && (cur_node st <? ne)
  && forallb (fun row => length row =? A) (idx_action_map st)
  && forallb (fun row => forallb (fun c => c <? ne) row) (idx_action_map st)
  && forallb (fun s =>
                (nth s (parents st) 0 =? 0)
                && forallb (fun c => c =? 0) (nth s (idx_action_map st) []))
             (seq ne (M - ne)).

(** The arenas the engine works on. *)
Definition arena_ok (st : MCTSState K) : bool :=
  well_formed config st && allocated st.

(** The facts [arena_ok] checks. *)
Definition arena_shape (st : MCTSState K) : Prop :=
  let M := max_nodes config in
  let A := flat_policy_size config in
  let em := idx_action_map st in
  let ps := parents st in
  let ne := next_empty st in
  1 <= A /\ 2 <= ne <= M /\ 1 <= cur_node st < ne /\
  length em = M /\ length (p_vals st) = M /\
  length (n_vals st) = M /\ length (w_vals st) = M /\ length ps = M /\
  (forall s row, em !! s = Some row -> length row = A) /\
  (forall s row a c, em !! s = Some row -> row !! a = Some c -> c < ne) /\
  (forall s, 1 <= s < M -> nth s ps 0 < s) /\
  (forall s row a c, 1 <= s < M ->
     em !! s = Some row -> row !! a = Some c -> c <> 0 -> nth c ps 0 = s) /\
  (forall c, 1 <= c < M -> nth c ps 0 <> 0 ->
     exists row a, em !! nth c ps 0 = Some row /\ row !! a = Some c) /\
  (forall s, ne <= s < M ->
     nth s ps 0 = 0 /\
     forall row a c, em !! s = Some row -> row !! a = Some c -> c = 0).

(** The path record of a search in progress: [visits] holds the path from
    the root to the cursor in its first [depth] positions, each slot a child
    of the one before it, and zeros after them. *)
Definition on_path (st : MCTSState K) : Prop :=
  let V := valid_slots config in
  let v k := nth k (visits st) 0 in
  length (visits st) = V /\
  1 <= depth st <= V /\
  v 0 = 1 /\
  v (depth st - 1) = cur_node st /\
  (forall k, k + 1 < depth st ->
     v (k + 1) <> 0 /\
     exists row a,
       idx_action_map st !! v k = Some row /\ row !! a = Some (v (k + 1))) /\
  (forall k, depth st <= k -> v k = 0).

(** The states a caller of the engine can hold: a fresh state, and whatever
    [evaluate] and [load_subtree] make of a state it holds. *)
Inductive reachable : MCTSState K -> Prop :=
| reachable_reset (k : K) : reachable (reset config k)
| reachable_evaluate (st : MCTSState K) (env_state0 : S) (num_iters : nat) :
    reachable st -> reachable (evaluate config env st env_state0 num_iters)
| reachable_load_subtree (st : MCTSState K) (action : nat) :
    reachable st -> reachable (load_subtree config st action).

End Lifecycle.

End Legacy.

(** ** The tree arena ([core/trees/tree.py]) *)

Module Tree.

(** Modelled from the spec: [core/evaluators/mcts/data.py] is not part of the
    sources; a node carries the fields of section 3, with the visit count an
    integer. *)
Record MCTSNode (E : Type) : Type := {
  n : Z;
  p : list f32;
  w : f32;
  terminal : bool;
  embedding : E
}.
Arguments n {E}.
Arguments p {E}.
Arguments w {E}.
Arguments terminal {E}.
Arguments embedding {E}.

(** Modelled from the spec: [core/trees/tree.py] is not part of the sources;
    the arena of sections 3 and 4.1 is a fixed array of node slots, the dense
    edge map, the parent pointers, the allocator's [next_empty] and the
    random key the tree carries. *)
Record MCTSTree (K E : Type) : Type := {
  key : K;
  data : list (MCTSNode E);
  edge_map : list (list nat);
  parents : list nat;
  next_empty : nat
}.
Arguments key {K E}.
Arguments data {K E}.
Arguments edge_map {K E}.
Arguments parents {K E}.
Arguments next_empty {K E}.

(** Modelled from the spec: [EMPTY = 0]; slot 0 is the sentinel and slot 1 is
    the root. *)
Definition NULL_INDEX : nat := 0.
Definition ROOT_INDEX : nat := 1.

Section Arena.
Context {K E : Type}.

(** The node every slot of a fresh arena holds. *)
Variable blank : MCTSNode E.

(** Modelled from the spec: the capacity [MAX_NODES] of the arena. *)
Definition capacity (t : MCTSTree K E) : nat := length (data t).

(** Modelled from the spec: [reset()] gives an arena with the root at slot 1,
    [next_empty = 2] and every slot zeroed. *)
Definition reset (k : K) (max_nodes num_actions : nat) : MCTSTree K E :=
  {| key := k;
     data := replicate max_nodes blank;
     edge_map := replicate max_nodes (replicate num_actions NULL_INDEX);
     parents := replicate max_nodes NULL_INDEX;
     next_empty := 2 |}.

(** Modelled from the spec: [at(slot)] is the node view of a slot. *)
Definition at_ (t : MCTSTree K E) (slot : nat) : MCTSNode E :=
  Jax.gather blank (data t) slot.

(** Modelled from the spec: [child(parent, action)] reads the edge map. *)
Definition child (t : MCTSTree K E) (parent action : nat) : nat :=
  Jax.gather2 NULL_INDEX (edge_map t) parent action.

(** Modelled from the spec: [is_edge(parent, action)] holds when the edge is
    not [EMPTY]. *)
Definition is_edge (t : MCTSTree K E) (parent action : nat) : bool :=
  negb (child t parent action =? NULL_INDEX).

(** Modelled from the spec: [update(slot, node)] overwrites a node. *)
Definition update_node (t : MCTSTree K E) (slot : nat) (node : MCTSNode E)
  : MCTSTree K E :=
  {| key := key t;
     data := <[slot := node]> (data t);
     edge_map := edge_map t;
     parents := parents t;
     next_empty := next_empty t |}.

(** Modelled from the spec: the root is the node of slot 1. *)
Definition set_root (t : MCTSTree K E) (node : MCTSNode E) : MCTSTree K E :=
  update_node t ROOT_INDEX node.

(** Modelled from the spec: [add_child(parent, action, node)] takes slot
    [next_empty] when it is below [MAX_NODES], writes the node, the edge and
    the parent pointer, and increments [next_empty]; a full arena is left as
    it is. *)
Definition add_node (t : MCTSTree K E) (parent action : nat)
    (node : MCTSNode E) : MCTSTree K E :=
  let slot := next_empty t in
  if slot <? capacity t then
    {| key := key t;
       data := <[slot := node]> (data t);
       edge_map := Jax.set2 (edge_map t) parent action slot;
       parents := <[slot := parent]> (parents t);
       next_empty := slot + 1 |}
  else t.

(** The slots the parent pointers lead through from [slot] until they reach
    [NULL]: the nodes the loop of [backpropagate] visits, in order. *)
Fixpoint path_to_root (parents : list nat) (slot : nat) (path : list nat)
  : Prop :=
  match path with
  | [] => slot = NULL_INDEX
  | x :: rest =>
      slot <> NULL_INDEX /\ x = slot /\ slot < length parents /\
      path_to_root parents (Jax.gather NULL_INDEX parents slot) rest
  end.

(** Modelled from the spec: the visit counts of the children of a slot, one
    per action, [0] where the edge is [EMPTY]
    ([n[edge[root, a]]] of section 4.4). *)
Definition get_child_data (t : MCTSTree K E) (slot : nat) : list Z :=
  fmap (fun c => if c =? NULL_INDEX then 0%Z else n (at_ t c))
      (Jax.gather [] (edge_map t) slot).

(** Modelled from the spec: the tree owns the random key (section 7: the
    engine is deterministic given inputs and the random key); drawing from it
    splits the key, hands one half out and keeps the other. *)
Definition get_rng (split : K -> K * K) (t : MCTSTree K E) : K * MCTSTree K E :=
  let '(rng, new_key) := split (key t) in
  (rng,
   {| key := new_key;
      data := data t;
      edge_map := edge_map t;
      parents := parents t;
      next_empty := next_empty t |}).

End Arena.

End Tree.

(** ** The tree-based engine ([core/evaluators/mcts/mcts.py]) *)

Module Refactored.
Import Tree.

(** The arguments of the constructor of [MCTS], with the JAX library functions
    the methods call ([jax.nn.softmax], [jax.random.split],
    [jax.random.choice], the power of [**]) and the blank node of the arena.
    [discount] and [temperature] are Python floats. *)
Record Params (K E : Type) : Type := {
  step_fn : E -> nat -> E * f32 * bool;
  eval_fn : E -> list f32 * f32;
  action_selection_fn : MCTSTree K E -> nat -> spec_float -> nat;
  action_mask_fn : E -> list bool;
  discount : spec_float;
  temperature : spec_float;
  softmax : list f32 -> list f32;
  split : K -> K * K;
  choice : K -> list f32 -> nat;
  power : f32 -> spec_float -> f32;
  blank : MCTSNode E
}.
Arguments step_fn {K E}.
Arguments eval_fn {K E}.
Arguments action_selection_fn {K E}.
Arguments action_mask_fn {K E}.
Arguments discount {K E}.
Arguments temperature {K E}.
Arguments softmax {K E}.
Arguments split {K E}.
Arguments choice {K E}.
Arguments power {K E}.
Arguments blank {K E}.

(** [TraversalState]. *)
Record TraversalState : Type := {
  parent : nat;
  action : nat
}.

(** [MCTSOutput]. *)
Record MCTSOutput (K E : Type) : Type := {
  tree : MCTSTree K E;
  sampled_action : nat;
  root_value : f32;
  action_weights : list f32
}.
Arguments tree {K E}.
Arguments sampled_action {K E}.
Arguments root_value {K E}.
Arguments action_weights {K E}.

Section Engine.
Context {K E : Type}.
Variable mcts : Params K E.

Definition evaluate_root (root_embedding : E) : list f32 * f32 :=
  eval_fn mcts root_embedding.

Definition update_root (t : MCTSTree K E) (root_embedding : E) : MCTSTree K E :=
  let '(root_policy_logits, root_value) := evaluate_root root_embedding in
  let root_policy := softmax mcts root_policy_logits in
  let root_node := at_ (blank mcts) t ROOT_INDEX in
  let visited := (0 <? n root_node)%Z in
  set_root t
    {| p := root_policy;
       w := if visited then w root_node else root_value;
       n := if visited then n root_node else 1%Z;
       terminal := terminal root_node;
       embedding := root_embedding |}.

Definition choose_root_action (t : MCTSTree K E) : nat :=
  action_selection_fn mcts t ROOT_INDEX (discount mcts).

Definition step (embedding : E) (action : nat) : E * f32 * bool :=
  step_fn mcts embedding action.

(** The loop condition of [traverse]. *)
Definition cond_fn (t : MCTSTree K E) (s : TraversalState) : bool :=
  is_edge t (parent s) (action s)
  && negb (terminal (at_ (blank mcts) t (child t (parent s) (action s)))).

(** The loop body of [traverse]. *)
Definition body_fn (t : MCTSTree K E) (s : TraversalState) : TraversalState :=
  let node_idx := child t (parent s) (action s) in
  {| parent := node_idx;
     action := action_selection_fn mcts t node_idx (discount mcts) |}.

(** [jax.lax.while_loop cond_fn body_fn], run for at most [fuel] rounds. *)
Fixpoint traverse_loop (fuel : nat) (t : MCTSTree K E) (s : TraversalState)
  : option TraversalState :=
  if cond_fn t s then
    match fuel with
    | 0 => None
    | S fuel' => traverse_loop fuel' t (body_fn t s)
    end
  else Some s.

Definition traverse (fuel : nat) (t : MCTSTree K E) : option TraversalState :=
  traverse_loop fuel t
    {| parent := ROOT_INDEX; action := choose_root_action t |}.

(** The loop of [backpropagate]: the value is discounted, then credited to
    the node, then the parent pointer is followed, until it is [NULL]. *)
Fixpoint backpropagate (fuel : nat) (t : MCTSTree K E) (node_idx : nat)
    (value : f32) : option (MCTSTree K E) :=
  if node_idx =? NULL_INDEX then Some t
  else
    match fuel with
    | 0 => None
    | S fuel' =>
        let value := F32.mul value (F32.of_py (discount mcts)) in
        let node := at_ (blank mcts) t node_idx in
        let new_node :=
          {| n := (n node + 1)%Z;
             w := F32.add (w node) value;
             p := p node;
             terminal := terminal node;
             embedding := embedding node |} in
        let t := update_node t node_idx new_node in
        backpropagate fuel' t (Jax.gather NULL_INDEX (parents t) node_idx) value
    end.

(** The tree of [iterate] after the leaf is expanded or updated, before the
    value is backpropagated, with the parent and the value to propagate. *)
Definition expand (t : MCTSTree K E) (s : TraversalState)
  : MCTSTree K E * nat * f32 :=
  let parent := parent s in
  let action := action s in
  let embedding := embedding (at_ (blank mcts) t parent) in
  let '(new_embedding, reward, terminated) := step embedding action in
  let '(policy_logits, value) := eval_fn mcts new_embedding in
  let policy_mask := action_mask_fn mcts new_embedding in
  let policy := softmax mcts (Jax.mask_neg_inf policy_mask policy_logits) in
  let value := if terminated then reward else value in
  let node_exists := is_edge t parent action in
  let node_id := child t parent action in
  let node := at_ (blank mcts) t node_id in
  let t :=
    if node_exists then
      update_node t node_id
        {| n := (n node + 1)%Z;
           w := F32.add (w node) value;
           p := policy;
           terminal := terminated;
           embedding := new_embedding |}
    else
      add_node t parent action
        {| n := 1%Z;
           p := policy;
           w := value;
           terminal := terminated;
           embedding := new_embedding |} in
  (t, parent, value).

Definition iterate (fuel : nat) (t : MCTSTree K E) : option (MCTSTree K E) :=
  match traverse fuel t with
  | None => None
  | Some traversal_state =>
      let '(t, parent, value) := expand t traversal_state in
      backpropagate fuel t parent value
  end.

(** [action_visits / action_visits.sum()]. *)
Definition visit_weights (action_visits : list Z) : list f32 :=
  let total := fold_right Z.add 0%Z action_visits in
  fmap (fun v => F32.div (F32.of_Z v) (F32.of_Z total)) action_visits.

Definition sample_root_action (t : MCTSTree K E)
  : MCTSTree K E * nat * list f32 :=
  let action_visits := get_child_data (blank mcts) t ROOT_INDEX in
  let action_weights := visit_weights action_visits in
  let '(rand_key, t) := get_rng (split mcts) t in
  if SFeqb (temperature mcts) (S754_zero false) then
    (t, Jax.argmax action_weights, action_weights)
  else
    let action_weights :=
      fmap (fun x => power mcts x (SFdiv 53 1024 F32.py_one (temperature mcts)))
          action_weights in
    let total := Jax.sum action_weights in
    let action_weights := fmap (fun x => F32.div x total) action_weights in
    (t, choice mcts rand_key action_weights, action_weights).

(** [jax.lax.fori_loop(0, num_iterations, lambda _, t: self.iterate(t), tree)]. *)
Fixpoint iterations (fuel : nat) (num_iterations : nat) (t : MCTSTree K E)
  : option (MCTSTree K E) :=
  match num_iterations with
  | 0 => Some t
  | S k =>
      match iterate fuel t with
      | None => None
      | Some t' => iterations fuel k t'
      end
  end.

Definition search (fuel : nat) (t : MCTSTree K E) (root_embedding : E)
    (num_iterations : nat) : option (MCTSOutput K E) :=
  let t := update_root t root_embedding in
  match iterations fuel num_iterations t with
  | None => None
  | Some t =>
      let '(t, action, action_weights) := sample_root_action t in
      let root_node := at_ (blank mcts) t ROOT_INDEX in
      Some {| tree := t;
              sampled_action := action;
              root_value := F32.div (w root_node) (F32.of_Z (n root_node));
              action_weights := action_weights |}
  end.

(** The trees a caller can hold: a fresh arena of at least two slots, and
    whatever [update_root], [iterate] and [sample_root_action] make of a
    reachable tree. *)
Inductive reachable : MCTSTree K E -> Prop :=
| reach_reset (k : K) (max_nodes num_actions : nat) :
    2 <= max_nodes ->
    reachable (Tree.reset (blank mcts) k max_nodes num_actions)
| reach_update_root (t : MCTSTree K E) (root_embedding : E) :
    reachable t -> reachable (update_root t root_embedding)
| reach_iterate (t t' : MCTSTree K E) (fuel : nat) :
    reachable t -> iterate fuel t = Some t' -> reachable t'
| reach_sample_root_action (t : MCTSTree K E) :
    reachable t -> reachable (fst (fst (sample_root_action t))).

(** The shape of a reachable arena: the edge map has a row per slot, the
    allocator points into the arena, edges lead to allocated slots other than
    the root, unallocated slots have no edges, the root is not terminal, and
    terminal slots have no edges. *)
Definition arena_inv (t : MCTSTree K E) : Prop :=
  length (edge_map t) = capacity t /\
  2 <= next_empty t <= capacity t /\
  (forall s a, s < capacity t ->
     child t s a = NULL_INDEX \/ 2 <= child t s a < next_empty t) /\
  (forall s a, next_empty t <= s < capacity t -> child t s a = NULL_INDEX) /\
  terminal (at_ (blank mcts) t ROOT_INDEX) = false /\
  (forall s a, s < capacity t -> terminal (at_ (blank mcts) t s) = true ->
     child t s a = NULL_INDEX).

(** The order of a reachable arena: an edge leads from a slot to a slot of a
    higher index below the allocator, and the parent pointer of that slot
    leads back; the parent pointer of a slot leads to a slot of a lower
    index; every allocated slot other than the root has a parent; and no
    slot is the child of a slot under two actions. *)
Definition arena_ordered (t : MCTSTree K E) : Prop :=
  length (edge_map t) = capacity t /\
  length (parents t) = capacity t /\
  2 <= next_empty t <= capacity t /\
  (forall s a, s < capacity t ->
     child t s a = NULL_INDEX \/
     (s < child t s a < next_empty t /\
      Jax.gather NULL_INDEX (parents t) (child t s a) = s)) /\
  (forall s, 1 <= s < capacity t ->
     Jax.gather NULL_INDEX (parents t) s < s) /\
  (forall s, 2 <= s < next_empty t ->
     1 <= Jax.gather NULL_INDEX (parents t) s) /\
  (forall s row a1 a2 c,
     edge_map t !! s = Some row -> row !! a1 = Some c -> row !! a2 = Some c ->
     c <> NULL_INDEX -> a1 = a2).

(** The sum of the visit counts of the children of a slot
    ([action_visits.sum()] of [sample_root_action] for the root). *)
Definition child_visits (t : MCTSTree K E) (slot : nat) : Z :=
  fold_right Z.add 0%Z (get_child_data (blank mcts) t slot).

End Engine.

End Refactored.

(** ** Concrete arenas

    A flat arena of six slots and two actions: the root (slot 1) has the
    children 2 and 3, slot 3 has the child 4, and slot 4 has the child 5. *)

Module Demo.
Import Legacy.

Definition half : f32 := S754_finite false 8388608 (-24).

Definition demo_config : MCTSConfig :=
  {| max_nodes := 6;
     puct_coeff := F32.py_one;
     dirichlet_alpha := F32.py_one;
     dirichlet_epsilon := S754_zero false;
     flat_policy_size := 2;
     num_players := 2 |}.

Definition demo_state : MCTSState nat :=
  {| key := 7;
     idx_action_map := [[0; 0]; [2; 3]; [0; 0]; [4; 0]; [0; 5]; [0; 0]];
     p_vals := replicate 6 [half; half];
     n_vals := F32.of_Z <$> [0; 6; 1; 4; 2; 1]%Z;
     w_vals := F32.of_Z <$> [0; 1; -1; 2; 1; -1]%Z;
     visits := [1; 0; 0; 0; 0];
     depth := 1;
     max_depth := 3;
     cur_node := 1;
     next_empty := 6;
     reward_indices := [1; 0; 1; 0; 1]%Z;
     subtrees := replicate 6 0;
     parents := [0; 0; 1; 1; 3; 4] |}.

(** A stand-in for [jax.nn.softmax] that is exact on the logits the demo
    evaluator produces: equal finite logits over two actions give one half
    each, and logits that are all minus infinity give NaN. *)
Definition demo_softmax (logits : list f32) : list f32 :=
  if forallb (fun x => match x with S754_infinity true => true | _ => false end)
             logits
  then replicate (length logits) S754_nan
  else replicate (length logits) half.

(** A key is a number; splitting key [k] gives the keys [2k+1] and [2k+2]. *)
Definition demo_split (k : nat) : nat * nat := (2 * k + 1, 2 * k + 2).

Definition demo_blank : Tree.MCTSNode nat :=
  {| Tree.n := 0; Tree.p := []; Tree.w := F32.zero;
     Tree.terminal := false; Tree.embedding := 0 |}.

(** An environment that counts plies in its embedding, pays reward one,
    reports [term] as its terminal flag and [mask] as its legality mask; the
    evaluator answers equal logits and the value one half; selection always
    takes action 0.  The discount is the Python float [-1.0] and the
    temperature [0.0]. *)
Definition demo_params (mask : list bool) (term : bool)
  : Refactored.Params nat nat :=
  {| Refactored.step_fn := fun e _ => (S e, F32.one, term);
     Refactored.eval_fn := fun _ => ([F32.zero; F32.zero], half);
     Refactored.action_selection_fn := fun _ _ _ => 0;
     Refactored.action_mask_fn := fun _ => mask;
     Refactored.discount := S754_finite true 4503599627370496 (-52);
     Refactored.temperature := S754_zero false;
     Refactored.softmax := demo_softmax;
     Refactored.split := demo_split;
     Refactored.choice := fun _ _ => 0;
     Refactored.power := fun x _ => x;
     Refactored.blank := demo_blank |}.

(** A fresh tree of four slots and two actions whose root was seeded. *)
Definition demo_tree : Tree.MCTSTree nat nat :=
  Refactored.update_root (demo_params [true; true] true)
    (Tree.reset demo_blank 7 4 2) 0.

(** The seeded tree after one iteration whose step terminates: slot 2 is a
    terminal child of the root. *)
Definition demo_tree_visited : Tree.MCTSTree nat nat :=
  default demo_tree
    (Refactored.iterate (demo_params [true; true] true) 4 demo_tree).

(** The collaborators of the flat engine, in the same spirit. *)
Definition demo_env (mask : list bool) (term : bool) : Collab nat nat :=
  {| num_actions := 2;
     env_step := fun e _ => (S e, term);
     legal_action_mask := fun _ => mask;
     reward := fun _ => [F32.one; F32.neg F32.one];
     cur_player_id := fun _ => 0;
     evaluator := fun _ => ([F32.zero; F32.zero], half);
     softmax := demo_softmax;
     split := demo_split;
     dirichlet := fun _ alpha => replicate (length alpha) half |}.

End Demo.

(** ** The evaluation games of the Othello trainer
    ([envs/othello/trainer.py]) *)

Module Trainer.

(** The collaborators of the evaluation games, acting on the state [W] of
    the test collector, its evaluator and its environment:
    [test_collector.reset()]; [test_collector.collect_step(model)], whose
    flag tells whether [model] is the best model; the step of a baseline
    ([baseline.evaluate()] followed by [baseline.env.step(actions)]); the
    split of the episodes ([env.terminated[:split] = True] followed by
    [env.reset_terminated_states()]); and [env.get_rewards()]. *)
Record Collab (W : Type) : Type := {
  reset : W -> W;
  collect_step : bool -> W -> W * list bool;
  baseline_step : W -> W * list bool;
  split_episodes : nat -> W -> W;
  get_rewards : W -> list f32
}.
Arguments reset {W}.
Arguments collect_step {W}.
Arguments baseline_step {W}.
Arguments split_episodes {W}.
Arguments get_rewards {W}.

Definition half : f32 := S754_finite false 8388608 (-24).

(** A boolean tensor that meets a [float32] tensor in a product. *)
Definition of_bool (b : bool) : f32 := if b then F32.one else F32.zero.

(** The scores a game can end with. *)
Definition outcome (x : f32) : Prop :=
  x = F32.zero \/ x = half \/ x = F32.one.

(** [(x == v).sum()]. *)
Definition count_eq (v : f32) (x : list f32) : nat :=
  length (List.filter (fun s => F32.eqb s v) x).

Section Games.
Context {W : Type}.
Variable trainer : Collab W.

(** [rewards] when the other side has moved, [1 - rewards] otherwise. *)
Definition credit (use_other : bool) (rewards : list f32) : list f32 :=
  if use_other then rewards else fmap (F32.sub F32.one) rewards.

(** [scores += credit * terminated * ~completed_episodes]. *)
Definition score_step (use_other : bool) (rewards : list f32)
    (terminated completed : list bool) (scores : list f32) : list f32 :=
  zip_with F32.add scores
    (zip_with F32.mul
       (zip_with F32.mul (credit use_other rewards) (of_bool <$> terminated))
       (of_bool <$> (negb <$> completed))).

(** The loop [while not completed_episodes.all()] of both evaluation
    functions, run for at most [fuel] rounds; [step] makes the move of the
    side whose turn it is. *)
Fixpoint score_loop (step : bool -> W -> W * list bool) (fuel : nat) (w : W)
    (completed_episodes : list bool) (scores : list f32) (use_other : bool)
  : option (W * list f32) :=
  if forallb id completed_episodes then Some (w, scores)
  else
    match fuel with
    | 0 => None
    | S fuel' =>
        let '(w, terminated) := step use_other w in
        let rewards := get_rewards trainer w in
        let scores :=
          score_step use_other rewards terminated completed_episodes scores in
        let completed_episodes := zip_with orb completed_episodes terminated in
        score_loop step fuel' w completed_episodes scores (negb use_other)
    end.

(** The part both evaluation functions share: the collector is reset, the
    model makes the first move, the first half of the episodes is restarted,
    the games are played, and the wins, draws and losses are counted. *)
Definition evaluate_against (step : bool -> W -> W * list bool) (fuel : nat)
    (w : W) (num_episodes : nat) : option (W * (nat * nat * nat)) :=
  let w := reset trainer w in
  let split := num_episodes / 2 in
  let completed_episodes := replicate num_episodes false in
  let scores := replicate num_episodes F32.zero in
  let w := fst (collect_step trainer false w) in
  let w := split_episodes trainer split w in
  match score_loop step fuel w completed_episodes scores true with
  | None => None
  | Some (w, scores) =>
      let wins := count_eq F32.one scores in
      let draws := count_eq half scores in
      let losses := count_eq F32.zero scores in
      Some (w, (wins, draws, losses))
  end.

Definition evaluate_against_best (fuel : nat) (w : W) (num_episodes : nat)
  : option (W * (nat * nat * nat)) :=
  evaluate_against (collect_step trainer) fuel w num_episodes.

Definition evaluate_against_baseline (fuel : nat) (w : W) (num_episodes : nat)
  : option (W * (nat * nat * nat)) :=
  evaluate_against
    (fun use_other_evaluator w =>
       if use_other_evaluator then baseline_step trainer w
       else collect_step trainer false w)
    fuel w num_episodes.

End Games.

(** A collector whose state counts the steps made: episode 0 ends on every
    step, episode 1 ends on the steps after the second one; the rewards are
    one for episode 0 and one half for episode 1. *)
Definition demo : Collab nat :=
  {| reset := fun _ => 0;
     collect_step := fun _ k => (S k, [true; 2 <? k]);
     baseline_step := fun k => (S k, [true; 2 <? k]);
     split_episodes := fun _ k => k;
     get_rewards := fun _ => [F32.one; half] |}.

End Trainer.

(** ** The tournament ([core/test/tournament/tournament.py]) *)

Module Tournament.

(** [TournamentPlayer]; the ratings are Python floats. *)
Record TournamentPlayer (Ev Cfg : Type) : Type := {
  rating : spec_float;
  initial_rating : spec_float;
  name : String.string;
  evaluator : Ev;
  raw_config : Cfg
}.
Arguments rating {Ev Cfg}.
Arguments initial_rating {Ev Cfg}.
Arguments name {Ev Cfg}.
Arguments evaluator {Ev Cfg}.
Arguments raw_config {Ev Cfg}.

(** [GameResult]. *)
Record GameResult : Type := {
  player1_name : String.string;
  player2_name : String.string;
  player1_result : spec_float;
  player2_result : spec_float
}.

(** The fields of [Tournament] that hold the competitors and the games
    played; the dictionary keeps its entries in the order of insertion. *)
Record Tournament (Ev Cfg : Type) : Type := {
  competitors : list (TournamentPlayer Ev Cfg);
  competitors_dict : list (String.string * TournamentPlayer Ev Cfg);
  results : list GameResult
}.
Arguments competitors {Ev Cfg}.
Arguments competitors_dict {Ev Cfg}.
Arguments results {Ev Cfg}.

Section Competitors.
Context {Ev Cfg : Type}.

Definition reset_rating (p : TournamentPlayer Ev Cfg) : TournamentPlayer Ev Cfg :=
  {| rating := initial_rating p;
     initial_rating := initial_rating p;
     name := name p;
     evaluator := evaluator p;
     raw_config := raw_config p |}.

(** [key in d]. *)
Definition dict_mem {V : Type} (key : String.string)
    (d : list (String.string * V)) : bool :=
  existsb (fun kv => String.eqb (fst kv) key) d.

(** [d.pop(key)]: the dictionary without the key, or [None] for the
    [KeyError] of a key that is not there. *)
Definition dict_pop {V : Type} (key : String.string)
    (d : list (String.string * V)) : option (list (String.string * V)) :=
  if dict_mem key d
  then Some (List.filter (fun kv => negb (String.eqb (fst kv) key)) d)
  else None.

(** [remove_competitor]: [inl] is the tournament after the call, [inr] the
    tournament as the call leaves it when [pop] raises [KeyError]. *)
Definition remove_competitor (t : Tournament Ev Cfg) (key : String.string)
  : Tournament Ev Cfg + Tournament Ev Cfg :=
  let competitors' :=
    List.filter (fun competitor => negb (String.eqb (name competitor) key))
                (competitors t) in
  match dict_pop key (competitors_dict t) with
  | None =>
      inr {| competitors := competitors';
             competitors_dict := competitors_dict t;
             results := results t |}
  | Some d =>
      inl {| competitors := competitors';
             competitors_dict := d;
             results :=
               List.filter
                 (fun result =>
                    negb (String.eqb (player1_name result) key)
                    && negb (String.eqb (player2_name result) key))
                 (results t) |}
  end.

(** The tournaments in which the list and the dictionary agree: the
    dictionary holds the competitors of the list under their names, in the
    order of the list, no two competitors share a name, and every game was
    played between two competitors. *)
Definition consistent (t : Tournament Ev Cfg) : Prop :=
  competitors_dict t = fmap (fun c => (name c, c)) (competitors t) /\
  NoDup (fmap name (competitors t)) /\
  Forall (fun r => (player1_name r ∈ (fmap name (competitors t))) /\
                   (player2_name r ∈ (fmap name (competitors t))))
         (results t).

End Competitors.

(** What a call can end with: its result, the [ZeroDivisionError] of a
    batch size of zero, or a loop that has not ended within the rounds it
    was given. *)
Inductive outcome (A : Type) : Type :=
| returned (a : A)
| zero_division
| unfinished.
Arguments returned {A}.
Arguments zero_division {A}.
Arguments unfinished {A}.

(** The entries of a competitor's configuration that the tournament reads:
    [config.get('checkpoint')], [config['algo_config']] and
    [config['name']]. *)
Record Config (Algo : Type) : Type := {
  checkpoint : option String.string;
  algo_config : Algo;
  config_name : String.string
}.
Arguments checkpoint {Algo}.
Arguments algo_config {Algo}.
Arguments config_name {Algo}.

(** The collaborators of the games, acting on a state [W] that holds the
    tournament's environment, the evaluators and the files:
    [self.env = init_env(self.device, batch_size, self.raw_env_config, False)];
    [load_model_and_optimizer_from_checkpoint(load_checkpoint(path), ...)];
    [init_evaluator(algo_config, self.env[, model])];
    [evaluator.env = self.env]; [evaluator.reset()]; [evaluator.step()], of
    which the actions and the termination flags are used;
    [evaluator.env.terminated[:split] = True] followed by
    [evaluator.env.reset_terminated_states()];
    [evaluator.reset_terminated_envs(mask)];
    [evaluator.step_evaluator(actions, mask)]; [evaluator.env.cur_players];
    and [evaluator.env.get_rewards(starting_players)].  The tensors that
    [step] and [get_rewards] return meet tensors of one entry per game of
    the batch in the products and disjunctions of [play_games], which need
    them to have as many entries; a tensor that a collaborator has returned
    or been given is a value, which no later call changes. *)
Record Collab (W Ev Model Algo A : Type) : Type := {
  init_env : nat -> W -> W;
  load_model : String.string -> W -> W * Model;
  init_evaluator : Algo -> option Model -> W -> W * Ev;
  set_env : Ev -> W -> W;
  reset : Ev -> W -> W;
  step : Ev -> W -> W * (A * list bool);
  split_episodes : Ev -> nat -> W -> W;
  reset_terminated_envs : Ev -> list bool -> W -> W;
  step_evaluator : Ev -> A -> list bool -> W -> W;
  cur_players : Ev -> W -> list Z;
  get_rewards : Ev -> list Z -> W -> list f32
}.
Arguments init_env {W Ev Model Algo A}.
Arguments load_model {W Ev Model Algo A}.
Arguments init_evaluator {W Ev Model Algo A}.
Arguments set_env {W Ev Model Algo A}.
Arguments reset {W Ev Model Algo A}.
Arguments step {W Ev Model Algo A}.
Arguments split_episodes {W Ev Model Algo A}.
Arguments reset_terminated_envs {W Ev Model Algo A}.
Arguments step_evaluator {W Ev Model Algo A}.
Arguments cur_players {W Ev Model Algo A}.
Arguments get_rewards {W Ev Model Algo A}.

(** [tensor.tolist()] on a [float32] tensor: every binary32 number is a
    binary64 number. *)
Definition to_py (x : f32) : spec_float :=
  match x with
  | S754_finite s m e => binary_round 53 1024 s m e
  | _ => x
  end.

(** [d[key] = v]: the value of a key that is there is replaced in place, a
    new key goes to the end. *)
Definition dict_set {V : Type} (key : String.string) (v : V)
    (d : list (String.string * V)) : list (String.string * V) :=
  if dict_mem key d
  then fmap (fun kv => if String.eqb (fst kv) key then (key, v) else kv) d
  else d ++ [(key, v)].

Section Games.
Context {W Ev Model Algo A : Type}.
Variable games : Collab W Ev Model Algo A.

(** [self.n_games], which none of the functions below writes. *)
Variable n_games : nat.

(** [scores += rewards * terminated * (~completed_episodes)]. *)
Definition score_step (rewards : list f32) (terminated completed : list bool)
    (scores : list f32) : list f32 :=
  zip_with F32.add scores
    (zip_with F32.mul
       (zip_with F32.mul rewards (Trainer.of_bool <$> terminated))
       (Trainer.of_bool <$> (negb <$> completed))).

(** The loop [while not completed_episodes.all()] of [play_games], run for
    at most [fuel] rounds. *)
Fixpoint game_loop (evaluator1 evaluator2 : Ev) (starting_players : list Z)
    (fuel : nat) (w : W) (completed_episodes : list bool) (scores : list f32)
    (use_second_evaluator : bool) : option (W * list f32) :=
  if forallb id completed_episodes then Some (w, scores)
  else
    match fuel with
    | 0 => None
    | S fuel' =>
        let '(w, (actions, terminated)) :=
          if use_second_evaluator then step games evaluator2 w
          else step games evaluator1 w in
        let w :=
          if use_second_evaluator
          then step_evaluator games evaluator1 actions terminated w
          else step_evaluator games evaluator2 actions terminated w in
        let rewards := get_rewards games evaluator1 starting_players w in
        let scores := score_step rewards terminated completed_episodes scores in
        let completed_episodes := zip_with orb completed_episodes terminated in
        game_loop evaluator1 evaluator2 starting_players fuel' w
                  completed_episodes scores (negb use_second_evaluator)
    end.

(** The body of the loop over the batches: one batch of [batch_size] games.
    [(cur_players - 1) % 2] has the sign of the divisor, and is the same
    with and without the wrap-around of the tensor's integers, whose number
    is even. *)
Definition play_batch (evaluator1 evaluator2 : Ev) (batch_size fuel : nat)
    (w : W) : option (W * list f32) :=
  let w := set_env games evaluator1 w in
  let w := set_env games evaluator2 w in
  let w := reset games evaluator1 w in
  let w := reset games evaluator2 w in
  let split := batch_size / 2 in
  let reset_mask := replicate split true ++ replicate (batch_size - split) false in
  let completed_episodes := replicate batch_size false in
  let scores := replicate batch_size F32.zero in
  let '(w, (actions, terminated)) := step games evaluator1 w in
  let envs_to_reset := zip_with orb terminated reset_mask in
  let w := split_episodes games evaluator1 split w in
  let w := reset_terminated_envs games evaluator1 envs_to_reset w in
  let w := step_evaluator games evaluator2 actions envs_to_reset w in
  let starting_players :=
    fmap (fun p => ((p - 1) mod 2)%Z) (cur_players games evaluator1 w) in
  game_loop evaluator1 evaluator2 starting_players fuel w
            completed_episodes scores true.

(** [for _ in range(batches)]. *)
Fixpoint play_batches (evaluator1 evaluator2 : Ev) (batch_size fuel : nat)
    (batches : nat) (w : W) (all_scores : list spec_float)
  : option (W * list spec_float) :=
  match batches with
  | 0 => Some (w, all_scores)
  | S batches' =>
      match play_batch evaluator1 evaluator2 batch_size fuel w with
      | None => None
      | Some (w, scores) =>
          play_batches evaluator1 evaluator2 batch_size fuel batches' w
                       (all_scores ++ fmap to_py scores)
      end
  end.

Definition of_option {B : Type} (o : option B) : outcome B :=
  match o with
  | Some b => returned b
  | None => unfinished
  end.

(** [play_games]; the sizes are natural numbers. *)
Definition play_games (evaluator1 evaluator2 : Ev) (batch_size : option nat)
    (fuel : nat) (w : W) : outcome (W * list spec_float) :=
  match batch_size with
  | None =>
      of_option (play_batches evaluator1 evaluator2 n_games fuel 1 w [])
  | Some batch_size =>
      if batch_size =? 0 then zero_division
      else
        let batches := n_games / batch_size in
        let w := init_env games batch_size w in
        of_option
          (play_batches evaluator1 evaluator2 batch_size fuel batches w [])
  end.

(** [init_competitor]; an empty path is as good as none, and the rating is
    the integer 1500. *)
Definition init_competitor (config : Config Algo) (w : W)
  : W * TournamentPlayer Ev (Config Algo) :=
  let '(w, model) :=
    match checkpoint config with
    | Some path =>
        if String.eqb path String.EmptyString then (w, None)
        else let '(w, model) := load_model games path w in (w, Some model)
    | None => (w, None)
    end in
  let '(w, evaluator) := init_evaluator games (algo_config config) model w in
  (w, {| rating := binary_normalize 53 1024 1500 0 false;
         initial_rating := binary_normalize 53 1024 1500 0 false;
         name := config_name config;
         evaluator := evaluator;
         raw_config := config |}).

(** The results of the games of one pairing. *)
Definition new_results (competitor new_competitor :
                          TournamentPlayer Ev (Config Algo))
    (p1_scores : list spec_float) : list GameResult :=
  fmap (fun p1_score =>
          {| player1_name := name competitor;
             player2_name := name new_competitor;
             player1_result := p1_score;
             player2_result := F32.py_sub F32.py_one p1_score |})
       p1_scores.

(** [for competitor in self.competitors] of [collect_games]. *)
Fixpoint collect_loop (new_competitor : TournamentPlayer Ev (Config Algo))
    (batch_size : option nat) (fuel : nat)
    (cs : list (TournamentPlayer Ev (Config Algo))) (w : W)
    (results : list GameResult) : outcome (W * list GameResult) :=
  match cs with
  | [] => returned (w, results)
  | competitor :: cs' =>
      match play_games (evaluator competitor) (evaluator new_competitor)
                       batch_size fuel w with
      | returned (w, p1_scores) =>
          collect_loop new_competitor batch_size fuel cs' w
            (results ++ new_results competitor new_competitor p1_scores)
      | zero_division => zero_division
      | unfinished => unfinished
      end
  end.

Definition collect_games (t : Tournament Ev (Config Algo))
    (new_competitor_config : Config Algo) (batch_size : option nat)
    (fuel : nat) (w : W) : outcome (W * Tournament Ev (Config Algo)) :=
  let '(w, new_competitor) := init_competitor new_competitor_config w in
  if negb (dict_mem (name new_competitor) (competitors_dict t))
  then
    match collect_loop new_competitor batch_size fuel (competitors t) w
                       (results t) with
    | returned (w, results') =>
        returned
          (w, {| competitors := competitors t ++ [new_competitor];
                 competitors_dict :=
                   dict_set (name new_competitor) new_competitor
                            (competitors_dict t);
                 results := results' |})
    | zero_division => zero_division
    | unfinished => unfinished
    end
  else returned (w, t).

(** The loop [for competitor in competitors: self.collect_games(competitor)]
    of [run]; the calls of [save] and [simulate_elo] that follow it are not
    part of it. *)
Fixpoint run_loop (t : Tournament Ev (Config Algo))
    (configs : list (Config Algo)) (fuel : nat) (w : W)
  : outcome (W * Tournament Ev (Config Algo)) :=
  match configs with
  | [] => returned (w, t)
  | competitor :: configs' =>
      match collect_games t competitor None fuel w with
      | returned (w, t) => run_loop t configs' fuel w
      | zero_division => zero_division
      | unfinished => unfinished
      end
  end.

End Games.

Import String.StringSyntax.
Local Open Scope string_scope.

(** A tournament of two competitors who have played one game. *)
Definition demo_player (n : String.string) : TournamentPlayer unit unit :=
  {| rating := S754_zero false; initial_rating := S754_zero false;
     name := n; evaluator := tt; raw_config := tt |}.

Definition demo : Tournament unit unit :=
  {| competitors := [demo_player "first"; demo_player "second"];
     competitors_dict :=
       [("first", demo_player "first");
        ("second", demo_player "second")];
     results :=
       [{| player1_name := "first"; player2_name := "second";
           player1_result := S754_zero false;
           player2_result := F32.py_one |}] |}.

(** Games on an environment of [b] episodes whose state counts the steps
    made: episode [i] is reported as terminated by the steps made after more
    than [i] steps, and the reward is one for the episodes of even index and
    zero for the others. *)
Definition demo_games (b : nat) : Collab nat unit unit unit unit :=
  {| init_env := fun _ w => w;
     load_model := fun _ w => (w, tt);
     init_evaluator := fun _ _ w => (w, tt);
     set_env := fun _ w => w;
     reset := fun _ _ => 0;
     step := fun _ w => (S w, (tt, fmap (fun i => i <? w) (seq 0 b)));
     split_episodes := fun _ _ w => w;
     reset_terminated_envs := fun _ _ w => w;
     step_evaluator := fun _ _ _ w => w;
     cur_players := fun _ _ => replicate b 1%Z;
     get_rewards := fun _ _ _ =>
       fmap (fun i => if Nat.even i then F32.one else F32.zero) (seq 0 b) |}.

Definition demo_config (n : String.string) : Config unit :=
  {| checkpoint := None; algo_config := tt; config_name := n |}.

(** The tournament [demo] with the configurations as the competitors'
    [raw_config]. *)
Definition demo_entrant (n : String.string)
  : TournamentPlayer unit (Config unit) :=
  {| rating := S754_zero false; initial_rating := S754_zero false;
     name := n; evaluator := tt; raw_config := demo_config n |}.

Definition demo_tournament : Tournament unit (Config unit) :=
  {| competitors := [demo_entrant "first"; demo_entrant "second"];
     competitors_dict :=
       [("first", demo_entrant "first");
        ("second", demo_entrant "second")];
     results :=
       [{| player1_name := "first"; player2_name := "second";
           player1_result := S754_zero false;
           player2_result := F32.py_one |}] |}.

Local Close Scope string_scope.

End Tournament.


Lemma arg_gt_rank (x y : f32) :
  F32.arg_gt x y = true <-> F32.lex_lt (F32.rank y) (F32.rank x).
Proof.
  unfold F32.arg_gt, F32.ltb, SFltb, SFcompare, F32.lex_lt.
  destruct x as [sx|sx| |sx mx ex], y as [sy|sy| |sy my ey];
    try destruct sx; try destruct sy; cbn;
    try (split; [intros; try discriminate; lia | intros; try reflexivity; lia]).
  all: change (Pos.compare_cont Eq my mx) with (Pos.compare my mx);
    destruct (Z.compare_spec ey ex); destruct (Pos.compare_spec my mx); cbn;
    split; intros; try discriminate; try reflexivity; try lia.
Qed.

Lemma arg_gt_false_rank (x y : f32) :
  F32.arg_gt x y = false <-> ~ F32.lex_lt (F32.rank y) (F32.rank x).
Proof.
  rewrite <- arg_gt_rank. destruct (F32.arg_gt x y); split; congruence.
Qed.

Lemma arg_gt_le_trans (x b j : f32) :
  F32.arg_gt x b = true -> F32.arg_gt j b = false -> F32.arg_gt x j = true.
Proof.
  rewrite !arg_gt_rank, arg_gt_false_rank. unfold F32.lex_lt.
  destruct (F32.rank x) as [[x1 x2] x3], (F32.rank b) as [[b1 b2] b3],
    (F32.rank j) as [[j1 j2] j3]. lia.
Qed.

Lemma arg_le_trans (x y z : f32) :
  F32.arg_gt x y = false -> F32.arg_gt y z = false -> F32.arg_gt x z = false.
Proof.
  rewrite !arg_gt_false_rank. unfold F32.lex_lt.
  destruct (F32.rank x) as [[x1 x2] x3], (F32.rank y) as [[y1 y2] y3],
    (F32.rank z) as [[z1 z2] z3]. lia.
Qed.

Lemma arg_gt_asym (x y : f32) :
  F32.arg_gt x y = true -> F32.arg_gt y x = false.
Proof.
  rewrite arg_gt_rank, arg_gt_false_rank. unfold F32.lex_lt.
  destruct (F32.rank x) as [[x1 x2] x3], (F32.rank y) as [[y1 y2] y3]. lia.
Qed.

Lemma arg_gt_irrefl (x : f32) : F32.arg_gt x x = false.
Proof.
  rewrite arg_gt_false_rank. unfold F32.lex_lt.
  destruct (F32.rank x) as [[x1 x2] x3]. lia.
Qed.

(** The running best of [argmax_from] is a first maximum of the scanned
    prefix, and stays one when the scan ends. *)
Lemma argmax_from_spec (l : list f32) :
  forall (pre : list f32) (bi : nat) (b : f32),
    pre !! bi = Some b ->
    (forall k y, pre !! k = Some y -> F32.arg_gt y b = false) ->
    (forall k y, k < bi -> pre !! k = Some y -> F32.arg_gt b y = true) ->
    exists v,
      (pre ++ l) !! Jax.argmax_from bi b (length pre) l = Some v /\
      (forall k y, (pre ++ l) !! k = Some y -> F32.arg_gt y v = false) /\
      (forall k y, k < Jax.argmax_from bi b (length pre) l ->
                   (pre ++ l) !! k = Some y -> F32.arg_gt v y = true).
Proof.
  induction l as [|x l IH]; intros pre bi b Hb Hmax Hfirst; cbn [Jax.argmax_from].
  - rewrite app_nil_r. exists b. auto.
  - replace (pre ++ x :: l) with ((pre ++ [x]) ++ l) by (rewrite <- app_assoc; reflexivity).
    replace (S (length pre)) with (length (pre ++ [x])) by (rewrite length_app; cbn; lia).
    destruct (F32.arg_gt x b) eqn:Hx.
    + apply IH.
      * rewrite lookup_app_r by lia. rewrite Nat.sub_diag. reflexivity.
      * intros k y Hk. apply lookup_app_Some in Hk as [Hk | [Hlen Hk]].
        -- apply (arg_le_trans y b x); [eauto | apply arg_gt_asym; exact Hx].
        -- destruct (k - length pre) eqn:E; cbn in Hk; [|destruct n; discriminate].
           inversion Hk; subst. apply arg_gt_irrefl.
      * intros k y Hlt Hk. rewrite lookup_app_l in Hk by lia.
        apply (arg_gt_le_trans x b y); [exact Hx | eauto].
    + apply IH.
      * rewrite lookup_app_l; [exact Hb | apply lookup_lt_Some in Hb; exact Hb].
      * intros k y Hk. apply lookup_app_Some in Hk as [Hk | [Hlen Hk]]; [eauto|].
        destruct (k - length pre) eqn:E; cbn in Hk; [|destruct n; discriminate].
        inversion Hk; subst. exact Hx.
      * intros k y Hlt Hk. apply lookup_lt_Some in Hb.
        rewrite lookup_app_l in Hk by lia. eauto.
Qed.

Lemma argmax_spec (l : list f32) :
  0 < length l ->
  exists v,
    l !! Jax.argmax l = Some v /\
    (forall k y, l !! k = Some y -> F32.arg_gt y v = false) /\
    (forall k y, k < Jax.argmax l -> l !! k = Some y -> F32.arg_gt v y = true).
Proof.
  destruct l as [|x l]; cbn [length]; [lia|]. intros _.
  unfold Jax.argmax.
  destruct (argmax_from_spec l [x] 0 x) as (v & H1 & H2 & H3).
  - reflexivity.
  - intros [|k] y Hk; cbn in Hk; [|discriminate]. inversion Hk; subst. apply arg_gt_irrefl.
  - intros; lia.
  - exists v. auto.
Qed.

Lemma gather_lookup {A : Type} (d : A) (l : list A) (i : nat) :
  i < length l -> l !! i = Some (Jax.gather d l i).
Proof.
  intros Hi. unfold Jax.gather. rewrite Nat.min_l by lia.
  rewrite nth_lookup. destruct (l !! i) eqn:E; [reflexivity|].
  apply lookup_ge_None in E. lia.
Qed.

Lemma gather_nth {A : Type} (d : A) (l : list A) (i : nat) :
  i < length l -> Jax.gather d l i = nth i l d.
Proof. intros Hi. unfold Jax.gather. rewrite Nat.min_l by lia. reflexivity. Qed.

Lemma lookup_nth_Some {A : Type} (d : A) (l : list A) (i : nat) :
  i < length l -> l !! i = Some (nth i l d).
Proof.
  intros Hi. rewrite nth_lookup. destruct (l !! i) eqn:E; [reflexivity|].
  apply lookup_ge_None in E. lia.
Qed.

Import Legacy Demo.

Section PUCT.
Context {K : Type}.
Variable config : MCTSConfig.
Variable st : MCTSState K.
Variable legal_actions : list bool.

Let s := cur_node st.
Let c := F32.of_py (puct_coeff config).
Let edge (a : nat) : nat := nth a (Jax.gather [] (idx_action_map st) s) 0.
Let prior (a : nat) : f32 := nth a (Jax.gather [] (p_vals st) s) F32.zero.
Let A : nat := length (Jax.gather [] (idx_action_map st) s).
Let N (a : nat) : f32 :=
  if edge a =? 0 then F32.zero else Jax.gather F32.zero (n_vals st) (edge a).
Let W (a : nat) : f32 :=
  if edge a =? 0 then F32.zero else Jax.gather F32.zero (w_vals st) (edge a).
Let total : f32 := Jax.sum (N <$> seq 0 A).
Let Q (a : nat) : f32 := F32.div (W a) (F32.maximum F32.one (N a)).
Let U (a : nat) : f32 :=
  F32.div (F32.mul (F32.mul c (prior a)) (F32.sqrt (F32.add F32.one total)))
          (F32.add F32.one (N a)).
Let score (a : nat) : f32 :=
  if nth a legal_actions false then F32.add (Q a) (U a) else F32.neg_inf.

Lemma child_stat_fmap (vals : list f32) (f : nat -> f32) :
  (forall a, f a = if edge a =? 0 then F32.zero
                   else Jax.gather F32.zero vals (edge a)) ->
  child_stat vals <$> children st = f <$> seq 0 A.
Proof.
  intros Hf. apply list_eq. intros a. rewrite !list_lookup_fmap.
  unfold children. fold s.
  destruct (decide (a < A)) as [Ha|Ha].
  - rewrite (lookup_nth_Some 0 _ a Ha). rewrite lookup_seq_lt by exact Ha.
    cbn. f_equal. rewrite Hf. unfold child_stat, edge.
    destruct (nth a _ 0) eqn:E; reflexivity.
  - rewrite lookup_ge_None_2 by (fold A; lia).
    rewrite lookup_seq_ge by lia. reflexivity.
Qed.

Lemma puct_scores_lookup (a : nat) :
  a < A -> a < length (Jax.gather [] (p_vals st) s) ->
  puct_scores config st legal_actions !! a = Some (score a).
Proof.
  intros Ha Hp. unfold puct_scores, Jax.mask_neg_inf.
  rewrite list_lookup_imap.
  rewrite (child_stat_fmap (n_vals st) N) by reflexivity.
  rewrite (child_stat_fmap (w_vals st) W) by reflexivity.
  rewrite !lookup_zip_with, !list_lookup_fmap.
  rewrite lookup_seq_lt by exact Ha. fold s.
  rewrite (lookup_nth_Some F32.zero _ a Hp). cbn.
  reflexivity.
Qed.

Lemma puct_argmax_first :
  0 < A ->
  length (Jax.gather [] (p_vals st) s) = A ->
  let r := choose_with_puct config st legal_actions in
  puct_scores config st legal_actions = score <$> seq 0 A /\
  r < A /\
  (forall b, b < A -> F32.arg_gt (score b) (score r) = false) /\
  (forall b, b < r -> F32.arg_gt (score r) (score b) = true).
Proof.
  intros HA Hlen r.
  assert (Hscores : puct_scores config st legal_actions = score <$> seq 0 A).
  { apply list_eq. intros a. destruct (decide (a < A)) as [Ha|Ha].
    - rewrite puct_scores_lookup by lia.
      rewrite list_lookup_fmap, lookup_seq_lt by exact Ha. reflexivity.
    - rewrite list_lookup_fmap, lookup_seq_ge by lia. cbn.
      apply lookup_ge_None. unfold puct_scores, Jax.mask_neg_inf.
      rewrite length_imap, !length_zip_with, !length_fmap.
      unfold children. fold s. fold A. lia. }
  split; [exact Hscores|].
  assert (Hl : length (puct_scores config st legal_actions) = A).
  { rewrite Hscores, length_fmap, length_seq. reflexivity. }
  destruct (argmax_spec (puct_scores config st legal_actions)) as (v & Hv & Hmax & Hfirst);
    [lia|].
  fold (choose_with_puct config st legal_actions) in Hv, Hfirst. fold r in Hv, Hfirst.
  assert (Hr : r < A) by (apply lookup_lt_Some in Hv; lia).
  assert (Hvr : v = score r).
  { rewrite puct_scores_lookup in Hv by lia. congruence. }
  subst v. split; [exact Hr|]. split.
  - intros b Hb. apply (Hmax b). apply puct_scores_lookup; lia.
  - intros b Hb. apply (Hfirst b); [exact Hb|]. apply puct_scores_lookup; lia.
Qed.

End PUCT.


(** C1. [choose_with_puct] scores every action [a] of the current node as
    [W_a / max(N_a, 1) + c * p[s,a] * sqrt(1 + sum_b N_b) / (1 + N_a)], where
    [N_a] and [W_a] are the statistics of the child [edge[s,a]] when it is not
    empty and [0] otherwise; an illegal action scores minus infinity; the
    result is an action of maximal score, and every action before it scores
    strictly less. *)
Theorem choose_with_puct_argmax {K : Type} (config : MCTSConfig)
    (st : MCTSState K) (legal_actions : list bool) :
  let s := cur_node st in
  let c := F32.of_py (puct_coeff config) in
  let edge a := nth a (Jax.gather [] (idx_action_map st) s) 0 in
  let prior a := nth a (Jax.gather [] (p_vals st) s) F32.zero in
  let A := length (Jax.gather [] (idx_action_map st) s) in
  let N a :=
    if edge a =? 0 then F32.zero else Jax.gather F32.zero (n_vals st) (edge a) in
  let W a :=
    if edge a =? 0 then F32.zero else Jax.gather F32.zero (w_vals st) (edge a) in
  let total := Jax.sum (N <$> seq 0 A) in
  let Q a := F32.div (W a) (F32.maximum F32.one (N a)) in
  let U a :=
    F32.div (F32.mul (F32.mul c (prior a)) (F32.sqrt (F32.add F32.one total)))
            (F32.add F32.one (N a)) in
  let score a :=
    if nth a legal_actions false then F32.add (Q a) (U a) else F32.neg_inf in
  let r := choose_with_puct config st legal_actions in
  0 < A ->
  length (Jax.gather [] (p_vals st) s) = A ->
  puct_scores config st legal_actions = score <$> seq 0 A /\
  r < A /\
  (forall b, b < A -> F32.arg_gt (score b) (score r) = false) /\
  (forall b, b < r -> F32.arg_gt (score r) (score b) = true).
Proof.
  intros s c edge prior A N W total Q U score r HA Hlen.
  exact (puct_argmax_first config st legal_actions HA Hlen).
Qed.

Lemma choose_with_puct_argmax_witness :
  0 < 2 /\ choose_with_puct demo_config demo_state [true; true] < 2.
Proof.
  split; [lia|].
  exact (proj1 (proj2 (choose_with_puct_argmax demo_config demo_state [true; true]
                         ltac:(vm_compute; lia) ltac:(reflexivity)))).
Defined.


(** ** Exact products and sums of binary32 *)

Lemma iter_shr_exact (k : positive) (m : positive) :
  SpecFloat.iter_pos shr_1 k
    {| shr_m := Zpos (Pos.iter xO m k); shr_r := false; shr_s := false |}
  = {| shr_m := Zpos m; shr_r := false; shr_s := false |}.
Proof.
  revert m. induction k; intros m; simpl; rewrite ?IHk; reflexivity.
Qed.

(** Rounding a canonical mantissa that was shifted left by 23 bits gives the
    mantissa back. *)
Lemma round_shifted (s : bool) (m : positive) (e : Z) :
  bounded F32.prec F32.emax m e = true ->
  binary_round_aux F32.prec F32.emax s (Zpos (Pos.iter xO m 23)) (e + -23) loc_Exact
  = S754_finite s m e.
Proof.
  intros Hb. unfold bounded, canonical_mantissa in Hb.
  apply andb_true_iff in Hb. destruct Hb as [Hc He].
  apply Z.eqb_eq in Hc.
  unfold binary_round_aux, shr_fexp.
  assert (Hd : Zdigits2 (Zpos (Pos.iter xO m 23)) = (Zpos (digits2_pos m) + 23)%Z).
  { simpl. lia. }
  rewrite Hd.
  replace (Z.pos (digits2_pos m) + 23 + (e + -23))%Z
    with (Z.pos (digits2_pos m) + e)%Z by lia.
  rewrite Hc.
  replace (e - (e + -23))%Z with 23%Z by lia.
  change (shr (shr_record_of_loc (Z.pos (Pos.iter xO m 23)) loc_Exact) (e + -23) 23)
    with (SpecFloat.iter_pos shr_1 23
            {| shr_m := Zpos (Pos.iter xO m 23); shr_r := false; shr_s := false |},
          (e + -23 + 23)%Z).
  rewrite iter_shr_exact.
  cbn [shr_m loc_of_shr_record round_nearest_even shr_record_of_loc].
  replace (e + -23 + 23)%Z with e by lia.
  cbn [Zdigits2]. rewrite Hc. rewrite Z.sub_diag. cbn [shr shr_m].
  rewrite He. reflexivity.
Qed.

Lemma mul_unit_r (s u : bool) (m : positive) (e : Z) :
  bounded F32.prec F32.emax m e = true ->
  F32.mul (S754_finite s m e) (S754_finite u 8388608 (-23))
  = S754_finite (xorb s u) m e.
Proof.
  intros Hb. unfold F32.mul, SFmul.
  replace (Pos.mul m 8388608) with (Pos.iter xO m 23%positive)
    by (rewrite Pos.mul_comm; reflexivity).
  apply round_shifted. exact Hb.
Qed.

Lemma mul_unit_l (s u : bool) (m : positive) (e : Z) :
  bounded F32.prec F32.emax m e = true ->
  F32.mul (S754_finite u 8388608 (-23)) (S754_finite s m e)
  = S754_finite (xorb u s) m e.
Proof.
  intros Hb. unfold F32.mul, SFmul.
  replace (-23 + e)%Z with (e + -23)%Z by lia.
  change (Pos.mul 8388608 m) with (Pos.iter xO m 23%positive).
  apply round_shifted. exact Hb.
Qed.

(** Multiplying a probability by one leaves it as it is. *)
Lemma mul_one_l_nonneg (x : f32) :
  F32.nonneg_finite x = true -> F32.mul F32.one x = x.
Proof.
  intros H. destruct x as [s|s| |s m e]; cbn in H; try discriminate.
  - destruct s; [discriminate|reflexivity].
  - apply andb_true_iff in H as [Hs Hb].
    destruct s; [discriminate|].
    unfold F32.one. rewrite mul_unit_l by exact Hb. reflexivity.
Qed.

Lemma mul_zero_l_nonneg (x : f32) :
  F32.nonneg_finite x = true -> F32.mul F32.zero x = F32.zero.
Proof.
  destruct x as [s|s| |s m e]; cbn; try discriminate.
  - destruct s; [discriminate|reflexivity].
  - intros H. apply andb_true_iff in H as [Hs Hb].
    destruct s; [discriminate|reflexivity].
Qed.

Lemma add_zero_r_nonneg (x : f32) :
  F32.nonneg_finite x = true -> F32.add x F32.zero = x.
Proof.
  destruct x as [s|s| |s m e]; cbn; try discriminate; try reflexivity.
  destruct s; [discriminate|reflexivity].
Qed.

Lemma add_zero_l_nonneg (x : f32) :
  F32.nonneg_finite x = true -> F32.add F32.zero x = x.
Proof.
  destruct x as [s|s| |s m e]; cbn; try discriminate; try reflexivity.
  destruct s; [discriminate|reflexivity].
Qed.


(** ** The root prior of the flat engine *)

Lemma gather_insert_eq {A : Type} (d x : A) (l : list A) (i : nat) :
  i < length l -> Jax.gather d (<[i := x]> l) i = x.
Proof.
  intros Hi. rewrite gather_nth by (rewrite length_insert; exact Hi).
  rewrite nth_lookup, list_lookup_insert_eq by exact Hi. reflexivity.
Qed.

Lemma zip_with_fmap_id_l (f g : f32 -> f32) (h : f32 -> f32 -> f32)
    (xs ys : list f32) :
  length ys = length xs ->
  Forall (fun x => forall y, y ∈ ys -> h (f x) (g y) = x) xs ->
  zip_with h (f <$> xs) (g <$> ys) = xs.
Proof.
  revert ys. induction xs as [|x xs IH]; intros [|y ys] Hlen Hall; cbn in *;
    try reflexivity; try discriminate.
  inversion Hall as [|? ? Hx Hxs]; subst. f_equal.
  - apply Hx. left.
  - apply IH; [lia|]. eapply Forall_impl; [exact Hxs|].
    intros z Hz y' Hy'. apply Hz. right. exact Hy'.
Qed.

Lemma zip_with_fmap_id_r (f g : f32 -> f32) (h : f32 -> f32 -> f32)
    (xs ys : list f32) :
  length ys = length xs ->
  Forall (fun y => forall x, x ∈ xs -> h (f x) (g y) = y) ys ->
  zip_with h (f <$> xs) (g <$> ys) = ys.
Proof.
  revert xs. induction ys as [|y ys IH]; intros [|x xs] Hlen Hall; cbn in *;
    try reflexivity; try discriminate.
  inversion Hall as [|? ? Hy Hys]; subst. f_equal.
  - apply Hy. left.
  - apply IH; [lia|]. eapply Forall_impl; [exact Hys|].
    intros z Hz x' Hx'. apply Hz. right. exact Hx'.
Qed.

Import Legacy Demo.

(** C5. After the root is seeded, its prior is
    [(1 - epsilon) * policy + epsilon * eta], where [policy] is the softmax of
    the legality-masked logits of the root and [eta] is the Dirichlet sample
    of length [num_actions] with every concentration equal to [alpha]; when
    the entries of [policy] and [eta] are non-negative finite numbers, the
    prior is [policy] itself for [epsilon = 0] and [eta] itself for
    [epsilon = 1]. *)
Theorem root_prior_mixes_noise {K S : Type} (config : MCTSConfig)
    (env : Collab K S) (st : MCTSState K) (env_state0 : S) :
  let eps := dirichlet_epsilon config in
  let policy :=
    softmax env (Jax.mask_neg_inf (legal_action_mask env env_state0)
                                  (fst (evaluator env env_state0))) in
  let eta :=
    dirichlet env (fst (split env (key st)))
      (replicate (num_actions env) (F32.of_py (dirichlet_alpha config))) in
  let prior := Jax.gather [] (p_vals (evaluate_root config env st env_state0)) 1 in
  1 < length (p_vals st) ->
  length eta = length policy ->
  (forall a pa ea, policy !! a = Some pa -> eta !! a = Some ea ->
     prior !! a =
     Some (F32.add (F32.mul (F32.of_py (F32.py_sub F32.py_one eps)) pa)
                   (F32.mul (F32.of_py eps) ea))) /\
  (eps = S754_zero false ->
   Forall (fun x => F32.nonneg_finite x = true) policy ->
   Forall (fun x => F32.nonneg_finite x = true) eta ->
   prior = policy) /\
  (eps = F32.py_one ->
   Forall (fun x => F32.nonneg_finite x = true) policy ->
   Forall (fun x => F32.nonneg_finite x = true) eta ->
   prior = eta).
Proof.
  intros eps policy eta prior Hlen Hshape.
  assert (Hprior : prior = noisy_policy config policy eta).
  { unfold prior, evaluate_root, root_policy, root_noise. cbn [key reset_search].
    fold eta. destruct (evaluator env env_state0) as [logits v] eqn:Ev.
    cbn [fst] in policy. fold policy.
    unfold eta. destruct (split env (key st)) as [dk nk]. cbn [p_vals fst].
    apply gather_insert_eq. exact Hlen. }
  rewrite Hprior. unfold noisy_policy. fold eps. split; [|split].
  - intros a pa ea Hpa Hea.
    rewrite lookup_zip_with, !list_lookup_fmap, Hpa, Hea. reflexivity.
  - intros -> Hpol Heta. change (F32.of_py (F32.py_sub F32.py_one (S754_zero false)))
      with F32.one.
    change (F32.of_py (S754_zero false)) with F32.zero.
    apply zip_with_fmap_id_l; [exact Hshape|].
    eapply Forall_impl; [exact Hpol|]. intros x Hx y Hy.
    rewrite mul_one_l_nonneg by exact Hx.
    rewrite mul_zero_l_nonneg.
    + apply add_zero_r_nonneg. exact Hx.
    + rewrite Forall_forall in Heta. apply Heta. exact Hy.
  - intros -> Hpol Heta. change (F32.of_py (F32.py_sub F32.py_one F32.py_one)) with F32.zero.
    change (F32.of_py F32.py_one) with F32.one.
    apply zip_with_fmap_id_r; [exact Hshape|].
    eapply Forall_impl; [exact Heta|]. intros y Hy x Hx.
    rewrite mul_one_l_nonneg by exact Hy.
    rewrite mul_zero_l_nonneg.
    + apply add_zero_l_nonneg. exact Hy.
    + rewrite Forall_forall in Hpol. apply Hpol. exact Hx.
Qed.

Lemma root_prior_mixes_noise_witness :
  1 < 6 /\
  Jax.gather [] (p_vals (evaluate_root demo_config (demo_env [true; true] false)
                                       demo_state 0)) 1
  = [half; half].
Proof.
  split; [lia|].
  refine (proj1 (proj2 (root_prior_mixes_noise demo_config
            (demo_env [true; true] false) demo_state 0 _ _)) _ _ _).
  - vm_compute. lia.
  - reflexivity.
  - reflexivity.
  - repeat constructor.
  - repeat constructor.
Defined.


(** ** The root of the tree-based engine *)

Import Tree Refactored.

Lemma at_update_node_eq {K E : Type} (b : MCTSNode E) (t : MCTSTree K E)
    (slot : nat) (node : MCTSNode E) :
  slot < capacity t -> at_ b (update_node t slot node) slot = node.
Proof. intros H. unfold at_, update_node. cbn [data]. apply gather_insert_eq. exact H. Qed.

(** C6. [update_root] keeps the visit count and the cumulative value of a
    root that was visited before (its count is positive); otherwise it sets
    the count to one and the value to the evaluator's estimate of the root
    embedding. *)
Theorem update_root_keeps_visited_root {K E : Type} (mcts : Params K E)
    (t : MCTSTree K E) (root_embedding : E) :
  let root := at_ (blank mcts) t ROOT_INDEX in
  let root' := at_ (blank mcts) (update_root mcts t root_embedding) ROOT_INDEX in
  let v0 := snd (eval_fn mcts root_embedding) in
  1 < capacity t ->
  ((0 < n root)%Z -> n root' = n root /\ w root' = w root) /\
  (~ (0 < n root)%Z -> n root' = 1%Z /\ w root' = v0).
Proof.
  intros root root' v0 Hcap.
  unfold root', update_root, evaluate_root. unfold v0.
  destruct (eval_fn mcts root_embedding) as [logits v]. fold root.
  unfold set_root. rewrite at_update_node_eq by exact Hcap. cbn [n w snd].
  split; intros Hn.
  - apply Z.ltb_lt in Hn. rewrite Hn. auto.
  - apply Z.ltb_nlt in Hn. rewrite Hn. auto.
Qed.

Lemma update_root_keeps_visited_root_witness :
  1 < 4 /\
  n (at_ Demo.demo_blank
         (update_root (Demo.demo_params [true; true] true)
                      (Tree.reset Demo.demo_blank 7 4 2) 0) ROOT_INDEX) = 1%Z.
Proof.
  split; [lia|].
  refine (proj1 (proj2 (update_root_keeps_visited_root
                   (Demo.demo_params [true; true] true)
                   (Tree.reset Demo.demo_blank 7 4 2) 0 _) _)).
  - vm_compute. lia.
  - vm_compute. discriminate.
Defined.

(** C10. [sample_root_action] draws from the tree's key before it looks at
    the temperature: whatever the temperature, the returned tree carries the
    second half of the split key, which differs from the old key whenever the
    split yields a fresh one, and its nodes, edges, parents and allocator are
    those of the input. *)
Theorem sample_root_action_consumes_key {K E : Type} (mcts : Params K E)
    (t : MCTSTree K E) :
  let t' := fst (fst (sample_root_action mcts t)) in
  snd (split mcts (key t)) <> key t ->
  key t' = snd (split mcts (key t)) /\
  key t' <> key t /\
  data t' = data t /\
  edge_map t' = edge_map t /\
  parents t' = parents t /\
  next_empty t' = next_empty t.
Proof.
  intros t' Hfresh.
  assert (Ht' : t' = snd (get_rng (split mcts) t)).
  { unfold t', sample_root_action.
    destruct (get_rng (split mcts) t) as [rk t1].
    destruct (SFeqb _ _); reflexivity. }
  rewrite Ht'. unfold get_rng.
  destruct (split mcts (key t)) as [rng new_key]. cbn in *.
  repeat split; auto.
Qed.

Lemma sample_root_action_consumes_key_witness :
  16 <> 7 /\
  key (fst (fst (sample_root_action (Demo.demo_params [true; true] true)
                                    Demo.demo_tree))) = 16.
Proof.
  split; [lia|].
  refine (proj1 (sample_root_action_consumes_key
                   (Demo.demo_params [true; true] true) Demo.demo_tree _)).
  vm_compute. lia.
Defined.

(** The tree-based engine does return the distribution of the children's
    visits, and its argmax at temperature zero. *)
Lemma sample_root_action_weights {K E : Type} (mcts : Params K E)
    (t : MCTSTree K E) :
  SFeqb (temperature mcts) (S754_zero false) = true ->
  let weights := visit_weights (get_child_data (blank mcts) t ROOT_INDEX) in
  snd (sample_root_action mcts t) = weights /\
  snd (fst (sample_root_action mcts t)) = Jax.argmax weights.
Proof.
  intros Htemp weights. unfold sample_root_action.
  destruct (get_rng (split mcts) t) as [rk t1]. rewrite Htemp. auto.
Qed.

(** C8. [get_policy] of the flat engine divides the visit count of slot 1 by
    itself: on the demo arena, whose root has two children visited once and
    four times, it answers the scalar one and not the distribution of the
    children's visits. *)
Theorem get_policy_is_root_count_ratio :
  (forall (K : Type) (st : Legacy.MCTSState K),
     Legacy.get_policy st
     = F32.div (Jax.gather F32.zero (Legacy.n_vals st) 1)
               (Jax.gather F32.zero (Legacy.n_vals st) 1)) /\
  Legacy.child_stat (Legacy.n_vals Demo.demo_state)
    <$> Legacy.children Demo.demo_state = [F32.of_Z 1; F32.of_Z 4] /\
  Legacy.get_policy Demo.demo_state = F32.one.
Proof. split; [reflexivity|]. split; vm_compute; reflexivity. Qed.

(** C9, as stated, fails: with a legality mask that is all false and a step
    that does not terminate, the expanded node is not terminal and its value
    is the evaluator's estimate (one half), not the reward (one). *)
Lemma all_illegal_leaf_not_terminal :
  let mcts := Demo.demo_params [false; false] false in
  action_mask_fn mcts 1 = [false; false] /\
  fst (fst (step mcts 0 0)) = 1 /\
  snd (fst (step mcts 0 0)) = F32.one /\
  match iterate mcts 4 Demo.demo_tree with
  | Some t' =>
      child t' ROOT_INDEX 0 = 2 /\
      terminal (at_ Demo.demo_blank t' 2) = false /\
      w (at_ Demo.demo_blank t' 2) = Demo.half /\
      w (at_ Demo.demo_blank t' 2) <> F32.one
  | None => False
  end.
Proof. vm_compute. repeat split; discriminate. Qed.

(** C9, amended.  The legality mask enters only the stored prior.  The node
    an iteration expands (or revisits) is terminal exactly when the
    environment's step reports termination; the propagated value is the
    environment's reward in that case and the evaluator's estimate otherwise,
    also when every action is illegal. *)
Theorem leaf_value_ignores_mask {K E : Type} (mcts : Params K E)
    (t : MCTSTree K E) (s : TraversalState) :
  let stepped := step mcts (embedding (at_ (blank mcts) t (parent s))) (action s) in
  let new_embedding := fst (fst stepped) in
  let reward := snd (fst stepped) in
  let terminated := snd stepped in
  let evaluated := eval_fn mcts new_embedding in
  let node_id :=
    if is_edge t (parent s) (action s) then child t (parent s) (action s)
    else next_empty t in
  let t' := fst (fst (expand mcts t s)) in
  let value := snd (expand mcts t s) in
  node_id < capacity t ->
  value = (if terminated then reward else snd evaluated) /\
  terminal (at_ (blank mcts) t' node_id) = terminated /\
  p (at_ (blank mcts) t' node_id)
  = softmax mcts (Jax.mask_neg_inf (action_mask_fn mcts new_embedding)
                                   (fst evaluated)).
Proof.
  intros stepped new_embedding reward terminated evaluated node_id t' value Hid.
  unfold t', value, expand.
  fold stepped. destruct stepped as [[e' r] term] eqn:Es.
  cbn [fst snd] in *. subst new_embedding reward terminated.
  fold evaluated. destruct evaluated as [logits v] eqn:Ev. cbn [fst snd].
  split; [reflexivity|].
  unfold node_id in *. destruct (is_edge t (parent s) (action s)).
  - rewrite at_update_node_eq by exact Hid. auto.
  - unfold add_node. apply Nat.ltb_lt in Hid as Hid'. rewrite Hid'.
    unfold at_; cbn [data]. rewrite gather_insert_eq by exact Hid. auto.
Qed.

Lemma leaf_value_ignores_mask_witness :
  2 < 4 /\
  snd (expand (Demo.demo_params [false; false] false) Demo.demo_tree
              {| parent := 1; action := 0 |}) = Demo.half.
Proof.
  split; [lia|].
  refine (proj1 (leaf_value_ignores_mask (Demo.demo_params [false; false] false)
                   Demo.demo_tree {| parent := 1; action := 0 |} _)).
  vm_compute. lia.
Defined.


(** ** Backpropagation *)

Import Tree Refactored.

Lemma path_to_root_unique (ps : list nat) (p1 : list nat) :
  forall s p2, path_to_root ps s p1 -> path_to_root ps s p2 -> p1 = p2.
Proof.
  induction p1 as [|x p1 IH]; intros s [|y p2] H1 H2; cbn in *.
  - reflexivity.
  - destruct H2 as [H2 _]. congruence.
  - destruct H1 as [H1 _]. congruence.
  - destruct H1 as (_ & -> & _ & H1), H2 as (_ & -> & _ & H2).
    f_equal. eapply IH; eassumption.
Qed.

Lemma path_to_root_suffix (ps : list nat) (a : list nat) :
  forall s x b, path_to_root ps s (a ++ x :: b) -> path_to_root ps x (x :: b).
Proof.
  induction a as [|y a IH]; intros s x b H; cbn in H.
  - destruct H as (Hs & -> & Hlt & H). cbn. auto.
  - destruct H as (_ & _ & _ & H). eapply IH. exact H.
Qed.

Lemma path_to_root_NoDup (ps : list nat) (path : list nat) :
  forall s, path_to_root ps s path -> NoDup path.
Proof.
  induction path as [|x rest IH]; intros s H; [constructor|].
  pose proof H as H0. cbn in H. destruct H as (Hs & -> & Hlt & H).
  constructor; [|eapply IH; exact H].
  intros Hin. apply list_elem_of_split in Hin as (a & b & ->).
  pose proof (path_to_root_suffix ps a _ s b H) as Hsuf.
  pose proof (path_to_root_unique ps _ _ _ H0 Hsuf) as Heq.
  apply (f_equal length) in Heq. cbn in Heq. rewrite length_app in Heq.
  cbn in Heq. lia.
Qed.

Lemma at_lookup {K E : Type} (b : MCTSNode E) (t : MCTSTree K E) (x : nat)
    (node : MCTSNode E) :
  data t !! x = Some node -> at_ b t x = node.
Proof.
  intros H. unfold at_. pose proof (lookup_lt_Some _ _ _ H) as Hlt.
  rewrite (gather_lookup b) in H by exact Hlt. congruence.
Qed.

Section Backprop.
Context {K E : Type}.
Variable mcts : Params K E.

Let gamma : f32 := F32.of_py (discount mcts).
Let discounted (k : nat) (v : f32) : f32 :=
  Nat.iter k (fun y => F32.mul y gamma) v.

Lemma backpropagate_path (path : list nat) :
  forall (fuel : nat) (t : MCTSTree K E) (s : nat) (v : f32),
    path_to_root (parents t) s path ->
    Forall (fun x => x < capacity t) path ->
    length path <= fuel ->
    exists t',
      backpropagate mcts fuel t s v = Some t' /\
      key t' = key t /\ edge_map t' = edge_map t /\
      parents t' = parents t /\ next_empty t' = next_empty t /\
      capacity t' = capacity t /\
      (forall k x, path !! k = Some x ->
         data t' !! x =
         Some {| n := (n (at_ (blank mcts) t x) + 1)%Z;
                 w := F32.add (w (at_ (blank mcts) t x)) (discounted (S k) v);
                 p := p (at_ (blank mcts) t x);
                 terminal := terminal (at_ (blank mcts) t x);
                 embedding := embedding (at_ (blank mcts) t x) |}) /\
      (forall x, x ∉ path -> data t' !! x = data t !! x).
Proof.
  induction path as [|x rest IH]; intros fuel t s v Hpath Hrange Hfuel.
  - cbn in Hpath. subst s. exists t. destruct fuel; cbn;
      repeat split; try reflexivity; intros k x Hk; discriminate.
  - pose proof (path_to_root_NoDup _ _ _ Hpath) as Hnd.
    cbn in Hpath. destruct Hpath as (Hs & -> & Hlt & Hpath).
    destruct fuel as [|fuel]; [cbn in Hfuel; lia|].
    cbn [backpropagate]. unfold NULL_INDEX in Hs.
    destruct (s =? NULL_INDEX) eqn:Es; [apply Nat.eqb_eq in Es; contradiction|].
    inversion Hrange as [|? ? Hx Hrest]; subst.
    inversion Hnd as [|? ? Hnotin Hnd']; subst.
    set (v1 := F32.mul v (F32.of_py (discount mcts))).
    set (node := at_ (blank mcts) t s).
    set (t1 := update_node t s _).
    destruct (IH fuel t1 (Jax.gather NULL_INDEX (parents t1) s) v1)
      as (t' & Hrun & Hkey & Hedge & Hpar & Hne & Hcap & Hon & Hoff).
    + exact Hpath.
    + eapply Forall_impl; [exact Hrest|]. intros y Hy.
      unfold capacity, t1, update_node; cbn [data]. rewrite length_insert. exact Hy.
    + cbn in Hfuel. lia.
    + exists t'. split; [exact Hrun|].
      repeat split; try assumption.
      * rewrite Hcap. unfold capacity, t1, update_node; cbn [data].
        apply length_insert.
      * intros k x Hk. destruct k as [|k]; cbn in Hk.
        -- inversion Hk; subst x. rewrite Hoff by exact Hnotin.
           unfold t1, update_node; cbn [data].
           rewrite list_lookup_insert_eq by exact Hx. reflexivity.
        -- assert (Hxs : x <> s).
           { intros ->. apply Hnotin. eapply list_elem_of_lookup_2. exact Hk. }
           rewrite (Hon k x Hk).
           assert (Hat : at_ (blank mcts) t1 x = at_ (blank mcts) t x).
           { rewrite Forall_forall in Hrest.
             assert (Hxr : x < capacity t)
               by (apply Hrest; eapply list_elem_of_lookup_2; exact Hk).
             apply at_lookup. unfold t1, update_node; cbn [data].
             rewrite list_lookup_insert_ne by congruence.
             unfold at_. apply gather_lookup. exact Hxr. }
           rewrite Hat.
           replace (discounted (S k) v1) with (discounted (S (S k)) v);
             [reflexivity|].
           exact (Nat.iter_succ_r (S k) (fun y => F32.mul y gamma) v).
      * intros x Hx'. apply not_elem_of_cons in Hx' as [Hne' Hx'].
        rewrite Hoff by exact Hx'. unfold t1, update_node; cbn [data].
        apply list_lookup_insert_ne. congruence.
Qed.

End Backprop.

(** [x.at[idx].add(vals)] read back at one slot. *)
Lemma scatter_add_notin (idx : list nat) :
  forall (vals l : list f32) (s : nat),
    s ∉ idx -> Jax.scatter_add idx vals l !! s = l !! s.
Proof.
  unfold Jax.scatter_add.
  induction idx as [|i idx IH]; intros vals l s Hs; [reflexivity|].
  destruct vals as [|v vals]; [reflexivity|]. cbn.
  apply not_elem_of_cons in Hs as [Hne Hs].
  rewrite IH by exact Hs. apply list_lookup_alter_ne. congruence.
Qed.

Lemma scatter_add_once (idx : list nat) :
  forall (vals l : list f32) (k s : nat) (v : f32),
    idx !! k = Some s -> vals !! k = Some v ->
    (forall j, j <> k -> idx !! j <> Some s) ->
    Jax.scatter_add idx vals l !! s = (fun x => F32.add x v) <$> l !! s.
Proof.
  induction idx as [|i idx IH]; intros vals l k s v Hk Hv Honce; [discriminate|].
  destruct vals as [|v0 vals]; [discriminate|].
  destruct k as [|k]; cbn in Hk, Hv.
  - inversion Hk; inversion Hv; subst.
    change (Jax.scatter_add (s :: idx) (v :: vals) l)
      with (Jax.scatter_add idx vals (alter (fun x => F32.add x v) s l)).
    rewrite scatter_add_notin.
    + apply list_lookup_alter_eq.
    + intros Hin. apply list_elem_of_lookup in Hin as [j Hj].
      apply (Honce (S j)); [lia | exact Hj].
  - change (Jax.scatter_add (i :: idx) (v0 :: vals) l)
      with (Jax.scatter_add idx vals (alter (fun x => F32.add x v0) i l)).
    rewrite (IH vals _ k s v Hk Hv).
    + rewrite list_lookup_alter_ne; [reflexivity|].
      intros ->. apply (Honce 0); [lia | reflexivity].
    + intros j Hj. apply (Honce (S j)). lia.
Qed.

(** ** Signs of the credited value *)

Lemma of_py_minus_one :
  F32.of_py (S754_finite true 4503599627370496 (-52))
  = S754_finite true 8388608 (-23).
Proof. reflexivity. Qed.

Lemma mul_minus_one (v : f32) :
  valid_binary F32.prec F32.emax v = true ->
  F32.mul v (S754_finite true 8388608 (-23)) = F32.neg v.
Proof.
  intros Hv. destruct v as [s|s| |s m e]; cbn in Hv.
  - destruct s; reflexivity.
  - destruct s; reflexivity.
  - reflexivity.
  - rewrite mul_unit_r by exact Hv. destruct s; reflexivity.
Qed.

Lemma neg_involutive (v : f32) : F32.neg (F32.neg v) = v.
Proof. destruct v as [s|s| |s m e]; cbn; rewrite ?negb_involutive; reflexivity. Qed.

Lemma valid_neg (v : f32) :
  valid_binary F32.prec F32.emax (F32.neg v) = valid_binary F32.prec F32.emax v.
Proof. destruct v; reflexivity. Qed.

Lemma iter_minus_one (k : nat) (v : f32) :
  valid_binary F32.prec F32.emax v = true ->
  Nat.iter k (fun y => F32.mul y (S754_finite true 8388608 (-23))) v
  = if Nat.even k then v else F32.neg v.
Proof.
  intros Hv. induction k as [|k IH]; [reflexivity|].
  rewrite Nat.iter_succ, IH, Nat.even_succ, <- Nat.negb_even.
  destruct (Nat.even k); cbn [negb].
  - apply mul_minus_one. exact Hv.
  - rewrite mul_minus_one by (rewrite valid_neg; exact Hv).
    apply neg_involutive.
Qed.

Lemma eqb_refl_finite (v : f32) : F32.finite v = true -> F32.eqb v v = true.
Proof.
  destruct v as [s|s| |s m e]; cbn; try discriminate; try reflexivity.
  intros _. unfold F32.eqb, SFeqb, SFcompare.
  rewrite Z.compare_refl.
  change (Pos.compare_cont Eq m m) with (Pos.compare m m).
  rewrite Pos.compare_refl. destruct s; reflexivity.
Qed.

(** The reward credited at a path position is the value, or its opposite,
    according to the reward index of the position. *)
Lemma backprop_reward_sign (v : f32) (ri : Z) :
  F32.finite v = true -> ri = 1%Z \/ ri = 0%Z ->
  F32.eqb (Legacy.backprop_reward v 1 ri)
          (if (ri =? 1)%Z then v else F32.neg v) = true.
Proof.
  intros Hv Hri. unfold Legacy.backprop_reward.
  destruct Hri as [-> | ->]; cbn [Z.eqb Z.sub Z.opp Z.add Z.pos_sub];
    change (F32.of_Z 1) with F32.one; change (F32.of_Z 0) with F32.zero;
    change (F32.of_Z (1 - 1)) with F32.zero; change (F32.of_Z (1 - 0)) with F32.one;
    destruct v as [s|s| |s m e]; cbn in Hv; try discriminate.
  - destruct s; reflexivity.
  - unfold F32.one at 2. rewrite mul_unit_r by exact Hv.
    cbn [F32.neg SFopp]. unfold F32.zero.
    change (F32.mul (S754_finite (negb s) m e) (S754_zero false))
      with (S754_zero (xorb (negb s) false)).
    change (F32.add (S754_finite (xorb s false) m e) (S754_zero (xorb (negb s) false)))
      with (S754_finite (xorb s false) m e).
    unfold F32.one. rewrite mul_unit_l by exact Hv.
    rewrite xorb_false_r. cbn [xorb]. apply eqb_refl_finite. exact Hv.
  - destruct s; reflexivity.
  - cbn [F32.neg SFopp]. unfold F32.one at 2. rewrite mul_unit_r by exact Hv.
    unfold F32.zero.
    change (F32.mul (S754_finite s m e) (S754_zero false))
      with (S754_zero (xorb s false)).
    change (F32.add (S754_zero (xorb s false)) (S754_finite (xorb (negb s) false) m e))
      with (S754_finite (xorb (negb s) false) m e).
    unfold F32.one. rewrite mul_unit_l by exact Hv.
    rewrite xorb_false_r. cbn [xorb]. apply eqb_refl_finite. exact Hv.
Qed.

Lemma leaf_inc_lookup (visits : list nat) (k s : nat) :
  visits !! k = Some s -> 0 < s ->
  Legacy.leaf_inc true visits !! k = Some 1%Z.
Proof.
  intros Hk Hs. unfold Legacy.leaf_inc. rewrite list_lookup_fmap, Hk.
  destruct s; [lia|reflexivity].
Qed.

(** The fields of the state after one [iterate] of the flat engine, in terms
    of the state [traverse] returns. *)
Lemma legacy_iterate_fields {K S : Type} (config : Legacy.MCTSConfig)
    (env : Legacy.Collab K S) (it : Legacy.IterationState K S) :
  let st0 := Legacy.state it in
  let action :=
    Legacy.choose_with_puct config st0
      (Legacy.legal_action_mask env (Legacy.env_state it)) in
  let env_state1 := fst (Legacy.env_step env (Legacy.env_state it) action) in
  let terminated := snd (Legacy.env_step env (Legacy.env_state it) action) in
  let st1 := fst (Legacy.traverse config st0 action) in
  let unvisited := snd (Legacy.traverse config st0 action) in
  let v :=
    if terminated
    then Jax.gather F32.zero (Legacy.reward env env_state1)
                    (Legacy.cur_player_id env (Legacy.root_state it))
    else snd (Legacy.evaluator env env_state1) in
  let st' := Legacy.state (Legacy.iterate config env it) in
  Legacy.next_empty st' = Legacy.next_empty st1 /\
  Legacy.idx_action_map st' = Legacy.idx_action_map st1 /\
  Legacy.n_vals st'
  = Jax.scatter_add (Legacy.visits st1)
      (F32.of_Z <$> Legacy.leaf_inc (terminated || unvisited) (Legacy.visits st1))
      (Legacy.n_vals st0) /\
  Legacy.w_vals st'
  = Jax.scatter_add (Legacy.visits st1)
      (zip_with (Legacy.backprop_reward v)
                (Legacy.leaf_inc (terminated || unvisited) (Legacy.visits st1))
                (Legacy.reward_indices st0))
      (Legacy.w_vals st0).
Proof.
  intros st0 action env_state1 terminated st1 unvisited v st'.
  subst st' v st1 unvisited terminated env_state1.
  unfold Legacy.iterate. fold st0. fold action.
  destruct (Legacy.env_step env (Legacy.env_state it) action) as [e1 term].
  destruct (Legacy.traverse config st0 action) as [s1 unv] eqn:Etr.
  cbn [fst snd] in *.
  destruct (Legacy.evaluator env e1) as [logits ev].
  cbn [fst snd Legacy.state Legacy.n_vals Legacy.w_vals Legacy.next_empty
       Legacy.idx_action_map].
  assert (Hn : Legacy.n_vals s1 = Legacy.n_vals st0 /\
               Legacy.w_vals s1 = Legacy.w_vals st0 /\
               Legacy.reward_indices s1 = Legacy.reward_indices st0).
  { unfold Legacy.traverse in Etr. inversion Etr; subst s1. auto. }
  destruct Hn as (-> & -> & ->). unfold Legacy.leaf_value. auto.
Qed.

(** C2. An iteration that reaches a leaf credits every slot of the path
    exactly once.  In the tree-based engine the leaf takes the value [v]
    itself, and the loop of [backpropagate] then walks the parent pointers
    from the leaf's parent to the root without meeting a slot twice, adds one
    to the count of every slot it meets and adds [v] discounted once per ply
    to its cumulative value; with the discount [-1.0] the slot [k] plies above
    the leaf receives [v] for even [k] and [-v] for odd [k].  In the flat
    engine a path slot that is recorded once in [visits] has its count
    increased by one and its cumulative value by a number equal to [+v] or
    [-v] according to the reward index of its position; slots off the path
    keep their statistics. *)
Theorem backpropagation_credits_path :
  (forall (K E : Type) (mcts : Params K E) (t : MCTSTree K E) (fuel : nat)
          (ts : TraversalState) (path : list nat),
     let t1 := fst (fst (expand mcts t ts)) in
     let v := snd (expand mcts t ts) in
     let gamma := F32.of_py (discount mcts) in
     let leaf :=
       if is_edge t (parent ts) (action ts) then child t (parent ts) (action ts)
       else next_empty t in
     traverse mcts fuel t = Some ts ->
     leaf < capacity t ->
     path_to_root (parents t1) (parent ts) path ->
     Forall (fun x => x < capacity t1) path ->
     length path <= fuel ->
     exists t',
       iterate mcts fuel t = Some t' /\
       NoDup path /\
       n (at_ (blank mcts) t1 leaf)
       = (if is_edge t (parent ts) (action ts)
          then n (at_ (blank mcts) t leaf) + 1 else 1)%Z /\
       w (at_ (blank mcts) t1 leaf)
       = (if is_edge t (parent ts) (action ts)
          then F32.add (w (at_ (blank mcts) t leaf)) v else v) /\
       (forall k x, path !! k = Some x ->
          n (at_ (blank mcts) t' x) = (n (at_ (blank mcts) t1 x) + 1)%Z /\
          w (at_ (blank mcts) t' x)
          = F32.add (w (at_ (blank mcts) t1 x))
                    (Nat.iter (S k) (fun y => F32.mul y gamma) v) /\
          (discount mcts = S754_finite true 4503599627370496 (-52) ->
           valid_binary F32.prec F32.emax v = true ->
           Nat.iter (S k) (fun y => F32.mul y gamma) v
           = if Nat.even (S k) then v else F32.neg v)) /\
       (forall x, x ∉ path -> data t' !! x = data t1 !! x)) /\
  (forall (K S : Type) (config : Legacy.MCTSConfig) (env : Legacy.Collab K S)
          (it : Legacy.IterationState K S),
     let st0 := Legacy.state it in
     let action :=
       Legacy.choose_with_puct config st0
         (Legacy.legal_action_mask env (Legacy.env_state it)) in
     let env_state1 := fst (Legacy.env_step env (Legacy.env_state it) action) in
     let terminated := snd (Legacy.env_step env (Legacy.env_state it) action) in
     let st1 := fst (Legacy.traverse config st0 action) in
     let unvisited := snd (Legacy.traverse config st0 action) in
     let v :=
       if terminated
       then Jax.gather F32.zero (Legacy.reward env env_state1)
                       (Legacy.cur_player_id env (Legacy.root_state it))
       else snd (Legacy.evaluator env env_state1) in
     let st' := Legacy.state (Legacy.iterate config env it) in
     terminated || unvisited = true ->
     (forall k s ri,
        Legacy.visits st1 !! k = Some s -> 0 < s ->
        Legacy.reward_indices st0 !! k = Some ri ->
        (forall j, j <> k -> Legacy.visits st1 !! j <> Some s) ->
        Legacy.n_vals st' !! s
        = (fun x => F32.add x F32.one) <$> Legacy.n_vals st0 !! s /\
        Legacy.w_vals st' !! s
        = (fun x => F32.add x (Legacy.backprop_reward v 1 ri))
            <$> Legacy.w_vals st0 !! s /\
        (F32.finite v = true -> ri = 1%Z \/ ri = 0%Z ->
         F32.eqb (Legacy.backprop_reward v 1 ri)
                 (if (ri =? 1)%Z then v else F32.neg v) = true)) /\
     (forall s, s ∉ Legacy.visits st1 ->
        Legacy.n_vals st' !! s = Legacy.n_vals st0 !! s /\
        Legacy.w_vals st' !! s = Legacy.w_vals st0 !! s)).
Proof.
  split.
  - intros K E mcts t fuel ts path t1 v gamma leaf Htrav Hleaf Hpath Hrange Hfuel.
    destruct (backpropagate_path mcts path fuel t1 (parent ts) v Hpath Hrange Hfuel)
      as (t' & Hrun & _ & _ & _ & _ & _ & Hon & Hoff).
    exists t'. split.
    { unfold iterate. rewrite Htrav.
      assert (Hexp : expand mcts t ts = (t1, parent ts, v)).
      { unfold t1, v, expand.
        destruct (step mcts _ _) as [[e' r] term].
        destruct (eval_fn mcts e') as [logits val]. reflexivity. }
      rewrite Hexp. exact Hrun. }
    split; [eapply path_to_root_NoDup; exact Hpath|].
    assert (Hleaf1 :
      at_ (blank mcts) t1 leaf
      = let '(e', r, term) :=
          step mcts (embedding (at_ (blank mcts) t (parent ts))) (action ts) in
        let '(logits, val) := eval_fn mcts e' in
        let policy :=
          softmax mcts (Jax.mask_neg_inf (action_mask_fn mcts e') logits) in
        let value := if term then r else val in
        if is_edge t (parent ts) (action ts)
        then {| n := (n (at_ (blank mcts) t leaf) + 1)%Z;
                w := F32.add (w (at_ (blank mcts) t leaf)) value;
                p := policy; terminal := term; embedding := e' |}
        else {| n := 1%Z; p := policy; w := value;
                terminal := term; embedding := e' |}).
    { unfold t1, expand, leaf in *.
      destruct (step mcts _ _) as [[e' r] term].
      destruct (eval_fn mcts e') as [logits val]. cbn [fst snd].
      destruct (is_edge t (parent ts) (action ts)).
      - apply at_update_node_eq. exact Hleaf.
      - unfold add_node. apply Nat.ltb_lt in Hleaf as Hb. rewrite Hb.
        unfold at_; cbn [data]. apply gather_insert_eq. exact Hleaf. }
    assert (Hv : v = let '(e', r, term) :=
          step mcts (embedding (at_ (blank mcts) t (parent ts))) (action ts) in
        let '(logits, val) := eval_fn mcts e' in if term then r else val).
    { unfold v, expand. destruct (step mcts _ _) as [[e' r] term].
      destruct (eval_fn mcts e') as [logits val]. reflexivity. }
    split; [|split].
    { rewrite Hleaf1. destruct (step mcts _ _) as [[e' r] term].
      destruct (eval_fn mcts e') as [logits val].
      destruct (is_edge t (parent ts) (action ts)); reflexivity. }
    { rewrite Hleaf1, Hv. destruct (step mcts _ _) as [[e' r] term].
      destruct (eval_fn mcts e') as [logits val].
      destruct (is_edge t (parent ts) (action ts)); reflexivity. }
    split.
    + intros k x Hk. rewrite (at_lookup _ t' x _ (Hon k x Hk)). cbn [n w].
      split; [reflexivity|]. split; [reflexivity|].
      intros Hd Hvalid. unfold gamma. rewrite Hd, of_py_minus_one.
      apply iter_minus_one. exact Hvalid.
    + exact Hoff.
  - intros K S config env it st0 action env_state1 terminated st1 unvisited v st' Hleaf.
    destruct (legacy_iterate_fields config env it) as (_ & _ & Hn & Hw).
    fold st0 action env_state1 terminated st1 unvisited in Hn, Hw.
    fold v st' in Hn, Hw. rewrite Hleaf in Hn, Hw. split.
    + intros k s ri Hk Hs Hri Honce. rewrite Hn, Hw. split; [|split].
      * apply (scatter_add_once _ _ _ k); [exact Hk| |exact Honce].
        rewrite list_lookup_fmap, (leaf_inc_lookup _ k s Hk Hs). reflexivity.
      * apply (scatter_add_once _ _ _ k); [exact Hk| |exact Honce].
        rewrite lookup_zip_with, (leaf_inc_lookup _ k s Hk Hs), Hri. reflexivity.
      * intros Hfin Hri01. apply backprop_reward_sign; assumption.
    + intros s Hs. rewrite Hn, Hw. split; apply scatter_add_notin; exact Hs.
Qed.

Lemma backpropagation_credits_path_witness :
  (exists t',
     iterate (Demo.demo_params [true; true] true) 4 Demo.demo_tree = Some t' /\
     n (at_ Demo.demo_blank t' 1) = 2%Z) /\
  Legacy.n_vals
    (Legacy.state
       (Legacy.iterate Demo.demo_config (Demo.demo_env [true; true] true)
          {| Legacy.state := Demo.demo_state;
             Legacy.env_state := 0;
             Legacy.root_state := 0 |})) !! 3
  = Some (F32.add (F32.of_Z 4) F32.one).
Proof.
  split.
  - destruct (proj1 backpropagation_credits_path nat nat
                (Demo.demo_params [true; true] true) Demo.demo_tree 4
                {| parent := 1; action := 0 |} [1])
      as (t' & Hrun & _ & _ & _ & Hon & _).
    + reflexivity.
    + vm_compute. lia.
    + vm_compute. repeat split; lia.
    + repeat constructor; vm_compute; lia.
    + cbn. lia.
    + exists t'. split; [exact Hrun|].
      destruct (Hon 0 1 eq_refl) as [Hn _]. exact Hn.
  - destruct (proj2 backpropagation_credits_path nat nat Demo.demo_config
                (Demo.demo_env [true; true] true)
                {| Legacy.state := Demo.demo_state;
                   Legacy.env_state := 0;
                   Legacy.root_state := 0 |} eq_refl) as [Hon _].
    destruct (Hon 1 3 0%Z) as [Hn _].
    + reflexivity.
    + lia.
    + reflexivity.
    + intros j Hj. vm_compute.
      destruct j as [|[|[|[|[|j]]]]]; try discriminate; lia.
    + exact Hn.
Defined.


(** ** The allocator of the flat engine *)

Import Legacy.

Lemma cumsum_from_bound (bs : list bool) :
  forall acc k x, Jax.cumsum_from acc bs !! k = Some x ->
                  x <= acc + length (filter (fun b => b = true) bs).
Proof.
  induction bs as [|b bs IH]; intros acc k x Hk; [discriminate|].
  destruct k as [|k]; cbn in Hk.
  - inversion Hk; subst.
    destruct b; [rewrite filter_cons_True by reflexivity
                |rewrite filter_cons_False by discriminate]; cbn [length]; lia.
  - apply IH in Hk.
    destruct b; [rewrite filter_cons_True by reflexivity
                |rewrite filter_cons_False by discriminate]; cbn [length]; lia.
Qed.

Lemma cumsum_from_length (bs : list bool) :
  forall acc, length (Jax.cumsum_from acc bs) = length bs.
Proof. induction bs as [|b bs IH]; intros acc; cbn; [|rewrite IH]; reflexivity. Qed.

Lemma amax_le (l : list nat) (m : nat) :
  (forall k x, l !! k = Some x -> x <= m) -> Jax.amax l <= m.
Proof.
  induction l as [|y l IH]; intros H; [cbn; lia|].
  change (Jax.amax (y :: l)) with (Nat.max y (Jax.amax l)).
  apply Nat.max_lub.
  - apply (H 0). reflexivity.
  - apply IH. intros k x Hk. apply (H (S k)). exact Hk.
Qed.

Lemma amax_ge (l : list nat) (k x : nat) : l !! k = Some x -> x <= Jax.amax l.
Proof.
  revert k. induction l as [|y l IH]; intros k Hk; [discriminate|].
  change (Jax.amax (y :: l)) with (Nat.max y (Jax.amax l)).
  destruct k as [|k]; cbn in Hk.
  - inversion Hk; subst. lia.
  - apply IH in Hk. lia.
Qed.

Lemma filter_true_length (bs : list bool) :
  length (filter (fun b => b = true) bs) <= length bs.
Proof. apply length_filter. Qed.

(** A translation table never names a slot beyond the number of retained
    slots, and slot 0 is not retained. *)
Lemma translation_of_bound (populated : bool) (new_nodes : list bool) (k x : nat) :
  translation_of populated new_nodes !! k = Some x ->
  x <= length (filter (fun b => b = true) new_nodes).
Proof.
  unfold translation_of. rewrite lookup_zip_with. intros H.
  destruct (new_nodes !! k) as [b|] eqn:Eb; [|discriminate].
  destruct (Jax.cumsum new_nodes !! k) as [c|] eqn:Ec; [|discriminate].
  cbn in H. inversion H; subst.
  apply cumsum_from_bound in Ec. destruct (populated && b); lia.
Qed.

Lemma propagate_subtrees_length (ps sub : list nat) :
  length (propagate_subtrees ps sub) = Nat.min (length ps) (length sub).
Proof. unfold propagate_subtrees. rewrite length_zip_with, length_fmap. reflexivity. Qed.

Lemma propagate_subtrees_head (ps sub : list nat) :
  ps !! 0 = Some 0 -> sub !! 0 = Some 0 ->
  propagate_subtrees ps sub !! 0 = Some 0.
Proof.
  intros Hp Hs. unfold propagate_subtrees.
  rewrite lookup_zip_with, list_lookup_fmap, Hp, Hs. cbn.
  destruct sub as [|s0 sub]; [discriminate|]. cbn in Hs. inversion Hs; subst.
  reflexivity.
Qed.

Lemma iter_propagate_head (ps : list nat) (k : nat) (sub : list nat) :
  ps !! 0 = Some 0 -> sub !! 0 = Some 0 ->
  Nat.iter k (propagate_subtrees ps) sub !! 0 = Some 0.
Proof.
  intros Hp Hs. induction k as [|k IH]; [exact Hs|].
  rewrite Nat.iter_succ. apply propagate_subtrees_head; assumption.
Qed.

Lemma iter_propagate_length (ps : list nat) (k : nat) (sub : list nat) :
  length (Nat.iter k (propagate_subtrees ps) sub) <= length sub.
Proof.
  induction k as [|k IH]; [reflexivity|].
  rewrite Nat.iter_succ, propagate_subtrees_length. lia.
Qed.

Lemma filter_true_head_false (bs : list bool) :
  bs !! 0 = Some false ->
  length (filter (fun b => b = true) bs) <= length bs - 1.
Proof.
  destruct bs as [|b bs]; [discriminate|]. intros H. cbn in H.
  inversion H; subst.
  rewrite filter_cons_False by discriminate.
  pose proof (filter_true_length bs). cbn [length]. lia.
Qed.

Section Allocator.
Context {K S : Type}.
Variable config : MCTSConfig.
Variable env : Collab K S.

Lemma traverse_next_empty (st : MCTSState K) (a : nat) :
  1 <= next_empty st <= max_nodes config ->
  1 <= next_empty (fst (traverse config st a)) <= max_nodes config.
Proof.
  intros H. unfold traverse. cbn [fst next_empty].
  destruct (max_nodes config <=? next_empty st) eqn:E;
    destruct (Jax.gather2 0 (idx_action_map st) (cur_node st) a =? 0); cbn;
    try lia.
  apply Nat.leb_gt in E. lia.
Qed.

Lemma iterate_next_empty (it : IterationState K S) :
  1 <= next_empty (state it) <= max_nodes config ->
  1 <= next_empty (state (iterate config env it)) <= max_nodes config.
Proof.
  intros H. destruct (legacy_iterate_fields config env it) as (-> & _).
  apply traverse_next_empty. exact H.
Qed.

Lemma load_subtree_next_empty (st : MCTSState K) (a : nat) :
  2 <= max_nodes config ->
  2 <= next_empty (load_subtree config st a) <= max_nodes config.
Proof.
  intros HM. unfold load_subtree. cbn [next_empty].
  set (st1 := propagate_root_subtrees config st).
  set (c := Jax.gather2 0 (idx_action_map st1) 1 a).
  set (new_nodes := (fun s => s =? c) <$> subtrees st1).
  split; [lia|].
  apply Nat.max_lub; [|exact HM].
  assert (Hlen : length new_nodes <= max_nodes config).
  { unfold new_nodes. rewrite length_fmap. unfold st1, propagate_root_subtrees.
    cbn [subtrees]. etransitivity; [apply iter_propagate_length|].
    unfold Jax.arange. rewrite length_seq. lia. }
  destruct (1 <? c) eqn:Ec.
  - assert (Hcount : length (filter (fun b => b = true) new_nodes)
                     <= max_nodes config - 1).
    { destruct (new_nodes !! 0) as [b|] eqn:E0.
      - assert (b = false) as ->.
        { unfold new_nodes in E0. rewrite list_lookup_fmap in E0.
          destruct (subtrees st1 !! 0) as [s0|] eqn:Es0; [|discriminate].
          change (Some (s0 =? c) = Some b) in E0. inversion E0; subst b.
          unfold st1, propagate_root_subtrees in Es0. cbn [subtrees] in Es0.
          destruct (parents st) as [|p0 ps] eqn:Eps.
          + destruct (max_nodes config) as [|M]; [lia|].
            cbn [Nat.iter] in Es0. unfold propagate_subtrees in Es0. cbn in Es0.
            discriminate.
          + rewrite iter_propagate_head in Es0.
            * inversion Es0; subst s0. apply Nat.ltb_lt in Ec.
              apply Nat.eqb_neq. lia.
            * reflexivity.
            * unfold Jax.arange. apply lookup_seq_lt. lia. }
        etransitivity; [apply filter_true_head_false; exact E0|]. lia.
      - apply lookup_ge_None in E0.
        pose proof (filter_true_length new_nodes). lia. }
    assert (Jax.amax (translation_of true new_nodes)
            <= length (filter (fun b => b = true) new_nodes)).
    { apply amax_le. intros k x. apply translation_of_bound. }
    lia.
  - assert (Jax.amax (translation_of false new_nodes) <= 0).
    { apply amax_le. intros k x. unfold translation_of.
      rewrite lookup_zip_with. intros H.
      destruct (new_nodes !! k); [|discriminate].
      destruct (Jax.cumsum new_nodes !! k); [|discriminate].
      cbn in H. inversion H. lia. }
    lia.
Qed.

Lemma evaluate_next_empty (st : MCTSState K) (e : S) (num_iters : nat) :
  1 <= next_empty st <= max_nodes config ->
  1 <= next_empty (evaluate config env st e num_iters) <= max_nodes config.
Proof.
  intros H. unfold evaluate, with_cur_node. cbn [next_empty].
  set (it0 := {| state := evaluate_root config env st e;
                 env_state := e; root_state := e |}).
  assert (H0 : 1 <= next_empty (state it0) <= max_nodes config).
  { unfold it0, evaluate_root. cbn [state].
    destruct (split env (key (reset_search config st))). exact H. }
  clearbody it0. induction num_iters as [|k IH]; [exact H0|].
  rewrite Nat.iter_succ. apply iterate_next_empty. exact IH.
Qed.

End Allocator.

Lemma set2_same (m : list (list nat)) (i j : nat) :
  Jax.gather2 0 m i j = 0 -> Jax.set2 m i j 0 = m.
Proof.
  intros Hg. unfold Jax.set2. apply list_eq. intros k.
  rewrite list_lookup_alter. destruct (decide (i = k)) as [<-|Hne]; [|reflexivity].
  destruct (m !! i) as [row|] eqn:Er; [|reflexivity]. cbn. f_equal.
  pose proof (lookup_lt_Some _ _ _ Er) as Hi.
  assert (Hrow : Jax.gather [] m i = row).
  { rewrite (gather_lookup [] m i Hi) in Er. congruence. }
  unfold Jax.gather2 in Hg. rewrite Hrow in Hg.
  destruct (row !! j) as [x|] eqn:Ex.
  - pose proof (lookup_lt_Some _ _ _ Ex) as Hj.
    apply list_insert_id. rewrite (gather_lookup 0 row j Hj). congruence.
  - apply list_insert_ge. apply lookup_ge_None. exact Ex.
Qed.

(** C4. The allocator keeps [1 <= next_empty <= max_nodes]: the bound holds
    after [reset] and is preserved by [traverse], [iterate] (traversal,
    expansion and backpropagation), [evaluate] and [load_subtree].  When the
    arena is full and the selected child is missing, the iteration allocates
    nothing: [next_empty] and the edge map stay as they are, the position of
    the missing child in the path is left empty, and only the slots already
    recorded on the path are credited, each with one visit and with the
    backpropagated value (the evaluator's estimate unless the step
    terminated). *)
Theorem next_empty_bounded {K S : Type} (config : MCTSConfig)
    (env : Collab K S) :
  2 <= max_nodes config ->
  (forall k : K, 1 <= next_empty (reset config k) <= max_nodes config) /\
  (forall (st : MCTSState K) (a : nat),
     1 <= next_empty st <= max_nodes config ->
     1 <= next_empty (fst (traverse config st a)) <= max_nodes config) /\
  (forall it : IterationState K S,
     1 <= next_empty (state it) <= max_nodes config ->
     1 <= next_empty (state (iterate config env it)) <= max_nodes config) /\
  (forall (st : MCTSState K) (e : S) (num_iters : nat),
     1 <= next_empty st <= max_nodes config ->
     1 <= next_empty (evaluate config env st e num_iters) <= max_nodes config) /\
  (forall (st : MCTSState K) (a : nat),
     1 <= next_empty (load_subtree config st a) <= max_nodes config) /\
  (forall it : IterationState K S,
     let st0 := state it in
     let action :=
       choose_with_puct config st0 (legal_action_mask env (env_state it)) in
     let env_state1 := fst (env_step env (env_state it) action) in
     let terminated := snd (env_step env (env_state it) action) in
     let v :=
       if terminated
       then Jax.gather F32.zero (reward env env_state1)
                       (cur_player_id env (root_state it))
       else snd (evaluator env env_state1) in
     let path := <[depth st0 := 0]> (visits st0) in
     let st' := state (iterate config env it) in
     next_empty st0 = max_nodes config ->
     Jax.gather2 0 (idx_action_map st0) (cur_node st0) action = 0 ->
     next_empty st' = next_empty st0 /\
     idx_action_map st' = idx_action_map st0 /\
     (forall k s ri,
        path !! k = Some s -> 0 < s ->
        reward_indices st0 !! k = Some ri ->
        (forall j, j <> k -> path !! j <> Some s) ->
        n_vals st' !! s = (fun x => F32.add x F32.one) <$> n_vals st0 !! s /\
        w_vals st' !! s
        = (fun x => F32.add x (backprop_reward v 1 ri)) <$> w_vals st0 !! s) /\
     (forall s, s ∉ path ->
        n_vals st' !! s = n_vals st0 !! s /\
        w_vals st' !! s = w_vals st0 !! s)).
Proof.
  intros HM. split; [|split; [|split; [|split; [|split]]]].
  - intros k. cbn. lia.
  - apply traverse_next_empty.
  - apply iterate_next_empty.
  - apply evaluate_next_empty.
  - intros st a. pose proof (load_subtree_next_empty config st a HM). lia.
  - intros it st0 action env_state1 terminated v path st' Hfull Hmiss.
    destruct (legacy_iterate_fields config env it) as (Hne & Hmap & Hn & Hw).
    fold st0 action env_state1 terminated in Hne, Hmap, Hn, Hw.
    fold v st' in Hne, Hmap, Hn, Hw.
    assert (Htr : traverse config st0 action
                  = ({| key := key st0;
                        idx_action_map := idx_action_map st0;
                        p_vals := p_vals st0;
                        n_vals := n_vals st0;
                        w_vals := w_vals st0;
                        visits := path;
                        depth := depth st0;
                        max_depth := max_depth st0;
                        cur_node := 0;
                        next_empty := next_empty st0;
                        reward_indices := reward_indices st0;
                        subtrees := subtrees st0;
                        parents := <[0 := cur_node st0]> (parents st0) |}, true)).
    { unfold traverse. rewrite Hmiss. rewrite Hfull, Nat.leb_refl. cbn.
      rewrite set2_same by exact Hmiss. reflexivity. }
    rewrite Htr in Hne, Hmap, Hn, Hw.
    cbn [fst snd next_empty idx_action_map visits] in Hne, Hmap, Hn, Hw.
    rewrite orb_true_r in Hn, Hw.
    split; [exact Hne|]. split; [exact Hmap|]. split.
    + intros k s ri Hk Hs Hri Honce. rewrite Hn, Hw. split.
      * apply (scatter_add_once _ _ _ k); [exact Hk| |exact Honce].
        rewrite list_lookup_fmap, (leaf_inc_lookup _ k s Hk Hs). reflexivity.
      * apply (scatter_add_once _ _ _ k); [exact Hk| |exact Honce].
        rewrite lookup_zip_with, (leaf_inc_lookup _ k s Hk Hs), Hri. reflexivity.
    + intros s Hs. rewrite Hn, Hw. split; apply scatter_add_notin; exact Hs.
Qed.

Lemma next_empty_bounded_witness :
  2 <= 6 /\
  1 <= next_empty (load_subtree Demo.demo_config Demo.demo_state 1) <= 6.
Proof.
  split; [lia|].
  exact (proj1 (proj2 (proj2 (proj2 (proj2
           (next_empty_bounded Demo.demo_config (Demo.demo_env [true; true] true)
              ltac:(vm_compute; lia))))))
           Demo.demo_state 1).
Defined.


(** ** Terminal nodes of the tree-based engine *)

Import Tree Refactored.

Lemma gather_replicate {A : Type} (d x : A) (k i : nat) :
  0 < k -> Jax.gather d (replicate k x) i = x.
Proof.
  intros Hk. unfold Jax.gather. rewrite length_replicate.
  rewrite nth_lookup, lookup_replicate_2 by lia. reflexivity.
Qed.

Lemma gather_replicate_default {A : Type} (x : A) (k i : nat) :
  Jax.gather x (replicate k x) i = x.
Proof.
  destruct k as [|k]; [unfold Jax.gather; destruct (Nat.min _ _); reflexivity|].
  apply gather_replicate. lia.
Qed.

Lemma gather_insert_cases {A : Type} (d v : A) (l : list A) (j a : nat) :
  Jax.gather d (<[j := v]> l) a = v \/
  Jax.gather d (<[j := v]> l) a = Jax.gather d l a.
Proof.
  unfold Jax.gather. rewrite length_insert, !nth_lookup.
  destruct (decide (j = Nat.min a (length l - 1))) as [->|Hne].
  - destruct (decide (Nat.min a (length l - 1) < length l)) as [Hlt|Hge].
    + left. rewrite list_lookup_insert_eq by exact Hlt. reflexivity.
    + right. rewrite list_insert_ge by lia. reflexivity.
  - right. rewrite list_lookup_insert_ne by exact Hne. reflexivity.
Qed.

Lemma gather_alter_ne {A : Type} (d : A) (f : A -> A) (l : list A) (i s : nat) :
  s < length l -> i <> s -> Jax.gather d (alter f i l) s = Jax.gather d l s.
Proof.
  intros Hs Hne. unfold Jax.gather. rewrite length_alter.
  rewrite Nat.min_l by lia. rewrite !nth_lookup.
  rewrite list_lookup_alter_ne by exact Hne. reflexivity.
Qed.

Lemma gather_alter_eq {A : Type} (d : A) (f : A -> A) (l : list A) (i : nat) :
  i < length l -> Jax.gather d (alter f i l) i = f (Jax.gather d l i).
Proof.
  intros Hi. unfold Jax.gather. rewrite length_alter.
  rewrite Nat.min_l by lia. rewrite !nth_lookup.
  rewrite list_lookup_alter_eq.
  destruct (l !! i) eqn:E; [reflexivity|].
  apply lookup_ge_None in E. lia.
Qed.

Lemma gather_insert_ne {A : Type} (d v : A) (l : list A) (i s : nat) :
  s < length l -> i <> s -> Jax.gather d (<[i := v]> l) s = Jax.gather d l s.
Proof.
  intros Hs Hne. unfold Jax.gather. rewrite length_insert.
  rewrite Nat.min_l by lia. rewrite !nth_lookup.
  rewrite list_lookup_insert_ne by exact Hne. reflexivity.
Qed.

Section Terminal.
Context {K E : Type}.
Variable mcts : Params K E.
Hypothesis blank_not_terminal : terminal (blank mcts) = false.

Lemma arena_inv_reset (k : K) (M A : nat) :
  2 <= M -> arena_inv mcts (Tree.reset (blank mcts) k M A).
Proof.
  intros HM. unfold arena_inv, Tree.reset, capacity, child, at_, Jax.gather2.
  cbn [data edge_map next_empty]. rewrite !length_replicate.
  assert (Hc : forall s a, Jax.gather NULL_INDEX
                 (Jax.gather [] (replicate M (replicate A NULL_INDEX)) s) a
               = NULL_INDEX).
  { intros s a. rewrite gather_replicate by lia. apply gather_replicate_default. }
  repeat split; try lia.
  - intros s a _. left. apply Hc.
  - intros s a _. apply Hc.
  - rewrite gather_replicate by lia. exact blank_not_terminal.
  - intros s a _ _. apply Hc.
Qed.

(** Overwriting a node keeps the shape, provided a node that becomes
    terminal is not the root and has no edges. *)
Lemma arena_inv_update_node (t : MCTSTree K E) (x : nat) (node : MCTSNode E) :
  arena_inv mcts t ->
  (x < capacity t -> terminal node = true ->
   x <> ROOT_INDEX /\ forall a, child t x a = NULL_INDEX) ->
  arena_inv mcts (update_node t x node).
Proof.
  intros (Hlen & Hne & Hedges & Hfree & Hroot & Hterm) Hnode.
  destruct (decide (x < capacity t)) as [Hx|Hx].
  - assert (Hat : forall s, s < capacity t -> s <> x ->
                    at_ (blank mcts) (update_node t x node) s = at_ (blank mcts) t s).
    { intros s Hs Hsx. unfold at_, update_node; cbn [data].
      apply gather_insert_ne; [exact Hs | congruence]. }
    unfold arena_inv.
    assert (Hcap : capacity (update_node t x node) = capacity t)
      by (unfold capacity, update_node; cbn [data]; apply length_insert).
    rewrite Hcap.
    change (edge_map (update_node t x node)) with (edge_map t).
    change (next_empty (update_node t x node)) with (next_empty t).
    change (child (update_node t x node)) with (child t).
    split; [exact Hlen|]. split; [exact Hne|]. split; [exact Hedges|].
    split; [exact Hfree|]. split.
    + destruct (decide (x = ROOT_INDEX)) as [->|Hxr].
      * rewrite at_update_node_eq by exact Hx.
        destruct (terminal node) eqn:Et; [|reflexivity].
        destruct (Hnode Hx eq_refl) as [Hbad _]. congruence.
      * rewrite Hat; [exact Hroot | unfold ROOT_INDEX in *; lia | congruence].
    + intros s a Hs Hts. destruct (decide (s = x)) as [->|Hsx].
      * rewrite at_update_node_eq in Hts by exact Hx.
        apply (Hnode Hx Hts).
      * rewrite Hat in Hts by assumption. apply Hterm; assumption.
  - assert (Heq : update_node t x node = t).
    { unfold update_node. rewrite list_insert_ge by (unfold capacity in Hx; lia).
      destruct t; reflexivity. }
    rewrite Heq. unfold arena_inv. auto 10.
Qed.

Lemma arena_inv_update_root (t : MCTSTree K E) (e : E) :
  arena_inv mcts t -> arena_inv mcts (update_root mcts t e).
Proof.
  intros Hinv. unfold update_root. destruct (evaluate_root mcts e) as [logits v].
  unfold set_root. apply arena_inv_update_node; [exact Hinv|].
  cbn [terminal]. intros _ Ht.
  destruct Hinv as (_ & _ & _ & _ & Hroot & _). congruence.
Qed.

Lemma arena_inv_backpropagate (fuel : nat) :
  forall (t t' : MCTSTree K E) (s : nat) (v : f32),
    arena_inv mcts t -> backpropagate mcts fuel t s v = Some t' ->
    arena_inv mcts t'.
Proof.
  induction fuel as [|fuel IH]; intros t t' s v Hinv Hrun; cbn in Hrun.
  - destruct (s =? NULL_INDEX); [|discriminate]. inversion Hrun; subst. exact Hinv.
  - destruct (s =? NULL_INDEX); [inversion Hrun; subst; exact Hinv|].
    eapply IH; [|exact Hrun].
    apply arena_inv_update_node; [exact Hinv|].
    cbn [terminal]. intros Hs Ht.
    destruct Hinv as (_ & _ & _ & _ & Hroot & Hterm). split.
    + intros ->. congruence.
    + intros a. apply Hterm; assumption.
Qed.

(** The traversal descends through non-terminal allocated slots only. *)
Lemma traverse_loop_parent (fuel : nat) :
  forall (t : MCTSTree K E) (s ts : TraversalState),
    arena_inv mcts t ->
    1 <= parent s < next_empty t ->
    terminal (at_ (blank mcts) t (parent s)) = false ->
    traverse_loop mcts fuel t s = Some ts ->
    1 <= parent ts < next_empty t /\
    terminal (at_ (blank mcts) t (parent ts)) = false /\
    cond_fn mcts t ts = false.
Proof.
  induction fuel as [|fuel IH]; intros t s ts Hinv Hp Hnt Hrun; cbn in Hrun.
  - destruct (cond_fn mcts t s) eqn:Ec; [discriminate|].
    inversion Hrun; subst. auto.
  - destruct (cond_fn mcts t s) eqn:Ec.
    + apply (IH t (body_fn mcts t s) ts Hinv); [| |exact Hrun].
      * unfold body_fn; cbn [parent].
        unfold cond_fn, is_edge in Ec. apply andb_true_iff in Ec as [Ee _].
        apply negb_true_iff, Nat.eqb_neq in Ee.
        destruct Hinv as (_ & Hne & Hedges & _).
        destruct (Hedges (parent s) (action s)) as [H0|H2]; [lia|contradiction|lia].
      * unfold body_fn; cbn [parent].
        unfold cond_fn in Ec. apply andb_true_iff in Ec as [_ Et].
        apply negb_true_iff in Et. exact Et.
    + inversion Hrun; subst. auto.
Qed.

Lemma set2_child_ne {A : Type} (m : list (list nat)) (i j v s a : nat) :
  s < length m -> i <> s ->
  Jax.gather2 0 (Jax.set2 m i j v) s a = Jax.gather2 0 m s a.
Proof.
  intros Hs Hne. unfold Jax.gather2, Jax.set2.
  rewrite gather_alter_ne by assumption. reflexivity.
Qed.

Lemma set2_child_eq (m : list (list nat)) (i j v a : nat) :
  i < length m ->
  Jax.gather2 0 (Jax.set2 m i j v) i a = v \/
  Jax.gather2 0 (Jax.set2 m i j v) i a = Jax.gather2 0 m i a.
Proof.
  intros Hi. unfold Jax.gather2, Jax.set2.
  rewrite gather_alter_eq by exact Hi. apply gather_insert_cases.
Qed.

Lemma arena_inv_add_node (t : MCTSTree K E) (parent action : nat)
    (node : MCTSNode E) :
  arena_inv mcts t ->
  1 <= parent < next_empty t ->
  terminal (at_ (blank mcts) t parent) = false ->
  arena_inv mcts (add_node t parent action node).
Proof.
  intros Hinv Hp Hnt. unfold add_node.
  destruct (next_empty t <? capacity t) eqn:Efull; [|exact Hinv].
  apply Nat.ltb_lt in Efull.
  destruct Hinv as (Hlen & Hne & Hedges & Hfree & Hroot & Hterm).
  assert (Hat : forall s, s < capacity t -> s <> next_empty t ->
            Jax.gather (blank mcts) (<[next_empty t := node]> (data t)) s
            = at_ (blank mcts) t s).
  { intros s Hs Hsn. unfold at_. apply gather_insert_ne; [exact Hs | congruence]. }
  set (t1 := {| key := key t;
               data := <[next_empty t := node]> (data t);
               edge_map := Jax.set2 (edge_map t) parent action (next_empty t);
               parents := <[next_empty t := parent]> (parents t);
               next_empty := next_empty t + 1 |}).
  assert (Hcap : capacity t1 = capacity t)
    by (unfold capacity, t1; cbn [data]; apply length_insert).
  assert (Hat1 : forall s, s < capacity t -> s <> next_empty t ->
            at_ (blank mcts) t1 s = at_ (blank mcts) t s).
  { intros s Hs Hsn. apply Hat; assumption. }
  assert (Hch_ne : forall s a, s < capacity t -> parent <> s ->
            child t1 s a = child t s a).
  { intros s a Hs Hps. unfold child, t1; cbn [edge_map].
    apply (set2_child_ne (A:=nat)); [rewrite Hlen; exact Hs | exact Hps]. }
  assert (Hch_eq : forall a, child t1 parent a = next_empty t \/
                             child t1 parent a = child t parent a).
  { intros a. unfold child, t1; cbn [edge_map].
    apply set2_child_eq. rewrite Hlen. lia. }
  unfold arena_inv. rewrite Hcap.
  change (next_empty t1) with (next_empty t + 1).
  split.
  { unfold t1, Jax.set2; cbn [edge_map]. rewrite length_alter. exact Hlen. }
  split; [lia|]. split; [|split; [|split]].
  - intros s a Hs. destruct (decide (parent = s)) as [<-|Hps].
    + destruct (Hch_eq a) as [-> | ->]; [right; lia|].
      destruct (Hedges parent a Hs) as [H0|H2]; [left; exact H0 | right; lia].
    + rewrite Hch_ne by assumption.
      destruct (Hedges s a Hs) as [H0|H2]; [left; exact H0 | right; lia].
  - intros s a Hs. rewrite Hch_ne by lia. apply Hfree. lia.
  - rewrite Hat1; [exact Hroot | unfold ROOT_INDEX; lia | unfold ROOT_INDEX; lia].
  - intros s a Hs Hts. destruct (decide (s = next_empty t)) as [->|Hsn].
    + rewrite Hch_ne by lia. apply Hfree. lia.
    + rewrite Hat1 in Hts by assumption.
      assert (parent <> s) by (intros <-; congruence).
      rewrite Hch_ne by assumption.
      apply Hterm; assumption.
Qed.

Lemma arena_inv_expand (t : MCTSTree K E) (ts : TraversalState) :
  arena_inv mcts t ->
  1 <= parent ts < next_empty t ->
  terminal (at_ (blank mcts) t (parent ts)) = false ->
  cond_fn mcts t ts = false ->
  arena_inv mcts (fst (fst (expand mcts t ts))).
Proof.
  intros Hinv Hp Hnt Hcond. unfold expand.
  destruct (step mcts _ _) as [[e' r] term].
  destruct (eval_fn mcts e') as [logits val]. cbn [fst].
  destruct (is_edge t (parent ts) (action ts)) eqn:Ee.
  - apply arena_inv_update_node; [exact Hinv|].
    cbn [terminal]. intros Hc _.
    unfold cond_fn in Hcond. rewrite Ee in Hcond. cbn in Hcond.
    apply negb_false_iff in Hcond.
    pose proof Hinv as (_ & Hne & Hedges & _ & Hroot & Hterm).
    split.
    + intros Heq. rewrite Heq in Hcond. congruence.
    + intros a. apply Hterm; assumption.
  - apply arena_inv_add_node; assumption.
Qed.

Lemma arena_inv_iterate (fuel : nat) (t t' : MCTSTree K E) :
  arena_inv mcts t -> iterate mcts fuel t = Some t' -> arena_inv mcts t'.
Proof.
  intros Hinv Hrun. unfold iterate in Hrun.
  destruct (traverse mcts fuel t) as [ts|] eqn:Etr; [|discriminate].
  unfold traverse in Etr.
  pose proof Hinv as (_ & Hne & _ & _ & Hroot & _).
  apply traverse_loop_parent in Etr as (Hp & Hnt & Hcond);
    [|exact Hinv|cbn [parent]; unfold ROOT_INDEX; lia|exact Hroot].
  pose proof (arena_inv_expand t ts Hinv Hp Hnt Hcond) as Hexp.
  destruct (expand mcts t ts) as [[t1 p] v]. cbn [fst] in Hexp.
  eapply arena_inv_backpropagate; eassumption.
Qed.

Lemma arena_inv_reachable (t : MCTSTree K E) :
  reachable mcts t -> arena_inv mcts t.
Proof.
  induction 1 as [k M A HM | t e _ IH | t t' fuel _ IH Hrun | t _ IH].
  - apply arena_inv_reset. exact HM.
  - apply arena_inv_update_root. exact IH.
  - eapply arena_inv_iterate; eassumption.
  - unfold sample_root_action, get_rng.
    destruct (split mcts (key t)) as [rk nk].
    destruct (SFeqb _ _); cbn [fst]; exact IH.
Qed.

End Terminal.

(** C7. In every reachable tree a node whose terminal flag is set has no
    outgoing edge, and a traversal never selects an action from such a node:
    the slot it stops at is not terminal, and when the edge it stops on
    exists, that edge leads to a terminal node. *)
Theorem terminal_nodes_are_never_expanded {K E : Type} (mcts : Params K E)
    (t : MCTSTree K E) :
  terminal (blank mcts) = false ->
  reachable mcts t ->
  (forall s a, s < capacity t ->
     terminal (at_ (blank mcts) t s) = true -> is_edge t s a = false) /\
  (forall fuel ts, traverse mcts fuel t = Some ts ->
     terminal (at_ (blank mcts) t (parent ts)) = false /\
     (is_edge t (parent ts) (action ts) = true ->
      terminal (at_ (blank mcts) t (child t (parent ts) (action ts))) = true)).
Proof.
  intros Hblank Hreach.
  pose proof (arena_inv_reachable mcts Hblank t Hreach) as Hinv.
  pose proof Hinv as (_ & Hne & _ & _ & Hroot & Hterm).
  split.
  - intros s a Hs Ht. unfold is_edge. rewrite (Hterm s a Hs Ht). reflexivity.
  - intros fuel ts Htr. unfold traverse in Htr.
    apply (traverse_loop_parent mcts) in Htr as (_ & Hnt & Hcond);
      [|exact Hinv|cbn [parent]; unfold ROOT_INDEX; lia|exact Hroot].
    split; [exact Hnt|].
    intros He. unfold cond_fn in Hcond. rewrite He in Hcond. cbn in Hcond.
    apply negb_false_iff in Hcond. exact Hcond.
Qed.

Lemma terminal_nodes_are_never_expanded_witness :
  terminal (at_ Demo.demo_blank Demo.demo_tree_visited 2) = true /\
  is_edge Demo.demo_tree_visited 2 0 = false.
Proof.
  split; [reflexivity|].
  refine (proj1 (terminal_nodes_are_never_expanded
                   (Demo.demo_params [true; true] true)
                   Demo.demo_tree_visited eq_refl _) 2 0 _ eq_refl).
  - apply (reach_iterate _ Demo.demo_tree _ 4); [|reflexivity].
    apply reach_update_root. apply reach_reset. lia.
  - vm_compute. lia.
Defined.


(** ** Subtree promotion *)

Import Legacy.

(** *** Scatters read back *)

Lemma scatter_set_length {A : Type} (idx : list nat) :
  forall (vals l : list A), length (Jax.scatter_set idx vals l) = length l.
Proof.
  unfold Jax.scatter_set.
  induction idx as [|i idx IH]; intros [|v vals] l; cbn; try reflexivity.
  rewrite IH. apply length_insert.
Qed.

Lemma scatter_set_notin {A : Type} (idx : list nat) :
  forall (vals l : list A) (t : nat),
    t ∉ idx -> Jax.scatter_set idx vals l !! t = l !! t.
Proof.
  unfold Jax.scatter_set.
  induction idx as [|i idx IH]; intros [|v vals] l t Ht; cbn; try reflexivity.
  apply not_elem_of_cons in Ht as [Hne Ht].
  rewrite IH by exact Ht. apply list_lookup_insert_ne. congruence.
Qed.

Lemma scatter_set_once {A : Type} (idx : list nat) :
  forall (vals l : list A) (k t : nat) (v : A),
    idx !! k = Some t -> vals !! k = Some v -> t < length l ->
    (forall j, j <> k -> idx !! j <> Some t) ->
    Jax.scatter_set idx vals l !! t = Some v.
Proof.
  induction idx as [|i idx IH]; intros vals l k t v Hk Hv Ht Honce; [discriminate|].
  destruct vals as [|v0 vals]; [discriminate|].
  change (Jax.scatter_set (i :: idx) (v0 :: vals) l)
    with (Jax.scatter_set idx vals (<[i := v0]> l)).
  destruct k as [|k]; cbn in Hk, Hv.
  - inversion Hk; inversion Hv; subst.
    rewrite scatter_set_notin.
    + apply list_lookup_insert_eq. exact Ht.
    + intros Hin. apply list_elem_of_lookup in Hin as [j Hj].
      apply (Honce (S j)); [lia | exact Hj].
  - apply (IH vals _ k t v Hk Hv).
    + rewrite length_insert. exact Ht.
    + intros j Hj. apply (Honce (S j)). lia.
Qed.

Lemma scatter_fill_length {A : Type} (clear : A -> A) (idx : list nat) :
  forall l : list A, length (Jax.scatter_fill clear idx l) = length l.
Proof.
  unfold Jax.scatter_fill.
  induction idx as [|i idx IH]; intros l; cbn; [reflexivity|].
  rewrite IH. apply length_alter.
Qed.

Lemma scatter_fill_notin {A : Type} (clear : A -> A) (idx : list nat) :
  forall (l : list A) (t : nat),
    t ∉ idx -> Jax.scatter_fill clear idx l !! t = l !! t.
Proof.
  unfold Jax.scatter_fill.
  induction idx as [|i idx IH]; intros l t Ht; cbn; [reflexivity|].
  apply not_elem_of_cons in Ht as [Hne Ht].
  rewrite IH by exact Ht. apply list_lookup_alter_ne. congruence.
Qed.

Lemma scatter_fill_in {A : Type} (clear : A -> A) (idx : list nat) :
  (forall x, clear (clear x) = clear x) ->
  forall (l : list A) (t : nat),
    t ∈ idx -> Jax.scatter_fill clear idx l !! t = clear <$> l !! t.
Proof.
  intros Hidem. unfold Jax.scatter_fill.
  induction idx as [|i idx IH]; intros l t Ht; [inversion Ht|].
  cbn [fold_left].
  destruct (decide (t ∈ idx)) as [Hin|Hnin].
  - rewrite IH by exact Hin.
    destruct (decide (i = t)) as [->|Hne].
    + rewrite list_lookup_alter_eq. destruct (l !! t); cbn; [|reflexivity].
      rewrite Hidem. reflexivity.
    + rewrite list_lookup_alter_ne by exact Hne. reflexivity.
  - apply elem_of_cons in Ht as [->|Ht]; [|contradiction].
    fold (Jax.scatter_fill clear idx (alter clear i l)).
    rewrite scatter_fill_notin by exact Hnin.
    apply list_lookup_alter_eq.
Qed.

(** *** Running counts *)

Lemma cumsum_from_lookup (bs : list bool) :
  forall acc k, k < length bs ->
    Jax.cumsum_from acc bs !! k = Some (acc + Jax.count_true (take (S k) bs)).
Proof.
  induction bs as [|b bs IH]; intros acc k Hk; [cbn in Hk; lia|].
  destruct k as [|k]; cbn [Jax.cumsum_from].
  - cbn. destruct b; f_equal; rewrite take_0; cbn; lia.
  - cbn [lookup list_lookup]. cbn in Hk.
    change ((?x :: ?l) !! S k) with (l !! k).
    rewrite IH by lia. f_equal.
    change (take (S (S k)) (b :: bs)) with (b :: take (S k) bs).
    cbn [Jax.count_true]. destruct b; lia.
Qed.

Lemma count_true_take_le (bs : list bool) (k : nat) :
  Jax.count_true (take k bs) <= Jax.count_true bs.
Proof.
  revert k. induction bs as [|b bs IH]; intros [|k]; cbn; try lia.
  specialize (IH k). destruct b; lia.
Qed.

Lemma count_true_take_mono (bs : list bool) (j k : nat) :
  j <= k -> Jax.count_true (take j bs) <= Jax.count_true (take k bs).
Proof.
  revert j k. induction bs as [|b bs IH]; intros [|j] [|k] H; cbn; try lia.
  specialize (IH j k). destruct b; lia.
Qed.

Lemma count_true_take_S (bs : list bool) (k : nat) (b : bool) :
  bs !! k = Some b ->
  Jax.count_true (take (S k) bs)
  = Jax.count_true (take k bs) + (if b then 1 else 0).
Proof.
  revert k. induction bs as [|b0 bs IH]; intros [|k] H; cbn in H; try discriminate.
  - inversion H; subst. cbn. rewrite take_0. cbn. lia.
  - change (take (S (S k)) (b0 :: bs)) with (b0 :: take (S k) bs).
    change (take (S k) (b0 :: bs)) with (b0 :: take k bs).
    cbn [Jax.count_true]. rewrite (IH k H). lia.
Qed.

(** Every count from one to the final count is taken at a set entry. *)
Lemma count_true_attained (bs : list bool) :
  forall t, 1 <= t <= Jax.count_true bs ->
    exists k, bs !! k = Some true /\ Jax.count_true (take (S k) bs) = t.
Proof.
  induction bs as [|b bs IH] using rev_ind; intros t Ht; [cbn in Ht; lia|].
  assert (Hc : Jax.count_true (bs ++ [b])
               = Jax.count_true bs + (if b then 1 else 0)).
  { clear. induction bs as [|b0 bs IH]; cbn; [lia|]. rewrite IH. lia. }
  destruct (decide (t <= Jax.count_true bs)) as [Hle|Hgt].
  - destruct (IH t ltac:(lia)) as (k & Hk & Hcount).
    pose proof (lookup_lt_Some _ _ _ Hk) as Hlt.
    exists k. split; [rewrite lookup_app_l by exact Hlt; exact Hk|].
    rewrite take_app_le by lia. exact Hcount.
  - destruct b; [|lia]. exists (length bs). split.
    + rewrite lookup_app_r by lia. rewrite Nat.sub_diag. reflexivity.
    + rewrite take_ge by (rewrite length_app; cbn; lia). lia.
Qed.

(** *** The shape of a well-formed arena *)

Lemma well_formed_spec {K : Type} (config : MCTSConfig) (st : MCTSState K) :
  well_formed config st = true ->
  let M := max_nodes config in
  2 <= M /\
  length (idx_action_map st) = M /\ length (p_vals st) = M /\
  length (n_vals st) = M /\ length (w_vals st) = M /\
  length (parents st) = M /\
  (forall s, 1 <= s < M -> nth s (parents st) 0 < s) /\
  (forall s row a c, 1 <= s < M ->
     idx_action_map st !! s = Some row -> row !! a = Some c -> c <> 0 ->
     c < M /\ nth c (parents st) 0 = s) /\
  (forall c, 1 <= c < M -> nth c (parents st) 0 <> 0 ->
     exists row a, idx_action_map st !! nth c (parents st) 0 = Some row /\
                   row !! a = Some c).
Proof.
  intros H M. unfold well_formed in H. fold M in H.
  apply andb_true_iff in H as [H Hrev].
  apply andb_true_iff in H as [H Hedge].
  apply andb_true_iff in H as [H Hpar].
  apply andb_true_iff in H as [H Hlp].
  apply andb_true_iff in H as [H Hlw].
  apply andb_true_iff in H as [H Hln].
  apply andb_true_iff in H as [H Hlpv].
  apply andb_true_iff in H as [HM Hle].
  apply Nat.leb_le in HM.
  apply Nat.eqb_eq in Hle, Hlpv, Hln, Hlw, Hlp.
  rewrite forallb_forall in Hpar, Hedge, Hrev.
  split; [exact HM|]. split; [exact Hle|]. split; [exact Hlpv|].
  split; [exact Hln|]. split; [exact Hlw|]. split; [exact Hlp|].
  split; [|split].
  - intros s Hs. apply Nat.ltb_lt. apply Hpar. apply in_seq. lia.
  - intros s row a c Hs Hrow Hc Hc0.
    specialize (Hedge s ltac:(apply in_seq; lia)).
    rewrite forallb_forall in Hedge.
    rewrite nth_lookup, Hrow in Hedge. cbn in Hedge.
    assert (Hin : In c row).
    { apply list_elem_of_In. eapply list_elem_of_lookup_2. exact Hc. }
    apply Hedge in Hin. apply orb_true_iff in Hin as [Hin|Hin].
    + apply Nat.eqb_eq in Hin. contradiction.
    + apply andb_true_iff in Hin as [H1 H2].
      apply Nat.ltb_lt in H1. apply Nat.eqb_eq in H2. auto.
  - intros c Hc Hp.
    specialize (Hrev c ltac:(apply in_seq; lia)).
    apply orb_true_iff in Hrev as [Hrev|Hrev].
    + apply Nat.eqb_eq in Hrev. contradiction.
    + apply existsb_exists in Hrev as (e & Hin & He).
      apply Nat.eqb_eq in He. subst e.
      apply list_elem_of_In, list_elem_of_lookup in Hin as [a Ha].
      rewrite nth_lookup in Ha.
      destruct (idx_action_map st !! nth c (parents st) 0) as [row|] eqn:Er;
        cbn in Ha; [|discriminate].
      exists row, a. auto.
Qed.

(** *** Label propagation *)

Section Labels.
Variable M : nat.
Variable ps : list nat.
Hypothesis ps_length : length ps = M.
Hypothesis ps_null : Jax.gather 0 ps 0 = 0.
Hypothesis ps_lower : forall s, 1 <= s < M -> Jax.gather 0 ps s < s.

Lemma ps_range (s : nat) : s < M -> Jax.gather 0 ps s < M.
Proof using ps_length ps_null ps_lower.
  intros Hs. destruct s as [|s]; [rewrite ps_null; exact Hs|].
  pose proof (ps_lower (S s) ltac:(lia)). lia.
Qed.

Lemma top_ancestor_above (k : nat) :
  forall x, 1 < x -> 1 < top_ancestor ps k x.
Proof using ps_length ps_null ps_lower.
  induction k as [|k IH]; intros x Hx; cbn [top_ancestor]; [exact Hx|].
  destruct (1 <? Jax.gather 0 ps x) eqn:E; [|exact Hx].
  apply IH. apply Nat.ltb_lt. exact E.
Qed.

Lemma top_ancestor_stop (k s : nat) :
  Jax.gather 0 ps s <= 1 -> top_ancestor ps k s = s.
Proof using ps_length ps_null ps_lower.
  intros H. destruct k as [|k]; cbn [top_ancestor]; [reflexivity|].
  destruct (1 <? Jax.gather 0 ps s) eqn:E; [|reflexivity].
  apply Nat.ltb_lt in E. lia.
Qed.

Lemma top_ancestor_low (k x : nat) :
  x <= 1 -> x < M -> top_ancestor ps k x = x.
Proof using ps_length ps_null ps_lower.
  intros Hx HM. apply top_ancestor_stop.
  destruct x as [|x]; [rewrite ps_null; lia|].
  pose proof (ps_lower (S x) ltac:(lia)). lia.
Qed.

Lemma top_ancestor_le (k : nat) :
  forall s, s < M -> top_ancestor ps k s <= s.
Proof using ps_length ps_null ps_lower.
  induction k as [|k IH]; intros s Hs; cbn [top_ancestor]; [lia|].
  destruct (1 <? Jax.gather 0 ps s) eqn:E; [|lia].
  assert (Hq : Jax.gather 0 ps s < s).
  { destruct s as [|s]; [rewrite ps_null in E; discriminate|].
    apply ps_lower. lia. }
  specialize (IH (Jax.gather 0 ps s) ltac:(lia)). lia.
Qed.

Lemma top_ancestor_stable (k : nat) :
  forall s, s < M -> s <= k -> top_ancestor ps (S k) s = top_ancestor ps k s.
Proof using ps_length ps_null ps_lower.
  induction k as [|k IH]; intros s Hs Hk.
  - assert (s = 0) as -> by lia. cbn. rewrite ps_null. reflexivity.
  - change (top_ancestor ps (S (S k)) s)
      with (if 1 <? Jax.gather 0 ps s
            then top_ancestor ps (S k) (Jax.gather 0 ps s) else s).
    change (top_ancestor ps (S k) s)
      with (if 1 <? Jax.gather 0 ps s
            then top_ancestor ps k (Jax.gather 0 ps s) else s).
    destruct (1 <? Jax.gather 0 ps s) eqn:E; [|reflexivity].
    assert (Hq : Jax.gather 0 ps s < s).
    { destruct s as [|s]; [rewrite ps_null in E; discriminate|].
      apply ps_lower. lia. }
    apply IH; lia.
Qed.

Lemma top_ancestor_stable_le (k j : nat) (s : nat) :
  s < M -> s <= k -> k <= j -> top_ancestor ps j s = top_ancestor ps k s.
Proof using ps_length ps_null ps_lower.
  intros Hs Hk Hj. induction Hj as [|j Hj IH]; [reflexivity|].
  rewrite top_ancestor_stable by lia. exact IH.
Qed.

Lemma top_ancestor_parent (k s : nat) :
  1 <= s < M -> s <= k -> 1 < Jax.gather 0 ps s ->
  top_ancestor ps k s = top_ancestor ps k (Jax.gather 0 ps s).
Proof using ps_length ps_null ps_lower.
  intros Hs Hk Hq. destruct k as [|k]; [lia|].
  cbn [top_ancestor]. apply Nat.ltb_lt in Hq as Hq'. rewrite Hq'.
  pose proof (ps_lower s Hs) as Hlow.
  symmetry. apply top_ancestor_stable; lia.
Qed.

(** After [k] rounds the label of every slot is its [top_ancestor]. *)
Lemma labels_top_ancestor (k : nat) :
  forall s, s < M ->
    Nat.iter k (propagate_subtrees ps) (Jax.arange M) !! s
    = Some (top_ancestor ps k s).
Proof using ps_length ps_null ps_lower.
  induction k as [|k IH]; intros s Hs.
  - cbn. unfold Jax.arange. rewrite lookup_seq_lt by exact Hs. reflexivity.
  - rewrite Nat.iter_succ. unfold propagate_subtrees.
    set (sub := Nat.iter k (propagate_subtrees ps) (Jax.arange M)) in *.
    set (q := Jax.gather 0 ps s).
    assert (Hq : q < M) by (apply ps_range; exact Hs).
    assert (Hlq : Jax.gather 0 sub q = top_ancestor ps k q).
    { pose proof (IH q Hq) as Hl.
      pose proof (lookup_lt_Some _ _ _ Hl) as Hlt.
      rewrite (gather_lookup 0 _ q Hlt) in Hl. congruence. }
    apply lookup_zip_with_Some.
    exists (top_ancestor ps k q), (top_ancestor ps k s).
    split; [|split].
    + cbn [top_ancestor]. fold q. destruct (1 <? q) eqn:E.
      * apply Nat.ltb_lt in E.
        pose proof (top_ancestor_above k q E) as Hgt.
        apply Nat.ltb_lt in Hgt. rewrite Hgt. reflexivity.
      * apply Nat.ltb_ge in E.
        rewrite (top_ancestor_low k q E Hq).
        assert (Hs' : top_ancestor ps k s = s)
          by (apply top_ancestor_stop; fold q; exact E).
        apply Nat.ltb_ge in E. rewrite E. symmetry. exact Hs'.
    + rewrite list_lookup_fmap.
      rewrite (gather_lookup 0 ps s) by (rewrite ps_length; exact Hs).
      fold q. change (Some (Jax.gather 0 sub q) = Some (top_ancestor ps k q)).
      rewrite Hlq. reflexivity.
    + apply IH. exact Hs.
Qed.

End Labels.

(** *** The reindexing of a promotion *)

Lemma count_true_all_false (bs : list bool) :
  (forall k b, bs !! k = Some b -> b = false) -> Jax.count_true bs = 0.
Proof.
  induction bs as [|b bs IH]; intros H; [reflexivity|].
  cbn [Jax.count_true]. rewrite (H 0 b eq_refl).
  rewrite IH; [reflexivity|]. intros k b' Hk. apply (H (S k)). exact Hk.
Qed.

Lemma count_true_take_head_false (bs : list bool) (k : nat) :
  bs !! 0 = Some false -> Jax.count_true (take (S k) bs) <= k.
Proof.
  destruct bs as [|b bs]; [discriminate|]. intros H. cbn in H. inversion H; subst.
  change (take (S k) (false :: bs)) with (false :: take k bs).
  cbn [Jax.count_true].
  assert (Hlen : forall l : list bool, Jax.count_true l <= length l).
  { clear. induction l as [|b l IH]; cbn; [lia|]. destruct b; lia. }
  pose proof (Hlen (take k bs)). rewrite length_take in *. lia.
Qed.

Section Promotion.
Context {K : Type}.
Variable config : MCTSConfig.
Variable st : MCTSState K.
Variable action : nat.
Hypothesis Hwf : well_formed config st = true.

Let M := max_nodes config.
Let em := idx_action_map st.
Let c := Jax.gather2 0 em 1 action.
Hypothesis Hpop : 1 < c.

Let ps := <[0 := 0]> (parents st).
Let labels := Nat.iter M (propagate_subtrees ps) (Jax.arange M).
Let new_nodes := (fun s => s =? c) <$> labels.
Let translation := translation_of true new_nodes.
Let tr := Jax.gather 0 translation.
Let ret (s : nat) : bool := top_ancestor ps M s =? c.

Lemma promo_M : 2 <= M.
Proof. apply (well_formed_spec config st Hwf). Qed.

Lemma promo_ps_length : length ps = M.
Proof. unfold ps. rewrite length_insert. apply (well_formed_spec config st Hwf). Qed.

Lemma promo_ps_null : Jax.gather 0 ps 0 = 0.
Proof.
  unfold ps. apply gather_insert_eq.
  destruct (well_formed_spec config st Hwf) as (HM & _ & _ & _ & _ & Hl & _).
  rewrite Hl. lia.
Qed.

Lemma promo_ps_parent (s : nat) :
  1 <= s < M -> Jax.gather 0 ps s = nth s (parents st) 0.
Proof.
  intros Hs. destruct (well_formed_spec config st Hwf) as (HM & _ & _ & _ & _ & Hl & _).
  unfold ps. rewrite gather_insert_ne by (rewrite ?Hl; lia).
  apply gather_nth. rewrite Hl. lia.
Qed.

Lemma promo_ps_lower (s : nat) : 1 <= s < M -> Jax.gather 0 ps s < s.
Proof.
  intros Hs. rewrite promo_ps_parent by exact Hs.
  apply (well_formed_spec config st Hwf). exact Hs.
Qed.

Lemma promo_root_edge :
  exists row a, em !! 1 = Some row /\ row !! a = Some c /\
                c < M /\ nth c (parents st) 0 = 1.
Proof.
  destruct (well_formed_spec config st Hwf) as (HM & Hle & _ & _ & _ & _ & _ & Hedge & _).
  fold em in Hle, Hedge. fold M in HM, Hle, Hedge.
  assert (H1 : 1 < length em) by lia.
  pose proof (gather_lookup [] em 1 H1) as Hrow.
  set (row := Jax.gather [] em 1) in *.
  assert (Hc : c = Jax.gather 0 row action) by reflexivity.
  unfold Jax.gather in Hc. rewrite nth_lookup in Hc.
  destruct (row !! Nat.min action (length row - 1)) as [x|] eqn:Ex;
    cbn in Hc; [|lia].
  subst x. exists row, (Nat.min action (length row - 1)).
  split; [exact Hrow|]. split; [exact Ex|].
  apply (Hedge 1 row (Nat.min action (length row - 1)) c);
    [lia|exact Hrow|exact Ex|lia].
Qed.

Lemma promo_c_range : c < M.
Proof. destruct promo_root_edge as (row & a & _ & _ & H & _). exact H. Qed.

Lemma promo_labels (s : nat) :
  s < M -> labels !! s = Some (top_ancestor ps M s).
Proof.
  apply (labels_top_ancestor M ps promo_ps_length promo_ps_null promo_ps_lower).
Qed.

Lemma promo_labels_length : length labels = M.
Proof.
  destruct (decide (length labels < M)) as [Hlt|Hge].
  - pose proof (promo_labels (length labels) Hlt) as H.
    apply lookup_lt_Some in H. lia.
  - pose proof (iter_propagate_length ps M (Jax.arange M)) as H.
    fold labels in H. unfold Jax.arange in H. rewrite length_seq in H. lia.
Qed.

Lemma promo_new_nodes (s : nat) : s < M -> new_nodes !! s = Some (ret s).
Proof.
  intros Hs. unfold new_nodes. rewrite list_lookup_fmap, promo_labels by exact Hs.
  reflexivity.
Qed.

Lemma promo_new_nodes_length : length new_nodes = M.
Proof. unfold new_nodes. rewrite length_fmap. apply promo_labels_length. Qed.

Lemma promo_ret_zero : ret 0 = false.
Proof.
  unfold ret. rewrite (top_ancestor_low M ps promo_ps_length promo_ps_null promo_ps_lower);
    [|lia|pose proof promo_M; lia].
  apply Nat.eqb_neq. lia.
Qed.

Lemma promo_translation (s : nat) :
  s < M ->
  translation !! s
  = Some (if ret s then Jax.count_true (take (S s) new_nodes) else 0).
Proof.
  intros Hs. unfold translation, translation_of.
  apply lookup_zip_with_Some.
  exists (ret s), (Jax.count_true (take (S s) new_nodes)).
  split; [reflexivity|]. split; [apply promo_new_nodes; exact Hs|].
  unfold Jax.cumsum. rewrite cumsum_from_lookup
    by (rewrite promo_new_nodes_length; exact Hs).
  reflexivity.
Qed.

Lemma promo_translation_length : length translation = M.
Proof.
  unfold translation, translation_of. rewrite length_zip_with.
  unfold Jax.cumsum. rewrite cumsum_from_length, promo_new_nodes_length. lia.
Qed.

Lemma promo_tr (s : nat) :
  s < M ->
  tr s = if ret s then Jax.count_true (take (S s) new_nodes) else 0.
Proof.
  intros Hs. pose proof (promo_translation s Hs) as H.
  unfold tr. rewrite (gather_lookup 0 translation s) in H
    by (rewrite promo_translation_length; exact Hs).
  congruence.
Qed.

Lemma promo_tr_pos (s : nat) : s < M -> ret s = true -> 1 <= tr s <= s.
Proof.
  intros Hs Hr. rewrite promo_tr, Hr by exact Hs. split.
  - rewrite (count_true_take_S new_nodes s true)
      by (rewrite promo_new_nodes, Hr by exact Hs; reflexivity). lia.
  - apply count_true_take_head_false.
    rewrite promo_new_nodes by (pose proof promo_M; lia).
    rewrite promo_ret_zero. reflexivity.
Qed.

Lemma promo_tr_mono (s1 s2 : nat) :
  s1 < s2 -> s2 < M -> ret s1 = true -> ret s2 = true -> tr s1 < tr s2.
Proof.
  intros H12 H2 Hr1 Hr2. rewrite !promo_tr, Hr1, Hr2 by lia.
  rewrite (count_true_take_S new_nodes s2 true)
    by (rewrite promo_new_nodes, Hr2 by exact H2; reflexivity).
  pose proof (count_true_take_mono new_nodes (S s1) s2 ltac:(lia)). lia.
Qed.

Lemma promo_tr_unique (d j : nat) :
  d < M -> ret d = true -> j <> d -> translation !! j <> Some (tr d).
Proof.
  intros Hd Hr Hj Heq.
  pose proof (lookup_lt_Some _ _ _ Heq) as Hjl.
  rewrite promo_translation_length in Hjl.
  rewrite promo_translation in Heq by exact Hjl.
  pose proof (promo_tr_pos d Hd Hr) as Hpos.
  destruct (ret j) eqn:Erj.
  - inversion Heq as [Hcount].
    assert (Htj : tr j = tr d) by (rewrite (promo_tr j Hjl), Erj; exact Hcount).
    destruct (decide (j < d)).
    + pose proof (promo_tr_mono j d ltac:(lia) Hd Erj Hr). lia.
    + pose proof (promo_tr_mono d j ltac:(lia) Hjl Hr Erj). lia.
  - inversion Heq. lia.
Qed.

Lemma promo_ret_c : ret c = true.
Proof.
  destruct promo_root_edge as (row & a & _ & _ & Hc & Hp).
  unfold ret.
  rewrite (top_ancestor_stop M ps promo_ps_length promo_ps_null promo_ps_lower);
    [apply Nat.eqb_refl|].
  rewrite promo_ps_parent by lia. lia.
Qed.

Lemma promo_ret_ge (s : nat) : s < M -> ret s = true -> c <= s.
Proof.
  intros Hs Hr. apply Nat.eqb_eq in Hr. rewrite <- Hr.
  apply (top_ancestor_le M ps promo_ps_length promo_ps_null promo_ps_lower M s Hs).
Qed.

Lemma promo_tr_c : tr c = 1.
Proof.
  rewrite promo_tr, promo_ret_c by exact promo_c_range.
  rewrite (count_true_take_S new_nodes c true)
    by (rewrite promo_new_nodes, promo_ret_c by exact promo_c_range; reflexivity).
  rewrite count_true_all_false; [reflexivity|].
  intros k b Hk.
  pose proof (lookup_lt_Some _ _ _ Hk) as Hlt. rewrite length_take in Hlt.
  rewrite lookup_take_lt in Hk by lia.
  pose proof promo_c_range.
  rewrite promo_new_nodes in Hk by lia. inversion Hk as [Hb].
  destruct (ret k) eqn:Er; [|reflexivity].
  pose proof (promo_ret_ge k ltac:(lia) Er). lia.
Qed.

Lemma promo_ret_child (q a d : nat) (row : list nat) :
  q < M -> ret q = true ->
  em !! q = Some row -> row !! a = Some d -> d <> 0 ->
  d < M /\ ret d = true.
Proof.
  intros Hq Hr Hrow Hd Hd0.
  destruct (well_formed_spec config st Hwf) as (HM & _ & _ & _ & _ & _ & Hpar & Hedge & _).
  pose proof (promo_ret_ge q Hq Hr) as Hcq.
  destruct (Hedge q row a d ltac:(fold M; lia) Hrow Hd Hd0) as [HdM Hpd].
  fold M in HdM. split; [exact HdM|].
  assert (Hd1 : 1 <= d < M) by lia.
  pose proof (Hpar d Hd1) as Hlow. rewrite Hpd in Hlow.
  unfold ret in *.
  rewrite (top_ancestor_parent M ps promo_ps_length promo_ps_null promo_ps_lower)
    by (rewrite ?promo_ps_parent by lia; lia).
  rewrite promo_ps_parent by lia. rewrite Hpd. exact Hr.
Qed.

Lemma promo_desc_ret (d : nat) :
  descendant em c d -> d < M /\ ret d = true.
Proof.
  induction 1 as [|q a d row _ [Hq Hr] Hrow Hd Hd0].
  - split; [exact promo_c_range | exact promo_ret_c].
  - eapply promo_ret_child; eassumption.
Qed.

Lemma promo_top_desc (k : nat) :
  forall s, s < M -> top_ancestor ps k s = c -> descendant em c s.
Proof.
  destruct (well_formed_spec config st Hwf) as (_ & _ & _ & _ & _ & _ & _ & _ & Hrev).
  induction k as [|k IH]; intros s Hs Htop; cbn [top_ancestor] in Htop.
  - subst s. constructor.
  - destruct (1 <? Jax.gather 0 ps s) eqn:E; [|subst s; constructor].
    apply Nat.ltb_lt in E.
    assert (Hs1 : 1 <= s < M).
    { destruct s; [rewrite promo_ps_null in E; lia | lia]. }
    pose proof (ps_range M ps promo_ps_length promo_ps_null promo_ps_lower s Hs) as Hq.
    specialize (IH _ Hq Htop).
    rewrite promo_ps_parent in * by exact Hs1.
    destruct (Hrev s Hs1 ltac:(lia)) as (row & a & Hrow & Ha).
    eapply descendant_child; [exact IH|exact Hrow|exact Ha|lia].
Qed.

Lemma promo_ret_desc (s : nat) : s < M -> ret s = true -> descendant em c s.
Proof.
  intros Hs Hr. apply Nat.eqb_eq in Hr. eapply promo_top_desc; eassumption.
Qed.

Let next0 : nat := Jax.amax translation + 1.
Let erase : list nat :=
  (fun s => if s <? next0 then 0 else s) <$> Jax.arange M.
Let old_subtree_idxs : list nat :=
  zip_with (fun (b : bool) s => if b then s else 0) new_nodes (Jax.arange M).

Lemma promo_next0_ge (d : nat) : d < M -> ret d = true -> tr d < next0.
Proof.
  intros Hd Hr. unfold next0.
  pose proof (amax_ge translation d (tr d)) as H.
  rewrite promo_translation in H by exact Hd. rewrite promo_tr in H |- * by exact Hd.
  specialize (H eq_refl). lia.
Qed.

Lemma promo_next0_le : next0 <= M.
Proof.
  unfold next0.
  assert (Jax.amax translation <= M - 1); [|pose proof promo_M; lia].
  apply amax_le. intros k x Hk.
  pose proof (lookup_lt_Some _ _ _ Hk) as Hlt.
  rewrite promo_translation_length in Hlt.
  rewrite promo_translation in Hk by exact Hlt. inversion Hk as [Hx].
  destruct (ret k) eqn:Er; [|lia].
  pose proof (promo_tr_pos k Hlt Er) as Hpos.
  rewrite promo_tr, Er in Hpos by exact Hlt. lia.
Qed.

Lemma promo_next0_attained (t : nat) :
  1 <= t < next0 -> exists d, d < M /\ ret d = true /\ tr d = t.
Proof.
  intros Ht. unfold next0 in Ht.
  assert (Hle : Jax.amax translation <= Jax.count_true new_nodes).
  { apply amax_le. intros k x Hk.
    pose proof (lookup_lt_Some _ _ _ Hk) as Hlt.
    rewrite promo_translation_length in Hlt.
    rewrite promo_translation in Hk by exact Hlt. inversion Hk as [Hx].
    destruct (ret k); [apply count_true_take_le | lia]. }
  destruct (count_true_attained new_nodes t ltac:(lia)) as (k & Hk & Hcount).
  pose proof (lookup_lt_Some _ _ _ Hk) as Hlt.
  rewrite promo_new_nodes_length in Hlt.
  rewrite promo_new_nodes in Hk by exact Hlt.
  assert (Hr : ret k = true) by congruence.
  exists k. split; [exact Hlt|]. split; [exact Hr|].
  rewrite promo_tr, Hr by exact Hlt. exact Hcount.
Qed.

Lemma promo_erase_in (t : nat) :
  t ∈ erase <-> t = 0 \/ (next0 <= t < M).
Proof.
  unfold erase. rewrite list_elem_of_fmap. split.
  - intros (s & -> & Hs). unfold Jax.arange in Hs.
    apply elem_of_seq in Hs.
    destruct (s <? next0) eqn:E; [left; reflexivity|].
    apply Nat.ltb_ge in E. right. lia.
  - intros [-> | Ht].
    + exists 0. split.
      * assert (H0 : (0 <? next0) = true) by (apply Nat.ltb_lt; unfold next0; lia).
        rewrite H0. reflexivity.
      * unfold Jax.arange. apply elem_of_seq. pose proof promo_M. lia.
    + exists t. split.
      * assert (H0 : (t <? next0) = false) by (apply Nat.ltb_ge; lia).
        rewrite H0. reflexivity.
      * unfold Jax.arange. apply elem_of_seq. lia.
Qed.

(** A retained slot is moved to its new index. *)
Lemma promo_kept {A : Type} (clear : A -> A) (moved x : list A) (d : nat) (v : A) :
  length x = M -> d < M -> ret d = true -> moved !! d = Some v ->
  relocate clear translation erase moved x !! tr d = Some v.
Proof.
  intros Hx Hd Hr Hv. unfold relocate.
  pose proof (promo_tr_pos d Hd Hr) as Hpos.
  pose proof (promo_next0_ge d Hd Hr) as Hn.
  rewrite scatter_fill_notin by (rewrite promo_erase_in; lia).
  apply (scatter_set_once translation moved x d).
  - rewrite promo_translation, <- promo_tr by exact Hd. reflexivity.
  - exact Hv.
  - lia.
  - intros j Hj. apply promo_tr_unique; assumption.
Qed.

(** The sentinel and the slots from the new [next_empty] on are cleared. *)
Lemma promo_cleared {A : Type} (clear : A -> A) (moved x : list A) (t : nat) :
  (forall y, clear (clear y) = clear y) ->
  length x = M -> t = 0 \/ next0 <= t < M ->
  exists y, relocate clear translation erase moved x !! t = Some (clear y).
Proof.
  intros Hidem Hx Ht. unfold relocate.
  rewrite scatter_fill_in by (try exact Hidem; rewrite promo_erase_in; exact Ht).
  destruct (Jax.scatter_set translation moved x !! t) as [y|] eqn:Ey.
  - exists y. reflexivity.
  - apply lookup_ge_None in Ey. rewrite scatter_set_length in Ey.
    pose proof promo_M. lia.
Qed.

Lemma promo_fields :
  let st' := load_subtree config st action in
  idx_action_map st'
  = relocate (A := list nat) (fmap (M:=list) (fun _ => 0)) translation erase
      (fmap (M:=list) (fmap (M:=list) tr) em) em /\
  p_vals st'
  = relocate (A := list f32) (fmap (M:=list) (fun _ => F32.zero)) translation erase
      (Jax.gather [] (p_vals st) <$> old_subtree_idxs) (p_vals st) /\
  n_vals st'
  = relocate (fun _ => F32.zero) translation erase
      (Jax.gather F32.zero (n_vals st) <$> old_subtree_idxs) (n_vals st) /\
  w_vals st'
  = relocate (fun _ => F32.zero) translation erase
      (Jax.gather F32.zero (w_vals st) <$> old_subtree_idxs) (w_vals st) /\
  next_empty st' = Nat.max next0 2.
Proof.
  assert (Hc : (1 <? c) = true) by (apply Nat.ltb_lt; exact Hpop).
  unfold load_subtree. cbv zeta.
  change (Jax.gather2 0 (idx_action_map (propagate_root_subtrees config st)) 1 action)
    with c.
  rewrite Hc. repeat split; reflexivity.
Qed.

Lemma promo_old_idx (d : nat) :
  d < M -> ret d = true -> old_subtree_idxs !! d = Some d.
Proof.
  intros Hd Hr. unfold old_subtree_idxs. apply lookup_zip_with_Some.
  exists true, d. split; [reflexivity|]. split.
  - rewrite promo_new_nodes, Hr by exact Hd. reflexivity.
  - unfold Jax.arange. apply lookup_seq_lt. exact Hd.
Qed.

Lemma promo_gathered {A : Type} (dflt : A) (x : list A) (d : nat) :
  length x = M -> d < M -> ret d = true ->
  (Jax.gather dflt x <$> old_subtree_idxs) !! d = x !! d.
Proof.
  intros Hx Hd Hr. rewrite list_lookup_fmap, promo_old_idx by assumption.
  cbn. symmetry. apply gather_lookup. rewrite Hx. exact Hd.
Qed.

Lemma promo_next_empty : Nat.max next0 2 = next0.
Proof.
  pose proof (promo_next0_ge c promo_c_range promo_ret_c) as H.
  rewrite promo_tr_c in H. lia.
Qed.

Lemma promo_main :
  let st' := load_subtree config st action in
  tr c = 1 /\
  (forall d, descendant em c d ->
     descendant (idx_action_map st') 1 (tr d) /\
     1 <= tr d < next_empty st' /\
     n_vals st' !! tr d = n_vals st !! d /\
     w_vals st' !! tr d = w_vals st !! d /\
     p_vals st' !! tr d = p_vals st !! d) /\
  (forall d1 d2, descendant em c d1 -> descendant em c d2 ->
     d1 < d2 -> tr d1 < tr d2) /\
  (forall t, 1 <= t < next_empty st' ->
     exists d, descendant em c d /\ tr d = t) /\
  (forall t, t = 0 \/ next_empty st' <= t < M ->
     n_vals st' !! t = Some F32.zero /\
     w_vals st' !! t = Some F32.zero /\
     (exists row, p_vals st' !! t = Some row /\
                  Forall (fun x => x = F32.zero) row) /\
     (exists row, idx_action_map st' !! t = Some row /\
                  Forall (fun x => x = 0) row)).
Proof.
  intros st'.
  destruct promo_fields as (Hem & Hp & Hn & Hw & Hne). fold st' in Hem, Hp, Hn, Hw, Hne.
  rewrite promo_next_empty in Hne.
  destruct (well_formed_spec config st Hwf) as (HM & Hle & Hlp & Hln & Hlw & _).
  fold M in HM, Hle, Hlp, Hln, Hlw. fold em in Hle.
  split; [exact promo_tr_c|].
  assert (Hstats : forall d, d < M -> ret d = true ->
            1 <= tr d < next_empty st' /\
            n_vals st' !! tr d = n_vals st !! d /\
            w_vals st' !! tr d = w_vals st !! d /\
            p_vals st' !! tr d = p_vals st !! d).
  { intros d Hd Hr. rewrite Hne, Hn, Hw, Hp.
    pose proof (promo_tr_pos d Hd Hr). pose proof (promo_next0_ge d Hd Hr).
    assert (Hxn : exists v, n_vals st !! d = Some v)
      by (apply lookup_lt_is_Some; rewrite Hln; exact Hd).
    assert (Hxw : exists v, w_vals st !! d = Some v)
      by (apply lookup_lt_is_Some; rewrite Hlw; exact Hd).
    assert (Hxp : exists v, p_vals st !! d = Some v)
      by (apply lookup_lt_is_Some; rewrite Hlp; exact Hd).
    destruct Hxn as [vn Hvn], Hxw as [vw Hvw], Hxp as [vp Hvp].
    rewrite Hvn, Hvw, Hvp.
    split; [lia|]. split; [|split]; apply promo_kept; try assumption;
      rewrite promo_gathered by assumption; assumption. }
  split; [|split; [|split]].
  - intros d Hdesc. split.
    + induction Hdesc as [|q a d row Hq IH Hrow Hd Hd0].
      * rewrite promo_tr_c. constructor.
      * destruct (promo_desc_ret q Hq) as [HqM Hqr].
        destruct (promo_ret_child q a d row HqM Hqr Hrow Hd Hd0) as [HdM Hdr].
        eapply (descendant_child _ _ (tr q) a (tr d) (tr <$> row)).
        -- exact IH.
        -- rewrite Hem. apply promo_kept; try assumption.
           rewrite list_lookup_fmap. fold em. rewrite Hrow. reflexivity.
        -- rewrite list_lookup_fmap, Hd. reflexivity.
        -- pose proof (promo_tr_pos d HdM Hdr). lia.
    + destruct (promo_desc_ret d Hdesc) as [HdM Hdr]. apply Hstats; assumption.
  - intros d1 d2 H1 H2 Hlt.
    destruct (promo_desc_ret d1 H1) as [? ?], (promo_desc_ret d2 H2) as [? ?].
    apply promo_tr_mono; assumption.
  - intros t Ht. rewrite Hne in Ht.
    destruct (promo_next0_attained t Ht) as (d & Hd & Hr & Htr).
    exists d. split; [apply promo_ret_desc; assumption | exact Htr].
  - intros t Ht. rewrite Hne in Ht. rewrite Hn, Hw, Hp, Hem.
    split; [|split; [|split]].
    + destruct (promo_cleared (fun _ => F32.zero)
                  (Jax.gather F32.zero (n_vals st) <$> old_subtree_idxs)
                  (n_vals st) t) as [y Hy]; auto.
    + destruct (promo_cleared (fun _ => F32.zero)
                  (Jax.gather F32.zero (w_vals st) <$> old_subtree_idxs)
                  (w_vals st) t) as [y Hy]; auto.
    + destruct (promo_cleared (A := list f32) (fmap (M:=list) (fun _ => F32.zero))
                  (Jax.gather [] (p_vals st) <$> old_subtree_idxs)
                  (p_vals st) t) as [y Hy]; auto.
      * intros y. rewrite <- list_fmap_compose. reflexivity.
      * exists ((fun _ => F32.zero) <$> y). split; [exact Hy|].
        apply Forall_fmap. apply Forall_true. reflexivity.
    + destruct (promo_cleared (A := list nat) (fmap (M:=list) (fun _ => 0))
                  (fmap (M:=list) (fmap (M:=list) tr) em) em t) as [y Hy]; auto.
      * intros y. rewrite <- list_fmap_compose. reflexivity.
      * exists ((fun _ => 0) <$> y). split; [exact Hy|].
        apply Forall_fmap. apply Forall_true. reflexivity.
Qed.

End Promotion.

(** C3. Promoting the subtree of the committed action keeps exactly the
    descendants of the child [c = edge[1, a]] of the root: under a
    reindexing [tr] that preserves the order of slots, the child becomes slot
    1 with its [n], [w] and [p]; every descendant [d] of the child is
    reachable from slot 1 through the new edge map at [tr d], below the new
    [next_empty], with its [n], [w] and [p]; every slot below the new
    [next_empty] is such an image; and the sentinel and all slots from the
    new [next_empty] on are zeroed. *)
Theorem load_subtree_retains_subtree {K : Type} (config : MCTSConfig)
    (st : MCTSState K) (action : nat) :
  let c := Jax.gather2 0 (idx_action_map st) 1 action in
  let st' := load_subtree config st action in
  well_formed config st = true ->
  1 < c ->
  exists tr : nat -> nat,
    tr c = 1 /\
    n_vals st' !! 1 = n_vals st !! c /\
    w_vals st' !! 1 = w_vals st !! c /\
    p_vals st' !! 1 = p_vals st !! c /\
    (forall d, descendant (idx_action_map st) c d ->
       descendant (idx_action_map st') 1 (tr d) /\
       1 <= tr d < next_empty st' /\
       n_vals st' !! tr d = n_vals st !! d /\
       w_vals st' !! tr d = w_vals st !! d /\
       p_vals st' !! tr d = p_vals st !! d) /\
    (forall d1 d2,
       descendant (idx_action_map st) c d1 ->
       descendant (idx_action_map st) c d2 ->
       d1 < d2 -> tr d1 < tr d2) /\
    (forall t, 1 <= t < next_empty st' ->
       exists d, descendant (idx_action_map st) c d /\ tr d = t) /\
    (forall t, t = 0 \/ next_empty st' <= t < max_nodes config ->
       n_vals st' !! t = Some F32.zero /\
       w_vals st' !! t = Some F32.zero /\
       (exists row, p_vals st' !! t = Some row /\
                    Forall (fun x => x = F32.zero) row) /\
       (exists row, idx_action_map st' !! t = Some row /\
                    Forall (fun x => x = 0) row)).
Proof.
  intros c st' Hwf Hpop. subst c st'.
  destruct (promo_main config st action Hwf Hpop)
    as (Hc & Hdesc & Hmono & Hsurj & Hclear).
  eexists. split; [exact Hc|].
  destruct (Hdesc _ (descendant_self _ _)) as (_ & _ & Hn & Hw & Hp).
  rewrite Hc in Hn, Hw, Hp.
  split; [exact Hn|]. split; [exact Hw|]. split; [exact Hp|].
  split; [exact Hdesc|]. split; [exact Hmono|]. split; [exact Hsurj|].
  exact Hclear.
Qed.

Lemma load_subtree_retains_subtree_witness :
  well_formed Demo.demo_config Demo.demo_state = true /\
  n_vals (load_subtree Demo.demo_config Demo.demo_state 1) !! 1
  = Some (F32.of_Z 4).
Proof.
  split; [reflexivity|].
  destruct (load_subtree_retains_subtree Demo.demo_config Demo.demo_state 1
              eq_refl ltac:(vm_compute; lia)) as (tr & _ & Hn & _).
  exact Hn.
Defined.


(** ** Further properties of the selector *)

Import Legacy.

Lemma arg_gt_neg_inf (x : f32) :
  x <> F32.neg_inf -> F32.arg_gt x F32.neg_inf = true.
Proof.
  intros Hx. destruct x as [s|s| |s m e]; try reflexivity;
    try (destruct s; reflexivity).
  destruct s; [contradiction Hx; reflexivity | reflexivity].
Qed.

Lemma puct_scores_illegal {K : Type} (config : MCTSConfig) (st : MCTSState K)
    (legal_actions : list bool) (a : nat) (v : f32) :
  puct_scores config st legal_actions !! a = Some v ->
  nth a legal_actions false = false -> v = F32.neg_inf.
Proof.
  unfold puct_scores, Jax.mask_neg_inf. rewrite list_lookup_imap.
  intros Hv Hl. destruct (_ !! a) as [x|]; cbn in Hv; [|discriminate].
  rewrite Hl in Hv. congruence.
Qed.

(** X1. When some entry of the masked score vector is not minus infinity
    (some action is legal and its score is not minus infinity),
    [choose_with_puct] returns a legal action. *)
Theorem choose_with_puct_legal {K : Type} (config : MCTSConfig)
    (st : MCTSState K) (legal_actions : list bool) :
  (exists b x, puct_scores config st legal_actions !! b = Some x /\
               x <> F32.neg_inf) ->
  nth (choose_with_puct config st legal_actions) legal_actions false = true.
Proof.
  intros (b & x & Hb & Hx).
  destruct (argmax_spec (puct_scores config st legal_actions))
    as (v & Hv & Hmax & _).
  { apply lookup_lt_Some in Hb. lia. }
  fold (choose_with_puct config st legal_actions) in Hv.
  destruct (nth (choose_with_puct config st legal_actions) legal_actions false)
    eqn:El; [reflexivity|].
  pose proof (puct_scores_illegal config st legal_actions _ v Hv El) as ->.
  pose proof (Hmax b x Hb) as Hle.
  rewrite arg_gt_neg_inf in Hle by exact Hx. discriminate.
Qed.

Lemma choose_with_puct_legal_witness :
  nth (choose_with_puct Demo.demo_config Demo.demo_state [false; true])
      [false; true] false = true.
Proof.
  apply choose_with_puct_legal.
  exists 1. eexists. split; [vm_compute; reflexivity | discriminate].
Defined.

Lemma argmax_from_all_neg_inf (l : list f32) :
  forall bi i, Forall (fun x => x = F32.neg_inf) l ->
    Jax.argmax_from bi F32.neg_inf i l = bi.
Proof.
  induction l as [|x l IH]; intros bi i Hall; [reflexivity|].
  inversion Hall as [|? ? Hx Hl]; subst. cbn. apply IH. exact Hl.
Qed.

(** X2. When no action is legal, [choose_with_puct] returns action 0. *)
Theorem choose_with_puct_none_legal {K : Type} (config : MCTSConfig)
    (st : MCTSState K) (legal_actions : list bool) :
  (forall a, nth a legal_actions false = false) ->
  choose_with_puct config st legal_actions = 0.
Proof.
  intros Hnone. unfold choose_with_puct.
  assert (Hall : Forall (fun x => x = F32.neg_inf)
                        (puct_scores config st legal_actions)).
  { apply Forall_lookup. intros a v Hv.
    eapply puct_scores_illegal; [exact Hv | apply Hnone]. }
  destruct (puct_scores config st legal_actions) as [|x l]; [reflexivity|].
  inversion Hall as [|? ? Hx Hl]; subst. cbn.
  apply argmax_from_all_neg_inf. exact Hl.
Qed.

Lemma choose_with_puct_none_legal_witness :
  choose_with_puct Demo.demo_config Demo.demo_state [false; false] = 0.
Proof.
  apply choose_with_puct_none_legal.
  intros [|[|[|a]]]; reflexivity.
Defined.

(** ** The reward indices *)





(** ** Termination and the root's statistics in the tree-based engine *)

Import Tree Refactored.

Lemma nth_insert_eq (l : list nat) (i v : nat) :
  i < length l -> nth i (<[i := v]> l) 0 = v.
Proof.
  intros Hi. rewrite nth_lookup, list_lookup_insert_eq by exact Hi. reflexivity.
Qed.

Lemma nth_insert_ne (l : list nat) (i j v : nat) :
  i <> j -> nth j (<[i := v]> l) 0 = nth j l 0.
Proof.
  intros Hne. rewrite !nth_lookup, list_lookup_insert_ne by exact Hne.
  reflexivity.
Qed.

Lemma set2_lookup_eq {A : Type} (m : list (list A)) (i j : nat) (v : A)
    (row : list A) :
  m !! i = Some row -> Jax.set2 m i j v !! i = Some (<[j := v]> row).
Proof.
  intros Hrow. unfold Jax.set2. rewrite list_lookup_alter_eq, Hrow. reflexivity.
Qed.

Lemma set2_lookup_ne {A : Type} (m : list (list A)) (i j s : nat) (v : A) :
  i <> s -> Jax.set2 m i j v !! s = m !! s.
Proof.
  intros Hne. unfold Jax.set2. apply list_lookup_alter_ne. exact Hne.
Qed.

Lemma set2_id {A : Type} (m : list (list A)) (i j : nat) (v : A)
    (row : list A) :
  m !! i = Some row -> row !! j = Some v -> Jax.set2 m i j v = m.
Proof.
  intros Hrow Hv. apply list_eq. intros k.
  destruct (decide (i = k)) as [<-|Hne].
  - rewrite (set2_lookup_eq m i j v row Hrow), Hrow. f_equal.
    apply list_insert_id. exact Hv.
  - apply set2_lookup_ne. exact Hne.
Qed.

Lemma gather2_lookup {A : Type} (d : A) (m : list (list A)) (i j : nat)
    (row : list A) (x : A) :
  m !! i = Some row -> row !! j = Some x -> Jax.gather2 d m i j = x.
Proof.
  intros Hrow Hx. unfold Jax.gather2.
  pose proof (lookup_lt_Some _ _ _ Hrow) as Hi.
  pose proof (lookup_lt_Some _ _ _ Hx) as Hj.
  rewrite (gather_lookup [] m i Hi) in Hrow. inversion Hrow as [Hr].
  rewrite Hr. rewrite (gather_lookup d row j Hj) in Hx. congruence.
Qed.

Lemma scatter_add_length (idx : list nat) :
  forall (vals l : list f32), length (Jax.scatter_add idx vals l) = length l.
Proof.
  unfold Jax.scatter_add.
  induction idx as [|i idx IH]; intros [|v vals] l; cbn; try reflexivity.
  rewrite IH. apply length_alter.
Qed.


Section Order.
Context {K E : Type}.
Variable mcts : Params K E.

Lemma ordered_reset (k : K) (M A : nat) :
  2 <= M -> arena_ordered (Tree.reset (blank mcts) k M A).
Proof.
  intros HM. unfold arena_ordered, Tree.reset, capacity, child, Jax.gather2.
  cbn [data edge_map next_empty parents]. rewrite !length_replicate.
  assert (Hc : forall s a, Jax.gather NULL_INDEX
                 (Jax.gather [] (replicate M (replicate A NULL_INDEX)) s) a
               = NULL_INDEX).
  { intros s a. rewrite gather_replicate by lia. apply gather_replicate_default. }
  split; [reflexivity|]. split; [reflexivity|]. split; [lia|].
  split; [intros s a _; left; apply Hc|].
  split; [|split].
  - intros s Hs. rewrite gather_replicate by lia. unfold NULL_INDEX. lia.
  - intros s Hs. lia.
  - intros s row a1 a2 c Hrow H1 _ Hc0.
    apply lookup_replicate in Hrow as [-> _].
    apply lookup_replicate in H1 as [-> _]. contradiction.
Qed.

Lemma ordered_update_node (t : MCTSTree K E) (x : nat) (node : MCTSNode E) :
  arena_ordered t -> arena_ordered (update_node t x node).
Proof.
  intros H. unfold arena_ordered in *.
  assert (Hcap : capacity (update_node t x node) = capacity t)
    by (unfold capacity, update_node; cbn [data]; apply length_insert).
  rewrite Hcap. exact H.
Qed.

Lemma ordered_add_node (t : MCTSTree K E) (parent action : nat)
    (node : MCTSNode E) :
  arena_ordered t -> 1 <= parent < next_empty t ->
  arena_ordered (add_node t parent action node).
Proof.
  intros Hinv Hp. unfold add_node.
  destruct (next_empty t <? capacity t) eqn:Efull; [|exact Hinv].
  apply Nat.ltb_lt in Efull.
  destruct Hinv as (Hlen & Hplen & Hne & Hedges & Hlow & Hpar & Hdist).
  set (t1 := {| key := key t;
               data := <[next_empty t := node]> (data t);
               edge_map := Jax.set2 (edge_map t) parent action (next_empty t);
               parents := <[next_empty t := parent]> (parents t);
               next_empty := next_empty t + 1 |}).
  assert (Hcap : capacity t1 = capacity t)
    by (unfold capacity, t1; cbn [data]; apply length_insert).
  assert (Hch_ne : forall s a, s < capacity t -> parent <> s ->
            child t1 s a = child t s a).
  { intros s a Hs Hps. unfold child, t1; cbn [edge_map].
    apply (set2_child_ne (A:=nat)); [rewrite Hlen; exact Hs | exact Hps]. }
  assert (Hch_eq : forall a, child t1 parent a = next_empty t \/
                             child t1 parent a = child t parent a).
  { intros a. unfold child, t1; cbn [edge_map].
    apply set2_child_eq. rewrite Hlen. lia. }
  assert (Hpn : Jax.gather NULL_INDEX (parents t1) (next_empty t) = parent).
  { unfold t1; cbn [parents]. apply gather_insert_eq. rewrite Hplen. exact Efull. }
  assert (Hpo : forall s, s < capacity t -> s <> next_empty t ->
            Jax.gather NULL_INDEX (parents t1) s
            = Jax.gather NULL_INDEX (parents t) s).
  { intros s Hs Hsn. unfold t1; cbn [parents].
    apply gather_insert_ne; [rewrite Hplen; exact Hs | congruence]. }
  unfold arena_ordered. rewrite Hcap.
  change (next_empty t1) with (next_empty t + 1).
  split.
  { unfold t1, Jax.set2; cbn [edge_map]. rewrite length_alter. exact Hlen. }
  split.
  { unfold t1; cbn [parents]. rewrite length_insert. exact Hplen. }
  split; [lia|]. split; [|split; [|split]].
  - intros s a Hs. destruct (decide (parent = s)) as [<-|Hps].
    + destruct (Hch_eq a) as [-> | ->]; [right; split; [lia | exact Hpn]|].
      destruct (Hedges parent a Hs) as [H0|[H2 H3]]; [left; exact H0|].
      right. split; [lia|]. rewrite Hpo by lia. exact H3.
    + rewrite Hch_ne by assumption.
      destruct (Hedges s a Hs) as [H0|[H2 H3]]; [left; exact H0|].
      right. split; [lia|]. rewrite Hpo by lia. exact H3.
  - intros s Hs. destruct (decide (s = next_empty t)) as [->|Hsn].
    + rewrite Hpn. lia.
    + rewrite Hpo by lia. apply Hlow. exact Hs.
  - intros s Hs. destruct (decide (s = next_empty t)) as [->|Hsn].
    + rewrite Hpn. lia.
    + rewrite Hpo by lia. apply Hpar. lia.
  - intros s row a1 a2 c Hrow H1 H2 Hc0.
    unfold t1 in Hrow; cbn [edge_map] in Hrow.
    assert (Hbelow : forall r a x, edge_map t !! s = Some r -> r !! a = Some x ->
                       x < next_empty t).
    { intros r a x Hr Hx.
      pose proof (lookup_lt_Some _ _ _ Hr) as Hs. rewrite Hlen in Hs.
      pose proof (gather2_lookup NULL_INDEX (edge_map t) s a r x Hr Hx) as Hg.
      destruct (Hedges s a Hs) as [H0|[Hb _]]; unfold child in *;
        rewrite Hg in *; unfold NULL_INDEX in *; lia. }
    destruct (decide (parent = s)) as [<-|Hps].
    + destruct (edge_map t !! parent) as [r|] eqn:Er;
        [|apply lookup_ge_None in Er; rewrite Hlen in Er; lia].
      rewrite (set2_lookup_eq _ _ _ _ r Er) in Hrow. inversion Hrow; subst row.
      destruct (decide (a1 = action)) as [->|Ha1];
        destruct (decide (a2 = action)) as [->|Ha2]; [reflexivity| | |].
      * pose proof (lookup_lt_Some _ _ _ H1) as Hl.
        rewrite length_insert in Hl.
        rewrite list_lookup_insert_eq in H1 by exact Hl. inversion H1; subst c.
        rewrite list_lookup_insert_ne in H2 by congruence.
        pose proof (Hbelow r a2 _ eq_refl H2). lia.
      * pose proof (lookup_lt_Some _ _ _ H2) as Hl.
        rewrite length_insert in Hl.
        rewrite list_lookup_insert_eq in H2 by exact Hl. inversion H2; subst c.
        rewrite list_lookup_insert_ne in H1 by congruence.
        pose proof (Hbelow r a1 _ eq_refl H1). lia.
      * rewrite list_lookup_insert_ne in H1, H2 by congruence.
        apply (Hdist parent r a1 a2 c Er H1 H2 Hc0).
    + rewrite set2_lookup_ne in Hrow by exact Hps.
      apply (Hdist s row a1 a2 c Hrow H1 H2 Hc0).
Qed.

Lemma ordered_backpropagate (fuel : nat) :
  forall (t t' : MCTSTree K E) (s : nat) (v : f32),
    arena_ordered t -> backpropagate mcts fuel t s v = Some t' ->
    arena_ordered t'.
Proof.
  induction fuel as [|fuel IH]; intros t t' s v Hinv Hrun; cbn in Hrun.
  - destruct (s =? NULL_INDEX); [|discriminate]. inversion Hrun; subst. exact Hinv.
  - destruct (s =? NULL_INDEX); [inversion Hrun; subst; exact Hinv|].
    eapply IH; [|exact Hrun]. apply ordered_update_node. exact Hinv.
Qed.

(** The traversal stops at an allocated slot, and it stops within as many
    rounds as there are allocated slots above its start. *)
Lemma traverse_loop_stops (fuel : nat) :
  forall (t : MCTSTree K E) (s ts : TraversalState),
    arena_ordered t ->
    1 <= parent s < next_empty t ->
    traverse_loop mcts fuel t s = Some ts ->
    1 <= parent ts < next_empty t /\ cond_fn mcts t ts = false.
Proof.
  induction fuel as [|fuel IH]; intros t s ts Hinv Hp Hrun; cbn in Hrun.
  - destruct (cond_fn mcts t s) eqn:Ec; [discriminate|].
    inversion Hrun; subst. auto.
  - destruct (cond_fn mcts t s) eqn:Ec.
    + apply (IH t (body_fn mcts t s) ts Hinv); [|exact Hrun].
      unfold body_fn; cbn [parent].
      unfold cond_fn, is_edge in Ec. apply andb_true_iff in Ec as [Ee _].
      apply negb_true_iff, Nat.eqb_neq in Ee.
      destruct Hinv as (_ & _ & Hne & Hedges & _).
      destruct (Hedges (parent s) (action s)) as [H0|[H2 _]];
        [lia|contradiction|lia].
    + inversion Hrun; subst. auto.
Qed.

Lemma traverse_loop_total (fuel : nat) :
  forall (t : MCTSTree K E) (s : TraversalState),
    arena_ordered t ->
    1 <= parent s < next_empty t ->
    next_empty t <= parent s + 1 + fuel ->
    exists ts, traverse_loop mcts fuel t s = Some ts.
Proof.
  induction fuel as [|fuel IH]; intros t s Hinv Hp Hfuel; cbn.
  - destruct (cond_fn mcts t s) eqn:Ec; [|eauto].
    unfold cond_fn, is_edge in Ec. apply andb_true_iff in Ec as [Ee _].
    apply negb_true_iff, Nat.eqb_neq in Ee.
    destruct Hinv as (_ & _ & Hne & Hedges & _).
    destruct (Hedges (parent s) (action s)) as [H0|[H2 _]];
      [lia|contradiction|lia].
  - destruct (cond_fn mcts t s) eqn:Ec; [|eauto].
    apply IH; [exact Hinv| |];
      unfold body_fn; cbn [parent];
      unfold cond_fn, is_edge in Ec; apply andb_true_iff in Ec as [Ee _];
      apply negb_true_iff, Nat.eqb_neq in Ee;
      destruct Hinv as (_ & _ & Hne & Hedges & _);
      (destruct (Hedges (parent s) (action s)) as [H0|[H2 _]];
         [lia|contradiction|lia]).
Qed.

(** The parent pointers lead from every allocated slot to the root. *)
Lemma path_to_root_exists (t : MCTSTree K E) :
  arena_ordered t ->
  forall s, s < next_empty t ->
    exists path,
      path_to_root (parents t) s path /\
      Forall (fun x => x < capacity t) path /\
      length path <= s /\
      (1 <= s -> ROOT_INDEX ∈ path).
Proof.
  intros (_ & Hplen & Hne & _ & Hlow & Hpar & _) s.
  induction s as [s IH] using lt_wf_ind. intros Hs.
  destruct (decide (s = 0)) as [->|Hs0].
  - exists []. cbn. repeat split; [constructor | lia | lia].
  - set (q := Jax.gather NULL_INDEX (parents t) s).
    assert (Hq : q < s) by (apply Hlow; lia).
    destruct (IH q Hq ltac:(lia)) as (path & Hpath & Hrange & Hlen & Hroot).
    exists (s :: path). split; [|split; [|split]].
    + cbn. unfold NULL_INDEX. repeat split; [lia | lia | exact Hpath].
    + constructor; [lia | exact Hrange].
    + cbn. lia.
    + intros _. destruct (decide (s = 1)) as [->|Hs1].
      * apply list_elem_of_here.
      * apply list_elem_of_further. apply Hroot.
        unfold q. apply Hpar. lia.
Qed.

(** What [expand] leaves for the backpropagation. *)
Lemma expand_ordered (t : MCTSTree K E) (ts : TraversalState) :
  arena_ordered t ->
  1 <= parent ts < next_empty t ->
  let '(t1, par, v) := expand mcts t ts in
  arena_ordered t1 /\ par = parent ts /\
  capacity t1 = capacity t /\
  next_empty t <= next_empty t1 <= next_empty t + 1 /\
  at_ (blank mcts) t1 ROOT_INDEX = at_ (blank mcts) t ROOT_INDEX.
Proof.
  intros Hinv Hp. unfold expand.
  destruct (step mcts _ _) as [[e' r] term].
  destruct (eval_fn mcts e') as [logits val].
  pose proof Hinv as (Hlen & Hplen & Hne & Hedges & _).
  destruct (is_edge t (parent ts) (action ts)) eqn:Ee.
  - split; [apply ordered_update_node; exact Hinv|].
    split; [reflexivity|].
    split; [unfold capacity, update_node; cbn [data]; apply length_insert|].
    split; [cbn [update_node next_empty]; lia|].
    unfold is_edge in Ee. apply negb_true_iff, Nat.eqb_neq in Ee.
    destruct (Hedges (parent ts) (action ts)) as [H0|[H2 _]];
      [lia|contradiction|].
    unfold at_, update_node; cbn [data].
    apply gather_insert_ne; [unfold capacity in Hne; unfold ROOT_INDEX; lia|].
    unfold ROOT_INDEX. lia.
  - split; [apply ordered_add_node; assumption|].
    split; [reflexivity|].
    unfold add_node. destruct (next_empty t <? capacity t) eqn:Efull.
    + split; [unfold capacity; cbn [data]; apply length_insert|].
      split; [cbn [next_empty]; lia|].
      unfold at_; cbn [data].
      apply gather_insert_ne; [unfold capacity in Hne; unfold ROOT_INDEX; lia|].
      unfold ROOT_INDEX. lia.
    + split; [reflexivity|]. split; [lia|reflexivity].
Qed.

Lemma backpropagate_more_fuel (f1 : nat) :
  forall (f2 : nat) (t r : MCTSTree K E) (s : nat) (v : f32),
    f1 <= f2 -> backpropagate mcts f1 t s v = Some r ->
    backpropagate mcts f2 t s v = Some r.
Proof.
  induction f1 as [|f1 IH]; intros f2 t r s v Hle H1.
  - cbn in H1. destruct (s =? NULL_INDEX) eqn:Es; [|discriminate].
    destruct f2; cbn; rewrite Es; exact H1.
  - destruct f2 as [|f2]; [lia|]. cbn in H1 |- *.
    destruct (s =? NULL_INDEX); [exact H1|].
    apply IH; [lia | exact H1].
Qed.

Lemma iterate_root (fuel : nat) (t t' : MCTSTree K E) :
  arena_ordered t -> iterate mcts fuel t = Some t' ->
  arena_ordered t' /\ capacity t' = capacity t /\
  next_empty t <= next_empty t' <= next_empty t + 1 /\
  n (at_ (blank mcts) t' ROOT_INDEX)
  = (n (at_ (blank mcts) t ROOT_INDEX) + 1)%Z /\
  p (at_ (blank mcts) t' ROOT_INDEX) = p (at_ (blank mcts) t ROOT_INDEX) /\
  terminal (at_ (blank mcts) t' ROOT_INDEX)
  = terminal (at_ (blank mcts) t ROOT_INDEX) /\
  embedding (at_ (blank mcts) t' ROOT_INDEX)
  = embedding (at_ (blank mcts) t ROOT_INDEX).
Proof.
  intros Hinv Hrun. unfold iterate in Hrun.
  destruct (traverse mcts fuel t) as [ts|] eqn:Etr; [|discriminate].
  unfold traverse in Etr.
  pose proof Hinv as (_ & _ & Hne & _).
  apply traverse_loop_stops in Etr as (Hp & _);
    [|exact Hinv|cbn [parent]; unfold ROOT_INDEX; lia].
  pose proof (expand_ordered t ts Hinv Hp) as Hexp.
  destruct (expand mcts t ts) as [[t1 par] v].
  destruct Hexp as (Hinv1 & -> & Hcap1 & Hne1 & Hroot1).
  pose proof (ordered_backpropagate _ _ _ _ _ Hinv1 Hrun) as Hinv'.
  destruct (path_to_root_exists t1 Hinv1 (parent ts) ltac:(lia))
    as (path & Hpath & Hrange & Hlen & Hin).
  specialize (Hin ltac:(lia)).
  apply list_elem_of_lookup in Hin as [k Hk].
  assert (Hfuel : exists fuel', length path <= fuel') by (exists (length path); lia).
  destruct Hfuel as [fuel' Hfuel'].
  destruct (backpropagate_path mcts path (Nat.max fuel fuel') t1 (parent ts) v
              Hpath Hrange ltac:(lia))
    as (t2 & Hrun2 & _ & _ & _ & Hne2 & Hcap2 & Hon & _).
  assert (Ht2 : t2 = t').
  { pose proof (backpropagate_more_fuel fuel (Nat.max fuel fuel') _ _ _ _
                  ltac:(lia) Hrun) as H.
    congruence. }
  subst t2.
  pose proof (at_lookup (blank mcts) t' _ _ (Hon k _ Hk)) as Hat.
  rewrite Hat, Hroot1. cbn [n p terminal embedding].
  split; [exact Hinv'|]. split; [congruence|]. split; [lia|].
  repeat split; reflexivity.
Qed.

Lemma iterate_total (fuel : nat) (t : MCTSTree K E) :
  arena_ordered t -> capacity t <= fuel ->
  exists t', iterate mcts fuel t = Some t'.
Proof.
  intros Hinv Hfuel. unfold iterate, traverse.
  pose proof Hinv as (_ & _ & Hne & _).
  destruct (traverse_loop_total fuel t
              {| parent := ROOT_INDEX; action := choose_root_action mcts t |}
              Hinv)
    as [ts Hts]; [cbn [parent]; unfold ROOT_INDEX; lia
                 |cbn [parent]; unfold ROOT_INDEX; lia|].
  rewrite Hts.
  apply traverse_loop_stops in Hts as (Hp & _);
    [|exact Hinv|cbn [parent]; unfold ROOT_INDEX; lia].
  pose proof (expand_ordered t ts Hinv Hp) as Hexp.
  destruct (expand mcts t ts) as [[t1 par] v].
  destruct Hexp as (Hinv1 & -> & Hcap1 & Hne1 & _).
  destruct (path_to_root_exists t1 Hinv1 (parent ts) ltac:(lia))
    as (path & Hpath & Hrange & Hlen & _).
  destruct (backpropagate_path mcts path fuel t1 (parent ts) v
              Hpath Hrange ltac:(lia))
    as (t2 & Hrun2 & _).
  eauto.
Qed.

Lemma ordered_update_root (t : MCTSTree K E) (e : E) :
  arena_ordered t -> arena_ordered (update_root mcts t e).
Proof.
  intros Hinv. unfold update_root. destruct (evaluate_root mcts e) as [logits v].
  unfold set_root. apply ordered_update_node. exact Hinv.
Qed.

Lemma ordered_sample_root_action (t : MCTSTree K E) :
  arena_ordered t -> arena_ordered (fst (fst (sample_root_action mcts t))).
Proof.
  intros Hinv. unfold sample_root_action, get_rng.
  destruct (split mcts (key t)) as [rk nk].
  destruct (SFeqb _ _); cbn [fst]; exact Hinv.
Qed.

Lemma ordered_reachable (t : MCTSTree K E) :
  reachable mcts t -> arena_ordered t.
Proof.
  induction 1 as [k M A HM | t e _ IH | t t' fuel _ IH Hrun | t _ IH].
  - apply ordered_reset. exact HM.
  - apply ordered_update_root. exact IH.
  - apply (iterate_root fuel t t' IH Hrun).
  - apply ordered_sample_root_action. exact IH.
Qed.

Lemma iterations_root (fuel : nat) (N : nat) :
  forall (t t' : MCTSTree K E),
    arena_ordered t -> iterations mcts fuel N t = Some t' ->
    arena_ordered t' /\ capacity t' = capacity t /\
    next_empty t <= next_empty t' <= next_empty t + N /\
    n (at_ (blank mcts) t' ROOT_INDEX)
    = (n (at_ (blank mcts) t ROOT_INDEX) + Z.of_nat N)%Z /\
    p (at_ (blank mcts) t' ROOT_INDEX) = p (at_ (blank mcts) t ROOT_INDEX) /\
    terminal (at_ (blank mcts) t' ROOT_INDEX)
    = terminal (at_ (blank mcts) t ROOT_INDEX) /\
    embedding (at_ (blank mcts) t' ROOT_INDEX)
    = embedding (at_ (blank mcts) t ROOT_INDEX).
Proof.
  induction N as [|N IH]; intros t t' Hinv Hrun; cbn [iterations] in Hrun.
  - inversion Hrun; subst. split; [exact Hinv|].
    repeat split; try reflexivity; lia.
  - destruct (iterate mcts fuel t) as [t1|] eqn:E1; [|discriminate].
    destruct (iterate_root fuel t t1 Hinv E1)
      as (Hinv1 & Hcap1 & Hne1 & Hn1 & Hp1 & Ht1 & He1).
    destruct (IH t1 t' Hinv1 Hrun) as (Hinv' & Hcap' & Hne' & Hn' & Hp' & Ht' & He').
    split; [exact Hinv'|]. split; [congruence|]. split; [lia|].
    split; [rewrite Hn', Hn1; lia|].
    repeat split; congruence.
Qed.

Lemma iterations_total (fuel : nat) (N : nat) :
  forall (t : MCTSTree K E),
    arena_ordered t -> capacity t <= fuel ->
    exists t', iterations mcts fuel N t = Some t'.
Proof.
  induction N as [|N IH]; intros t Hinv Hfuel; cbn [iterations]; [eauto|].
  destruct (iterate_total fuel t Hinv Hfuel) as [t1 E1]. rewrite E1.
  destruct (iterate_root fuel t t1 Hinv E1) as (Hinv1 & Hcap1 & _).
  apply IH; [exact Hinv1 | lia].
Qed.

End Order.


Import Tree Refactored.

Lemma demo_tree_reachable :
  reachable (Demo.demo_params [true; true] true) Demo.demo_tree.
Proof. apply reach_update_root. apply reach_reset. lia. Qed.

(** X4. On every reachable tree, with at least as much fuel as the arena has
    slots, the loops of [iterate] stop: an iteration returns a tree, and so
    does a search of any number of iterations. *)
Theorem search_returns {K E : Type} (mcts : Params K E) (t : MCTSTree K E)
    (root_embedding : E) (fuel num_iterations : nat) :
  reachable mcts t -> capacity t <= fuel ->
  (exists t', iterate mcts fuel t = Some t') /\
  (exists out, search mcts fuel t root_embedding num_iterations = Some out).
Proof.
  intros Hreach Hfuel. pose proof (ordered_reachable mcts t Hreach) as Hinv.
  split; [apply iterate_total; assumption|].
  unfold search.
  pose proof (ordered_update_root mcts t root_embedding Hinv) as Hinv1.
  assert (Hcap : capacity (update_root mcts t root_embedding) = capacity t).
  { unfold update_root. destruct (evaluate_root mcts root_embedding).
    unfold set_root, capacity, update_node; cbn [data]. apply length_insert. }
  destruct (iterations_total mcts fuel num_iterations _ Hinv1 ltac:(lia))
    as [t' Ht'].
  rewrite Ht'. destruct (sample_root_action mcts t') as [[t2 a] ws]. eauto.
Qed.

Lemma search_returns_witness :
  (exists t', iterate (Demo.demo_params [true; true] true) 4 Demo.demo_tree
              = Some t') /\
  (exists out, search (Demo.demo_params [true; true] true) 4 Demo.demo_tree 0 5
               = Some out).
Proof.
  apply search_returns; [exact demo_tree_reachable | vm_compute; lia].
Defined.

(** X5. Every reachable tree is ordered: an edge leads to a slot of a higher
    index below [next_empty] whose parent pointer leads back, parent
    pointers lead to lower indices, and every allocated slot other than the
    root has a parent. *)
Theorem reachable_arena_ordered {K E : Type} (mcts : Params K E)
    (t : MCTSTree K E) :
  reachable mcts t -> arena_ordered t.
Proof. exact (ordered_reachable mcts t). Qed.

Lemma reachable_arena_ordered_witness : arena_ordered Demo.demo_tree.
Proof.
  exact (reachable_arena_ordered _ Demo.demo_tree demo_tree_reachable).
Defined.

(** X6. An iteration on a reachable tree adds exactly one visit to the root
    and leaves the root's prior, terminal flag and embedding as they are. *)
Theorem iterate_visits_root {K E : Type} (mcts : Params K E)
    (t t' : MCTSTree K E) (fuel : nat) :
  reachable mcts t -> iterate mcts fuel t = Some t' ->
  n (at_ (blank mcts) t' ROOT_INDEX)
  = (n (at_ (blank mcts) t ROOT_INDEX) + 1)%Z /\
  p (at_ (blank mcts) t' ROOT_INDEX) = p (at_ (blank mcts) t ROOT_INDEX) /\
  terminal (at_ (blank mcts) t' ROOT_INDEX)
  = terminal (at_ (blank mcts) t ROOT_INDEX) /\
  embedding (at_ (blank mcts) t' ROOT_INDEX)
  = embedding (at_ (blank mcts) t ROOT_INDEX).
Proof.
  intros Hreach Hrun.
  apply (iterate_root mcts fuel t t' (ordered_reachable mcts t Hreach) Hrun).
Qed.

Lemma iterate_visits_root_witness :
  n (at_ Demo.demo_blank Demo.demo_tree_visited ROOT_INDEX) = 2%Z.
Proof.
  exact (proj1 (iterate_visits_root (Demo.demo_params [true; true] true)
                  Demo.demo_tree Demo.demo_tree_visited 4
                  demo_tree_reachable eq_refl)).
Defined.

Lemma sample_root_action_data {K E : Type} (mcts : Params K E)
    (t : MCTSTree K E) :
  data (fst (fst (sample_root_action mcts t))) = data t /\
  next_empty (fst (fst (sample_root_action mcts t))) = next_empty t.
Proof.
  unfold sample_root_action, get_rng.
  destruct (split mcts (key t)) as [rk nk].
  destruct (SFeqb _ _); cbn [fst data next_empty]; auto.
Qed.

Lemma search_unfold {K E : Type} (mcts : Params K E) (t : MCTSTree K E)
    (e : E) (fuel N : nat) (out : MCTSOutput K E) :
  search mcts fuel t e N = Some out ->
  exists t1, iterations mcts fuel N (update_root mcts t e) = Some t1 /\
    data (tree out) = data t1 /\ next_empty (tree out) = next_empty t1 /\
    root_value out
    = F32.div (w (at_ (blank mcts) (tree out) ROOT_INDEX))
              (F32.of_Z (n (at_ (blank mcts) (tree out) ROOT_INDEX))).
Proof.
  unfold search. intros Hrun.
  destruct (iterations mcts fuel N (update_root mcts t e)) as [t1|];
    [|discriminate].
  exists t1. split; [reflexivity|].
  pose proof (sample_root_action_data mcts t1) as [Hd Hn].
  destruct (sample_root_action mcts t1) as [[t2 a] ws]. cbn [fst] in Hd, Hn.
  inversion Hrun; subst out. cbn [tree root_value]. auto.
Qed.

(** X7. A search of [num_iterations] iterations on a reachable tree returns
    a root whose visit count is the count it had (1 for a root that was
    not visited) plus [num_iterations], whose prior is the softmax of the
    logits of the root embedding, and whose embedding is the root
    embedding; the returned root value is the root's [w / n]. *)
Theorem search_root_statistics {K E : Type} (mcts : Params K E)
    (t : MCTSTree K E) (root_embedding : E) (fuel num_iterations : nat)
    (out : MCTSOutput K E) :
  reachable mcts t ->
  search mcts fuel t root_embedding num_iterations = Some out ->
  let root0 := at_ (blank mcts) t ROOT_INDEX in
  let root := at_ (blank mcts) (tree out) ROOT_INDEX in
  n root = ((if (0 <? n root0)%Z then n root0 else 1) + Z.of_nat num_iterations)%Z /\
  p root = softmax mcts (fst (eval_fn mcts root_embedding)) /\
  embedding root = root_embedding /\
  root_value out = F32.div (w root) (F32.of_Z (n root)).
Proof.
  intros Hreach Hrun root0 root.
  pose proof (ordered_reachable mcts t Hreach) as Hinv.
  destruct (search_unfold mcts t root_embedding fuel num_iterations out Hrun)
    as (t1 & Hit & Hd & _ & Hrv).
  pose proof (ordered_update_root mcts t root_embedding Hinv) as Hinv1.
  destruct (iterations_root mcts fuel num_iterations _ t1 Hinv1 Hit)
    as (_ & _ & _ & Hn & Hp & _ & He).
  assert (Hroot : root = at_ (blank mcts) t1 ROOT_INDEX)
    by (unfold root, at_; rewrite Hd; reflexivity).
  assert (Hup : at_ (blank mcts) (update_root mcts t root_embedding) ROOT_INDEX
                = {| p := softmax mcts (fst (eval_fn mcts root_embedding));
                     w := if (0 <? n root0)%Z then w root0
                          else snd (eval_fn mcts root_embedding);
                     n := if (0 <? n root0)%Z then n root0 else 1%Z;
                     terminal := terminal root0;
                     embedding := root_embedding |}).
  { unfold update_root, evaluate_root.
    destruct (eval_fn mcts root_embedding) as [logits v]. cbn [fst snd].
    unfold set_root. apply at_update_node_eq.
    destruct Hinv as (_ & _ & Hne & _). unfold ROOT_INDEX. lia. }
  rewrite Hup in Hn, Hp, He. cbn [n p embedding] in Hn, Hp, He.
  rewrite Hroot. repeat split; try assumption.
  rewrite <- Hroot. exact Hrv.
Qed.

Lemma search_root_statistics_witness :
  exists out,
    search (Demo.demo_params [true; true] true) 4 Demo.demo_tree 0 3 = Some out /\
    n (at_ Demo.demo_blank (tree out) ROOT_INDEX) = 4%Z.
Proof.
  eexists. split; [vm_compute; reflexivity|].
  refine (proj1 (search_root_statistics (Demo.demo_params [true; true] true)
                   Demo.demo_tree 0 4 3 _ demo_tree_reachable _)).
  vm_compute. reflexivity.
Defined.

(** X8. A search never changes the capacity of the arena, never lowers
    [next_empty], and raises it by at most one per iteration and never
    beyond the capacity. *)
Theorem search_allocation {K E : Type} (mcts : Params K E)
    (t : MCTSTree K E) (root_embedding : E) (fuel num_iterations : nat)
    (out : MCTSOutput K E) :
  reachable mcts t ->
  search mcts fuel t root_embedding num_iterations = Some out ->
  capacity (tree out) = capacity t /\
  next_empty t <= next_empty (tree out)
  <= Nat.min (capacity t) (next_empty t + num_iterations).
Proof.
  intros Hreach Hrun.
  pose proof (ordered_reachable mcts t Hreach) as Hinv.
  destruct (search_unfold mcts t root_embedding fuel num_iterations out Hrun)
    as (t1 & Hit & Hd & Hn & _).
  pose proof (ordered_update_root mcts t root_embedding Hinv) as Hinv1.
  destruct (iterations_root mcts fuel num_iterations _ t1 Hinv1 Hit)
    as (Hinv' & Hcap & Hne & _).
  assert (Hcap0 : capacity (update_root mcts t root_embedding) = capacity t).
  { unfold update_root. destruct (evaluate_root mcts root_embedding).
    unfold set_root, capacity, update_node; cbn [data]. apply length_insert. }
  assert (Hne0 : next_empty (update_root mcts t root_embedding) = next_empty t).
  { unfold update_root. destruct (evaluate_root mcts root_embedding).
    reflexivity. }
  destruct Hinv' as (_ & _ & Hb & _).
  unfold capacity in *. rewrite Hd, Hn. lia.
Qed.

Lemma search_allocation_witness :
  exists out,
    search (Demo.demo_params [true; true] true) 4 Demo.demo_tree 0 3 = Some out /\
    next_empty (tree out) <= 4.
Proof.
  eexists. split; [vm_compute; reflexivity|].
  refine (Nat.le_trans _ _ _
            (proj2 (proj2 (search_allocation
                             (Demo.demo_params [true; true] true)
                             Demo.demo_tree 0 4 3 _ demo_tree_reachable _))) _).
  - vm_compute. reflexivity.
  - vm_compute. lia.
Defined.

Lemma argmax_from_all_nan (l : list f32) :
  forall bi i, Forall (fun x => x = S754_nan) l ->
    Jax.argmax_from bi S754_nan i l = bi.
Proof.
  induction l as [|x l IH]; intros bi i Hall; [reflexivity|].
  inversion Hall as [|? ? Hx Hl]; subst. cbn. apply IH. exact Hl.
Qed.

(** X9. When the root has no edge, the visit counts of its children sum to
    zero and every action weight is the quotient [0 / 0]: at temperature
    zero [sample_root_action] returns action 0 and weights that are all
    NaN. *)
Theorem unvisited_root_weights_are_nan {K E : Type} (mcts : Params K E)
    (t : MCTSTree K E) :
  Forall (fun c => c = NULL_INDEX) (Jax.gather [] (edge_map t) ROOT_INDEX) ->
  SFeqb (temperature mcts) (S754_zero false) = true ->
  snd (fst (sample_root_action mcts t)) = 0 /\
  snd (sample_root_action mcts t)
  = replicate (length (Jax.gather [] (edge_map t) ROOT_INDEX)) S754_nan.
Proof.
  intros Hrow Htemp. unfold sample_root_action, get_rng.
  destruct (split mcts (key t)) as [rk nk]. rewrite Htemp. cbn [fst snd].
  assert (Hw : visit_weights (get_child_data (blank mcts) t ROOT_INDEX)
               = replicate (length (Jax.gather [] (edge_map t) ROOT_INDEX))
                           S754_nan).
  { unfold get_child_data, visit_weights.
    induction (Jax.gather [] (edge_map t) ROOT_INDEX) as [|c row IH];
      [reflexivity|].
    inversion Hrow as [|? ? Hc Hrest]; subst.
    specialize (IH Hrest).
    assert (Hdata : forall r, Forall (fun c => c = NULL_INDEX) r ->
              (fun c => if c =? NULL_INDEX then 0%Z
                        else n (at_ (blank mcts) t c)) <$> r
              = replicate (length r) 0%Z).
    { clear. induction r as [|c r IHr]; intros H; [reflexivity|].
      inversion H; subst. cbn. f_equal. apply IHr. assumption. }
    rewrite (Hdata (NULL_INDEX :: row) Hrow).
    assert (Hsum : forall k, fold_right Z.add 0%Z (replicate k 0%Z) = 0%Z).
    { clear. induction k as [|k IHk]; [reflexivity|]. cbn. rewrite IHk. reflexivity. }
    rewrite Hsum. rewrite fmap_replicate. reflexivity. }
  rewrite Hw. split; [|reflexivity].
  destruct (length _) as [|k]; [reflexivity|]. cbn.
  apply argmax_from_all_nan. apply Forall_replicate. reflexivity.
Qed.

Lemma unvisited_root_weights_are_nan_witness :
  snd (sample_root_action (Demo.demo_params [true; true] true) Demo.demo_tree)
  = [S754_nan; S754_nan].
Proof.
  refine (proj2 (unvisited_root_weights_are_nan
                   (Demo.demo_params [true; true] true) Demo.demo_tree _ _)).
  - vm_compute. repeat constructor.
  - reflexivity.
Defined.


(** ** The arena of the flat engine through its life *)

Import Legacy.

Lemma forallb_lookup {A : Type} (f : A -> bool) (l : list A) :
  forallb f l = true <-> forall k x, l !! k = Some x -> f x = true.
Proof.
  rewrite forallb_forall. split.
  - intros H k x Hk. apply H. apply list_elem_of_In.
    eapply list_elem_of_lookup_2. exact Hk.
  - intros H x Hin. apply list_elem_of_In, list_elem_of_lookup in Hin as [k Hk].
    eapply H. exact Hk.
Qed.

Lemma forallb_seq (f : nat -> bool) (a n : nat) :
  forallb f (seq a n) = true <-> forall s, a <= s < a + n -> f s = true.
Proof.
  rewrite forallb_forall. split.
  - intros H s Hs. apply H. apply in_seq. exact Hs.
  - intros H s Hs. apply H. apply in_seq. exact Hs.
Qed.

Lemma well_formed_intro {K : Type} (config : MCTSConfig) (st : MCTSState K) :
  let M := max_nodes config in
  2 <= M ->
  length (idx_action_map st) = M -> length (p_vals st) = M ->
  length (n_vals st) = M -> length (w_vals st) = M ->
  length (parents st) = M ->
  (forall s, 1 <= s < M -> nth s (parents st) 0 < s) ->
  (forall s row a c, 1 <= s < M ->
     idx_action_map st !! s = Some row -> row !! a = Some c -> c <> 0 ->
     c < M /\ nth c (parents st) 0 = s) ->
  (forall c, 1 <= c < M -> nth c (parents st) 0 <> 0 ->
     exists row a, idx_action_map st !! nth c (parents st) 0 = Some row /\
                   row !! a = Some c) ->
  well_formed config st = true.
Proof.
  intros M HM Hle Hlpv Hln Hlw Hlp Hpar Hedge Hrev.
  unfold well_formed. fold M.
  apply Nat.leb_le in HM as HM'. apply Nat.eqb_eq in Hle as Hle'.
  apply Nat.eqb_eq in Hlpv as Hlpv'. apply Nat.eqb_eq in Hln as Hln'.
  apply Nat.eqb_eq in Hlw as Hlw'. apply Nat.eqb_eq in Hlp as Hlp'.
  rewrite HM', Hle', Hlpv', Hln', Hlw', Hlp'. cbn [andb].
  apply andb_true_iff. split; [apply andb_true_iff; split|].
  - apply forallb_seq. intros s Hs. apply Nat.ltb_lt. apply Hpar. lia.
  - apply forallb_seq. intros s Hs. apply forallb_lookup. intros a c Hc.
    destruct (decide (c = 0)) as [->|Hc0]; [reflexivity|].
    apply orb_true_iff. right.
    rewrite nth_lookup in Hc.
    destruct (idx_action_map st !! s) as [row|] eqn:Er; cbn in Hc;
      [|discriminate].
    destruct (Hedge s row a c ltac:(lia) Er Hc Hc0) as [H1 H2].
    apply andb_true_iff. split; [apply Nat.ltb_lt; exact H1|].
    apply Nat.eqb_eq. exact H2.
  - apply forallb_seq. intros c Hc.
    destruct (decide (nth c (parents st) 0 = 0)) as [H0|H0].
    + rewrite H0. reflexivity.
    + apply orb_true_iff. right.
      destruct (Hrev c ltac:(lia) H0) as (row & a & Hrow & Ha).
      apply existsb_exists. exists c. split; [|apply Nat.eqb_refl].
      rewrite nth_lookup, Hrow. cbn.
      apply list_elem_of_In. eapply list_elem_of_lookup_2. exact Ha.
Qed.

Lemma arena_ok_shape {K : Type} (config : MCTSConfig) (st : MCTSState K) :
  arena_ok config st = true <-> arena_shape config st.
Proof.
  unfold arena_ok, arena_shape. split.
  - intros H. apply andb_true_iff in H as [Hwf Hal].
    destruct (well_formed_spec config st Hwf)
      as (HM & Hle & Hlpv & Hln & Hlw & Hlp & Hpar & Hedge & Hrev).
    unfold allocated in Hal.
    apply andb_true_iff in Hal as [Hal Hfree].
    apply andb_true_iff in Hal as [Hal Hbelow].
    apply andb_true_iff in Hal as [Hal Hrows].
    apply andb_true_iff in Hal as [Hal Hcur2].
    apply andb_true_iff in Hal as [Hal Hcur1].
    apply andb_true_iff in Hal as [Hal Hne2].
    apply andb_true_iff in Hal as [HA Hne1].
    apply Nat.leb_le in HA, Hne1, Hne2, Hcur1. apply Nat.ltb_lt in Hcur2.
    rewrite forallb_lookup in Hrows, Hbelow. rewrite forallb_seq in Hfree.
    split; [exact HA|]. split; [lia|]. split; [lia|].
    split; [exact Hle|]. split; [exact Hlpv|]. split; [exact Hln|].
    split; [exact Hlw|]. split; [exact Hlp|].
    split; [|split; [|split; [|split; [|split]]]].
    + intros s row Hrow. apply Nat.eqb_eq. eapply Hrows. exact Hrow.
    + intros s row a c Hrow Hc. apply Nat.ltb_lt.
      specialize (Hbelow s row Hrow). rewrite forallb_lookup in Hbelow.
      eapply Hbelow. exact Hc.
    + exact Hpar.
    + intros s row a c Hs Hrow Hc Hc0.
      apply (Hedge s row a c Hs Hrow Hc Hc0).
    + exact Hrev.
    + intros s Hs. specialize (Hfree s ltac:(lia)).
      apply andb_true_iff in Hfree as [Hp Hz]. apply Nat.eqb_eq in Hp.
      split; [exact Hp|]. intros row a c Hrow Hc.
      rewrite forallb_lookup in Hz. apply Nat.eqb_eq. apply (Hz a).
      rewrite nth_lookup, Hrow. exact Hc.
  - intros (HA & Hne & Hcur & Hle & Hlpv & Hln & Hlw & Hlp & Hrows & Hbelow
            & Hpar & Hedge & Hrev & Hfree).
    apply andb_true_iff. split.
    + apply well_formed_intro; try assumption; try lia.
      intros s row a c Hs Hrow Hc Hc0. split.
      * specialize (Hbelow s row a c Hrow Hc). lia.
      * apply (Hedge s row a c Hs Hrow Hc Hc0).
    + unfold allocated.
      assert (H1 : (1 <=? flat_policy_size config) = true) by (apply Nat.leb_le; lia).
      assert (H2 : (2 <=? next_empty st) = true) by (apply Nat.leb_le; lia).
      assert (H3 : (next_empty st <=? max_nodes config) = true)
        by (apply Nat.leb_le; lia).
      assert (H4 : (1 <=? cur_node st) = true) by (apply Nat.leb_le; lia).
      assert (H5 : (cur_node st <? next_empty st) = true)
        by (apply Nat.ltb_lt; lia).
      rewrite H1, H2, H3, H4, H5. cbn [andb].
      apply andb_true_iff. split; [apply andb_true_iff; split|].
      * apply forallb_lookup. intros s row Hrow. apply Nat.eqb_eq.
        eapply Hrows. exact Hrow.
      * apply forallb_lookup. intros s row Hrow. apply forallb_lookup.
        intros a c Hc. apply Nat.ltb_lt. eapply Hbelow; eassumption.
      * apply forallb_seq. intros s Hs.
        destruct (Hfree s ltac:(lia)) as [Hp Hz].
        apply andb_true_iff. split; [apply Nat.eqb_eq; exact Hp|].
        apply forallb_lookup. intros a c Hc. apply Nat.eqb_eq.
        rewrite nth_lookup in Hc.
        destruct (idx_action_map st !! s) as [row|] eqn:Er; cbn in Hc;
          [|discriminate].
        eapply Hz; [reflexivity | exact Hc].
Qed.


Import Legacy.

Section Shape.
Context {K S : Type}.
Variable config : MCTSConfig.
Variable env : Collab K S.

Lemma shape_reset (k : K) :
  2 <= max_nodes config -> 1 <= flat_policy_size config ->
  arena_shape config (reset config k).
Proof.
  intros HM HA. unfold arena_shape, reset.
  cbn [idx_action_map p_vals n_vals w_vals parents next_empty cur_node].
  rewrite !length_replicate.
  split; [lia|]. split; [lia|]. split; [lia|].
  do 5 (split; [reflexivity|]).
  split; [|split; [|split; [|split; [|split]]]].
  - intros s row Hrow. apply lookup_replicate in Hrow as [-> _].
    apply length_replicate.
  - intros s row a c Hrow Hc. apply lookup_replicate in Hrow as [-> _].
    apply lookup_replicate in Hc as [-> _]. lia.
  - intros s Hs. rewrite nth_lookup, lookup_replicate_2 by lia. cbn. lia.
  - intros s row a c Hs Hrow Hc Hc0. apply lookup_replicate in Hrow as [-> _].
    apply lookup_replicate in Hc as [-> _]. contradiction.
  - intros c Hc Hp. rewrite nth_lookup, lookup_replicate_2 in Hp by lia.
    cbn in Hp. contradiction.
  - intros s Hs. split.
    + rewrite nth_lookup, lookup_replicate_2 by lia. reflexivity.
    + intros row a c Hrow Hc. apply lookup_replicate in Hrow as [-> _].
      apply lookup_replicate in Hc as [-> _]. reflexivity.
Qed.

(** The shape depends on the edge map, the parent pointers above the
    sentinel, the allocator, the cursor and the lengths of the arrays. *)
Lemma shape_frame (st st' : MCTSState K) :
  arena_shape config st ->
  idx_action_map st' = idx_action_map st ->
  length (parents st') = length (parents st) ->
  (forall s, 1 <= s -> nth s (parents st') 0 = nth s (parents st) 0) ->
  next_empty st' = next_empty st ->
  length (p_vals st') = length (p_vals st) ->
  length (n_vals st') = length (n_vals st) ->
  length (w_vals st') = length (w_vals st) ->
  1 <= cur_node st' < next_empty st ->
  arena_shape config st'.
Proof.
  unfold arena_shape. cbv zeta.
  intros (HA & Hne & Hcur & Hle & Hlpv & Hln & Hlw & Hlp & Hrows & Hbelow
          & Hpar & Hedge & Hrev & Hfree) Hem Hlp' Hps Hne' Hp' Hn' Hw' Hcur'.
  rewrite Hem, Hne', Hlp', Hp', Hn', Hw'.
  split; [exact HA|]. split; [exact Hne|]. split; [exact Hcur'|].
  split; [exact Hle|]. split; [exact Hlpv|]. split; [exact Hln|].
  split; [exact Hlw|]. split; [exact Hlp|]. split; [exact Hrows|].
  split; [exact Hbelow|].
  split; [|split; [|split]].
  - intros s Hs. rewrite Hps by lia. apply Hpar. exact Hs.
  - intros s row a c Hs Hrow Hc Hc0. rewrite Hps by lia.
    apply (Hedge s row a c Hs Hrow Hc Hc0).
  - intros c Hc. rewrite Hps by lia. apply Hrev. exact Hc.
  - intros s Hs. rewrite Hps by lia. apply Hfree. exact Hs.
Qed.

Lemma shape_traverse (st : MCTSState K) (action : nat) :
  arena_shape config st -> action < flat_policy_size config ->
  let st1 := fst (traverse config st action) in
  arena_shape config (with_cur_node st1 1) /\
  (snd (traverse config st action) = false ->
   1 <= cur_node st1 < next_empty st1).
Proof.
  intros Hshape Hact.
  pose proof Hshape as (HA & Hne & Hcur & Hle & Hlpv & Hln & Hlw & Hlp & Hrows
                        & Hbelow & Hpar & Hedge & Hrev & Hfree).
  cbv zeta in *.
  set (M := max_nodes config) in *.
  set (em := idx_action_map st) in *.
  set (ps := parents st) in *.
  set (ne := next_empty st) in *.
  set (cur := cur_node st) in *.
  destruct (em !! cur) as [row|] eqn:Erow;
    [|apply lookup_ge_None in Erow; lia].
  pose proof (Hrows cur row Erow) as Hrl.
  destruct (row !! action) as [m|] eqn:Em;
    [|apply lookup_ge_None in Em; lia].
  pose proof (gather2_lookup 0 em cur action row m Erow Em) as Hg.
  unfold traverse. fold em ps ne cur M. rewrite Hg. clear Hg.
  destruct (m =? 0) eqn:Em0.
  - apply Nat.eqb_eq in Em0. subst m. rewrite andb_true_r.
    destruct (M <=? ne) eqn:Efull; cbn [negb andb fst snd].
    + (* the arena is full: nothing is allocated *)
      split; [|discriminate].
      rewrite (set2_id em cur action 0 row Erow Em).
      apply (shape_frame st); cbn [with_cur_node idx_action_map parents
        next_empty p_vals n_vals w_vals cur_node]; try reflexivity.
      * exact Hshape.
      * apply length_insert.
      * intros s Hs. apply nth_insert_ne. lia.
      * fold ne. lia.
    + (* a slot is allocated *)
      apply Nat.leb_gt in Efull. split; [|discriminate].
      unfold arena_shape. cbv zeta.
      cbn [with_cur_node idx_action_map parents next_empty p_vals n_vals
           w_vals cur_node].
      fold M.
      assert (Hrow' : Jax.set2 em cur action ne !! cur
                      = Some (<[action := ne]> row))
        by (apply set2_lookup_eq; exact Erow).
      assert (Hother : forall s, s <> cur ->
                Jax.set2 em cur action ne !! s = em !! s)
        by (intros s Hs; apply set2_lookup_ne; congruence).
      assert (Hpn : nth ne (<[ne := cur]> ps) 0 = cur)
        by (apply nth_insert_eq; lia).
      assert (Hpo : forall s, s <> ne -> nth s (<[ne := cur]> ps) 0 = nth s ps 0)
        by (intros s Hs; apply nth_insert_ne; congruence).
      split; [exact HA|]. split; [lia|]. split; [lia|].
      split; [unfold Jax.set2; rewrite length_alter; exact Hle|].
      split; [exact Hlpv|]. split; [exact Hln|]. split; [exact Hlw|].
      split; [rewrite length_insert; exact Hlp|].
      split; [|split; [|split; [|split; [|split]]]].
      * intros s r Hr. destruct (decide (s = cur)) as [->|Hs].
        -- rewrite Hrow' in Hr. inversion Hr; subst r.
           rewrite length_insert. exact Hrl.
        -- rewrite Hother in Hr by exact Hs. eapply Hrows. exact Hr.
      * intros s r a c Hr Hc. destruct (decide (s = cur)) as [->|Hs].
        -- rewrite Hrow' in Hr. inversion Hr; subst r.
           destruct (decide (a = action)) as [->|Ha].
           ++ rewrite list_lookup_insert_eq in Hc by lia.
              inversion Hc; subst c. lia.
           ++ rewrite list_lookup_insert_ne in Hc by congruence.
              pose proof (Hbelow cur row a c Erow Hc). lia.
        -- rewrite Hother in Hr by exact Hs.
           pose proof (Hbelow s r a c Hr Hc). lia.
      * intros s Hs. destruct (decide (s = ne)) as [->|Hsn].
        -- rewrite Hpn. lia.
        -- rewrite Hpo by exact Hsn. apply Hpar. exact Hs.
      * intros s r a c Hs Hr Hc Hc0.
        assert (Hold : forall r0, em !! s = Some r0 -> r0 !! a = Some c ->
                         nth c (<[ne := cur]> ps) 0 = s).
        { intros r0 Hr0 Hc'. pose proof (Hbelow s r0 a c Hr0 Hc').
          rewrite Hpo by lia. apply (Hedge s r0 a c Hs Hr0 Hc' Hc0). }
        destruct (decide (s = cur)) as [->|Hsc].
        -- rewrite Hrow' in Hr. inversion Hr; subst r.
           destruct (decide (a = action)) as [->|Ha].
           ++ rewrite list_lookup_insert_eq in Hc by lia.
              inversion Hc; subst c. exact Hpn.
           ++ rewrite list_lookup_insert_ne in Hc by congruence.
              apply (Hold row Erow Hc).
        -- rewrite Hother in Hr by exact Hsc. apply (Hold r Hr Hc).
      * intros c Hc Hp. destruct (decide (c = ne)) as [->|Hcn].
        -- rewrite Hpn. exists (<[action := ne]> row), action.
           split; [exact Hrow'|]. apply list_lookup_insert_eq. lia.
        -- rewrite Hpo in Hp |- * by exact Hcn.
           destruct (Hrev c Hc Hp) as (r & a & Hr & Ha).
           destruct (decide (nth c ps 0 = cur)) as [Hq|Hq].
           ++ rewrite Hq in Hr |- *. rewrite Erow in Hr. inversion Hr; subst r.
              exists (<[action := ne]> row), a. split; [exact Hrow'|].
              rewrite list_lookup_insert_ne; [exact Ha|].
              intros ->. rewrite Em in Ha. inversion Ha. lia.
           ++ exists r, a. split; [|exact Ha].
              rewrite Hother by exact Hq. exact Hr.
      * intros s Hs. destruct (Hfree s ltac:(lia)) as [Hp0 Hz].
        split; [rewrite Hpo by lia; exact Hp0|].
        intros r a c Hr Hc. rewrite Hother in Hr by lia.
        apply (Hz r a c Hr Hc).
  - (* the edge exists: the cursor moves along it *)
    apply Nat.eqb_neq in Em0. rewrite !andb_false_r. cbn [negb andb fst snd].
    pose proof (Hbelow cur row action m Erow Em) as Hm.
    assert (Hpm : ps !! m = Some cur).
    { rewrite (lookup_nth_Some 0 ps m) by lia. f_equal.
      apply (Hedge cur row action m ltac:(lia) Erow Em Em0). }
    split; [|intros _; cbn [cur_node next_empty]; fold ne; lia].
    rewrite (set2_id em cur action m row Erow Em).
    rewrite (list_insert_id ps m cur Hpm).
    apply (shape_frame st); cbn [with_cur_node idx_action_map parents
      next_empty p_vals n_vals w_vals cur_node]; try reflexivity.
    + exact Hshape.
    + fold ne. lia.
Qed.

Lemma choose_with_puct_range (st : MCTSState K) (legal_actions : list bool) :
  arena_shape config st ->
  choose_with_puct config st legal_actions < flat_policy_size config.
Proof.
  intros (HA & Hne & Hcur & Hle & _ & _ & _ & _ & Hrows & _). cbv zeta in *.
  assert (Hlen : length (puct_scores config st legal_actions)
                 <= flat_policy_size config).
  { unfold puct_scores, Jax.mask_neg_inf.
    rewrite length_imap, !length_zip_with, !length_fmap.
    assert (Hc : length (children st) = flat_policy_size config).
    { unfold children.
      destruct (idx_action_map st !! cur_node st) as [row|] eqn:Er;
        [|apply lookup_ge_None in Er; lia].
      pose proof (lookup_lt_Some _ _ _ Er) as Hlt.
      rewrite (gather_lookup [] _ _ Hlt) in Er. inversion Er as [Hr].
      rewrite Hr. eapply Hrows. rewrite <- Hr at 1.
      apply gather_lookup. exact Hlt. }
    lia. }
  unfold choose_with_puct.
  destruct (puct_scores config st legal_actions) as [|x l] eqn:El;
    [cbn; lia|].
  destruct (argmax_spec (x :: l)) as (v & Hv & _); [cbn; lia|].
  apply lookup_lt_Some in Hv. lia.
Qed.

Lemma shape_iterate (it : IterationState K S) :
  arena_shape config (state it) ->
  arena_shape config (state (iterate config env it)).
Proof.
  intros Hshape.
  pose proof (choose_with_puct_range (state it)
                (legal_action_mask env (env_state it)) Hshape) as Hact.
  pose proof (shape_traverse (state it) _ Hshape Hact) as [Hsh1 Hcur1].
  unfold iterate.
  destruct (env_step env (env_state it) _) as [e1 term].
  destruct (traverse config (state it) _) as [s1 unv] eqn:Etr.
  cbn [fst snd] in Hsh1, Hcur1.
  destruct (evaluator env e1) as [logits ev].
  cbn [state].
  apply (shape_frame (with_cur_node s1 1)); cbn [with_cur_node idx_action_map
    parents next_empty p_vals n_vals w_vals cur_node]; try reflexivity.
  - exact Hsh1.
  - apply length_insert.
  - apply scatter_add_length.
  - apply scatter_add_length.
  - destruct (term || unv) eqn:Eleaf.
    + destruct Hsh1 as (_ & Hne & _). cbv zeta in Hne.
      cbn [with_cur_node next_empty] in Hne. lia.
    + apply orb_false_iff in Eleaf as [_ ->]. apply Hcur1. reflexivity.
Qed.

Lemma shape_evaluate (st : MCTSState K) (env_state0 : S) (num_iters : nat) :
  arena_shape config st ->
  arena_shape config (evaluate config env st env_state0 num_iters) /\
  cur_node (evaluate config env st env_state0 num_iters) = 1.
Proof.
  intros Hshape. split; [|reflexivity].
  unfold evaluate.
  set (it0 := {| state := evaluate_root config env st env_state0;
                 env_state := env_state0; root_state := env_state0 |}).
  assert (H0 : arena_shape config (state it0)).
  { unfold it0, evaluate_root. cbn [state].
    destruct (split env (key (reset_search config st))) as [dk nk].
    apply (shape_frame st); cbn [reset_search idx_action_map
      parents next_empty p_vals n_vals w_vals cur_node]; try reflexivity.
    - exact Hshape.
    - apply length_insert.
    - destruct Hshape as (_ & Hne & _). cbv zeta in Hne. lia. }
  assert (Hn : arena_shape config (state (Nat.iter num_iters (iterate config env) it0))).
  { induction num_iters as [|n IH]; [exact H0|].
    rewrite Nat.iter_succ. apply shape_iterate. exact IH. }
  apply (shape_frame (state (Nat.iter num_iters (iterate config env) it0)));
    cbn [with_cur_node idx_action_map parents next_empty p_vals n_vals w_vals
         cur_node]; try reflexivity.
  - exact Hn.
  - destruct Hn as (_ & Hne & _). cbv zeta in Hne. lia.
Qed.

End Shape.


Import Legacy.

(** *** What a relocation keeps of a property of the elements *)

Lemma scatter_set_Forall {A : Type} (P : A -> Prop) (idx : list nat) :
  forall (vals l : list A),
    Forall P vals -> Forall P l -> Forall P (Jax.scatter_set idx vals l).
Proof.
  unfold Jax.scatter_set.
  induction idx as [|i idx IH]; intros [|v vals] l Hv Hl; cbn; try exact Hl.
  inversion Hv; subst. apply IH; [assumption|].
  apply Forall_insert; assumption.
Qed.

Lemma scatter_fill_Forall {A : Type} (P : A -> Prop) (clear : A -> A)
    (idx : list nat) :
  (forall x, P x -> P (clear x)) ->
  forall l : list A, Forall P l -> Forall P (Jax.scatter_fill clear idx l).
Proof.
  intros Hc. unfold Jax.scatter_fill.
  induction idx as [|i idx IH]; intros l Hl; cbn; [exact Hl|].
  apply IH. apply Forall_alter; [exact Hl|]. intros x _ Hx. apply Hc. exact Hx.
Qed.

Lemma relocate_Forall {A : Type} (P : A -> Prop) (clear : A -> A)
    (translation erase : list nat) (moved x : list A) :
  (forall y, P y -> P (clear y)) ->
  Forall P moved -> Forall P x ->
  Forall P (relocate clear translation erase moved x).
Proof.
  intros Hc Hm Hx. unfold relocate.
  apply scatter_fill_Forall; [exact Hc|].
  apply scatter_set_Forall; assumption.
Qed.

Lemma relocate_length {A : Type} (clear : A -> A)
    (translation erase : list nat) (moved x : list A) :
  length (relocate clear translation erase moved x) = length x.
Proof.
  unfold relocate. rewrite scatter_fill_length. apply scatter_set_length.
Qed.

(** The number of set entries is at most the width of a range that holds
    all of them. *)
Lemma count_true_range (bs : list bool) (lo hi : nat) :
  (forall k, bs !! k = Some true -> lo <= k < hi) ->
  Jax.count_true bs <= hi - lo.
Proof.
  intros H.
  assert (Hgen : Jax.count_true bs <= Nat.min hi (length bs) - lo).
  { induction bs as [|b bs IH] using rev_ind; [cbn; lia|].
    assert (Hc : Jax.count_true (bs ++ [b])
                 = Jax.count_true bs + (if b then 1 else 0)).
    { clear. induction bs as [|b0 bs IH]; cbn; [lia|]. rewrite IH. lia. }
    rewrite Hc, length_app. cbn [length].
    assert (IH' : Jax.count_true bs <= Nat.min hi (length bs) - lo).
    { apply IH. intros k Hk. apply H.
      rewrite lookup_app_l by (eapply lookup_lt_Some; exact Hk). exact Hk. }
    destruct b; [|lia].
    assert (Hlast : lo <= length bs < hi).
    { apply H. rewrite lookup_app_r by lia. rewrite Nat.sub_diag. reflexivity. }
    lia. }
  lia.
Qed.

Lemma load_subtree_parents {K : Type} (config : MCTSConfig) (st : MCTSState K)
    (action : nat) :
  let M := max_nodes config in
  let c := Jax.gather2 0 (idx_action_map st) 1 action in
  let ps := <[0 := 0]> (parents st) in
  let labels := Nat.iter M (propagate_subtrees ps) (Jax.arange M) in
  let new_nodes := (fun s => s =? c) <$> labels in
  let translation := translation_of (1 <? c) new_nodes in
  let next0 := Jax.amax translation + 1 in
  let erase := (fun s => if s <? next0 then 0 else s) <$> Jax.arange M in
  let st' := load_subtree config st action in
  parents st'
  = relocate (fun _ => 0) translation erase
      (Jax.gather 0 translation <$> ps) ps /\
  idx_action_map st'
  = relocate (A := list nat) (fmap (M:=list) (fun _ => 0)) translation erase
      (fmap (M:=list) (fmap (M:=list) (Jax.gather 0 translation))
            (idx_action_map st))
      (idx_action_map st) /\
  next_empty st' = Nat.max next0 2 /\
  cur_node st' = cur_node st /\
  length (p_vals st') = length (p_vals st) /\
  length (n_vals st') = length (n_vals st) /\
  length (w_vals st') = length (w_vals st).
Proof.
  cbv zeta. unfold load_subtree. cbv zeta.
  cbn [parents idx_action_map next_empty cur_node p_vals n_vals w_vals
       propagate_root_subtrees subtrees].
  rewrite !relocate_length. repeat split; reflexivity.
Qed.

Section Promoted.
Context {K : Type}.
Variable config : MCTSConfig.
Variable st : MCTSState K.
Variable action : nat.
Hypothesis Hshape : arena_shape config st.

Let M := max_nodes config.
Let A := flat_policy_size config.
Let em := idx_action_map st.
Let c := Jax.gather2 0 em 1 action.
Let ps := <[0 := 0]> (parents st).
Let labels := Nat.iter M (propagate_subtrees ps) (Jax.arange M).
Let new_nodes := (fun s => s =? c) <$> labels.
Let ret (s : nat) : bool := top_ancestor ps M s =? c.

Lemma promoted_wf : well_formed config st = true.
Proof using Hshape.
  pose proof (proj2 (arena_ok_shape config st) Hshape) as H.
  unfold arena_ok in H. apply andb_true_iff in H as [H _]. exact H.
Qed.

Section Populated.
Hypothesis Hpop : 1 < c.

Let translation := translation_of true new_nodes.
Let tr := Jax.gather 0 translation.
Let next0 : nat := Jax.amax translation + 1.
Let erase : list nat :=
  (fun s => if s <? next0 then 0 else s) <$> Jax.arange M.
Let em' :=
  relocate (A := list nat) (fmap (M:=list) (fun _ => 0)) translation erase
    (fmap (M:=list) (fmap (M:=list) tr) em) em.
Let ps' := relocate (fun _ => 0) translation erase (tr <$> ps) ps.

Lemma populated_fields :
  let st' := load_subtree config st action in
  parents st' = ps' /\ idx_action_map st' = em' /\ next_empty st' = next0 /\
  cur_node st' = cur_node st /\
  length (p_vals st') = length (p_vals st) /\
  length (n_vals st') = length (n_vals st) /\
  length (w_vals st') = length (w_vals st).
Proof using Hshape Hpop.
  pose proof (load_subtree_parents config st action) as H. cbv zeta in H.
  fold em c in H.
  assert (Hc : (1 <? c) = true) by (apply Nat.ltb_lt; exact Hpop).
  rewrite Hc in H.
  destruct H as (H1 & H2 & H3 & H4 & H5).
  cbv zeta. split; [exact H1|]. split; [exact H2|].
  split; [|split; [exact H4 | exact H5]].
  rewrite H3. apply (promo_next_empty config st action promoted_wf Hpop).
Qed.

Lemma populated_tr_zero (s : nat) : s < M -> ret s = false -> tr s = 0.
Proof using Hshape Hpop.
  intros Hs Hr.
  pose proof (promo_tr config st action promoted_wf Hpop s Hs) as H.
  cbv beta in H. unfold ret, ps, M, c, em in Hr. rewrite Hr in H. exact H.
Qed.

Lemma populated_tr_bound (s : nat) : tr s < next0.
Proof using Hshape Hpop.
  unfold next0, tr, Jax.gather. rewrite nth_lookup.
  destruct (translation !! _) as [x|] eqn:Ex; cbn; [|lia].
  pose proof (amax_ge translation _ x Ex). lia.
Qed.

Lemma populated_em_image (d : nat) (row : list nat) :
  d < M -> ret d = true -> em !! d = Some row ->
  em' !! tr d = Some (tr <$> row).
Proof using Hshape Hpop.
  intros Hd Hr Hrow.
  apply (promo_kept config st action promoted_wf Hpop); try assumption.
  - apply Hshape.
  - rewrite list_lookup_fmap, Hrow. reflexivity.
Qed.

Lemma populated_em_cleared (t : nat) (row : list nat) :
  t = 0 \/ next0 <= t < M -> em' !! t = Some row ->
  forall a x, row !! a = Some x -> x = 0.
Proof using Hshape Hpop.
  intros Ht Hrow a x Hx.
  destruct (promo_cleared config st action promoted_wf Hpop
              (fmap (M:=list) (fun _ => 0))
              (fmap (M:=list) (fmap (M:=list) tr) em) em t) as [y Hy].
  - intros y. rewrite <- list_fmap_compose. reflexivity.
  - apply Hshape.
  - exact Ht.
  - fold M em c ps labels new_nodes translation next0 erase tr em' in Hy.
    rewrite Hy in Hrow. inversion Hrow; subst row.
    rewrite list_lookup_fmap in Hx. destruct (y !! a); cbn in Hx; congruence.
Qed.

Lemma populated_ps_image (d : nat) :
  1 <= d < M -> ret d = true ->
  ps' !! tr d = Some (tr (nth d (parents st) 0)).
Proof using Hshape Hpop.
  intros Hd Hr.
  apply (promo_kept config st action promoted_wf Hpop); try assumption.
  - unfold ps. rewrite length_insert. apply Hshape.
  - lia.
  - rewrite list_lookup_fmap.
    assert (Hl : length ps = M)
      by (unfold ps; rewrite length_insert; apply Hshape).
    rewrite (gather_lookup 0 ps d) by (rewrite Hl; lia).
    assert (Hg : Jax.gather 0 ps d = nth d (parents st) 0)
      by (apply (promo_ps_parent config st action promoted_wf Hpop d Hd)).
    rewrite Hg. reflexivity.
Qed.

Lemma populated_ps_cleared (t : nat) :
  t = 0 \/ next0 <= t < M -> ps' !! t = Some 0.
Proof using Hshape Hpop.
  intros Ht.
  destruct (promo_cleared config st action promoted_wf Hpop
              (fun _ : nat => 0) (tr <$> ps) ps t) as [y Hy].
  - reflexivity.
  - unfold ps. rewrite length_insert. apply Hshape.
  - exact Ht.
  - exact Hy.
Qed.

Lemma populated_slot (t : nat) :
  t < M ->
  (t = 0 \/ next0 <= t < M) \/
  (exists d, 2 <= d < M /\ ret d = true /\ tr d = t /\ 1 <= t < next0).
Proof using Hshape Hpop.
  intros Ht.
  destruct (decide (t = 0)) as [->|H0]; [left; left; reflexivity|].
  destruct (decide (next0 <= t)) as [Hge|Hlt]; [left; right; lia|].
  right.
  destruct (promo_next0_attained config st action promoted_wf Hpop t
              ltac:(fold M em c ps labels new_nodes translation next0; lia))
    as (d & Hd & Hr & Htr).
  exists d.
  pose proof (promo_ret_ge config st action promoted_wf Hpop d Hd Hr) as Hcd.
  fold em c in Hcd.
  split; [lia|]. split; [exact Hr|]. split; [exact Htr|]. lia.
Qed.

Lemma populated_shape :
  cur_node st = 1 -> arena_shape config (load_subtree config st action).
Proof using Hshape Hpop.
  intros Hroot.
  destruct populated_fields as (Hps & Hem & Hne & Hcur & Hlp & Hln & Hlw).
  cbv zeta in Hps, Hem, Hne, Hcur, Hlp, Hln, Hlw.
  pose proof Hshape as (HA & Hneb & _ & Hle & Hlpv & Hlnv & Hlwv & Hlps & Hrows
                        & Hbelow & Hpar & Hedge & Hrev & Hfree).
  cbv zeta in *. fold M A em in HA, Hneb, Hle, Hlpv, Hlnv, Hlwv, Hlps, Hrows,
    Hbelow, Hpar, Hedge, Hrev, Hfree.
  pose proof (promo_next0_le config st action promoted_wf Hpop) as Hn0M.
  pose proof (promo_next_empty config st action promoted_wf Hpop) as Hn02.
  fold M em c ps labels new_nodes translation next0 in Hn0M, Hn02.
  assert (Hlem' : length em' = M)
    by (unfold em'; rewrite relocate_length; exact Hle).
  assert (Hlps' : length ps' = M).
  { unfold ps'. rewrite relocate_length. unfold ps. rewrite length_insert.
    exact Hlps. }
  assert (Hnth : forall t v, ps' !! t = Some v -> nth t ps' 0 = v)
    by (intros t v Hv; rewrite nth_lookup, Hv; reflexivity).
  assert (Hrow_of : forall d, d < M -> exists row, em !! d = Some row)
    by (intros d Hd; apply lookup_lt_is_Some; rewrite Hle; exact Hd).
  unfold arena_shape. cbv zeta. rewrite Hps, Hem, Hne, Hcur, Hlp, Hln, Hlw, Hroot.
  fold M A.
  split; [exact HA|]. split; [lia|]. split; [lia|].
  split; [exact Hlem'|]. split; [exact Hlpv|]. split; [exact Hlnv|].
  split; [exact Hlwv|]. split; [exact Hlps'|].
  split; [|split; [|split; [|split; [|split]]]].
  - (* every row has an entry per action *)
    assert (Hall : Forall (fun row => length row = A) em').
    { unfold em'. apply relocate_Forall.
      - intros y Hy. rewrite length_fmap. exact Hy.
      - apply Forall_fmap. apply Forall_lookup. intros s row Hrow. cbn.
        rewrite length_fmap. eapply Hrows. exact Hrow.
      - apply Forall_lookup. intros s row Hrow. eapply Hrows. exact Hrow. }
    intros s row Hrow. rewrite Forall_lookup in Hall. eapply Hall. exact Hrow.
  - (* every edge leads below the allocator *)
    intros t row a x Hrow Hx.
    pose proof (lookup_lt_Some _ _ _ Hrow) as Ht. rewrite Hlem' in Ht.
    destruct (populated_slot t Ht) as [Hclr|(d & Hd & Hr & Htr & Htn)].
    + rewrite (populated_em_cleared t row Hclr Hrow a x Hx). lia.
    + destruct (Hrow_of d ltac:(lia)) as [rd Hrd].
      pose proof (populated_em_image d rd ltac:(lia) Hr Hrd) as Him.
      rewrite Htr, Hrow in Him. inversion Him; subst row.
      rewrite list_lookup_fmap in Hx. destruct (rd !! a) as [e|]; cbn in Hx;
        [|discriminate].
      inversion Hx; subst x. apply populated_tr_bound.
  - (* parents lie below *)
    intros t Ht.
    destruct (populated_slot t ltac:(lia)) as [Hclr|(d & Hd & Hr & Htr & Htn)].
    + rewrite (Hnth t 0 (populated_ps_cleared t Hclr)). lia.
    + rewrite <- Htr at 1.
      rewrite (Hnth _ _ (populated_ps_image d ltac:(lia) Hr)).
      pose proof (Hpar d ltac:(lia)) as Hq.
      set (q := nth d (parents st) 0) in *.
      destruct (ret q) eqn:Erq.
      * pose proof (promo_tr_mono config st action promoted_wf Hpop q d
                      Hq ltac:(lia) Erq Hr) as Hm.
        fold M em c ps labels new_nodes translation tr in Hm. lia.
      * rewrite (populated_tr_zero q ltac:(lia) Erq). lia.
  - (* an edge leads to a slot whose parent is its source *)
    intros t row a x Ht Hrow Hx Hx0.
    destruct (populated_slot t ltac:(lia)) as [Hclr|(d & Hd & Hr & Htr & Htn)].
    + contradiction Hx0. apply (populated_em_cleared t row Hclr Hrow a x Hx).
    + destruct (Hrow_of d ltac:(lia)) as [rd Hrd].
      pose proof (populated_em_image d rd ltac:(lia) Hr Hrd) as Him.
      rewrite Htr, Hrow in Him. inversion Him; subst row.
      rewrite list_lookup_fmap in Hx. destruct (rd !! a) as [e|] eqn:Ee;
        cbn in Hx; [|discriminate].
      inversion Hx; subst x.
      assert (He0 : e <> 0).
      { intros ->. apply Hx0. apply populated_tr_zero; [lia|].
        apply (promo_ret_zero config st action promoted_wf Hpop). }
      destruct (promo_ret_child config st action promoted_wf Hpop d a e rd
                  ltac:(lia) Hr Hrd Ee He0) as [HeM Hre].
      fold M in HeM.
      rewrite (Hnth _ _ (populated_ps_image e ltac:(lia) Hre)).
      rewrite (Hedge d rd a e ltac:(lia) Hrd Ee He0). exact Htr.
  - (* a slot with a parent is reached by an edge of the parent *)
    intros t Ht Hp.
    destruct (populated_slot t ltac:(lia)) as [Hclr|(d & Hd & Hr & Htr & Htn)].
    + rewrite (Hnth t 0 (populated_ps_cleared t Hclr)) in Hp. contradiction.
    + rewrite <- Htr in Hp |- *.
      rewrite (Hnth _ _ (populated_ps_image d ltac:(lia) Hr)) in Hp |- *.
      pose proof (Hpar d ltac:(lia)) as Hq.
      set (q := nth d (parents st) 0) in *.
      destruct (ret q) eqn:Erq;
        [|rewrite (populated_tr_zero q ltac:(lia) Erq) in Hp; contradiction].
      assert (Hq0 : q <> 0).
      { intros Hq0. rewrite Hq0 in Erq.
        pose proof (promo_ret_zero config st action promoted_wf Hpop) as Hz.
        change (ret 0 = false) in Hz. congruence. }
      destruct (Hrev d ltac:(lia) Hq0) as (row & a & Hrow & Ha).
      fold q in Hrow.
      exists (tr <$> row), a. split.
      * apply populated_em_image; [lia | exact Erq | exact Hrow].
      * rewrite list_lookup_fmap, Ha. reflexivity.
  - (* the slots from the allocator on are blank *)
    intros t Ht. split.
    + apply Hnth. apply populated_ps_cleared. right. lia.
    + intros row a x Hrow Hx.
      apply (populated_em_cleared t row ltac:(right; lia) Hrow a x Hx).
Qed.

(** The retained slots are allocated slots from the child on, so the
    promotion gives back at least the slot of the old root. *)
Lemma populated_frees : next0 < next_empty st.
Proof using Hshape Hpop.
  pose proof Hshape as (HA & Hneb & _ & Hle & _ & _ & _ & Hlps & _
                        & Hbelow & Hpar & _ & _ & Hfree).
  cbv zeta in *. fold M A em in HA, Hneb, Hle, Hlps, Hbelow, Hpar, Hfree.
  assert (Hl : length ps = M) by (unfold ps; rewrite length_insert; exact Hlps).
  assert (Hcne : c < next_empty st).
  { destruct (promo_root_edge config st action promoted_wf Hpop)
      as (row & a & Hrow & Ha & _).
    apply (Hbelow 1 row a c Hrow Ha). }
  assert (Hle_count : Jax.amax translation <= Jax.count_true new_nodes).
  { apply amax_le. intros k x Hk.
    pose proof (lookup_lt_Some _ _ _ Hk) as Hlt.
    pose proof (promo_translation_length config st action promoted_wf Hpop) as Htl.
    fold M em c ps labels new_nodes translation in Htl. rewrite Htl in Hlt.
    pose proof (promo_translation config st action promoted_wf Hpop k Hlt) as Htk.
    cbv beta in Htk. fold M em c ps labels new_nodes translation in Htk.
    rewrite Htk in Hk. inversion Hk as [Hx].
    destruct (top_ancestor ps M k =? c); [apply count_true_take_le | lia]. }
  assert (Hcount : Jax.count_true new_nodes <= next_empty st - 2).
  { apply count_true_range. intros k Hk.
    pose proof (lookup_lt_Some _ _ _ Hk) as Hlt.
    pose proof (promo_new_nodes_length config st action promoted_wf Hpop) as Hnl.
    fold M em c ps labels new_nodes in Hnl. rewrite Hnl in Hlt.
    pose proof (promo_new_nodes config st action promoted_wf Hpop k Hlt) as Hnk.
    fold M em c ps labels new_nodes in Hnk. rewrite Hnk in Hk.
    inversion Hk as [Hr].
    pose proof (promo_ret_ge config st action promoted_wf Hpop k Hlt Hr) as Hck.
    fold em c in Hck. split; [lia|].
    destruct (decide (k < next_empty st)) as [Hin|Hout]; [exact Hin|].
    exfalso. destruct (Hfree k ltac:(lia)) as [Hp0 _].
    assert (Hstop : top_ancestor ps M k = k).
    { apply (top_ancestor_stop M ps Hl).
      - apply (promo_ps_null config st action promoted_wf Hpop).
      - apply (promo_ps_lower config st action promoted_wf Hpop).
      - assert (Hg : Jax.gather 0 ps k = nth k (parents st) 0)
          by (apply (promo_ps_parent config st action promoted_wf Hpop k); lia).
        rewrite Hg. lia. }
    rewrite Hstop in Hr. apply Nat.eqb_eq in Hr. lia. }
  unfold next0. lia.
Qed.

End Populated.

End Promoted.


Import Legacy.

(** *** Promoting a child that was never expanded *)

Lemma translation_of_false (bs : list bool) :
  Jax.amax (translation_of false bs) = 0.
Proof.
  assert (H : Jax.amax (translation_of false bs) <= 0); [|lia].
  apply amax_le. intros k x Hk. unfold translation_of in Hk.
  apply lookup_zip_with_Some in Hk as (b & j & -> & _ & _). cbn. lia.
Qed.

Lemma fmap_const_replicate {A B : Type} (z : B) (l : list A) :
  (fun _ => z) <$> l = replicate (length l) z.
Proof. induction l as [|x l IH]; cbn; [reflexivity|]. rewrite IH. reflexivity. Qed.

(** When the erase list names every slot, the relocation clears every
    slot. *)
Lemma relocate_all_cleared {A : Type} (clear : A -> A)
    (translation : list nat) (moved x : list A) :
  (forall y, clear (clear y) = clear y) ->
  relocate clear translation
    ((fun s => if s <? 1 then 0 else s) <$> Jax.arange (length x)) moved x
  = clear <$> Jax.scatter_set translation moved x.
Proof.
  intros Hidem. unfold relocate. apply list_eq. intros t.
  destruct (decide (t < length x)) as [Ht|Ht].
  - rewrite list_lookup_fmap. apply scatter_fill_in; [exact Hidem|].
    apply list_elem_of_fmap. exists t. split.
    + destruct t; reflexivity.
    + unfold Jax.arange. apply elem_of_seq. lia.
  - rewrite !(proj2 (lookup_ge_None _ _)); [reflexivity| |].
    + rewrite length_fmap, scatter_set_length. lia.
    + rewrite scatter_fill_length, scatter_set_length. lia.
Qed.

Section Unpopulated.
Context {K : Type}.
Variable config : MCTSConfig.
Variable st : MCTSState K.
Variable action : nat.
Hypothesis Hshape : arena_shape config st.
Hypothesis Hun : Jax.gather2 0 (idx_action_map st) 1 action <= 1.

Let M := max_nodes config.
Let A := flat_policy_size config.

Lemma unpopulated_fields :
  let st' := load_subtree config st action in
  idx_action_map st' = replicate M (replicate A 0) /\
  parents st' = replicate M 0 /\
  n_vals st' = replicate M F32.zero /\
  w_vals st' = replicate M F32.zero /\
  length (p_vals st') = M /\
  Forall (Forall (fun x => x = F32.zero)) (p_vals st') /\
  next_empty st' = 2 /\
  cur_node st' = cur_node st.
Proof using Hshape Hun.
  pose proof Hshape as (HA & Hneb & _ & Hle & Hlpv & Hlnv & Hlwv & Hlps & Hrows & _).
  cbv zeta in *. fold M A in HA, Hneb, Hle, Hlpv, Hlnv, Hlwv, Hlps, Hrows.
  assert (Hc : (1 <? Jax.gather2 0 (idx_action_map st) 1 action) = false)
    by (apply Nat.ltb_ge; exact Hun).
  unfold load_subtree. cbv zeta.
  cbn [parents idx_action_map next_empty cur_node p_vals n_vals w_vals
       propagate_root_subtrees subtrees].
  rewrite Hc. rewrite translation_of_false. cbn [Nat.add].
  set (translation := translation_of false _).
  assert (Hlps' : length (<[0 := 0]> (parents st)) = M)
    by (rewrite length_insert; exact Hlps).
  fold M.
  split; [|split; [|split; [|split; [|split; [|split; [|split]]]]]].
  - rewrite <- Hle at 1.
    rewrite (relocate_all_cleared (A := list nat) (fmap (M:=list) (fun _ => 0)))
      by (intros y; rewrite <- list_fmap_compose; reflexivity).
    apply list_eq. intros t. rewrite list_lookup_fmap.
    destruct (decide (t < M)) as [Ht|Ht].
    + rewrite lookup_replicate_2 by exact Ht.
      destruct (Jax.scatter_set translation _ (idx_action_map st) !! t)
        as [y|] eqn:Ey;
        [|apply lookup_ge_None in Ey; rewrite scatter_set_length in Ey; lia].
      cbn. f_equal. rewrite fmap_const_replicate. f_equal.
      assert (Hall : Forall (fun row => length row = A)
                (Jax.scatter_set translation
                   (fmap (M:=list) (fmap (M:=list) (Jax.gather 0 translation))
                         (idx_action_map st))
                   (idx_action_map st))).
      { apply scatter_set_Forall.
        - apply Forall_fmap. apply Forall_lookup. intros s row Hrow. cbn.
          rewrite length_fmap. eapply Hrows. exact Hrow.
        - apply Forall_lookup. intros s row Hrow. eapply Hrows. exact Hrow. }
      rewrite Forall_lookup in Hall. eapply Hall. exact Ey.
    + rewrite !(proj2 (lookup_ge_None _ _)); [reflexivity| |].
      * rewrite length_replicate. lia.
      * rewrite scatter_set_length. lia.
  - rewrite <- Hlps' at 1.
    rewrite (relocate_all_cleared (fun _ : nat => 0)) by reflexivity.
    rewrite fmap_const_replicate, scatter_set_length, Hlps'. reflexivity.
  - rewrite <- Hlnv at 1.
    rewrite (relocate_all_cleared (fun _ : f32 => F32.zero)) by reflexivity.
    rewrite fmap_const_replicate, scatter_set_length, Hlnv. reflexivity.
  - rewrite <- Hlwv at 1.
    rewrite (relocate_all_cleared (fun _ : f32 => F32.zero)) by reflexivity.
    rewrite fmap_const_replicate, scatter_set_length, Hlwv. reflexivity.
  - rewrite relocate_length. exact Hlpv.
  - rewrite <- Hlpv at 1.
    rewrite (relocate_all_cleared (A := list f32)
               (fmap (M:=list) (fun _ => F32.zero)))
      by (intros y; rewrite <- list_fmap_compose; reflexivity).
    apply Forall_fmap. apply Forall_true. intros row. cbn.
    apply Forall_fmap. apply Forall_true. reflexivity.
  - reflexivity.
  - reflexivity.
Qed.

Lemma unpopulated_shape :
  cur_node st = 1 -> arena_shape config (load_subtree config st action).
Proof using Hshape Hun.
  intros Hroot.
  destruct unpopulated_fields as (Hem & Hps & Hn & Hw & Hp & _ & Hne & Hcur).
  cbv zeta in Hem, Hps, Hn, Hw, Hp, Hne, Hcur.
  pose proof Hshape as (HA & Hneb & _).
  cbv zeta in HA, Hneb. fold M A in HA, Hneb.
  pose proof (shape_reset config (key st) ltac:(fold M; lia) HA) as Hreset.
  apply (shape_frame config (reset config (key st))).
  - exact Hreset.
  - rewrite Hem. reflexivity.
  - rewrite Hps. reflexivity.
  - intros s _. rewrite Hps. reflexivity.
  - rewrite Hne. reflexivity.
  - rewrite Hp. cbn [reset p_vals]. rewrite length_replicate. reflexivity.
  - rewrite Hn. reflexivity.
  - rewrite Hw. reflexivity.
  - rewrite Hcur, Hroot. cbn [reset next_empty]. lia.
Qed.

End Unpopulated.

Section LifecycleProofs.
Context {K S : Type}.
Variable config : MCTSConfig.
Variable env : Collab K S.

Lemma shape_load_subtree (st : MCTSState K) (action : nat) :
  arena_shape config st -> cur_node st = 1 ->
  arena_shape config (load_subtree config st action) /\
  cur_node (load_subtree config st action) = 1.
Proof.
  intros Hshape Hroot. split.
  - destruct (decide (1 < Jax.gather2 0 (idx_action_map st) 1 action))
      as [Hpop|Hun].
    + apply populated_shape; assumption.
    + apply unpopulated_shape; [exact Hshape | lia | exact Hroot].
  - unfold load_subtree. cbv zeta. cbn [cur_node propagate_root_subtrees].
    exact Hroot.
Qed.

Lemma shape_reachable (st : MCTSState K) :
  2 <= max_nodes config -> 1 <= flat_policy_size config ->
  reachable config env st ->
  arena_shape config st /\ cur_node st = 1.
Proof.
  intros HM HA. induction 1 as [k | st e n _ [IH1 IH2] | st a _ [IH1 IH2]].
  - split; [apply shape_reset; assumption | reflexivity].
  - apply shape_evaluate. exact IH1.
  - apply shape_load_subtree; assumption.
Qed.

Lemma load_subtree_frees (st : MCTSState K) (action : nat) :
  arena_shape config st ->
  next_empty (load_subtree config st action)
  <= Nat.max 2 (next_empty st - 1).
Proof.
  intros Hshape.
  destruct (decide (1 < Jax.gather2 0 (idx_action_map st) 1 action))
    as [Hpop|Hun].
  - destruct (populated_fields config st action Hshape Hpop)
      as (_ & _ & Hne & _).
    cbv zeta in Hne. rewrite Hne.
    pose proof (populated_frees config st action Hshape Hpop). lia.
  - destruct (unpopulated_fields config st action Hshape ltac:(lia))
      as (_ & _ & _ & _ & _ & _ & Hne & _).
    cbv zeta in Hne. rewrite Hne. lia.
Qed.

End LifecycleProofs.


Import Legacy.

(** X10. Every state a caller can hold -- a fresh state, or the result of
    [evaluate] or [load_subtree] on a state it holds -- is a well-formed
    arena whose allocator is consistent with it ([arena_ok]), with the
    cursor at the root. *)
Theorem reachable_arena_ok {K S : Type} (config : MCTSConfig)
    (env : Collab K S) (st : MCTSState K) :
  2 <= max_nodes config -> 1 <= flat_policy_size config ->
  reachable config env st ->
  arena_ok config st = true /\ cur_node st = 1.
Proof.
  intros HM HA Hreach.
  destruct (shape_reachable config env st HM HA Hreach) as [Hshape Hcur].
  split; [apply arena_ok_shape; exact Hshape | exact Hcur].
Qed.

Lemma reachable_arena_ok_witness :
  arena_ok Demo.demo_config
    (load_subtree Demo.demo_config
       (evaluate Demo.demo_config (Demo.demo_env [true; true] false)
          (reset Demo.demo_config 7) 0 3) 0) = true.
Proof.
  refine (proj1 (reachable_arena_ok Demo.demo_config
                   (Demo.demo_env [true; true] false) _ _ _ _)).
  - vm_compute. lia.
  - vm_compute. lia.
  - apply reachable_load_subtree, reachable_evaluate, reachable_reset.
Defined.

(** X11. One iteration of the search keeps the arena well formed and the
    allocator consistent, and so does a whole [evaluate], which also leaves
    the cursor at the root. *)
Theorem search_keeps_arena_ok {K S : Type} (config : MCTSConfig)
    (env : Collab K S) :
  (forall it : IterationState K S,
     arena_ok config (state it) = true ->
     arena_ok config (state (iterate config env it)) = true) /\
  (forall (st : MCTSState K) (env_state0 : S) (num_iters : nat),
     arena_ok config st = true ->
     arena_ok config (evaluate config env st env_state0 num_iters) = true /\
     cur_node (evaluate config env st env_state0 num_iters) = 1).
Proof.
  split.
  - intros it H. apply arena_ok_shape. apply shape_iterate.
    apply arena_ok_shape. exact H.
  - intros st e n H. apply arena_ok_shape in H.
    destruct (shape_evaluate config env st e n H) as [H1 H2].
    split; [apply arena_ok_shape; exact H1 | exact H2].
Qed.

Lemma search_keeps_arena_ok_witness :
  arena_ok Demo.demo_config
    (evaluate Demo.demo_config (Demo.demo_env [true; true] false)
       Demo.demo_state 0 2) = true.
Proof.
  refine (proj1 (proj2 (search_keeps_arena_ok Demo.demo_config
                          (Demo.demo_env [true; true] false))
                   Demo.demo_state 0 2 _)).
  vm_compute. reflexivity.
Defined.

(** X12. Promoting the subtree of any action from an arena that is
    [arena_ok] with the cursor at the root gives an arena that is
    [arena_ok] again, whether or not the action's child exists. *)
Theorem load_subtree_keeps_arena_ok {K : Type} (config : MCTSConfig)
    (st : MCTSState K) (action : nat) :
  arena_ok config st = true -> cur_node st = 1 ->
  arena_ok config (load_subtree config st action) = true.
Proof.
  intros H Hcur. apply arena_ok_shape in H. apply arena_ok_shape.
  apply (shape_load_subtree config st action H Hcur).
Qed.

Lemma load_subtree_keeps_arena_ok_witness :
  arena_ok Demo.demo_config (load_subtree Demo.demo_config Demo.demo_state 1)
  = true.
Proof.
  apply load_subtree_keeps_arena_ok; [vm_compute; reflexivity | reflexivity].
Defined.

(** X13. A promotion gives back at least the slot of the old root: on an
    arena that is [arena_ok], [next_empty] after [load_subtree] is 2 or at
    most the old [next_empty] minus one. *)
Theorem load_subtree_frees_a_slot {K : Type} (config : MCTSConfig)
    (st : MCTSState K) (action : nat) :
  arena_ok config st = true ->
  next_empty (load_subtree config st action)
  <= Nat.max 2 (next_empty st - 1).
Proof.
  intros H. apply arena_ok_shape in H.
  apply (load_subtree_frees config st action H).
Qed.

Lemma load_subtree_frees_a_slot_witness :
  next_empty (load_subtree Demo.demo_config Demo.demo_state 1) <= 5.
Proof.
  exact (load_subtree_frees_a_slot Demo.demo_config Demo.demo_state 1
           ltac:(vm_compute; reflexivity)).
Defined.

(** X14. Promoting an action whose child was never expanded (the edge of
    the root is not above 1) wipes the arena: the edge map, the parent
    pointers, the visit counts and the cumulative values are those of a fresh
    arena, every prior is zero, and [next_empty] is 2. *)
Theorem load_subtree_unexpanded_resets {K : Type} (config : MCTSConfig)
    (st : MCTSState K) (action : nat) :
  arena_ok config st = true ->
  Jax.gather2 0 (idx_action_map st) 1 action <= 1 ->
  let st' := load_subtree config st action in
  let M := max_nodes config in
  idx_action_map st' = replicate M (replicate (flat_policy_size config) 0) /\
  parents st' = replicate M 0 /\
  n_vals st' = replicate M F32.zero /\
  w_vals st' = replicate M F32.zero /\
  length (p_vals st') = M /\
  Forall (Forall (fun x => x = F32.zero)) (p_vals st') /\
  next_empty st' = 2.
Proof.
  intros H Hun. apply arena_ok_shape in H.
  destruct (unpopulated_fields config st action H Hun)
    as (H1 & H2 & H3 & H4 & H5 & H6 & H7 & _).
  cbv zeta. auto 10.
Qed.

Lemma load_subtree_unexpanded_resets_witness :
  n_vals (load_subtree Demo.demo_config
            (reset Demo.demo_config 7) 0)
  = replicate 6 F32.zero.
Proof.
  refine (proj1 (proj2 (proj2 (load_subtree_unexpanded_resets Demo.demo_config
                                 (reset Demo.demo_config 7) 0 _ _)))).
  - vm_compute. reflexivity.
  - vm_compute. lia.
Defined.




(** ** The evaluation games of the trainer *)

Import Trainer.

Lemma outcome_credit (use_other : bool) (r : f32) :
  outcome r -> outcome (if use_other then r else F32.sub F32.one r).
Proof.
  intros Hr. destruct use_other; [exact Hr|].
  destruct Hr as [-> | [-> | ->]]; vm_compute; auto.
Qed.

(** The sum the loop forms for one episode. *)
Lemma score_entry (s cr : f32) (t c : bool) :
  outcome s -> outcome cr -> (c = false -> s = F32.zero) ->
  F32.add s (F32.mul (F32.mul cr (of_bool t)) (of_bool (negb c)))
  = if t && negb c then cr else s.
Proof.
  intros Hs Hcr Hc.
  destruct c.
  - destruct Hs as [-> | [-> | ->]], Hcr as [-> | [-> | ->]], t;
      vm_compute; reflexivity.
  - rewrite (Hc eq_refl).
    destruct Hcr as [-> | [-> | ->]], t; vm_compute; reflexivity.
Qed.

Lemma count_eq_outcomes (scores : list f32) :
  Forall outcome scores ->
  count_eq F32.one scores + count_eq half scores + count_eq F32.zero scores
  = length scores.
Proof.
  unfold count_eq. induction 1 as [|s scores Hs _ IH]; [reflexivity|].
  cbn [List.filter length].
  destruct Hs as [-> | [-> | ->]];
    change (F32.eqb F32.zero F32.one) with false;
    change (F32.eqb F32.zero half) with false;
    change (F32.eqb F32.zero F32.zero) with true;
    change (F32.eqb half F32.one) with false;
    change (F32.eqb half half) with true;
    change (F32.eqb half F32.zero) with false;
    change (F32.eqb F32.one F32.one) with true;
    change (F32.eqb F32.one half) with false;
    change (F32.eqb F32.one F32.zero) with false;
    cbn [length]; lia.
Qed.

Section Games.
Context {W : Type}.
Variable trainer : Collab W.
Variable step : bool -> W -> W * list bool.
Variable N : nat.

Hypothesis rewards_shape : forall w, length (get_rewards trainer w) = N.
Hypothesis rewards_outcomes : forall w, Forall outcome (get_rewards trainer w).
Hypothesis step_shape : forall b w, length (snd (step b w)) = N.

(** What the loop knows of an episode: its score is an outcome, and it is
    zero as long as the episode is not completed. *)
Let scored (completed : list bool) (scores : list f32) : Prop :=
  length completed = N /\ length scores = N /\
  forall i c s, completed !! i = Some c -> scores !! i = Some s ->
    outcome s /\ (c = false -> s = F32.zero).

Lemma score_step_lookup (use_other : bool) (w : W) (terminated completed : list bool)
    (scores : list f32) (i : nat) (t c : bool) (s : f32) :
  scored completed scores -> length terminated = N ->
  terminated !! i = Some t -> completed !! i = Some c -> scores !! i = Some s ->
  exists r, get_rewards trainer w !! i = Some r /\
    outcome (if use_other then r else F32.sub F32.one r) /\
    score_step use_other (get_rewards trainer w) terminated completed scores !! i
    = Some (if t && negb c
            then (if use_other then r else F32.sub F32.one r) else s).
Proof using rewards_shape rewards_outcomes.
  intros (Hlc & Hls & Hinv) Hlt Ht Hc Hs.
  pose proof (lookup_lt_Some _ _ _ Ht) as Hi. rewrite Hlt in Hi.
  destruct (get_rewards trainer w !! i) as [r|] eqn:Er;
    [|apply lookup_ge_None in Er; rewrite rewards_shape in Er; lia].
  pose proof (rewards_outcomes w) as Hall. rewrite Forall_lookup in Hall.
  pose proof (Hall i r Er) as Hr.
  destruct (Hinv i c s Hc Hs) as [Hso Hsz].
  exists r. split; [reflexivity|].
  split; [apply outcome_credit; exact Hr|].
  rewrite <- (score_entry s _ t c Hso (outcome_credit use_other r Hr) Hsz).
  unfold score_step. apply lookup_zip_with_Some.
  eexists s, _. split; [reflexivity|]. split; [exact Hs|].
  apply lookup_zip_with_Some.
  eexists _, (of_bool (negb c)). split; [reflexivity|]. split.
  - apply lookup_zip_with_Some.
    eexists _, (of_bool t). split; [reflexivity|]. split.
    + unfold credit. destruct use_other; [exact Er|].
      rewrite list_lookup_fmap, Er. reflexivity.
    + rewrite list_lookup_fmap, Ht. reflexivity.
  - rewrite !list_lookup_fmap, Hc. reflexivity.
Qed.

Lemma score_step_length (use_other : bool) (w : W) (terminated completed : list bool)
    (scores : list f32) :
  scored completed scores -> length terminated = N ->
  length (score_step use_other (get_rewards trainer w) terminated completed scores)
  = N.
Proof using rewards_shape.
  intros (Hlc & Hls & _) Hlt. unfold score_step, credit.
  rewrite !length_zip_with, !length_fmap.
  destruct use_other; rewrite ?length_fmap, rewards_shape; lia.
Qed.

Lemma scored_step (use_other : bool) (w : W) (terminated completed : list bool)
    (scores : list f32) :
  scored completed scores -> length terminated = N ->
  scored (zip_with orb completed terminated)
         (score_step use_other (get_rewards trainer w) terminated completed scores).
Proof using rewards_shape rewards_outcomes.
  intros Hsc Hlt. pose proof Hsc as (Hlc & Hls & Hinv).
  split; [rewrite length_zip_with; lia|].
  split; [apply score_step_length; assumption|].
  intros i c' s' Hc' Hs'.
  apply lookup_zip_with_Some in Hc' as (c & t & -> & Hc & Ht).
  destruct (scores !! i) as [s|] eqn:Es;
    [|apply lookup_ge_None in Es; apply lookup_lt_Some in Hc; lia].
  destruct (score_step_lookup use_other w terminated completed scores i t c s
              Hsc Hlt Ht Hc Es) as (r & _ & Hcr & Hnew).
  rewrite Hnew in Hs'. inversion Hs'; subst s'.
  destruct (Hinv i c s Hc Es) as [Hso Hsz].
  destruct c, t; cbn; auto; split; auto; discriminate.
Qed.

Lemma score_loop_scored (fuel : nat) :
  forall (w w' : W) (completed : list bool) (scores final : list f32)
         (use_other : bool),
    scored completed scores ->
    score_loop trainer step fuel w completed scores use_other = Some (w', final) ->
    length final = N /\ Forall outcome final /\
    (forall i s, completed !! i = Some true -> scores !! i = Some s ->
       final !! i = Some s).
Proof using rewards_shape rewards_outcomes step_shape.
  induction fuel as [|fuel IH]; intros w w' completed scores final use_other
    Hsc Hrun; cbn [score_loop] in Hrun.
  - destruct (forallb id completed) eqn:Eall; [|discriminate].
    inversion Hrun; subst. destruct Hsc as (Hlc & Hls & Hinv).
    split; [exact Hls|]. split; [|auto].
    apply Forall_lookup. intros i s Hs.
    destruct (completed !! i) as [c|] eqn:Ec;
      [|apply lookup_ge_None in Ec; apply lookup_lt_Some in Hs; lia].
    apply (Hinv i c s Ec Hs).
  - destruct (forallb id completed) eqn:Eall.
    + inversion Hrun; subst. destruct Hsc as (Hlc & Hls & Hinv).
      split; [exact Hls|]. split; [|auto].
      apply Forall_lookup. intros i s Hs.
      destruct (completed !! i) as [c|] eqn:Ec;
        [|apply lookup_ge_None in Ec; apply lookup_lt_Some in Hs; lia].
      apply (Hinv i c s Ec Hs).
    + pose proof (step_shape use_other w) as Hlt.
      destruct (step use_other w) as [w1 terminated]. cbn [snd] in Hlt.
      pose proof (scored_step use_other w1 terminated completed scores Hsc Hlt)
        as Hsc1.
      destruct (IH _ _ _ _ _ _ Hsc1 Hrun) as (Hlen & Hout & Hkeep).
      split; [exact Hlen|]. split; [exact Hout|].
      intros i s Hc Hs.
      destruct (terminated !! i) as [t|] eqn:Et;
        [|apply lookup_ge_None in Et; apply lookup_lt_Some in Hc;
          destruct Hsc as (Hlc & _); lia].
      apply Hkeep.
      * apply lookup_zip_with_Some. exists true, t. auto.
      * destruct (score_step_lookup use_other w1 terminated completed scores
                    i t true s Hsc Hlt Et Hc Hs) as (r & _ & _ & Hnew).
        rewrite andb_false_r in Hnew. exact Hnew.
Qed.

Lemma scored_initial : scored (replicate N false) (replicate N F32.zero).
Proof using Type.
  split; [apply length_replicate|]. split; [apply length_replicate|].
  intros i c s Hc Hs. apply lookup_replicate in Hs as [-> _].
  split; [left; reflexivity | reflexivity].
Qed.

Lemma evaluate_against_counts (fuel : nat) (w w' : W) (wins draws losses : nat) :
  evaluate_against trainer step fuel w N = Some (w', (wins, draws, losses)) ->
  wins + draws + losses = N.
Proof using rewards_shape rewards_outcomes step_shape.
  unfold evaluate_against. intros Hrun.
  destruct (score_loop trainer step fuel _ _ _ true) as [[w1 final]|] eqn:El;
    [|discriminate].
  inversion Hrun; subst.
  destruct (score_loop_scored fuel _ _ _ _ _ _ scored_initial El)
    as (Hlen & Hout & _).
  rewrite count_eq_outcomes by exact Hout. exact Hlen.
Qed.

(** The round in which an episode first terminates fixes its score. *)
Lemma score_loop_first (fuel : nat) (w w' : W) (completed : list bool)
    (scores final : list f32) (use_other : bool) (i : nat) (r : f32) :
  scored completed scores ->
  score_loop trainer step fuel w completed scores use_other = Some (w', final) ->
  completed !! i = Some false ->
  snd (step use_other w) !! i = Some true ->
  get_rewards trainer (fst (step use_other w)) !! i = Some r ->
  final !! i = Some (if use_other then r else F32.sub F32.one r).
Proof using rewards_shape rewards_outcomes step_shape.
  intros Hsc Hrun Hc Ht Hr.
  assert (Hnot : forallb id completed = false).
  { apply not_true_is_false. intros Hall. rewrite forallb_forall in Hall.
    specialize (Hall false). cbn in Hall. discriminate Hall.
    apply list_elem_of_In. eapply list_elem_of_lookup_2. exact Hc. }
  destruct fuel as [|fuel]; cbn [score_loop] in Hrun; rewrite Hnot in Hrun;
    [discriminate|].
  pose proof (step_shape use_other w) as Hlt.
  destruct (step use_other w) as [w1 terminated]. cbn [fst snd] in *.
  pose proof (scored_step use_other w1 terminated completed scores Hsc Hlt)
    as Hsc1.
  destruct (score_loop_scored fuel _ _ _ _ _ _ Hsc1 Hrun) as (_ & _ & Hkeep).
  destruct (scores !! i) as [s|] eqn:Es;
    [|apply lookup_ge_None in Es; apply lookup_lt_Some in Hc;
      destruct Hsc as (Hlc & Hls & _); lia].
  destruct (score_step_lookup use_other w1 terminated completed scores
              i true false s Hsc Hlt Ht Hc Es) as (r' & Hr' & _ & Hnew).
  rewrite Hr in Hr'. inversion Hr'; subst r'. cbn [andb negb] in Hnew.
  apply Hkeep; [|exact Hnew].
  apply lookup_zip_with_Some. exists false, true. auto.
Qed.

End Games.

(** X16. When every reward the environment reports is 0, 0.5 or 1 and the
    tensors the collaborators return have one entry per episode, the wins,
    draws and losses that [evaluate_against_best] and
    [evaluate_against_baseline] return add up to the number of episodes. *)
Theorem evaluation_counts_every_episode {W : Type} (trainer : Collab W)
    (num_episodes fuel : nat) (w w' : W) (wins draws losses : nat) :
  (forall w, length (get_rewards trainer w) = num_episodes) ->
  (forall w, Forall outcome (get_rewards trainer w)) ->
  (forall b w, length (snd (collect_step trainer b w)) = num_episodes) ->
  (forall w, length (snd (baseline_step trainer w)) = num_episodes) ->
  evaluate_against_best trainer fuel w num_episodes
    = Some (w', (wins, draws, losses)) \/
  evaluate_against_baseline trainer fuel w num_episodes
    = Some (w', (wins, draws, losses)) ->
  wins + draws + losses = num_episodes.
Proof.
  intros Hrl Hro Hcs Hbs [Hrun|Hrun].
  - apply (evaluate_against_counts trainer (collect_step trainer) num_episodes
             Hrl Hro Hcs fuel w w' wins draws losses Hrun).
  - refine (evaluate_against_counts trainer _ num_episodes
              Hrl Hro _ fuel w w' wins draws losses Hrun).
    intros [|] w0; [apply Hbs | apply Hcs].
Qed.

Lemma demo_rewards_outcomes (w : nat) : Forall outcome (get_rewards demo w).
Proof.
  unfold demo, get_rewards.
  constructor; [right; right; reflexivity|].
  constructor; [right; left; reflexivity|]. constructor.
Qed.

Lemma evaluation_counts_every_episode_witness :
  evaluate_against_best demo 3 0 2 = Some (4, (1, 1, 0)) /\ 1 + 1 + 0 = 2.
Proof.
  assert (H : evaluate_against_best demo 3 0 2 = Some (4, (1, 1, 0)))
    by (vm_compute; reflexivity).
  split; [exact H|].
  apply (evaluation_counts_every_episode demo 2 3 0 4 1 1 0).
  - intros w. reflexivity.
  - exact demo_rewards_outcomes.
  - intros b w. reflexivity.
  - intros w. reflexivity.
  - left. exact H.
Defined.

(** X17. In the scoring loop an episode is scored once: the round in which
    it first terminates gives it the reward of that round ([1 - reward] when
    the model itself has moved), and once an episode is completed its score
    stays as it is until the loop ends, whatever is reported for it later. *)
Theorem episode_is_scored_once {W : Type} (trainer : Collab W)
    (step : bool -> W -> W * list bool) (num_episodes fuel : nat) (w w' : W)
    (completed : list bool) (scores final : list f32) (use_other : bool) :
  (forall w, length (get_rewards trainer w) = num_episodes) ->
  (forall w, Forall outcome (get_rewards trainer w)) ->
  (forall b w, length (snd (step b w)) = num_episodes) ->
  length completed = num_episodes -> length scores = num_episodes ->
  (forall i c s, completed !! i = Some c -> scores !! i = Some s ->
     outcome s /\ (c = false -> s = F32.zero)) ->
  score_loop trainer step fuel w completed scores use_other = Some (w', final) ->
  (forall i s, completed !! i = Some true -> scores !! i = Some s ->
     final !! i = Some s) /\
  (forall i r, completed !! i = Some false ->
     snd (step use_other w) !! i = Some true ->
     get_rewards trainer (fst (step use_other w)) !! i = Some r ->
     final !! i = Some (if use_other then r else F32.sub F32.one r)).
Proof.
  intros Hrl Hro Hss Hlc Hls Hinv Hrun.
  assert (Hsc : length completed = num_episodes /\ length scores = num_episodes /\
                forall i c s, completed !! i = Some c -> scores !! i = Some s ->
                  outcome s /\ (c = false -> s = F32.zero)) by auto.
  split.
  - apply (score_loop_scored trainer step num_episodes Hrl Hro Hss fuel
             w w' completed scores final use_other Hsc Hrun).
  - intros i r. apply (score_loop_first trainer step num_episodes Hrl Hro Hss fuel
             w w' completed scores final use_other i r Hsc Hrun).
Qed.

Lemma episode_is_scored_once_witness :
  exists final,
    score_loop demo (collect_step demo) 3 1 [false; false]
      [F32.zero; F32.zero] true = Some (4, final) /\
    final !! 0 = Some F32.one.
Proof.
  eexists. split; [vm_compute; reflexivity|].
  refine (proj2 (episode_is_scored_once demo (collect_step demo) 2 3 1 4
                   [false; false] [F32.zero; F32.zero] _ true
                   _ demo_rewards_outcomes _ eq_refl eq_refl _ _)
                0 F32.one eq_refl eq_refl eq_refl).
  - intros w. reflexivity.
  - intros b w. reflexivity.
  - intros [|[|i]] c s Hc Hs; inversion Hc; inversion Hs; subst;
      (split; [left; reflexivity | reflexivity]).
  - vm_compute. reflexivity.
Defined.


(** ** Removing a competitor from a tournament *)

Import Tournament.
Import String.StringSyntax.
Local Open Scope string_scope.

Lemma filter_all {A : Type} (f : A -> bool) (l : list A) :
  (forall x, x ∈ l -> f x = true) -> List.filter f l = l.
Proof.
  induction l as [|x l IH]; intros H; [reflexivity|]. cbn.
  rewrite (H x) by apply list_elem_of_here. f_equal. apply IH.
  intros y Hy. apply H. apply list_elem_of_further. exact Hy.
Qed.

Lemma elem_of_filter_bool {A : Type} (f : A -> bool) (l : list A) (x : A) :
  x ∈ List.filter f l <-> x ∈ l /\ f x = true.
Proof.
  rewrite !list_elem_of_In. apply filter_In.
Qed.

Section Competitors.
Context {Ev Cfg : Type}.
Implicit Types (t : Tournament Ev Cfg) (key : String.string).

Lemma dict_mem_names t key :
  competitors_dict t = fmap (fun c => (name c, c)) (competitors t) ->
  dict_mem key (competitors_dict t) = true <-> key ∈ (fmap name (competitors t)).
Proof.
  intros ->. unfold dict_mem. rewrite existsb_exists. split.
  - intros (kv & Hin & Heq). apply String.eqb_eq in Heq. subst key.
    apply list_elem_of_In, list_elem_of_fmap in Hin as (c & -> & Hc).
    cbn. apply list_elem_of_fmap. exists c. auto.
  - intros Hin. apply list_elem_of_fmap in Hin as (c & -> & Hc).
    exists (name c, c). split; [|apply String.eqb_refl].
    apply list_elem_of_In, list_elem_of_fmap. exists c. auto.
Qed.

Lemma filter_fmap_pair (f : String.string -> bool)
    (l : list (TournamentPlayer Ev Cfg)) :
  List.filter (fun kv => f (fst kv)) ((fun c => (name c, c)) <$> l)
  = (fun c => (name c, c)) <$> List.filter (fun c => f (name c)) l.
Proof.
  induction l as [|c l IH]; [reflexivity|]. cbn.
  destruct (f (name c)); cbn; rewrite IH; reflexivity.
Qed.

Lemma NoDup_fmap_filter (f : TournamentPlayer Ev Cfg -> bool)
    (l : list (TournamentPlayer Ev Cfg)) :
  NoDup (name <$> l) -> NoDup (name <$> List.filter f l).
Proof.
  induction l as [|c l IH]; intros H; [constructor|].
  cbn in H. apply NoDup_cons in H as [Hnot Hnd]. cbn.
  destruct (f c); [|apply IH; exact Hnd].
  cbn. apply NoDup_cons. split; [|apply IH; exact Hnd].
  intros Hin. apply Hnot.
  apply list_elem_of_fmap in Hin as (c' & Heq & Hc').
  apply elem_of_filter_bool in Hc' as [Hc' _].
  apply list_elem_of_fmap. exists c'. auto.
Qed.

(** X18. In a tournament whose list and dictionary agree, removing a name
    that no competitor bears raises [KeyError] and leaves the tournament as
    it was. *)
Theorem remove_unknown_competitor_raises t key :
  consistent t -> key ∉ (fmap name (competitors t)) ->
  remove_competitor t key = inr t.
Proof.
  intros (Hd & Hnd & Hres) Hnot. unfold remove_competitor, dict_pop.
  destruct (dict_mem key (competitors_dict t)) eqn:Em.
  - apply (dict_mem_names t key Hd) in Em. contradiction.
  - rewrite filter_all; [destruct t; reflexivity|].
    intros c Hc. apply negb_true_iff.
    destruct (String.eqb (name c) key) eqn:E; [|reflexivity].
    apply String.eqb_eq in E. exfalso. apply Hnot.
    apply list_elem_of_fmap. exists c. auto.
Qed.

(** X19. In a tournament whose list and dictionary agree, removing the name
    of a competitor succeeds; afterwards the list and the dictionary still
    agree, no competitor and no game bears the name, and the other
    competitors and the games between them are all kept. *)
Theorem remove_competitor_forgets_name t key :
  consistent t -> key ∈ (fmap name (competitors t)) ->
  exists t',
    remove_competitor t key = inl t' /\
    consistent t' /\
    (key ∉ (fmap name (competitors t'))) /\
    Forall (fun r => player1_name r <> key /\ player2_name r <> key)
           (results t') /\
    (forall c, c ∈ competitors t' <-> c ∈ competitors t /\ name c <> key) /\
    (forall r, r ∈ results t' <->
       r ∈ results t /\ player1_name r <> key /\ player2_name r <> key).
Proof.
  intros (Hd & Hnd & Hres) Hin. unfold remove_competitor, dict_pop.
  apply (dict_mem_names t key Hd) in Hin as Hm. rewrite Hm.
  eexists. split; [reflexivity|].
  cbn [competitors competitors_dict results].
  set (keep := fun c : TournamentPlayer Ev Cfg => negb (String.eqb (name c) key)).
  assert (Hkeep : forall c, keep c = true <-> name c <> key).
  { intros c. unfold keep. rewrite negb_true_iff.
    rewrite <- String.eqb_neq. reflexivity. }
  assert (Hc : forall c, c ∈ List.filter keep (competitors t)
                <-> c ∈ competitors t /\ name c <> key).
  { intros c. rewrite elem_of_filter_bool, Hkeep. reflexivity. }
  assert (Hr : forall r,
            r ∈ List.filter
                  (fun result =>
                     negb (String.eqb (player1_name result) key)
                     && negb (String.eqb (player2_name result) key))
                  (results t)
            <-> r ∈ results t /\ player1_name r <> key /\ player2_name r <> key).
  { intros r. rewrite elem_of_filter_bool, andb_true_iff, !negb_true_iff.
    rewrite <- !String.eqb_neq. reflexivity. }
  split; [|split; [|split; [|split]]].
  - split; [|split].
    + rewrite Hd.
      apply (filter_fmap_pair (fun k => negb (String.eqb k key))).
    + apply NoDup_fmap_filter. exact Hnd.
    + apply Forall_forall. intros r Hrin. apply Hr in Hrin as (Hrin & H1 & H2).
      rewrite Forall_forall in Hres. destruct (Hres r Hrin) as [Hp1 Hp2].
      split.
      * apply list_elem_of_fmap in Hp1 as (c & Hn & Hcin).
        apply list_elem_of_fmap. exists c. split; [exact Hn|].
        apply Hc. split; [exact Hcin | congruence].
      * apply list_elem_of_fmap in Hp2 as (c & Hn & Hcin).
        apply list_elem_of_fmap. exists c. split; [exact Hn|].
        apply Hc. split; [exact Hcin | congruence].
  - intros Hbad. apply list_elem_of_fmap in Hbad as (c & Hn & Hcin).
    apply Hc in Hcin as [_ Hne]. congruence.
  - apply Forall_forall. intros r Hrin. apply Hr in Hrin. tauto.
  - exact Hc.
  - exact Hr.
Qed.

End Competitors.

Lemma demo_consistent : consistent demo.
Proof.
  split; [reflexivity|]. split.
  - cbn. apply NoDup_cons. split.
    + intros H. apply list_elem_of_singleton in H. discriminate H.
    + apply NoDup_singleton.
  - constructor; [|constructor]. cbn. split.
    + apply list_elem_of_here.
    + apply list_elem_of_further, list_elem_of_here.
Qed.

Lemma remove_unknown_competitor_raises_witness :
  remove_competitor demo "third" = inr demo.
Proof.
  apply remove_unknown_competitor_raises; [exact demo_consistent|].
  cbn. intros H.
  apply elem_of_cons in H as [H|H]; [discriminate H|].
  apply list_elem_of_singleton in H. discriminate H.
Defined.

Lemma remove_competitor_forgets_name_witness :
  exists t', remove_competitor demo "second" = inl t' /\ consistent t'.
Proof.
  destruct (remove_competitor_forgets_name demo "second" demo_consistent)
    as (t' & Hrun & Hcons & _).
  - cbn. apply list_elem_of_further, list_elem_of_here.
  - exists t'. split; [exact Hrun | exact Hcons].
Defined.

Local Close Scope string_scope.


(** ** Visit counts in the tree-based engine *)

Import Tree Refactored.

Lemma path_to_root_below (ps : list nat) (path : list nat) :
  (forall s, 1 <= s < length ps -> Jax.gather NULL_INDEX ps s < s) ->
  forall s, path_to_root ps s path -> Forall (fun x => 1 <= x <= s) path.
Proof.
  intros Hlow. induction path as [|x rest IH]; intros s H; [constructor|].
  cbn in H. destruct H as (Hs & -> & Hlt & H). unfold NULL_INDEX in Hs.
  constructor; [lia|].
  pose proof (Hlow s ltac:(lia)) as Hq.
  eapply Forall_impl; [apply (IH _ H)|]. cbn. intros y Hy. lia.
Qed.

(** At most one slot of a path has a given parent. *)
Lemma path_to_root_parent_unique (ps : list nat) (path : list nat) (s q x y : nat) :
  path_to_root ps s path -> x ∈ path -> y ∈ path ->
  Jax.gather NULL_INDEX ps x = q -> Jax.gather NULL_INDEX ps y = q -> x = y.
Proof.
  intros Hpath Hx Hy Hpx Hpy.
  apply list_elem_of_split in Hx as (a & b & Ha).
  apply list_elem_of_split in Hy as (a' & b' & Ha').
  pose proof Hpath as Hp1. rewrite Ha in Hp1.
  pose proof Hpath as Hp2. rewrite Ha' in Hp2.
  apply path_to_root_suffix in Hp1, Hp2.
  cbn in Hp1, Hp2.
  destruct Hp1 as (_ & _ & _ & Hb), Hp2 as (_ & _ & _ & Hb').
  rewrite Hpx in Hb. rewrite Hpy in Hb'.
  pose proof (path_to_root_unique ps b q b' Hb Hb') as <-.
  rewrite Ha in Ha'.
  assert (Hlen : length a = length a').
  { apply (f_equal length) in Ha'. rewrite !length_app in Ha'. cbn in Ha'. lia. }
  apply app_inj_1 in Ha' as [_ Heq]; [|exact Hlen]. congruence.
Qed.

Lemma path_from_root (ps : list nat) (path : list nat) :
  Jax.gather NULL_INDEX ps ROOT_INDEX = NULL_INDEX ->
  path_to_root ps ROOT_INDEX path -> path = [ROOT_INDEX].
Proof.
  intros H0 H. destruct path as [|x rest]; [cbn in H; discriminate|].
  cbn in H. destruct H as (_ & -> & _ & H). rewrite H0 in H.
  destruct rest as [|y rest]; [reflexivity|].
  cbn in H. destruct H as [H _]. contradiction.
Qed.

(** Sums of counts that differ at one place at most. *)
Lemma sum_pointwise (l l' : list Z) (i : nat) :
  length l = length l' ->
  (forall a x x', l !! a = Some x -> l' !! a = Some x' ->
     (x <= x' <= x + (if Nat.eqb a i then 1 else 0))%Z) ->
  (fold_right Z.add 0 l <= fold_right Z.add 0 l'
   <= fold_right Z.add 0 l + 1)%Z /\
  (length l <= i -> fold_right Z.add 0%Z l' = fold_right Z.add 0%Z l).
Proof.
  revert l' i. induction l as [|x l IH]; intros [|x' l'] i Hlen H;
    try discriminate; cbn [fold_right]; [split; [lia|reflexivity]|].
  cbn in Hlen.
  pose proof (H 0 x x' eq_refl eq_refl) as H0.
  destruct i as [|i].
  - destruct (IH l' (length l) ltac:(lia)) as [_ Heq].
    + intros a y y' Hy Hy'. pose proof (H (S a) y y' Hy Hy') as Hb.
      cbn in Hb. pose proof (lookup_lt_Some _ _ _ Hy) as Hlt.
      replace (a =? length l) with false by (symmetry; apply Nat.eqb_neq; lia).
      lia.
    + rewrite (Heq ltac:(lia)). cbn in H0. split; [lia|]. cbn. lia.
  - destruct (IH l' i ltac:(lia)) as [Hb Heq].
    + intros a y y' Hy Hy'. apply (H (S a) y y' Hy Hy').
    + cbn in H0. split; [lia|]. intros Hle. cbn in Hle.
      rewrite (Heq ltac:(lia)). lia.
Qed.

(** The same for a row whose entries other than zero are distinct, when the
    entries that gain a visit are all the same slot. *)
Lemma sum_one_slot (row : list nat) (g g' : nat -> Z) :
  (forall a1 a2 c, row !! a1 = Some c -> row !! a2 = Some c -> c <> 0 ->
     a1 = a2) ->
  g 0 = g' 0 ->
  (forall c, c ∈ row -> c <> 0 -> (g c <= g' c <= g c + 1)%Z) ->
  (forall c c', c ∈ row -> c' ∈ row -> c <> 0 -> c' <> 0 ->
     g' c <> g c -> g' c' <> g c' -> c = c') ->
  (fold_right Z.add 0 (g <$> row) <= fold_right Z.add 0 (g' <$> row)
   <= fold_right Z.add 0 (g <$> row) + 1)%Z.
Proof.
  intros Hdist H0 Hstep Hone.
  destruct (decide (Exists (fun c => c <> 0 /\ g' c <> g c) row)) as [Hex|Hno].
  - apply Exists_exists in Hex as (c & Hin & Hc0 & Hch).
    apply list_elem_of_lookup in Hin as [i Hi].
    apply (sum_pointwise (g <$> row) (g' <$> row) i).
    + rewrite !length_fmap. reflexivity.
    + intros a x x' Hx Hx'. rewrite list_lookup_fmap in Hx, Hx'.
      destruct (row !! a) as [d|] eqn:Ed; cbn in Hx, Hx'; [|discriminate].
      inversion Hx; inversion Hx'; subst x x'.
      destruct (decide (d = 0)) as [->|Hd0]; [rewrite H0; destruct (a =? i); lia|].
      pose proof (Hstep d ltac:(eapply list_elem_of_lookup_2; exact Ed) Hd0) as Hs.
      destruct (a =? i) eqn:Eai; [lia|].
      apply Nat.eqb_neq in Eai.
      destruct (decide (g' d = g d)) as [Heq|Hne]; [lia|].
      exfalso. apply Eai.
      assert (d = c).
      { apply Hone; try assumption; eapply list_elem_of_lookup_2; eassumption. }
      subst d. apply (Hdist a i c Ed Hi Hc0).
  - assert (Heq : g' <$> row = g <$> row).
    { apply list_fmap_ext. intros a c Hc.
      destruct (decide (c = 0)) as [->|Hc0]; [symmetry; exact H0|].
      destruct (decide (g' c = g c)) as [Heq|Hne]; [exact Heq|].
      exfalso. apply Hno. apply Exists_exists. exists c.
      split; [eapply list_elem_of_lookup_2; exact Hc | auto]. }
    rewrite Heq. lia.
Qed.

(** The bound for a row of children of the root whose counts change as an
    iteration changes them: the leaf [L] gains a visit when it existed, and
    so does every slot of the path from the leaf's parent [p]. *)
Lemma root_row_bound (row ps path : list nat) (p L : nat) (bumpL : bool)
    (g g' : nat -> Z) :
  (forall a1 a2 c, row !! a1 = Some c -> row !! a2 = Some c -> c <> 0 ->
     a1 = a2) ->
  (forall c, c ∈ row -> c <> 0 ->
     1 < c /\ Jax.gather NULL_INDEX ps c = ROOT_INDEX) ->
  path_to_root ps p path ->
  Jax.gather NULL_INDEX ps ROOT_INDEX = NULL_INDEX ->
  (bumpL = true -> Jax.gather NULL_INDEX ps L = p) ->
  g 0 = g' 0 ->
  (forall c, c ∈ row -> c <> 0 ->
     g' c = (g c + (if bumpL && Nat.eqb c L then 1 else 0)
                 + (if bool_decide (c ∈ path) then 1 else 0))%Z) ->
  (fold_right Z.add 0 (g <$> row) <= fold_right Z.add 0 (g' <$> row)
   <= fold_right Z.add 0 (g <$> row) + 1)%Z.
Proof.
  intros Hdist Hrow Hpath Hroot HL H0 Hg.
  assert (Hnot_both : forall c, c ∈ row -> c <> 0 ->
            bumpL && (c =? L) = true -> c ∈ path -> False).
  { intros c Hc Hc0 Hb Hin. apply andb_true_iff in Hb as [Hb Heq].
    apply Nat.eqb_eq in Heq. subst c.
    destruct (Hrow L Hc Hc0) as [H1 HpL]. rewrite (HL Hb) in HpL. subst p.
    rewrite (path_from_root ps path Hroot Hpath) in Hin.
    apply list_elem_of_singleton in Hin. unfold ROOT_INDEX in Hin. lia. }
  apply sum_one_slot; [exact Hdist | exact H0 | |].
  - intros c Hc Hc0. rewrite (Hg c Hc Hc0).
    destruct (bumpL && (c =? L)) eqn:Eb; destruct (bool_decide (c ∈ path)) eqn:Ep;
      try lia.
    apply bool_decide_eq_true in Ep. exfalso.
    apply (Hnot_both c Hc Hc0 Eb Ep).
  - intros c c' Hc Hc' Hc0 Hc0' Hch Hch'.
    rewrite (Hg c Hc Hc0) in Hch. rewrite (Hg c' Hc' Hc0') in Hch'.
    destruct (bumpL && (c =? L)) eqn:Eb; destruct (bumpL && (c' =? L)) eqn:Eb'.
    + apply andb_true_iff in Eb as [_ Eb], Eb' as [_ Eb'].
      apply Nat.eqb_eq in Eb, Eb'. congruence.
    + destruct (bool_decide (c' ∈ path)) eqn:Ep'; [|lia].
      apply bool_decide_eq_true in Ep'. exfalso.
      apply andb_true_iff in Eb as [Hb Heq]. apply Nat.eqb_eq in Heq. subst c.
      destruct (Hrow L Hc Hc0) as [H1 HpL]. rewrite (HL Hb) in HpL. subst p.
      rewrite (path_from_root ps path Hroot Hpath) in Ep'.
      apply list_elem_of_singleton in Ep'.
      destruct (Hrow c' Hc' Hc0') as [H1' _]. unfold ROOT_INDEX in Ep'. lia.
    + destruct (bool_decide (c ∈ path)) eqn:Ep; [|lia].
      apply bool_decide_eq_true in Ep. exfalso.
      apply andb_true_iff in Eb' as [Hb Heq]. apply Nat.eqb_eq in Heq. subst c'.
      destruct (Hrow L Hc' Hc0') as [H1 HpL]. rewrite (HL Hb) in HpL. subst p.
      rewrite (path_from_root ps path Hroot Hpath) in Ep.
      apply list_elem_of_singleton in Ep.
      destruct (Hrow c Hc Hc0) as [H1' _]. unfold ROOT_INDEX in Ep. lia.
    + destruct (bool_decide (c ∈ path)) eqn:Ep; [|lia].
      destruct (bool_decide (c' ∈ path)) eqn:Ep'; [|lia].
      apply bool_decide_eq_true in Ep, Ep'.
      apply (path_to_root_parent_unique ps path p ROOT_INDEX c c' Hpath Ep Ep').
      * apply (Hrow c Hc Hc0).
      * apply (Hrow c' Hc' Hc0').
Qed.

Section Counts.
Context {K E : Type}.
Variable mcts : Params K E.

Let count (t : MCTSTree K E) (c : nat) : Z :=
  if c =? NULL_INDEX then 0%Z else n (at_ (blank mcts) t c).

Lemma child_visits_unfold (t : MCTSTree K E) (s : nat) :
  child_visits mcts t s
  = fold_right Z.add 0%Z (count t <$> Jax.gather [] (edge_map t) s).
Proof using Type. reflexivity. Qed.

Lemma at_same_data (t t' : MCTSTree K E) (x : nat) :
  capacity t' = capacity t -> x < capacity t ->
  data t' !! x = data t !! x ->
  at_ (blank mcts) t' x = at_ (blank mcts) t x.
Proof using Type.
  intros Hcap Hlt Hx. unfold at_, Jax.gather. unfold capacity in Hcap, Hlt.
  rewrite !Nat.min_l by lia. rewrite !nth_lookup, Hx. reflexivity.
Qed.

(** The counts after the backpropagation. *)
Lemma backpropagate_counts (fuel : nat) (t1 t' : MCTSTree K E) (p : nat) (v : f32) :
  arena_ordered t1 -> p < next_empty t1 ->
  backpropagate mcts fuel t1 p v = Some t' ->
  exists path,
    path_to_root (parents t1) p path /\
    Forall (fun x => 1 <= x <= p) path /\
    edge_map t' = edge_map t1 /\ next_empty t' = next_empty t1 /\
    capacity t' = capacity t1 /\
    forall x, x < capacity t1 ->
      n (at_ (blank mcts) t' x)
      = (n (at_ (blank mcts) t1 x)
         + (if bool_decide (x ∈ path) then 1 else 0))%Z.
Proof using Type.
  intros Hinv Hp Hrun.
  destruct (path_to_root_exists t1 Hinv p Hp) as (path & Hpath & Hrange & Hlen & _).
  destruct (backpropagate_path mcts path (Nat.max fuel (length path)) t1 p v
              Hpath Hrange ltac:(lia))
    as (t2 & Hrun2 & _ & Hem & _ & Hne2 & Hcap2 & Hon & Hoff).
  pose proof (backpropagate_more_fuel mcts fuel (Nat.max fuel (length path))
                _ _ _ _ ltac:(lia) Hrun) as Hrun'.
  assert (t2 = t') by congruence. subst t2.
  exists path. split; [exact Hpath|]. split.
  { destruct Hinv as (_ & Hplen & _ & _ & Hlow & _).
    apply (path_to_root_below (parents t1) path); [|exact Hpath].
    intros s Hs. apply Hlow. unfold capacity in *. lia. }
  split; [exact Hem|]. split; [exact Hne2|]. split; [exact Hcap2|].
  intros x Hx. destruct (bool_decide (x ∈ path)) eqn:Ep.
  - apply bool_decide_eq_true in Ep. apply list_elem_of_lookup in Ep as [k Hk].
    rewrite (at_lookup (blank mcts) t' _ _ (Hon k x Hk)). reflexivity.
  - apply bool_decide_eq_false in Ep.
    rewrite (at_same_data t1 t' x Hcap2 Hx (Hoff x Ep)). lia.
Qed.

(** The children of the root in an ordered arena. *)
Lemma root_row (t : MCTSTree K E) :
  arena_ordered t ->
  exists row,
    edge_map t !! ROOT_INDEX = Some row /\
    Jax.gather [] (edge_map t) ROOT_INDEX = row /\
    (forall a1 a2 c, row !! a1 = Some c -> row !! a2 = Some c -> c <> 0 ->
       a1 = a2) /\
    (forall c, c ∈ row -> c <> 0 ->
       1 < c < next_empty t /\
       Jax.gather NULL_INDEX (parents t) c = ROOT_INDEX).
Proof using Type.
  intros (Hlen & Hplen & Hne & Hedges & Hlow & Hpar & Hdist).
  assert (H1 : ROOT_INDEX < length (edge_map t))
    by (rewrite Hlen; unfold ROOT_INDEX; lia).
  pose proof (gather_lookup [] (edge_map t) ROOT_INDEX H1) as Hrow.
  exists (Jax.gather [] (edge_map t) ROOT_INDEX).
  split; [exact Hrow|]. split; [reflexivity|]. split.
  - intros a1 a2 c. apply (Hdist ROOT_INDEX). exact Hrow.
  - intros c Hc Hc0. apply list_elem_of_lookup in Hc as [a Ha].
    pose proof (gather2_lookup NULL_INDEX (edge_map t) ROOT_INDEX a _ c Hrow Ha)
      as Hg.
    destruct (Hedges ROOT_INDEX a ltac:(unfold ROOT_INDEX; lia)) as [H0|[Hb Hp]];
      unfold child in *; rewrite Hg in *; [contradiction|].
    unfold ROOT_INDEX in *. split; [lia | exact Hp].
Qed.

Lemma iterate_child_visits (fuel : nat) (t t' : MCTSTree K E) :
  arena_ordered t -> iterate mcts fuel t = Some t' ->
  (child_visits mcts t ROOT_INDEX <= child_visits mcts t' ROOT_INDEX
   <= child_visits mcts t ROOT_INDEX + 1)%Z.
Proof using Type.
  intros Hinv Hrun. unfold iterate in Hrun.
  destruct (traverse mcts fuel t) as [ts|] eqn:Etr; [|discriminate].
  unfold traverse in Etr.
  pose proof Hinv as (Hlen & Hplen & Hne & Hedges & Hlow & Hpar & Hdist).
  apply traverse_loop_stops in Etr as (Hp & _);
    [|exact Hinv|cbn [parent]; unfold ROOT_INDEX; lia].
  destruct (root_row t Hinv) as (row & Hrow & Hgrow & Hrdist & Hrfacts).
  assert (Hroot0 : Jax.gather NULL_INDEX (parents t) ROOT_INDEX = NULL_INDEX).
  { pose proof (Hlow ROOT_INDEX ltac:(unfold ROOT_INDEX; lia)).
    unfold ROOT_INDEX, NULL_INDEX in *. lia. }
  rewrite !child_visits_unfold, Hgrow.
  unfold expand in Hrun.
  destruct (step mcts _ _) as [[e' r] term].
  destruct (eval_fn mcts e') as [logits val].
  set (value := if term then r else val) in Hrun.
  set (policy := softmax mcts _) in Hrun.
  destruct (is_edge t (parent ts) (action ts)) eqn:Ee.
  - (* the leaf exists *)
    set (L := child t (parent ts) (action ts)) in *.
    assert (HL : parent ts < L < next_empty t /\
                 Jax.gather NULL_INDEX (parents t) L = parent ts).
    { unfold is_edge in Ee. apply negb_true_iff, Nat.eqb_neq in Ee.
      destruct (Hedges (parent ts) (action ts) ltac:(lia)) as [H0|H2];
        [contradiction | exact H2]. }
    set (t1 := update_node t L _) in Hrun.
    pose proof (ordered_update_node t L _ Hinv : arena_ordered t1) as Hinv1.
    destruct (backpropagate_counts fuel t1 t' (parent ts) value Hinv1
                ltac:(cbn [t1 update_node next_empty]; lia) Hrun)
      as (path & Hpath & _ & Hem & _ & Hcap & Hn).
    rewrite Hem. change (edge_map t1) with (edge_map t). rewrite Hgrow.
    apply (root_row_bound row (parents t) path (parent ts) L true
             (count t) (count t')); try assumption.
    + intros c Hc Hc0. destruct (Hrfacts c Hc Hc0). split; [lia|assumption].
    + intros _. apply HL.
    + reflexivity.
    + intros c Hc Hc0. destruct (Hrfacts c Hc Hc0) as [Hcr _].
      unfold count. apply Nat.eqb_neq in Hc0 as Hc0'. unfold NULL_INDEX.
      rewrite Hc0'.
      assert (Hcc : c < capacity t1).
      { unfold capacity, t1, update_node; cbn [data]. rewrite length_insert.
        unfold capacity in Hne. lia. }
      rewrite (Hn c Hcc). f_equal. cbn [andb].
      destruct (c =? L) eqn:EcL.
      * apply Nat.eqb_eq in EcL. subst c. unfold t1.
        rewrite at_update_node_eq by (unfold capacity in *; lia). reflexivity.
      * apply Nat.eqb_neq in EcL. unfold t1, at_, update_node; cbn [data].
        rewrite gather_insert_ne by (unfold capacity in *; lia). lia.
  - (* the leaf is missing *)
    unfold add_node in Hrun.
    destruct (next_empty t <? capacity t) eqn:Efull.
    + (* a slot is allocated *)
      apply Nat.ltb_lt in Efull.
      set (t1 := {| key := key t; data := _; edge_map := _; parents := _;
                    next_empty := _ |}) in Hrun.
      assert (Hinv1 : arena_ordered t1).
      { pose proof (ordered_add_node t (parent ts) (action ts)
                      {| n := 1; p := policy; w := value; terminal := term;
                         embedding := e' |} Hinv Hp) as H.
        unfold add_node in H. apply Nat.ltb_lt in Efull as Ef. rewrite Ef in H.
        exact H. }
      destruct (backpropagate_counts fuel t1 t' (parent ts) value Hinv1
                  ltac:(cbn [t1 next_empty]; lia) Hrun)
        as (path & Hpath & Hbelow & Hem & _ & Hcap & Hn).
      assert (Hcap1 : capacity t1 = capacity t)
        by (unfold capacity, t1; cbn [data]; apply length_insert).
      assert (Hnew_notin : next_empty t ∉ path).
      { intros Hin. rewrite Forall_forall in Hbelow.
        specialize (Hbelow _ Hin). lia. }
      assert (Hold : forall c, c < capacity t -> c <> next_empty t ->
                n (at_ (blank mcts) t1 c) = n (at_ (blank mcts) t c)).
      { intros c Hc Hcn. unfold t1, at_; cbn [data].
        rewrite gather_insert_ne by (unfold capacity in *; lia). reflexivity. }
      assert (Hpold : forall c, c < capacity t -> c <> next_empty t ->
                Jax.gather NULL_INDEX (parents t1) c
                = Jax.gather NULL_INDEX (parents t) c).
      { intros c Hc Hcn. unfold t1; cbn [parents].
        apply gather_insert_ne; [rewrite Hplen; exact Hc | congruence]. }
      rewrite Hem.
      destruct (decide (parent ts = ROOT_INDEX)) as [Hp1|Hp1].
      * (* the new slot is a child of the root *)
        rewrite Hp1 in Hpath, Ee.
        assert (Hpath1 : path = [ROOT_INDEX]).
        { apply (path_from_root (parents t1)); [|exact Hpath].
          rewrite Hpold by (unfold ROOT_INDEX; lia). exact Hroot0. }
        assert (Hrow1 : Jax.gather [] (edge_map t1) ROOT_INDEX
                        = <[action ts := next_empty t]> row).
        { assert (Hl : edge_map t1 !! ROOT_INDEX
                       = Some (<[action ts := next_empty t]> row))
            by (unfold t1; cbn [edge_map]; rewrite Hp1;
                apply set2_lookup_eq; exact Hrow).
          pose proof (lookup_lt_Some _ _ _ Hl) as Hlt.
          rewrite (gather_lookup [] _ _ Hlt) in Hl. congruence. }
        rewrite Hrow1.
        apply (sum_pointwise (count t <$> row)
                 (count t' <$> <[action ts := next_empty t]> row) (action ts)).
        -- rewrite !length_fmap, length_insert. reflexivity.
        -- intros a x x' Hx Hx'. rewrite list_lookup_fmap in Hx, Hx'.
           destruct (row !! a) as [c|] eqn:Ec; cbn in Hx; [|discriminate].
           inversion Hx; subst x.
           pose proof (lookup_lt_Some _ _ _ Ec) as Ha.
           destruct (decide (a = action ts)) as [->|Hne_a].
           ++ rewrite list_lookup_insert_eq in Hx' by exact Ha. cbn in Hx'.
              inversion Hx'; subst x'. rewrite Nat.eqb_refl.
              assert (Hc0 : c = 0).
              { unfold is_edge in Ee. apply negb_false_iff, Nat.eqb_eq in Ee.
                unfold child in Ee.
                rewrite (gather2_lookup NULL_INDEX (edge_map t) ROOT_INDEX
                           (action ts) row c Hrow Ec) in Ee. exact Ee. }
              subst c. unfold count. cbn [Nat.eqb NULL_INDEX].
              assert (Hne0 : (next_empty t =? NULL_INDEX) = false)
                by (apply Nat.eqb_neq; unfold NULL_INDEX; lia).
              rewrite Hne0. rewrite (Hn (next_empty t)) by lia.
              rewrite bool_decide_eq_false_2 by exact Hnew_notin.
              unfold t1, at_; cbn [data].
              rewrite gather_insert_eq by (unfold capacity in *; lia).
              cbn [n]. lia.
           ++ rewrite list_lookup_insert_ne in Hx' by congruence.
              rewrite Ec in Hx'. cbn in Hx'. inversion Hx'; subst x'.
              apply Nat.eqb_neq in Hne_a as Hne_a'. rewrite Hne_a'.
              destruct (decide (c = 0)) as [->|Hc0]; [unfold count; cbn; lia|].
              destruct (Hrfacts c ltac:(eapply list_elem_of_lookup_2; exact Ec) Hc0)
                as [Hcr _].
              unfold count. apply Nat.eqb_neq in Hc0 as Hc0'. unfold NULL_INDEX.
              rewrite Hc0'. rewrite (Hn c) by lia.
              rewrite bool_decide_eq_false_2.
              ** rewrite Hold by lia. lia.
              ** rewrite Hpath1. intros Hin. apply list_elem_of_singleton in Hin.
                 unfold ROOT_INDEX in Hin. lia.
      * (* the new slot lies deeper *)
        assert (Hrow1 : Jax.gather [] (edge_map t1) ROOT_INDEX = row).
        { assert (Hl : edge_map t1 !! ROOT_INDEX = Some row).
          { unfold t1; cbn [edge_map]. rewrite set2_lookup_ne by exact Hp1.
            exact Hrow. }
          pose proof (lookup_lt_Some _ _ _ Hl) as Hlt.
          rewrite (gather_lookup [] _ _ Hlt) in Hl. congruence. }
        rewrite Hrow1.
        apply (root_row_bound row (parents t1) path (parent ts) 0 false
                 (count t) (count t')); try assumption.
        -- intros c Hc Hc0. destruct (Hrfacts c Hc Hc0) as [Hcr Hcp].
           split; [lia|]. rewrite Hpold by lia. exact Hcp.
        -- rewrite Hpold by (unfold ROOT_INDEX; lia). exact Hroot0.
        -- discriminate.
        -- reflexivity.
        -- intros c Hc Hc0. destruct (Hrfacts c Hc Hc0) as [Hcr _].
           unfold count. apply Nat.eqb_neq in Hc0 as Hc0'. unfold NULL_INDEX.
           rewrite Hc0'. rewrite (Hn c) by lia. rewrite Hold by lia.
           cbn [andb]. lia.
    + (* the arena is full *)
      destruct (backpropagate_counts fuel t t' (parent ts) value Hinv
                  ltac:(lia) Hrun)
        as (path & Hpath & _ & Hem & _ & Hcap & Hn).
      rewrite Hem, Hgrow.
      apply (root_row_bound row (parents t) path (parent ts) 0 false
               (count t) (count t')); try assumption.
      * intros c Hc Hc0. destruct (Hrfacts c Hc Hc0). split; [lia|assumption].
      * discriminate.
      * reflexivity.
      * intros c Hc Hc0. destruct (Hrfacts c Hc Hc0) as [Hcr _].
        unfold count. apply Nat.eqb_neq in Hc0 as Hc0'. unfold NULL_INDEX.
        rewrite Hc0'. rewrite (Hn c) by lia. cbn [andb]. lia.
Qed.

(** Every allocated slot other than the root has been visited. *)
Let counted (t : MCTSTree K E) : Prop :=
  forall s, 2 <= s < next_empty t -> (1 <= n (at_ (blank mcts) t s))%Z.

Lemma iterate_counted (fuel : nat) (t t' : MCTSTree K E) :
  arena_ordered t -> counted t -> iterate mcts fuel t = Some t' -> counted t'.
Proof using Type.
  intros Hinv Hcount Hrun. unfold iterate in Hrun.
  destruct (traverse mcts fuel t) as [ts|] eqn:Etr; [|discriminate].
  unfold traverse in Etr.
  pose proof Hinv as (Hlen & Hplen & Hne & Hedges & Hlow & Hpar & Hdist).
  apply traverse_loop_stops in Etr as (Hp & _);
    [|exact Hinv|cbn [parent]; unfold ROOT_INDEX; lia].
  unfold expand in Hrun.
  destruct (step mcts _ _) as [[e' r] term].
  destruct (eval_fn mcts e') as [logits val].
  set (value := if term then r else val) in Hrun.
  set (policy := softmax mcts _) in Hrun.
  destruct (is_edge t (parent ts) (action ts)) eqn:Ee.
  - set (L := child t (parent ts) (action ts)) in *.
    set (t1 := update_node t L _) in Hrun.
    pose proof (ordered_update_node t L _ Hinv : arena_ordered t1) as Hinv1.
    destruct (backpropagate_counts fuel t1 t' (parent ts) value Hinv1
                ltac:(cbn [t1 update_node next_empty]; lia) Hrun)
      as (path & _ & _ & _ & Hne' & Hcap & Hn).
    intros s Hs. rewrite Hne' in Hs. cbn [t1 update_node next_empty] in Hs.
    assert (Hsc : s < capacity t1).
    { unfold capacity, t1, update_node; cbn [data]. rewrite length_insert.
      unfold capacity in Hne. lia. }
    rewrite (Hn s Hsc). specialize (Hcount s Hs).
    assert (Hge : (n (at_ (blank mcts) t s) <= n (at_ (blank mcts) t1 s))%Z).
    { destruct (decide (s = L)) as [->|HsL].
      - unfold t1. rewrite at_update_node_eq by (unfold capacity in *; lia).
        cbn [n]. lia.
      - unfold t1, at_, update_node; cbn [data].
        rewrite gather_insert_ne by (unfold capacity in *; lia). lia. }
    destruct (bool_decide (s ∈ path)); lia.
  - unfold add_node in Hrun.
    destruct (next_empty t <? capacity t) eqn:Efull.
    + apply Nat.ltb_lt in Efull.
      set (t1 := {| key := key t; data := _; edge_map := _; parents := _;
                    next_empty := _ |}) in Hrun.
      assert (Hinv1 : arena_ordered t1).
      { pose proof (ordered_add_node t (parent ts) (action ts)
                      {| n := 1; p := policy; w := value; terminal := term;
                         embedding := e' |} Hinv Hp) as H.
        unfold add_node in H. apply Nat.ltb_lt in Efull as Ef. rewrite Ef in H.
        exact H. }
      destruct (backpropagate_counts fuel t1 t' (parent ts) value Hinv1
                  ltac:(cbn [t1 next_empty]; lia) Hrun)
        as (path & _ & _ & _ & Hne' & Hcap & Hn).
      assert (Hcap1 : capacity t1 = capacity t)
        by (unfold capacity, t1; cbn [data]; apply length_insert).
      intros s Hs. rewrite Hne' in Hs. cbn [t1 next_empty] in Hs.
      rewrite (Hn s) by lia.
      assert (Hge : (1 <= n (at_ (blank mcts) t1 s))%Z).
      { destruct (decide (s = next_empty t)) as [->|Hsn].
        - unfold t1, at_; cbn [data].
          rewrite gather_insert_eq by (unfold capacity in *; lia). cbn [n]. lia.
        - unfold t1, at_; cbn [data].
          rewrite gather_insert_ne by (unfold capacity in *; lia).
          apply Hcount. lia. }
      destruct (bool_decide (s ∈ path)); lia.
    + destruct (backpropagate_counts fuel t t' (parent ts) value Hinv
                  ltac:(lia) Hrun)
        as (path & _ & _ & _ & Hne' & Hcap & Hn).
      intros s Hs. rewrite Hne' in Hs. rewrite (Hn s) by lia.
      specialize (Hcount s Hs). destruct (bool_decide (s ∈ path)); lia.
Qed.

Lemma update_root_other (t : MCTSTree K E) (e : E) (s : nat) :
  arena_ordered t -> s <> ROOT_INDEX -> s < capacity t ->
  at_ (blank mcts) (update_root mcts t e) s = at_ (blank mcts) t s.
Proof using Type.
  intros Hinv Hs Hc. unfold update_root.
  destruct (evaluate_root mcts e) as [logits v].
  unfold set_root, update_node, at_; cbn [data].
  apply gather_insert_ne; [exact Hc | congruence].
Qed.

Lemma counted_reachable (t : MCTSTree K E) :
  reachable mcts t -> counted t.
Proof using Type.
  induction 1 as [k M A HM | t e Hr IH | t t' fuel Hr IH Hrun | t Hr IH].
  - intros s Hs. cbn [Tree.reset next_empty] in Hs. lia.
  - pose proof (ordered_reachable mcts t Hr) as Hinv.
    intros s Hs.
    assert (Hne : next_empty (update_root mcts t e) = next_empty t).
    { unfold update_root. destruct (evaluate_root mcts e). reflexivity. }
    rewrite Hne in Hs.
    rewrite update_root_other;
      [apply IH; exact Hs | exact Hinv | unfold ROOT_INDEX; lia|].
    destruct Hinv as (_ & _ & Hb & _). lia.
  - apply (iterate_counted fuel t t' (ordered_reachable mcts t Hr) IH Hrun).
  - destruct (sample_root_action_data mcts t) as [Hd Hn].
    intros s Hs. rewrite Hn in Hs. unfold at_. rewrite Hd. apply IH. exact Hs.
Qed.

Lemma update_root_child_visits (t : MCTSTree K E) (e : E) :
  arena_ordered t ->
  child_visits mcts (update_root mcts t e) ROOT_INDEX
  = child_visits mcts t ROOT_INDEX.
Proof using Type.
  intros Hinv. rewrite !child_visits_unfold.
  assert (Hem : edge_map (update_root mcts t e) = edge_map t).
  { unfold update_root. destruct (evaluate_root mcts e). reflexivity. }
  rewrite Hem. f_equal.
  destruct (root_row t Hinv) as (row & _ & -> & _ & Hfacts).
  apply list_fmap_ext. intros a c Hc. unfold count.
  destruct (c =? NULL_INDEX) eqn:E0; [reflexivity|].
  apply Nat.eqb_neq in E0.
  destruct (Hfacts c ltac:(eapply list_elem_of_lookup_2; exact Hc) E0) as [Hr _].
  rewrite update_root_other;
    [reflexivity | exact Hinv | unfold ROOT_INDEX; lia|].
  destruct Hinv as (_ & _ & Hb & _). lia.
Qed.

Lemma iterations_child_visits (fuel N : nat) :
  forall (t t' : MCTSTree K E),
    arena_ordered t -> iterations mcts fuel N t = Some t' ->
    (child_visits mcts t ROOT_INDEX <= child_visits mcts t' ROOT_INDEX
     <= child_visits mcts t ROOT_INDEX + Z.of_nat N)%Z.
Proof using Type.
  induction N as [|N IH]; intros t t' Hinv Hrun; cbn [iterations] in Hrun.
  - inversion Hrun; subst. lia.
  - destruct (iterate mcts fuel t) as [t1|] eqn:E1; [|discriminate].
    pose proof (iterate_child_visits fuel t t1 Hinv E1) as H1.
    destruct (iterate_root mcts fuel t t1 Hinv E1) as (Hinv1 & _).
    pose proof (IH t1 t' Hinv1 Hrun) as H2. lia.
Qed.

End Counts.

(** X20. In every reachable tree each allocated slot other than the root
    has a visit count of at least one. *)
Theorem allocated_nodes_are_visited {K E : Type} (mcts : Params K E)
    (t : MCTSTree K E) (s : nat) :
  reachable mcts t -> 2 <= s < next_empty t ->
  (1 <= n (at_ (blank mcts) t s))%Z.
Proof. intros Hreach. apply (counted_reachable mcts t Hreach). Qed.

Lemma allocated_nodes_are_visited_witness :
  (1 <= n (at_ Demo.demo_blank Demo.demo_tree_visited 2))%Z.
Proof.
  apply (allocated_nodes_are_visited (Demo.demo_params [true; true] true)
           Demo.demo_tree_visited 2).
  - apply (reach_iterate _ Demo.demo_tree _ 4); [|reflexivity].
    exact demo_tree_reachable.
  - vm_compute. lia.
Defined.

(** X21. An iteration on a reachable tree never lowers the sum of the visit
    counts of the root's children and raises it by at most one -- while it
    raises the visit count of the root by exactly one. *)
Theorem iterate_visits_one_child {K E : Type} (mcts : Params K E)
    (t t' : MCTSTree K E) (fuel : nat) :
  reachable mcts t -> iterate mcts fuel t = Some t' ->
  (child_visits mcts t ROOT_INDEX <= child_visits mcts t' ROOT_INDEX
   <= child_visits mcts t ROOT_INDEX + 1)%Z /\
  n (at_ (blank mcts) t' ROOT_INDEX)
  = (n (at_ (blank mcts) t ROOT_INDEX) + 1)%Z.
Proof.
  intros Hreach Hrun. pose proof (ordered_reachable mcts t Hreach) as Hinv.
  split; [apply (iterate_child_visits mcts fuel t t' Hinv Hrun)|].
  apply (iterate_root mcts fuel t t' Hinv Hrun).
Qed.

Lemma iterate_visits_one_child_witness :
  (child_visits (Demo.demo_params [true; true] true) Demo.demo_tree_visited
     ROOT_INDEX <= 0 + 1)%Z.
Proof.
  exact (proj2 (proj1 (iterate_visits_one_child
                         (Demo.demo_params [true; true] true)
                         Demo.demo_tree Demo.demo_tree_visited 4
                         demo_tree_reachable eq_refl))).
Defined.

(** X22. A search of [num_iterations] iterations on a fresh arena returns a
    tree in which the visit counts of the root's children sum to at most
    [num_iterations], which is less than the visit count of the root. *)
Theorem fresh_search_counts {K E : Type} (mcts : Params K E) (k : K)
    (max_nodes num_actions : nat) (root_embedding : E)
    (fuel num_iterations : nat) (out : MCTSOutput K E) :
  2 <= max_nodes ->
  search mcts fuel (Tree.reset (blank mcts) k max_nodes num_actions)
    root_embedding num_iterations = Some out ->
  (0 <= child_visits mcts (tree out) ROOT_INDEX <= Z.of_nat num_iterations)%Z /\
  (Z.of_nat num_iterations < n (at_ (blank mcts) (tree out) ROOT_INDEX))%Z.
Proof.
  intros HM Hrun.
  set (t0 := Tree.reset (blank mcts) k max_nodes num_actions) in *.
  assert (Hreach : reachable mcts t0) by (apply reach_reset; exact HM).
  pose proof (ordered_reachable mcts t0 Hreach) as Hinv.
  destruct (search_root_statistics mcts t0 root_embedding fuel num_iterations
              out Hreach Hrun) as (Hn & _).
  cbv zeta in Hn.
  destruct (search_unfold mcts t0 root_embedding fuel num_iterations out Hrun)
    as (t1 & Hit & Hd & _ & _).
  pose proof (ordered_update_root mcts t0 root_embedding Hinv) as Hinv1.
  pose proof (iterations_child_visits mcts fuel num_iterations _ t1 Hinv1 Hit)
    as Hsum.
  rewrite (update_root_child_visits mcts t0 root_embedding Hinv) in Hsum.
  assert (H0 : child_visits mcts t0 ROOT_INDEX = 0%Z).
  { assert (Hz : forall (g : nat -> Z) A, g NULL_INDEX = 0%Z ->
              fold_right Z.add 0%Z (g <$> replicate A NULL_INDEX) = 0%Z).
    { intros g A Hg. induction A as [|A IH]; [reflexivity|].
      cbn. rewrite Hg. exact IH. }
    unfold child_visits, get_child_data, t0, Tree.reset; cbn [edge_map].
    rewrite gather_replicate by lia. apply Hz. reflexivity. }
  assert (Hout : child_visits mcts (tree out) ROOT_INDEX
                 = child_visits mcts t1 ROOT_INDEX).
  { unfold search in Hrun. rewrite Hit in Hrun.
    unfold sample_root_action, get_rng in Hrun.
    destruct (split mcts (key t1)) as [rk nk].
    destruct (SFeqb _ _); inversion Hrun; subst out; reflexivity. }
  rewrite Hout, H0 in *. split; [lia|].
  rewrite Hn.
  destruct (0 <? n (at_ (blank mcts) t0 ROOT_INDEX))%Z eqn:Epos; [|lia].
  apply Z.ltb_lt in Epos. lia.
Qed.

Lemma fresh_search_counts_witness :
  exists out,
    search (Demo.demo_params [true; true] true) 4
      (Tree.reset Demo.demo_blank 7 4 2) 0 3 = Some out /\
    (3 < n (at_ Demo.demo_blank (tree out) ROOT_INDEX))%Z.
Proof.
  eexists. split; [vm_compute; reflexivity|].
  refine (proj2 (fresh_search_counts (Demo.demo_params [true; true] true)
                   7 4 2 0 4 3 _ _ _)).
  - lia.
  - vm_compute. reflexivity.
Defined.


(** ** The path record of the flat engine *)

Import Legacy.

Lemma clear_tail_false (l : list nat) : clear_tail false l = l.
Proof. destruct l; reflexivity. Qed.

Lemma clear_tail_true_nth (l : list nat) (k : nat) :
  nth k (clear_tail true l) 0 = if k =? 0 then nth 0 l 0 else 0.
Proof.
  destruct l as [|x l]; [destruct k; reflexivity|].
  destruct k as [|k]; [reflexivity|]. cbn.
  rewrite nth_lookup. destruct (decide (k < length l)) as [Hk|Hk].
  - rewrite lookup_replicate_2 by exact Hk. reflexivity.
  - rewrite (proj2 (lookup_ge_None _ _)); [reflexivity|].
    rewrite length_replicate. lia.
Qed.

Lemma clear_tail_length (b : bool) (l : list nat) :
  length (clear_tail b l) = length l.
Proof.
  destruct l as [|x l]; [reflexivity|]. cbn. destruct b; [|reflexivity].
  rewrite length_replicate. reflexivity.
Qed.

Lemma nth_insert_cases (l : list nat) (i k v : nat) :
  nth k (<[i := v]> l) 0
  = if (k =? i) && (i <? length l) then v else nth k l 0.
Proof.
  destruct (k =? i) eqn:Eki; cbn [andb].
  - apply Nat.eqb_eq in Eki. subst k. destruct (i <? length l) eqn:Ei.
    + apply Nat.ltb_lt in Ei. apply nth_insert_eq. exact Ei.
    + apply Nat.ltb_ge in Ei. rewrite list_insert_ge by exact Ei. reflexivity.
  - apply Nat.eqb_neq in Eki. apply nth_insert_ne. congruence.
Qed.

Section Path.
Context {K St : Type}.
Variable config : MCTSConfig.
Variable env : Collab K St.

(** The fields [traverse] writes, with the slot the cursor moves to. *)
Lemma traverse_fields (st : MCTSState K) (action : nat) :
  let m := Jax.gather2 0 (idx_action_map st) (cur_node st) action in
  let master :=
    if m =? 0 then (if max_nodes config <=? next_empty st then 0
                    else next_empty st)
    else m in
  let st1 := fst (traverse config st action) in
  visits st1 = <[depth st := master]> (visits st) /\
  depth st1 = depth st /\ cur_node st1 = master /\
  snd (traverse config st action) = (m =? 0) /\
  idx_action_map st1
  = Jax.set2 (idx_action_map st) (cur_node st) action master /\
  next_empty st1
  = (if (m =? 0) && negb (max_nodes config <=? next_empty st)
     then next_empty st + 1 else next_empty st).
Proof using Type.
  cbv zeta. unfold traverse. cbn [fst snd visits depth cur_node idx_action_map
    next_empty].
  destruct (Jax.gather2 0 (idx_action_map st) (cur_node st) action =? 0)
    eqn:Em;
    destruct (max_nodes config <=? next_empty st); cbn [negb andb];
    try (repeat split; reflexivity).
  apply Nat.eqb_eq in Em. rewrite Em. repeat split; reflexivity.
Qed.

(** The fields of the path record after one [iterate]. *)
Lemma iterate_path_fields (it : IterationState K St) :
  let st0 := state it in
  let action :=
    choose_with_puct config st0 (legal_action_mask env (env_state it)) in
  let terminated := snd (env_step env (env_state it) action) in
  let st1 := fst (traverse config st0 action) in
  let unvisited := snd (traverse config st0 action) in
  let is_leaf := terminated || unvisited in
  let st' := state (iterate config env it) in
  visits st' = clear_tail is_leaf (visits st1) /\
  depth st' = (if is_leaf then 1 else depth st1 + 1) /\
  cur_node st' = (if is_leaf then 1 else cur_node st1) /\
  idx_action_map st' = idx_action_map st1.
Proof using Type.
  cbv zeta. unfold iterate.
  destruct (env_step env (env_state it) _) as [e1 term].
  destruct (traverse config (state it) _) as [s1 unv].
  destruct (evaluator env e1) as [logits ev]. cbn. auto.
Qed.

(** The slots of the path rise with the depth, and all are allocated. *)
Lemma path_increasing (st : MCTSState K) :
  arena_shape config st -> on_path config st ->
  forall k, k < depth st ->
    k + 1 <= nth k (visits st) 0 < next_empty st /\
    (forall j, j < k -> nth j (visits st) 0 < nth k (visits st) 0).
Proof using Type.
  intros (HA & Hne & Hcur & Hle & _ & _ & _ & Hlp & Hrows & Hbelow & Hpar
          & Hedge & _) (Hlv & Hd & Hv0 & Hvc & Hchild & Hzero).
  cbv zeta in *.
  induction k as [|k IH]; intros Hk.
  - rewrite Hv0. split; [lia|]. intros j Hj. lia.
  - destruct (IH ltac:(lia)) as [[Hlo Hhi] Hmono].
    destruct (Hchild k ltac:(lia)) as (Hnz & row & a & Hrow & Ha).
    replace (k + 1) with (S k) in Hnz, Ha by lia.
    pose proof (Hbelow _ row a _ Hrow Ha) as Hb.
    assert (Hr : 1 <= nth k (visits st) 0 < max_nodes config) by lia.
    pose proof (Hedge _ row a _ Hr Hrow Ha Hnz) as Hp.
    assert (Hr' : 1 <= nth (S k) (visits st) 0 < max_nodes config) by lia.
    pose proof (Hpar _ Hr') as Hlt.
    rewrite Hp in Hlt.
    split; [lia|]. intros j Hj.
    destruct (decide (j = k)) as [->|Hjk]; [exact Hlt|].
    pose proof (Hmono j ltac:(lia)). lia.
Qed.

Lemma nth_replicate_zero (n k : nat) : nth k (replicate n 0) 0 = 0.
Proof using Type.
  rewrite nth_lookup. destruct (decide (k < n)) as [Hk|Hk].
  - rewrite lookup_replicate_2 by exact Hk. reflexivity.
  - rewrite (proj2 (lookup_ge_None _ _)); [reflexivity|].
    rewrite length_replicate. lia.
Qed.

(** A search starts on the path that holds the root alone. *)
Lemma on_path_start (st : MCTSState K) :
  2 <= max_nodes config ->
  visits st = init_visits config -> depth st = 1 -> cur_node st = 1 ->
  on_path config st.
Proof using Type.
  intros HM Hv Hd Hc. unfold on_path. cbv zeta. rewrite Hv, Hd, Hc.
  unfold init_visits, valid_slots.
  assert (Hl : length (replicate (max_nodes config - 1) 0)
               = max_nodes config - 1) by apply length_replicate.
  split; [rewrite length_insert; exact Hl|].
  split; [lia|].
  split; [apply nth_insert_eq; lia|].
  split; [apply nth_insert_eq; lia|].
  split; [intros k Hk; lia|].
  intros k Hk. rewrite nth_insert_ne by lia. apply nth_replicate_zero.
Qed.

Lemma on_path_evaluate_root (st : MCTSState K) (env_state0 : St) :
  2 <= max_nodes config ->
  on_path config (evaluate_root config env st env_state0).
Proof using Type.
  intros HM. apply on_path_start; [exact HM| | |];
    unfold evaluate_root;
    destruct (split env (key (reset_search config st))) as [dk nk];
    reflexivity.
Qed.

(** What [traverse] does to the path record: the slot it moves to is written
    at position [depth], and that slot is the sentinel or lies above every
    slot of the path; when the edge exists the position is in range. *)
Lemma traverse_step (st : MCTSState K) (action : nat) :
  arena_shape config st -> on_path config st ->
  action < flat_policy_size config ->
  let st1 := fst (traverse config st action) in
  exists master,
    visits st1 = <[depth st := master]> (visits st) /\
    depth st1 = depth st /\
    cur_node st1 = master /\
    (master = 0 \/ forall k, k < depth st -> nth k (visits st) 0 < master) /\
    (snd (traverse config st action) = false ->
       master <> 0 /\ depth st < valid_slots config /\
       idx_action_map st1 = idx_action_map st /\
       exists row, idx_action_map st !! cur_node st = Some row /\
                   row !! action = Some master).
Proof using Type.
  intros Hshape Hpath Hact.
  pose proof (path_increasing st Hshape Hpath) as Hinc.
  pose proof Hshape as (HA & Hne & Hcur & Hle & _ & _ & _ & Hlp & Hrows
                        & Hbelow & Hpar & Hedge & _).
  pose proof Hpath as (Hlv & Hd & Hv0 & Hvc & Hchild & Hzero).
  cbv zeta in *.
  destruct (idx_action_map st !! cur_node st) as [row|] eqn:Erow;
    [|apply lookup_ge_None in Erow; lia].
  pose proof (Hrows _ row Erow) as Hrl.
  destruct (row !! action) as [m|] eqn:Em;
    [|apply lookup_ge_None in Em; lia].
  pose proof (gather2_lookup 0 _ _ _ row m Erow Em) as Hg.
  destruct (traverse_fields st action) as (Hv & Hdep & Hc & Hu & Hem & _).
  cbv zeta in Hv, Hdep, Hc, Hu, Hem. rewrite Hg in Hv, Hc, Hu, Hem.
  assert (Hbound : forall k, k < depth st ->
            nth k (visits st) 0 <= cur_node st).
  { intros k Hk. destruct (decide (k = depth st - 1)) as [->|Hkd]; [lia|].
    destruct (Hinc (depth st - 1) ltac:(lia)) as [_ Hmono].
    pose proof (Hmono k ltac:(lia)). lia. }
  destruct (m =? 0) eqn:Em0.
  - destruct (max_nodes config <=? next_empty st) eqn:Efull.
    + exists 0. split; [exact Hv|]. split; [exact Hdep|]. split; [exact Hc|].
      split; [left; reflexivity|]. rewrite Hu. discriminate.
    + exists (next_empty st).
      split; [exact Hv|]. split; [exact Hdep|]. split; [exact Hc|].
      split; [|rewrite Hu; discriminate].
      right. intros k Hk. pose proof (Hbound k Hk). lia.
  - apply Nat.eqb_neq in Em0.
    pose proof (Hbelow _ row action m Erow Em) as Hb.
    assert (Hr : 1 <= cur_node st < max_nodes config) by lia.
    pose proof (Hedge _ row action m Hr Erow Em Em0) as Hp.
    assert (Hr' : 1 <= m < max_nodes config) by lia.
    pose proof (Hpar m Hr') as Hlt. rewrite Hp in Hlt.
    destruct (Hinc (depth st - 1) ltac:(lia)) as [[Hlo _] _].
    exists m. split; [exact Hv|]. split; [exact Hdep|]. split; [exact Hc|].
    split.
    { right. intros k Hk. pose proof (Hbound k Hk). lia. }
    intros _. split; [exact Em0|]. split; [unfold valid_slots; lia|].
    split.
    { rewrite Hem. apply (set2_id _ _ _ _ row); assumption. }
    exists row. split; [reflexivity|exact Em].
Qed.

(** After [traverse] the path record holds no slot but the sentinel twice. *)
Lemma traverse_path_once (st : MCTSState K) (action : nat) :
  arena_shape config st -> on_path config st ->
  action < flat_policy_size config ->
  let st1 := fst (traverse config st action) in
  visits st1 !! 0 = Some 1 /\
  forall k j s, visits st1 !! k = Some s -> visits st1 !! j = Some s ->
                0 < s -> k = j.
Proof using Type.
  intros Hshape Hpath Hact st1.
  destruct (traverse_step st action Hshape Hpath Hact)
    as (master & Hv & _ & _ & Hnew & _).
  fold st1 in Hv.
  pose proof (path_increasing st Hshape Hpath) as Hinc.
  destruct Hpath as (Hlv & Hd & Hv0 & Hvc & Hchild & Hzero).
  cbv zeta in *.
  assert (Hlook : forall k s, visits st1 !! k = Some s -> 0 < s ->
            (k < depth st /\ nth k (visits st) 0 = s) \/
            (k = depth st /\ master = s)).
  { intros k s Hk Hs. rewrite Hv in Hk.
    assert (Hkl : k < length (visits st)).
    { apply lookup_lt_Some in Hk. rewrite length_insert in Hk. exact Hk. }
    pose proof (nth_insert_cases (visits st) (depth st) k master) as Hn.
    rewrite (nth_lookup _ _ 0), Hk in Hn. cbn [default from_option id] in Hn.
    destruct (decide (k = depth st)) as [->|Hkd].
    - rewrite Nat.eqb_refl in Hn. apply Nat.ltb_lt in Hkl. rewrite Hkl in Hn.
      right. split; [reflexivity|]. cbn in Hn. congruence.
    - apply Nat.eqb_neq in Hkd as Hkb. rewrite Hkb in Hn. cbn [andb] in Hn.
      left. split; [|congruence].
      destruct (decide (k < depth st)) as [Hlt|Hge]; [exact Hlt|].
      rewrite (Hzero k ltac:(lia)) in Hn. lia. }
  split.
  { rewrite Hv, list_lookup_insert_ne by lia.
    destruct (visits st !! 0) as [x|] eqn:Ex.
    - rewrite (nth_lookup_Some _ _ 0 _ Ex) in Hv0. congruence.
    - apply lookup_ge_None in Ex. lia. }
  assert (Hmono : forall a b, a < b -> b < depth st ->
            nth a (visits st) 0 < nth b (visits st) 0).
  { intros a b Hab Hb. destruct (Hinc b Hb) as [_ Hm]. apply Hm. exact Hab. }
  intros k j s Hk Hj Hs.
  destruct (Hlook k s Hk Hs) as [[Hkd Hks]|[Hkd Hks]];
    destruct (Hlook j s Hj Hs) as [[Hjd Hjs]|[Hjd Hjs]].
  - destruct (Nat.lt_trichotomy k j) as [Hlt|[Heq|Hgt]]; [|exact Heq|].
    + pose proof (Hmono k j Hlt Hjd). lia.
    + pose proof (Hmono j k Hgt Hkd). lia.
  - destruct Hnew as [Hz|Hnew]; [lia|]. pose proof (Hnew k Hkd). lia.
  - destruct Hnew as [Hz|Hnew]; [lia|]. pose proof (Hnew j Hjd). lia.
  - lia.
Qed.

(** One iteration keeps the path record a path. *)
Lemma on_path_iterate (it : IterationState K St) :
  arena_shape config (state it) -> on_path config (state it) ->
  on_path config (state (iterate config env it)).
Proof using Type.
  intros Hshape Hpath.
  pose proof (choose_with_puct_range config (state it)
                (legal_action_mask env (env_state it)) Hshape) as Hact.
  destruct (iterate_path_fields it) as (Hv & Hdep & Hc & Hem).
  cbv zeta in Hv, Hdep, Hc, Hem.
  destruct (traverse_step (state it) _ Hshape Hpath Hact)
    as (master & Hv1 & Hd1 & Hc1 & Hnew & Hold).
  cbv zeta in Hv1, Hd1, Hc1, Hold.
  pose proof Hshape as (_ & Hne & _). cbv zeta in Hne.
  pose proof Hpath as (Hlv & Hd & Hv0 & Hvc & Hchild & Hzero).
  cbv zeta in Hlv, Hd, Hv0, Hvc, Hchild, Hzero.
  set (leaf := snd (env_step env (env_state it) _) || _) in *.
  assert (Hl1 : length (visits (fst (traverse config (state it)
                  (choose_with_puct config (state it)
                     (legal_action_mask env (env_state it))))))
                = valid_slots config)
    by (rewrite Hv1, length_insert; exact Hlv).
  assert (H01 : nth 0 (visits (fst (traverse config (state it)
                  (choose_with_puct config (state it)
                     (legal_action_mask env (env_state it)))))) 0 = 1).
  { rewrite Hv1, nth_insert_ne by lia. exact Hv0. }
  unfold on_path. cbv zeta. rewrite Hv, Hdep, Hc, Hem.
  destruct leaf eqn:Eleaf.
  - (* the search returns to the root *)
    split; [rewrite clear_tail_length; exact Hl1|].
    split; [lia|].
    split; [rewrite clear_tail_true_nth; exact H01|].
    split; [rewrite clear_tail_true_nth; exact H01|].
    split; [intros k Hk; lia|].
    intros k Hk. rewrite clear_tail_true_nth.
    destruct k; [lia|reflexivity].
  - (* the search descends along an edge *)
    apply orb_false_elim in Eleaf as [_ Hunv].
    destruct (Hold Hunv) as (Hm0 & Hdv & Hem1 & row & Hrow & Hm).
    rewrite clear_tail_false, Hv1, Hd1, Hc1, Hem1.
    split; [rewrite length_insert; exact Hlv|].
    split; [lia|].
    split; [rewrite nth_insert_ne by lia; exact Hv0|].
    split.
    { replace (depth (state it) + 1 - 1) with (depth (state it)) by lia.
      apply nth_insert_eq. lia. }
    split.
    + intros k Hk. rewrite (nth_insert_ne _ _ k) by lia.
      destruct (decide (k + 1 = depth (state it))) as [Hkd|Hkd].
      * rewrite Hkd, nth_insert_eq by lia. split; [exact Hm0|].
        exists row, (choose_with_puct config (state it)
                       (legal_action_mask env (env_state it))).
        replace k with (depth (state it) - 1) by lia.
        rewrite Hvc. split; assumption.
      * rewrite nth_insert_ne by lia. apply Hchild. lia.
    + intros k Hk. rewrite nth_insert_ne by lia. apply Hzero. lia.
Qed.

(** The path record at every step of the search of [evaluate]. *)
Lemma search_on_path (st : MCTSState K) (env_state0 : St) (n : nat) :
  arena_shape config st ->
  let it := Nat.iter n (iterate config env)
              {| state := evaluate_root config env st env_state0;
                 env_state := env_state0; root_state := env_state0 |} in
  arena_shape config (state it) /\ on_path config (state it).
Proof using Type.
  intros Hshape. cbv zeta. induction n as [|n [IHs IHp]].
  - change (arena_shape config (evaluate_root config env st env_state0) /\
            on_path config (evaluate_root config env st env_state0)).
    split.
    + unfold evaluate_root.
      destruct (split env (key (reset_search config st))) as [dk nk].
      apply (shape_frame config st); cbn [reset_search idx_action_map
        parents next_empty p_vals n_vals w_vals cur_node]; try reflexivity.
      * exact Hshape.
      * apply length_insert.
      * destruct Hshape as (_ & Hne & _). cbv zeta in Hne. lia.
    + apply on_path_evaluate_root.
      destruct Hshape as (_ & Hne & _). cbv zeta in Hne. lia.
  - rewrite Nat.iter_succ. split.
    + apply shape_iterate. exact IHs.
    + apply on_path_iterate; assumption.
Qed.

End Path.

(** X23. Throughout the search of [evaluate] on an arena that is [arena_ok],
    the path record is a path: its first [depth] positions hold the slots
    from the root to the cursor, each a child of the one before it, with
    [depth] never beyond the length of the record, and zeros follow.  After
    the descent step of every iteration the root is still at position 0 and
    no slot other than the sentinel 0 is recorded at two positions. *)
Theorem search_records_each_slot_once {K S : Type} (config : MCTSConfig)
    (env : Collab K S) (st : MCTSState K) (env_state0 : S) (n : nat) :
  arena_ok config st = true ->
  let it := Nat.iter n (iterate config env)
              {| state := evaluate_root config env st env_state0;
                 env_state := env_state0; root_state := env_state0 |} in
  let action :=
    choose_with_puct config (state it)
      (legal_action_mask env (env_state it)) in
  let st1 := fst (traverse config (state it) action) in
  on_path config (state it) /\
  visits st1 !! 0 = Some 1 /\
  (forall k j s, visits st1 !! k = Some s -> visits st1 !! j = Some s ->
                 0 < s -> k = j).
Proof.
  intros Hok it action st1. apply arena_ok_shape in Hok.
  destruct (search_on_path config env st env_state0 n Hok) as [Hs Hp].
  fold it in Hs, Hp. split; [exact Hp|].
  apply traverse_path_once; [exact Hs | exact Hp |].
  apply choose_with_puct_range. exact Hs.
Qed.

Lemma search_records_each_slot_once_witness :
  visits
    (fst (traverse Demo.demo_config
            (state (Nat.iter 1
                      (iterate Demo.demo_config
                         (Demo.demo_env [true; true] false))
                      {| state := evaluate_root Demo.demo_config
                                    (Demo.demo_env [true; true] false)
                                    Demo.demo_state 0;
                         env_state := 0; root_state := 0 |}))
            (choose_with_puct Demo.demo_config
               (state (Nat.iter 1
                         (iterate Demo.demo_config
                            (Demo.demo_env [true; true] false))
                         {| state := evaluate_root Demo.demo_config
                                       (Demo.demo_env [true; true] false)
                                       Demo.demo_state 0;
                            env_state := 0; root_state := 0 |}))
               [true; true]))) !! 0
  = Some 1.
Proof.
  refine (proj1 (proj2 (search_records_each_slot_once Demo.demo_config
                          (Demo.demo_env [true; true] false)
                          Demo.demo_state 0 1 _))).
  vm_compute. reflexivity.
Defined.

(** X24. In the search of [evaluate] on an arena that is [arena_ok], an
    iteration that ends at a leaf adds exactly one to the visit count of
    every slot on the recorded path, the root among them, and adds to its
    cumulative value the reward of its position exactly once. *)
Theorem search_leaf_credits_each_slot_once {K S : Type} (config : MCTSConfig)
    (env : Collab K S) (st : MCTSState K) (env_state0 : S) (n : nat) :
  arena_ok config st = true ->
  let it := Nat.iter n (iterate config env)
              {| state := evaluate_root config env st env_state0;
                 env_state := env_state0; root_state := env_state0 |} in
  let st0 := state it in
  let action :=
    choose_with_puct config st0 (legal_action_mask env (env_state it)) in
  let env_state1 := fst (env_step env (env_state it) action) in
  let terminated := snd (env_step env (env_state it) action) in
  let st1 := fst (traverse config st0 action) in
  let unvisited := snd (traverse config st0 action) in
  let v :=
    if terminated
    then Jax.gather F32.zero (reward env env_state1)
                    (cur_player_id env (root_state it))
    else snd (evaluator env env_state1) in
  let st' := state (iterate config env it) in
  terminated || unvisited = true ->
  n_vals st' !! 1 = (fun x => F32.add x F32.one) <$> n_vals st0 !! 1 /\
  (forall k s,
     visits st1 !! k = Some s -> 0 < s ->
     n_vals st' !! s = (fun x => F32.add x F32.one) <$> n_vals st0 !! s /\
     (forall ri, reward_indices st0 !! k = Some ri ->
        w_vals st' !! s
        = (fun x => F32.add x (backprop_reward v 1 ri)) <$> w_vals st0 !! s)).
Proof.
  intros Hok it st0 action env_state1 terminated st1 unvisited v st' Hleaf.
  apply arena_ok_shape in Hok.
  destruct (search_on_path config env st env_state0 n Hok) as [Hs Hp].
  fold it in Hs, Hp.
  destruct (traverse_path_once config (state it) action Hs Hp
              (choose_with_puct_range config _ _ Hs)) as [Hroot Honce].
  fold st0 st1 in Hroot, Honce.
  destruct (legacy_iterate_fields config env it) as (_ & _ & Hn & Hw).
  fold st0 action env_state1 terminated st1 unvisited in Hn, Hw.
  fold v st' in Hn, Hw. rewrite Hleaf in Hn, Hw.
  assert (Hall : forall k s,
     visits st1 !! k = Some s -> 0 < s ->
     n_vals st' !! s = (fun x => F32.add x F32.one) <$> n_vals st0 !! s /\
     (forall ri, reward_indices st0 !! k = Some ri ->
        w_vals st' !! s
        = (fun x => F32.add x (backprop_reward v 1 ri)) <$> w_vals st0 !! s)).
  { intros k s Hk Hpos.
    assert (Hone : forall j, j <> k -> visits st1 !! j <> Some s).
    { intros j Hj Hjs. apply Hj. apply (Honce j k s Hjs Hk Hpos). }
    rewrite Hn, Hw. split.
    - apply (scatter_add_once _ _ _ k); [exact Hk| |exact Hone].
      rewrite list_lookup_fmap, (leaf_inc_lookup _ k s Hk Hpos). reflexivity.
    - intros ri Hri.
      apply (scatter_add_once _ _ _ k); [exact Hk| |exact Hone].
      rewrite lookup_zip_with, (leaf_inc_lookup _ k s Hk Hpos), Hri.
      reflexivity. }
  split; [|exact Hall].
  apply (Hall 0 1 Hroot). lia.
Qed.

Lemma search_leaf_credits_each_slot_once_witness :
  n_vals
    (state (iterate Demo.demo_config (Demo.demo_env [true; true] true)
              (Nat.iter 1
                 (iterate Demo.demo_config (Demo.demo_env [true; true] true))
                 {| state := evaluate_root Demo.demo_config
                               (Demo.demo_env [true; true] true)
                               Demo.demo_state 0;
                    env_state := 0; root_state := 0 |}))) !! 1
  = Some (F32.of_Z 8).
Proof.
  refine (eq_trans
            (proj1 (search_leaf_credits_each_slot_once Demo.demo_config
                      (Demo.demo_env [true; true] true)
                      Demo.demo_state 0 1 _ _)) _).
  - vm_compute. reflexivity.
  - vm_compute. reflexivity.
  - vm_compute. reflexivity.
Defined.


(** ** The games of a tournament *)

Import Tournament.

Lemma forallb_id_replicate_true (n : nat) : forallb id (replicate n true) = true.
Proof. induction n as [|n IH]; [reflexivity|exact IH]. Qed.

Lemma zip_with_orb_all_true (completed terminated : list bool) :
  length completed = length terminated ->
  Forall (eq true) terminated ->
  forallb id (zip_with orb completed terminated) = true.
Proof.
  revert terminated. induction completed as [|c completed IH];
    intros [|t terminated] Hl Hall; try discriminate; [reflexivity|].
  apply Forall_cons in Hall as [<- Hall]. cbn.
  rewrite orb_true_r. cbn. apply IH; [cbn in Hl; lia | exact Hall].
Qed.

Section GamesProofs.
Context {W Ev Model Algo A : Type}.
Variable games : Collab W Ev Model Algo A.
Variable n_games : nat.

Section Batch.
Variable B : nat.
Hypothesis step_shape :
  forall e w, length (snd (snd (step games e w))) = B.
Hypothesis rewards_shape :
  forall e sp w, length (get_rewards games e sp w) = B.

Lemma tournament_score_step_length (rewards : list f32)
    (terminated completed : list bool) (scores : list f32) :
  length rewards = B -> length terminated = B -> length completed = B ->
  length scores = B ->
  length (score_step rewards terminated completed scores) = B.
Proof using Type.
  intros Hr Ht Hc Hs. unfold score_step.
  rewrite !length_zip_with, !length_fmap. lia.
Qed.

Lemma game_loop_length (e1 e2 : Ev) (sp : list Z) (fuel : nat) :
  forall (w w' : W) (completed : list bool) (scores final : list f32)
         (use_second : bool),
    length completed = B -> length scores = B ->
    game_loop games e1 e2 sp fuel w completed scores use_second
    = Some (w', final) ->
    length final = B.
Proof using step_shape rewards_shape.
  induction fuel as [|fuel IH]; intros w w' completed scores final use_second
    Hc Hs Hrun; cbn [game_loop] in Hrun.
  - destruct (forallb id completed); [|discriminate].
    inversion Hrun; subst. exact Hs.
  - destruct (forallb id completed); [inversion Hrun; subst; exact Hs|].
    pose proof (step_shape (if use_second then e2 else e1) w) as Hsh.
    destruct use_second;
      destruct (step games _ w) as [w1 [actions terminated]];
      cbn [snd] in Hsh;
      (apply IH in Hrun; [exact Hrun| |]);
      try (rewrite length_zip_with; lia);
      (apply tournament_score_step_length;
       [apply rewards_shape | exact Hsh | exact Hc | exact Hs]).
Qed.

Lemma play_batch_length (e1 e2 : Ev) (fuel : nat) (w w' : W)
    (scores : list f32) :
  play_batch games e1 e2 B fuel w = Some (w', scores) -> length scores = B.
Proof using step_shape rewards_shape.
  unfold play_batch. destruct (step games e1 _) as [w1 [actions terminated]].
  apply game_loop_length; apply length_replicate.
Qed.

Lemma play_batches_length (e1 e2 : Ev) (fuel batches : nat) :
  forall (w w' : W) (acc all : list spec_float),
    play_batches games e1 e2 B fuel batches w acc = Some (w', all) ->
    length all = length acc + batches * B.
Proof using step_shape rewards_shape.
  induction batches as [|batches IH]; intros w w' acc all Hrun;
    cbn [play_batches] in Hrun.
  - inversion Hrun; subst. lia.
  - destruct (play_batch games e1 e2 B fuel w) as [[w1 scores]|] eqn:Eb;
      [|discriminate].
    apply play_batch_length in Eb. apply IH in Hrun.
    rewrite Hrun, length_app, length_fmap, Eb. lia.
Qed.

(** When every step ends every game, one round ends the loop. *)
Lemma game_loop_one_round (e1 e2 : Ev) (sp : list Z) (fuel : nat) (w : W)
    (completed : list bool) (scores : list f32) (use_second : bool) :
  (forall e w, Forall (eq true) (snd (snd (step games e w)))) ->
  length completed = B -> 1 <= fuel ->
  exists w' final,
    game_loop games e1 e2 sp fuel w completed scores use_second
    = Some (w', final).
Proof using step_shape.
  intros Hall Hc Hfuel. destruct fuel as [|fuel]; [lia|]. cbn [game_loop].
  destruct (forallb id completed); [eauto|].
  pose proof (step_shape (if use_second then e2 else e1) w) as Hsh.
  pose proof (Hall (if use_second then e2 else e1) w) as Hw.
  destruct use_second;
    destruct (step games _ w) as [w1 [actions terminated]];
    cbn [snd] in Hsh, Hw;
    (destruct fuel as [|fuel]; cbn [game_loop];
     rewrite zip_with_orb_all_true by (exact Hw || lia); eauto).
Qed.

Lemma play_batches_one_round (e1 e2 : Ev) (fuel batches : nat) :
  (forall e w, Forall (eq true) (snd (snd (step games e w)))) ->
  1 <= fuel ->
  forall (w : W) (acc : list spec_float),
    exists w' all,
      play_batches games e1 e2 B fuel batches w acc = Some (w', all).
Proof using step_shape.
  intros Hall Hfuel. induction batches as [|batches IH]; intros w acc;
    cbn [play_batches]; [eauto|].
  assert (Hb : exists w1 scores,
             play_batch games e1 e2 B fuel w = Some (w1, scores)).
  { unfold play_batch. destruct (step games e1 _) as [w1 [actions terminated]].
    apply game_loop_one_round; [exact Hall | apply length_replicate | exact Hfuel]. }
  destruct Hb as (w1 & scores & ->). apply IH.
Qed.

End Batch.

Implicit Types (t : Tournament Ev (Config Algo)).

Lemma init_competitor_fields (config : Config Algo) (w : W) :
  name (snd (init_competitor games config w)) = config_name config /\
  raw_config (snd (init_competitor games config w)) = config.
Proof using Type.
  unfold init_competitor.
  destruct (match checkpoint config with
            | Some path =>
                if String.eqb path String.EmptyString then (w, None)
                else let '(w0, model) := load_model games path w in
                     (w0, Some model)
            | None => (w, None)
            end) as [w1 model].
  destruct (init_evaluator games (algo_config config) model w1) as [w2 ev].
  split; reflexivity.
Qed.

(** The games of a new competitor are appended to the results, each between
    a competitor of the list and the new one. *)
Lemma collect_loop_results (new : TournamentPlayer Ev (Config Algo))
    (bs : option nat) (fuel : nat)
    (cs : list (TournamentPlayer Ev (Config Algo))) :
  forall (w w' : W) (rs rs' : list GameResult),
    collect_loop games n_games new bs fuel cs w rs = returned (w', rs') ->
    exists extra,
      rs' = rs ++ extra /\
      Forall (fun r => (player1_name r ∈ (fmap name cs)) /\
                       player2_name r = name new /\
                       player2_result r
                       = F32.py_sub F32.py_one (player1_result r)) extra.
Proof using Type.
  induction cs as [|c cs IH]; intros w w' rs rs' Hrun; cbn [collect_loop] in Hrun.
  - inversion Hrun; subst. exists []. split; [symmetry; apply app_nil_r|].
    constructor.
  - destruct (play_games games n_games (evaluator c) (evaluator new) bs fuel w)
      as [[w1 p1]| |]; try discriminate.
    apply IH in Hrun as (extra & -> & Hall).
    exists (new_results c new p1 ++ extra). split; [symmetry; apply app_assoc|].
    apply Forall_app. split.
    + unfold new_results. apply Forall_fmap, Forall_forall. intros s _. cbn.
      split; [apply list_elem_of_here|]. split; reflexivity.
    + eapply Forall_impl; [exact Hall|]. intros r (H1 & H2 & H3). cbn.
      split; [apply list_elem_of_further; exact H1|]. split; assumption.
Qed.

Lemma dict_set_new {V : Type} (key : String.string) (v : V)
    (d : list (String.string * V)) :
  dict_mem key d = false -> dict_set key v d = d ++ [(key, v)].
Proof using Type. intros H. unfold dict_set. rewrite H. reflexivity. Qed.

(** What [collect_games] returns: the tournament itself for a name that is
    known, and the tournament with the new competitor and its games for a
    name that is not. *)
Lemma collect_games_spec t (config : Config Algo) (bs : option nat)
    (fuel : nat) (w w' : W) (t' : Tournament Ev (Config Algo)) :
  consistent t ->
  collect_games games n_games t config bs fuel w = returned (w', t') ->
  ((config_name config ∈ (fmap name (competitors t))) /\ t' = t) \/
  ((config_name config ∉ (fmap name (competitors t))) /\
   exists new extra,
     name new = config_name config /\ raw_config new = config /\
     t' = {| competitors := competitors t ++ [new];
             competitors_dict := competitors_dict t ++ [(name new, new)];
             results := results t ++ extra |} /\
     Forall (fun r => (player1_name r ∈ (fmap name (competitors t))) /\
                      player2_name r = name new /\
                      player2_result r
                      = F32.py_sub F32.py_one (player1_result r)) extra).
Proof using Type.
  intros Hcons Hrun. pose proof Hcons as (Hd & _ & _).
  destruct (init_competitor_fields config w) as [Hname Hraw].
  unfold collect_games in Hrun.
  destruct (init_competitor games config w) as [w1 new]. cbn [snd] in Hname, Hraw.
  destruct (dict_mem (name new) (competitors_dict t)) eqn:Em; cbn [negb] in Hrun.
  - left. apply (dict_mem_names t _ Hd) in Em. rewrite Hname in Em.
    split; [exact Em|]. inversion Hrun. reflexivity.
  - right. split.
    { intros Hin. rewrite <- Hname in Hin.
      apply (dict_mem_names t _ Hd) in Hin. congruence. }
    destruct (collect_loop games n_games new bs fuel (competitors t) w1 (results t))
      as [[w2 rs']| |] eqn:El; try discriminate.
    apply collect_loop_results in El as (extra & -> & Hall).
    exists new, extra. split; [exact Hname|]. split; [exact Hraw|].
    split; [|exact Hall].
    inversion Hrun. rewrite (dict_set_new _ _ _ Em). reflexivity.
Qed.

Lemma consistent_extend t (new : TournamentPlayer Ev (Config Algo))
    (extra : list GameResult) :
  consistent t -> (name new ∉ (fmap name (competitors t))) ->
  Forall (fun r => (player1_name r ∈ (fmap name (competitors t))) /\
                   player2_name r = name new) extra ->
  consistent {| competitors := competitors t ++ [new];
                competitors_dict := competitors_dict t ++ [(name new, new)];
                results := results t ++ extra |}.
Proof using Type.
  intros (Hd & Hnd & Hres) Hnew Hextra. unfold consistent.
  cbn [competitors competitors_dict results]. split; [|split].
  - rewrite Hd, fmap_app. reflexivity.
  - rewrite fmap_app. apply NoDup_app. split; [exact Hnd|]. split.
    + intros x Hx Hin. cbn in Hin. apply list_elem_of_singleton in Hin.
      subst x. contradiction.
    + cbn. apply NoDup_singleton.
  - apply Forall_app. split.
    + eapply Forall_impl; [exact Hres|]. intros r [H1 H2].
      rewrite fmap_app. split; apply elem_of_app; left; assumption.
    + eapply Forall_impl; [exact Hextra|]. intros r [H1 H2].
      rewrite fmap_app. split; apply elem_of_app.
      * left. exact H1.
      * right. cbn. rewrite H2. apply list_elem_of_here.
Qed.

Lemma collect_games_consistent t (config : Config Algo) (bs : option nat)
    (fuel : nat) (w w' : W) (t' : Tournament Ev (Config Algo)) :
  consistent t ->
  collect_games games n_games t config bs fuel w = returned (w', t') ->
  consistent t' /\
  (config_name config ∈ (fmap name (competitors t'))) /\
  (exists cs, competitors t' = competitors t ++ cs /\
     Forall (fun c => raw_config c = config /\ name c = config_name config) cs) /\
  (exists rs, results t' = results t ++ rs).
Proof using Type.
  intros Hcons Hrun.
  destruct (collect_games_spec t config bs fuel w w' t' Hcons Hrun)
    as [[Hin ->]|[Hnot (new & extra & Hname & Hraw & -> & Hall)]].
  - split; [exact Hcons|]. split; [exact Hin|]. split.
    + exists []. split; [symmetry; apply app_nil_r | constructor].
    + exists []. symmetry. apply app_nil_r.
  - split.
    { apply consistent_extend; [exact Hcons | rewrite Hname; exact Hnot |].
      eapply Forall_impl; [exact Hall|]. intros r (H1 & H2 & _). auto. }
    cbn [competitors results]. split.
    { rewrite fmap_app. apply elem_of_app. right. cbn. rewrite Hname.
      apply list_elem_of_here. }
    split.
    + exists [new]. split; [reflexivity|]. repeat constructor; assumption.
    + exists extra. reflexivity.
Qed.

Lemma filter_none {X : Type} (f : X -> bool) (l : list X) :
  (forall x, x ∈ l -> f x = false) -> List.filter f l = [].
Proof using Type.
  induction l as [|x l IH]; intros H; [reflexivity|]. cbn.
  rewrite (H x) by apply list_elem_of_here. apply IH.
  intros y Hy. apply H. apply list_elem_of_further. exact Hy.
Qed.

End GamesProofs.

(** X25. [play_games] plays whole batches only.  With a batch size of zero
    it raises [ZeroDivisionError]; when it returns, it returns
    [n_games // batch_size * batch_size] scores for a batch size given, and
    [n_games] scores for none, so never more than [n_games] and none at all
    for a batch size above [n_games]; and when every step ends every game it
    returns as soon as one round per batch is allowed. *)
Theorem play_games_plays_whole_batches {W Ev Model Algo A : Type}
    (games : Collab W Ev Model Algo A) (n_games : nat)
    (evaluator1 evaluator2 : Ev) (batch_size : option nat) (fuel : nat)
    (w : W) :
  let B := match batch_size with None => n_games | Some b => b end in
  (forall e w, length (snd (snd (step games e w))) = B) ->
  (forall e sp w, length (get_rewards games e sp w) = B) ->
  (batch_size = Some 0 ->
   play_games games n_games evaluator1 evaluator2 batch_size fuel w
   = zero_division) /\
  (forall w' scores,
     play_games games n_games evaluator1 evaluator2 batch_size fuel w
     = returned (w', scores) ->
     length scores
     = match batch_size with
       | None => n_games
       | Some b => n_games / b * b
       end /\
     length scores <= n_games /\
     (n_games < B -> scores = [])) /\
  ((forall e w, Forall (eq true) (snd (snd (step games e w)))) ->
   1 <= fuel -> batch_size <> Some 0 ->
   exists w' scores,
     play_games games n_games evaluator1 evaluator2 batch_size fuel w
     = returned (w', scores)).
Proof.
  intros B Hstep Hrew. split; [|split].
  - intros ->. reflexivity.
  - intros w' scores Hrun. unfold play_games in Hrun.
    destruct batch_size as [b|]; cbn in B; subst B.
    + destruct (b =? 0) eqn:Eb; [discriminate|]. apply Nat.eqb_neq in Eb.
      destruct (play_batches games evaluator1 evaluator2 b fuel (n_games / b)
                  (init_env games b w) []) as [[w1 all]|] eqn:Erun;
        [|discriminate].
      inversion Hrun; subst.
      apply (play_batches_length games b Hstep Hrew) in Erun. cbn in Erun.
      pose proof (Nat.div_mod_eq n_games b) as Hdm.
      split; [exact Erun|]. split; [nia|].
      intros Hlt. rewrite (Nat.div_small _ _ Hlt) in Erun.
      destruct scores; [reflexivity|discriminate].
    + destruct (play_batches games evaluator1 evaluator2 n_games fuel 1 w [])
        as [[w1 all]|] eqn:Erun; [|discriminate].
      inversion Hrun; subst.
      apply (play_batches_length games n_games Hstep Hrew) in Erun.
      cbn in Erun. split; [lia|]. split; lia.
  - intros Hall Hfuel Hnz. unfold play_games.
    destruct batch_size as [b|]; cbn in B; subst B.
    + destruct (b =? 0) eqn:Eb; [apply Nat.eqb_eq in Eb; congruence|].
      destruct (play_batches_one_round games b Hstep evaluator1 evaluator2
                  fuel (n_games / b) Hall Hfuel (init_env games b w) [])
        as (w' & all & ->).
      eauto.
    + destruct (play_batches_one_round games n_games Hstep evaluator1
                  evaluator2 fuel 1 Hall Hfuel w [])
        as (w' & all & ->).
      eauto.
Qed.

Lemma play_games_plays_whole_batches_witness :
  exists w' scores,
    play_games (demo_games 2) 5 tt tt (Some 2) 10 0 = returned (w', scores) /\
    length scores = 4.
Proof.
  eexists. eexists. split; [vm_compute; reflexivity|].
  refine (proj1 (proj1 (proj2 (play_games_plays_whole_batches (demo_games 2)
                                 5 tt tt (Some 2) 10 0 _ _)) _ _ _)).
  - intros e w. vm_compute. reflexivity.
  - intros e sp w. vm_compute. reflexivity.
  - vm_compute. reflexivity.
Defined.

Import String.StringSyntax.
Local Open Scope string_scope.

Lemma demo_tournament_consistent : consistent demo_tournament.
Proof.
  split; [reflexivity|]. split.
  - cbn. apply NoDup_cons. split.
    + intros H. apply list_elem_of_singleton in H. discriminate H.
    + apply NoDup_singleton.
  - constructor; [|constructor]. cbn. split.
    + apply list_elem_of_here.
    + apply list_elem_of_further, list_elem_of_here.
Qed.

Lemma third_is_new :
  config_name (demo_config "third") ∉ (fmap name (competitors demo_tournament)).
Proof.
  cbn. intros H.
  apply elem_of_cons in H as [H|H]; [discriminate H|].
  apply list_elem_of_singleton in H. discriminate H.
Qed.

(** X26. In a tournament whose list and dictionary agree, [collect_games]
    for a name that a competitor bears returns the tournament as it is,
    whatever the batch size, without a game played; and whenever it returns,
    the list and the dictionary agree again, and for a name no competitor
    bore the competitors are the old ones followed by the new one, made
    from the configuration, and the results are the old ones followed by
    games that each have a competitor of the old list as the first player,
    the new competitor as the second, and [1 - player1_result] as the
    second player's result. *)
Theorem collect_games_adds_competitor {W Ev Model Algo A : Type}
    (games : Collab W Ev Model Algo A) (n_games : nat)
    (t : Tournament Ev (Config Algo)) (config : Config Algo)
    (batch_size : option nat) (fuel : nat) (w : W) :
  consistent t ->
  ((config_name config ∈ (fmap name (competitors t))) ->
   collect_games games n_games t config batch_size fuel w
   = returned (fst (init_competitor games config w), t)) /\
  (forall w' t',
     collect_games games n_games t config batch_size fuel w
     = returned (w', t') ->
     consistent t' /\
     ((config_name config ∉ (fmap name (competitors t))) ->
      exists new extra,
        name new = config_name config /\ raw_config new = config /\
        competitors t' = competitors t ++ [new] /\
        results t' = results t ++ extra /\
        Forall (fun r => (player1_name r ∈ (fmap name (competitors t))) /\
                         player2_name r = name new /\
                         player2_result r
                         = F32.py_sub F32.py_one (player1_result r)) extra)).
Proof.
  intros Hcons. split.
  - intros Hin. pose proof Hcons as (Hd & _ & _).
    destruct (init_competitor_fields games config w) as [Hname _].
    unfold collect_games.
    destruct (init_competitor games config w) as [w1 new]. cbn [fst snd] in *.
    rewrite <- Hname in Hin. apply (dict_mem_names t _ Hd) in Hin.
    rewrite Hin. reflexivity.
  - intros w' t' Hrun. split.
    + apply (collect_games_consistent games n_games t config batch_size fuel
               w w' t' Hcons Hrun).
    + intros Hnot.
      destruct (collect_games_spec games n_games t config batch_size fuel
                  w w' t' Hcons Hrun)
        as [[Hin _]|[_ (new & extra & Hname & Hraw & -> & Hall)]];
        [contradiction|].
      exists new, extra. auto.
Qed.

Lemma collect_games_adds_competitor_witness :
  exists w' t',
    collect_games (demo_games 2) 2 demo_tournament (demo_config "third")
                  None 10 0 = returned (w', t') /\
    consistent t'.
Proof.
  eexists. eexists. split; [vm_compute; reflexivity|].
  refine (proj1 (proj2 (collect_games_adds_competitor (demo_games 2) 2
                          demo_tournament (demo_config "third") None 10 0
                          demo_tournament_consistent) _ _ _)).
  vm_compute. reflexivity.
Defined.

(** X27. Removing a competitor that [collect_games] has just added to a
    tournament whose list and dictionary agree gives back the tournament as
    it was before: its competitors, its dictionary and its results. *)
Theorem remove_competitor_undoes_collect_games {W Ev Model Algo A : Type}
    (games : Collab W Ev Model Algo A) (n_games : nat)
    (t : Tournament Ev (Config Algo)) (config : Config Algo)
    (batch_size : option nat) (fuel : nat) (w w' : W)
    (t' : Tournament Ev (Config Algo)) :
  consistent t ->
  (config_name config ∉ (fmap name (competitors t))) ->
  collect_games games n_games t config batch_size fuel w = returned (w', t') ->
  remove_competitor t' (config_name config) = inl t.
Proof.
  intros Hcons Hnot Hrun.
  destruct (collect_games_spec games n_games t config batch_size fuel
              w w' t' Hcons Hrun)
    as [[Hin _]|[_ (new & extra & Hname & Hraw & -> & Hall)]];
    [contradiction|].
  destruct Hcons as (Hd & Hnd & Hres).
  rewrite <- Hname in *. set (key := name new) in *.
  unfold remove_competitor, dict_pop.
  cbn [competitors competitors_dict results].
  assert (Hmem : dict_mem key (competitors_dict t ++ [(key, new)]) = true).
  { unfold dict_mem. rewrite existsb_app. cbn.
    rewrite String.eqb_refl. apply orb_true_r. }
  rewrite Hmem.
  assert (Hc : List.filter
                 (fun competitor => negb (String.eqb (name competitor) key))
                 (competitors t ++ [new]) = competitors t).
  { rewrite List.filter_app. cbn. fold key. rewrite String.eqb_refl. cbn.
    rewrite app_nil_r. apply filter_all. intros c Hc.
    apply negb_true_iff, String.eqb_neq. intros Heq. apply Hnot.
    rewrite <- Heq. apply list_elem_of_fmap. exists c. auto. }
  assert (Hdict : List.filter (fun kv => negb (String.eqb (fst kv) key))
                    (competitors_dict t ++ [(key, new)])
                  = competitors_dict t).
  { rewrite List.filter_app. cbn. rewrite String.eqb_refl. cbn.
    rewrite app_nil_r. apply filter_all. intros kv Hkv.
    apply negb_true_iff, String.eqb_neq. intros Heq. apply Hnot.
    rewrite Hd in Hkv. apply list_elem_of_fmap in Hkv as (c & -> & Hc').
    cbn in Heq. rewrite <- Heq. apply list_elem_of_fmap. exists c. auto. }
  assert (Hr : List.filter
                 (fun result =>
                    negb (String.eqb (player1_name result) key)
                    && negb (String.eqb (player2_name result) key))
                 (results t ++ extra) = results t).
  { rewrite List.filter_app. rewrite (filter_none _ extra).
    - rewrite app_nil_r. apply filter_all. intros r Hrin.
      rewrite Forall_forall in Hres. destruct (Hres r Hrin) as [H1 H2].
      apply andb_true_iff. split; apply negb_true_iff, String.eqb_neq;
        intros Heq; apply Hnot; rewrite <- Heq; assumption.
    - intros r Hrin. rewrite Forall_forall in Hall.
      destruct (Hall r Hrin) as (_ & H2 & _). rewrite H2.
      rewrite String.eqb_refl. apply andb_false_r. }
  rewrite Hc, Hdict, Hr. destruct t; reflexivity.
Qed.

Lemma remove_competitor_undoes_collect_games_witness :
  exists w' t',
    collect_games (demo_games 2) 2 demo_tournament (demo_config "third")
                  None 10 0 = returned (w', t') /\
    remove_competitor t' "third" = inl demo_tournament.
Proof.
  eexists. eexists. split; [vm_compute; reflexivity|].
  refine (remove_competitor_undoes_collect_games (demo_games 2) 2
            demo_tournament (demo_config "third") None 10 0 _ _
            demo_tournament_consistent third_is_new _).
  vm_compute. reflexivity.
Defined.

(** X28. When the loop of [run] over the configurations ends on a
    tournament whose list and dictionary agree, they agree again; every
    configuration's name is the name of a competitor; the competitors are
    the old ones followed by competitors made from the configurations; and
    the old results are all kept, in their places, before [save] and
    [simulate_elo] are called. *)
Theorem run_loop_enters_every_competitor {W Ev Model Algo A : Type}
    (games : Collab W Ev Model Algo A) (n_games : nat)
    (configs : list (Config Algo)) (fuel : nat) :
  forall (t : Tournament Ev (Config Algo)) (w w' : W)
         (t' : Tournament Ev (Config Algo)),
    consistent t ->
    run_loop games n_games t configs fuel w = returned (w', t') ->
    consistent t' /\
    (forall config, config ∈ configs ->
       config_name config ∈ (fmap name (competitors t'))) /\
    (exists cs, competitors t' = competitors t ++ cs /\
       Forall (fun c => (raw_config c ∈ configs) /\
                        name c = config_name (raw_config c)) cs) /\
    (exists rs, results t' = results t ++ rs).
Proof.
  induction configs as [|config configs IH]; intros t w w' t' Hcons Hrun;
    cbn [run_loop] in Hrun.
  - inversion Hrun; subst. split; [exact Hcons|]. split.
    + intros config Hin. inversion Hin.
    + split.
      * exists []. split; [symmetry; apply app_nil_r | constructor].
      * exists []. symmetry. apply app_nil_r.
  - destruct (collect_games games n_games t config None fuel w)
      as [[w1 t1]| |] eqn:Ec; try discriminate.
    destruct (collect_games_consistent games n_games t config None fuel
                w w1 t1 Hcons Ec)
      as (Hcons1 & Hin1 & (cs1 & Hcs1 & Hall1) & (rs1 & Hrs1)).
    destruct (IH t1 w1 w' t' Hcons1 Hrun)
      as (Hcons' & Hin' & (cs & Hcs & Hall) & (rs & Hrs)).
    split; [exact Hcons'|]. split; [|split].
    + intros c Hc. apply elem_of_cons in Hc as [->|Hc]; [|apply Hin'; exact Hc].
      rewrite Hcs, fmap_app. apply elem_of_app. left. exact Hin1.
    + exists (cs1 ++ cs). split; [rewrite Hcs, Hcs1; symmetry; apply app_assoc|].
      apply Forall_app. split.
      * eapply Forall_impl; [exact Hall1|]. intros c [Hraw Hn]. cbn.
        rewrite Hraw. split; [apply list_elem_of_here | exact Hn].
      * eapply Forall_impl; [exact Hall|]. intros c [Hraw Hn]. cbn.
        split; [apply list_elem_of_further; exact Hraw | exact Hn].
    + exists (rs1 ++ rs). rewrite Hrs, Hrs1. symmetry. apply app_assoc.
Qed.

Lemma run_loop_enters_every_competitor_witness :
  exists w' t',
    run_loop (demo_games 2) 2 demo_tournament
        [demo_config "third"; demo_config "first"] 10 0 = returned (w', t') /\
    consistent t'.
Proof.
  eexists. eexists. split; [vm_compute; reflexivity|].
  refine (proj1 (run_loop_enters_every_competitor (demo_games 2) 2
                   [demo_config "third"; demo_config "first"] 10
                   demo_tournament 0 _ _ demo_tournament_consistent _)).
  vm_compute. reflexivity.
Defined.

Local Close Scope string_scope.
